(** * A shallow embedding of the toroidal Morse-Smale engine [morse/torusmesh.py]

    The engine works on a rectangular grid glued into a torus.  Cells
    (vertices, horizontal edges, vertical edges, faces) live in one integer
    address space of size [4 * size].  Python integers are unbounded, so cell
    identifiers and grid sizes are taken in [Z]; [%] is Python's modulo, which
    agrees with [Z.modulo] for a positive divisor, and [//] agrees with
    [Z.div].

    Field values are only compared and subtracted by the engine; they are
    taken in [Z]. *)

From stdpp Require Import gmap strings list fin_maps sorting.

Local Open Scope Z_scope.

(** ** Errors

    The Python code raises exceptions; loops whose termination depends on the
    state are run on fuel. *)

Inductive exn : Type :=
  | AssertionError
  | ValueError
  | RuntimeError
  | TypeError
  | KeyError
  | IndexError
  | ZeroDivisionError
  | NetworkXError.

Inductive result (A : Type) : Type :=
  | Ok (a : A)
  | Raise (e : exn)
  | OutOfFuel.

Arguments Ok {A} a.
Arguments Raise {A} e.
Arguments OutOfFuel {A}.

#[global] Instance result_ret : MRet result := fun A a => Ok a.

#[global] Instance result_bind : MBind result := fun A B k m =>
  match m with
  | Ok a => k a
  | Raise e => Raise e
  | OutOfFuel => OutOfFuel
  end.

(** ** Cell indexing *)

Module Grid.

(** The grid sizes of [TorusMesh.__init__]: [sizeX = lx], [sizeY = ly],
    [size = lx * ly]. *)
Record dims : Type := mkDims { sizeX : Z; sizeY : Z }.

Definition size (g : dims) : Z := sizeX g * sizeY g.

Definition dim (g : dims) (idx : Z) : Z :=
  if idx <? size g then 0
  else if idx <? 3 * size g then 1
  else 2.

Definition _to_index (g : dims) (x y : Z) : Z := x * sizeY g + y.

Definition _vleft (g : dims) (idx : Z) : Z :=
  idx - idx mod sizeX g + (idx + sizeX g - 1) mod sizeX g.

Definition _vright (g : dims) (idx : Z) : Z :=
  idx - idx mod sizeX g + (idx + 1) mod sizeX g.

Definition _vtop (g : dims) (idx : Z) : Z :=
  (idx + size g - sizeX g) mod size g.

Definition _vbottom (g : dims) (idx : Z) : Z :=
  (idx + sizeX g) mod size g.

Definition _eleft (g : dims) (idx : Z) : Z := size g + _vleft g idx.
Definition _eright (g : dims) (idx : Z) : Z := size g + idx.
Definition _etop (g : dims) (idx : Z) : Z := size g * 2 + _vtop g idx.
Definition _ebottom (g : dims) (idx : Z) : Z := size g * 2 + idx.

Definition _flefttop (g : dims) (idx : Z) : Z :=
  size g * 3 + _vtop g (_vleft g idx).
Definition _fleftbottom (g : dims) (idx : Z) : Z := size g * 3 + _vleft g idx.
Definition _frighttop (g : dims) (idx : Z) : Z := size g * 3 + _vtop g idx.
Definition _frightbottom (g : dims) (idx : Z) : Z := size g * 3 + idx.

Definition _verts (g : dims) (idx : Z) : list Z :=
  if idx <? size g then [idx]
  else if idx <? 2 * size g then
    [idx - size g; _vright g (idx - size g)]
  else if idx <? 3 * size g then
    [idx - 2 * size g; _vbottom g (idx - 2 * size g)]
  else
    [idx - 3 * size g; _vright g (idx - 3 * size g);
     _vbottom g (_vright g (idx - 3 * size g));
     _vbottom g (idx - 3 * size g)].

Definition _facets (g : dims) (idx : Z) : list Z :=
  if dim g idx =? 2 then
    let tmp_idx := idx - 3 * size g in
    [size g + tmp_idx; 2 * size g + tmp_idx;
     size g + _vbottom g tmp_idx; 2 * size g + _vright g tmp_idx]
  else _verts g idx.

Definition _cofacets (g : dims) (idx : Z) : result (Z * Z) :=
  if negb (dim g idx =? 1) then Raise AssertionError
  else if idx <? 2 * size g then
    let tmp_idx := idx - size g in
    Ok (3 * size g + _vtop g tmp_idx, 3 * size g + tmp_idx)
  else
    let tmp_idx := idx - 2 * size g in
    Ok (3 * size g + _vleft g tmp_idx, 3 * size g + tmp_idx).

Definition coordx (g : dims) (idx : Z) : Z := idx mod sizeX g.
Definition coordy (g : dims) (idx : Z) : Z := idx / sizeX g.

Definition star (g : dims) (idx : Z) : list Z :=
  [_eright g idx; _etop g idx; _eleft g idx; _ebottom g idx;
   _frighttop g idx; _flefttop g idx; _fleftbottom g idx; _frightbottom g idx].

End Grid.

Import Grid.

(** ** Python values used by the engine *)

Module Py.

(** Comparison of two tuples of numbers, as Python orders tuples: the first
    position where they differ decides, and a proper prefix is smaller. *)
Fixpoint tuple_lt (a b : list Z) : bool :=
  match a, b with
  | [], [] => false
  | [], _ :: _ => true
  | _ :: _, [] => false
  | x :: a', y :: b' =>
      if x <? y then true else if y <? x then false else tuple_lt a' b'
  end.

(** [list.sort(key=...)] is stable: among elements with equal keys the
    original order is kept.  [sort_by lt] sorts by a strict order [lt] on the
    elements; [insert_by] puts the new head before the first element that is
    not smaller than it. *)
Section Sort.
Context {A : Type} (lt : A -> A -> bool).

Fixpoint insert_by (x : A) (l : list A) : list A :=
  match l with
  | [] => [x]
  | y :: l' => if lt y x then y :: insert_by x l' else x :: y :: l'
  end.

Fixpoint sort_by (l : list A) : list A :=
  match l with
  | [] => []
  | x :: l' => insert_by x (sort_by l')
  end.
End Sort.

(** [sorted(l, reverse=True)] on numbers. *)
Definition sorted_desc (l : list Z) : list Z := sort_by (fun y x => x <? y) l.

(** [np.max] on a non-empty tuple. *)
Definition np_max (l : list Z) : Z :=
  match l with
  | [] => 0
  | x :: l' => foldl Z.max x l'
  end.

(** [l[i]] with Python's negative indices. *)
Definition index {A : Type} (l : list A) (i : Z) : result A :=
  let n := Z.of_nat (length l) in
  let j := if i <? 0 then i + n else i in
  if (j <? 0) || (n <=? j) then Raise IndexError
  else match l !! Z.to_nat j with
       | Some x => Ok x
       | None => Raise IndexError
       end.

(** Bounds of a slice [l[a:b]], as Python clips them. *)
Definition clip (n i : Z) : Z :=
  let j := if i <? 0 then i + n else i in
  if j <? 0 then 0 else if n <? j then n else j.

(** [del l[a:b]]. *)
Definition del_slice {A : Type} (l : list A) (a b : Z) : list A :=
  let n := Z.of_nat (length l) in
  let a' := clip n a in
  let b' := clip n b in
  if a' <? b' then take (Z.to_nat a') l ++ drop (Z.to_nat b') l else l.

(** [l[a:b]]. *)
Definition slice {A : Type} (l : list A) (a b : Z) : list A :=
  let n := Z.of_nat (length l) in
  let a' := clip n a in
  let b' := clip n b in
  if a' <? b' then take (Z.to_nat (b' - a')) (drop (Z.to_nat a') l) else [].

(** [l.remove(x)]: the first occurrence goes, [ValueError] if there is
    none. *)
Fixpoint list_remove (x : Z) (l : list Z) : result (list Z) :=
  match l with
  | [] => Raise ValueError
  | y :: l' =>
      if x =? y then Ok l'
      else l'' ← list_remove x l'; Ok (y :: l'')
  end.

(** [l.pop()]: the last element and the list without it. *)
Definition list_pop {A : Type} (l : list A) : option (A * list A) :=
  match reverse l with
  | [] => None
  | x :: r => Some (x, reverse r)
  end.

(** *** Dictionaries that keep insertion order *)

Definition dict (A : Type) : Type := list (Z * A).

Fixpoint dict_get {A : Type} (d : dict A) (k : Z) : option A :=
  match d with
  | [] => None
  | (k', a) :: d' => if k =? k' then Some a else dict_get d' k
  end.

(** [d[k] = a]: an existing key keeps its place. *)
Fixpoint dict_set {A : Type} (d : dict A) (k : Z) (a : A) : dict A :=
  match d with
  | [] => [(k, a)]
  | (k', a') :: d' =>
      if k =? k' then (k, a) :: d' else (k', a') :: dict_set d' k a
  end.

(** [del d[k]]. *)
Fixpoint dict_del {A : Type} (d : dict A) (k : Z) : result (dict A) :=
  match d with
  | [] => Raise KeyError
  | (k', a') :: d' =>
      if k =? k' then Ok d'
      else d'' ← dict_del d' k; Ok ((k', a') :: d'')
  end.

Definition dict_values {A : Type} (d : dict A) : list A := d.*2.

(** *** [heapq]

    [heapq] keeps a binary heap inside a list.  The engine only pushes
    entries, pops the least one, tests for emptiness and filters the list
    before [heapify]; the position of the entries inside the list is never
    looked at.  A heap is therefore modelled by the list of its entries, and
    [heappop] takes the least entry out.  Entries are pairs
    [(extvalue, cell)], ordered as Python tuples. *)

Definition entry : Type := list Z * Z.

Definition entry_lt (a b : entry) : bool :=
  tuple_lt a.1 b.1 || (bool_decide (a.1 = b.1) && (a.2 <? b.2)).

Definition heappush (h : list entry) (x : entry) : list entry := h ++ [x].

Fixpoint heap_min (x : entry) (h : list entry) : entry :=
  match h with
  | [] => x
  | y :: h' => if entry_lt y x then heap_min y h' else heap_min x h'
  end.

Fixpoint remove_entry (x : entry) (h : list entry) : list entry :=
  match h with
  | [] => []
  | y :: h' => if bool_decide (x = y) then h' else y :: remove_entry x h'
  end.

Definition heappop (h : list entry) : option (entry * list entry) :=
  match h with
  | [] => None
  | x :: h' => let m := heap_min x h' in Some (m, remove_entry m h)
  end.

End Py.

Import Py.

(** *** [networkx] graphs

    A [MultiGraph] keeps, for every node, an ordered adjacency dictionary
    from neighbours to the (non-empty) dictionary of parallel edges; only
    the number of parallel edges is kept here.  Node attributes are not
    modelled. *)

Module Nx.

Definition MultiGraph : Type := dict (dict nat).

Definition has_node (G : MultiGraph) (n : Z) : bool :=
  match dict_get G n with Some _ => true | None => false end.

Definition add_node (G : MultiGraph) (n : Z) : MultiGraph :=
  if has_node G n then G else G ++ [(n, [])].

Definition add_nodes_from (G : MultiGraph) (ns : list Z) : MultiGraph :=
  foldl add_node G ns.

(** One more parallel edge towards [v] in the adjacency of a node. *)
Definition bump (adj : dict nat) (v : Z) : dict nat :=
  match dict_get adj v with
  | Some k => dict_set adj v (S k)
  | None => dict_set adj v 1%nat
  end.

Definition bump_at (G : MultiGraph) (u v : Z) : MultiGraph :=
  match dict_get G u with
  | Some adj => dict_set G u (bump adj v)
  | None => G
  end.

Definition add_edge (G : MultiGraph) (u v : Z) : MultiGraph :=
  let G1 := add_node (add_node G u) v in
  let G2 := bump_at G1 u v in
  if u =? v then G2 else bump_at G2 v u.

Definition drop_key {A : Type} (d : dict A) (k : Z) : dict A :=
  List.filter (fun p => negb (p.1 =? k)) d.

Definition remove_node (G : MultiGraph) (n : Z) : result MultiGraph :=
  if has_node G n then
    Ok (List.map (fun p => (p.1, drop_key p.2 n)) (drop_key G n))
  else Raise NetworkXError.

(** One parallel edge less towards [v]; the neighbour leaves the adjacency
    with its last edge. *)
Definition unbump (adj : dict nat) (v : Z) : dict nat :=
  match dict_get adj v with
  | Some (S (S k)) => dict_set adj v (S k)
  | _ => drop_key adj v
  end.

Definition unbump_at (G : MultiGraph) (u v : Z) : MultiGraph :=
  match dict_get G u with
  | Some adj => dict_set G u (unbump adj v)
  | None => G
  end.

Definition has_edge (G : MultiGraph) (u v : Z) : bool :=
  match dict_get G u with
  | Some adj => match dict_get adj v with Some _ => true | None => false end
  | None => false
  end.

Definition remove_edge (G : MultiGraph) (u v : Z) : result MultiGraph :=
  if has_edge G u v then
    let G1 := unbump_at G u v in
    Ok (if u =? v then G1 else unbump_at G1 v u)
  else Raise NetworkXError.

(** [G.edges(nbunch=n)] for a single node [n]: one pair per parallel
    edge. *)
Definition edges (G : MultiGraph) (n : Z) : result (list (Z * Z)) :=
  match dict_get G n with
  | Some adj => Ok (flat_map (fun p => replicate p.2 (n, p.1)) adj)
  | None => Raise NetworkXError
  end.

(** A simple [Graph]: nodes with the ordered list of their neighbours. *)
Definition Graph : Type := dict (list Z).

Definition g_add_node (G : Graph) (n : Z) : Graph :=
  match dict_get G n with Some _ => G | None => G ++ [(n, [])] end.

Definition g_link (G : Graph) (u v : Z) : Graph :=
  match dict_get G u with
  | Some adj =>
      if bool_decide (v ∈ adj) then G else dict_set G u (adj ++ [v])
  | None => G
  end.

Definition g_add_edge (G : Graph) (u v : Z) : Graph :=
  let G1 := g_add_node (g_add_node G u) v in
  g_link (g_link G1 u v) v u.

Definition g_has_edge (G : Graph) (u v : Z) : bool :=
  match dict_get G u with
  | Some adj => bool_decide (v ∈ adj)
  | None => false
  end.

Definition g_unlink (G : Graph) (u v : Z) : Graph :=
  match dict_get G u with
  | Some adj => dict_set G u (List.filter (fun w => negb (w =? v)) adj)
  | None => G
  end.

Definition g_remove_edge (G : Graph) (u v : Z) : result Graph :=
  if g_has_edge G u v then Ok (g_unlink (g_unlink G u v) v u)
  else Raise NetworkXError.

(** [nx.Graph(G)] for a multigraph [G]: same nodes, every bundle of
    parallel edges becomes one edge. *)
Definition to_simple (G : MultiGraph) : Graph :=
  let nodes := foldl g_add_node [] G.*1 in
  foldl (fun H p => foldl (fun H' q => g_add_edge H' p.1 q.1) H p.2) nodes G.

End Nx.

(** ** The mesh *)

Record TorusMesh : Type := mkMesh {
  grid : dims;
  values : Z -> Z -> Z;
  cr_cells : list Z;
  V : gmap Z Z;
  cr_id : gset Z;
  msgraph : Nx.MultiGraph;
  ppairs : list (Z * Z * Z);
  arcs : dict (list (list Z))
}.

(** [TorusMesh(lx, ly)] followed by [set_values(val)]. *)
Definition new_mesh (lx ly : Z) (val : Z -> Z -> Z) : TorusMesh :=
  mkMesh (mkDims lx ly) val [] ∅ ∅ [] [] [].

Definition with_V (m : TorusMesh) (v : gmap Z Z) : TorusMesh :=
  mkMesh (grid m) (values m) (cr_cells m) v (cr_id m) (msgraph m) (ppairs m)
    (arcs m).

Definition with_crit (m : TorusMesh) (cells : list Z) (ids : gset Z) :
  TorusMesh :=
  mkMesh (grid m) (values m) cells (V m) ids (msgraph m) (ppairs m) (arcs m).

Definition with_msgraph (m : TorusMesh) (G : Nx.MultiGraph) : TorusMesh :=
  mkMesh (grid m) (values m) (cr_cells m) (V m) (cr_id m) G (ppairs m)
    (arcs m).

Definition with_ppairs (m : TorusMesh) (pp : list (Z * Z * Z)) : TorusMesh :=
  mkMesh (grid m) (values m) (cr_cells m) (V m) (cr_id m) (msgraph m) pp
    (arcs m).

Definition with_arcs (m : TorusMesh) (a : dict (list (list Z))) : TorusMesh :=
  mkMesh (grid m) (values m) (cr_cells m) (V m) (cr_id m) (msgraph m)
    (ppairs m) a.

Definition cp (m : TorusMesh) (morse_index : Z) : list Z :=
  List.filter (fun p => dim (grid m) p =? morse_index) (cr_cells m).

Definition value (m : TorusMesh) (idx : Z) : Z :=
  values m (coordx (grid m) idx) (coordy (grid m) idx).

Definition _extvalue (m : TorusMesh) (idx : Z) : list Z :=
  sorted_desc (List.map (value m) (_verts (grid m) idx)).

Definition is_critical (m : TorusMesh) (idx : Z) : bool :=
  bool_decide (idx ∈ cr_id m).

Definition set_critical (m : TorusMesh) (idx : Z) : TorusMesh :=
  with_crit m (cr_cells m ++ [idx]) ({[idx]} ∪ cr_id m).

Definition unset_critical (m : TorusMesh) (idx : Z) : result TorusMesh :=
  cells ← list_remove idx (cr_cells m);
  Ok (with_crit m cells (cr_id m ∖ {[idx]})).

Definition list_arcs (m : TorusMesh) : list (list Z) :=
  concat (dict_values (arcs m)).

Definition is_unpaired (m : TorusMesh) (idx : Z) : bool :=
  bool_decide (V m !! idx = None) && negb (is_critical m idx).

Definition unpaired_facets (m : TorusMesh) (idx : Z) (s : list Z) : list Z :=
  List.filter (fun f => bool_decide (f ∈ s) && is_unpaired m f)
    (_facets (grid m) idx).

Definition set_gradient_arrow (m : TorusMesh) (start end_ : Z) : TorusMesh :=
  with_V m (<[end_ := start]> (<[start := end_]> (V m))).

(** ** Discrete gradient (ProcessLowerStars) *)

(** The list [star] of [lower_star] before [star.sort]. *)
Definition lower_star_cells (m : TorusMesh) (idx : Z) : list Z :=
  let g := grid m in
  let v := value m idx in
  let is_left_lower := value m (_vleft g idx) <? v in
  let is_top_lower := value m (_vtop g idx) <? v in
  let is_right_lower := value m (_vright g idx) <? v in
  let is_bottom_lower := value m (_vbottom g idx) <? v in
  let is_left_bottom_lower := value m (_vleft g (_vbottom g idx)) <? v in
  let is_right_bottom_lower := value m (_vright g (_vbottom g idx)) <? v in
  let is_left_top_lower := value m (_vleft g (_vtop g idx)) <? v in
  let is_right_top_lower := value m (_vright g (_vtop g idx)) <? v in
  (if is_left_lower then [_eleft g idx] else []) ++
  (if is_top_lower then [_etop g idx] else []) ++
  (if is_right_lower then [_eright g idx] else []) ++
  (if is_bottom_lower then [_ebottom g idx] else []) ++
  (if is_left_lower && is_top_lower && is_left_top_lower
   then [_flefttop g idx] else []) ++
  (if is_right_lower && is_top_lower && is_right_top_lower
   then [_frighttop g idx] else []) ++
  (if is_left_lower && is_bottom_lower && is_left_bottom_lower
   then [_fleftbottom g idx] else []) ++
  (if is_right_lower && is_bottom_lower && is_right_bottom_lower
   then [_frightbottom g idx] else []).

Definition lower_star (m : TorusMesh) (idx : Z) : list Z :=
  sort_by (fun x y => tuple_lt (_extvalue m x) (_extvalue m y))
    (lower_star_cells m idx).

Definition heap_entry (m : TorusMesh) (c : Z) : entry := (_extvalue m c, c).

(** A list used as a condition: empty lists are false. *)
Definition nonempty {A : Type} (l : list A) : bool :=
  match l with
  | [] => false
  | _ :: _ => true
  end.

(** [alpha in self._facets(beta)] compares the heap entry [alpha], a tuple,
    with cell identifiers, which are integers: it never holds. *)
Definition entry_in_cells (alpha : entry) (cells : list Z) : bool := false.

(** The inner loop [while pq_one] of [_process_star]; it hands back the mesh
    and [pq_zero]. *)
Fixpoint drain_pq_one (fuel : nat) (lstar : list Z) (m : TorusMesh)
    (pq_zero pq_one : list entry) : result (TorusMesh * list entry) :=
  match fuel with
  | O => OutOfFuel
  | S fuel' =>
      match heappop pq_one with
      | None => Ok (m, pq_zero)
      | Some (alpha, pq_one') =>
          match unpaired_facets m alpha.2 lstar with
          | [] => drain_pq_one fuel' lstar m (heappush pq_zero alpha) pq_one'
          | pair_ :: _ =>
              let m' := set_gradient_arrow m pair_ alpha.2 in
              let pq_zero' :=
                List.filter (fun x => negb (x.2 =? pair_)) pq_zero in
              let pq_one'' :=
                foldl (fun pq beta =>
                         if (length (unpaired_facets m' beta lstar) =? 1)%nat
                            && (entry_in_cells alpha (_facets (grid m) beta)
                                || bool_decide (pair_ ∈ _facets (grid m) beta))
                         then heappush pq (heap_entry m' beta) else pq)
                      pq_one' lstar in
              drain_pq_one fuel' lstar m' pq_zero' pq_one''
          end
      end
  end.

(** The loop [while pq_one or pq_zero] of [_process_star]. *)
Fixpoint star_loop (fuel : nat) (lstar : list Z) (m : TorusMesh)
    (pq_zero pq_one : list entry) : result TorusMesh :=
  match fuel with
  | O => OutOfFuel
  | S fuel' =>
      if nonempty pq_one || nonempty pq_zero then
        r ← drain_pq_one fuel' lstar m pq_zero pq_one;
        match heappop r.2 with
        | None => star_loop fuel' lstar r.1 r.2 []
        | Some (gamma, pq_zero2) =>
            let m2 := set_critical r.1 gamma.2 in
            let pq_one2 :=
              foldl (fun pq a =>
                       if bool_decide (gamma.2 ∈ _facets (grid m) a)
                          && (length (unpaired_facets m2 a lstar) =? 1)%nat
                       then heappush pq (heap_entry m2 a) else pq)
                    [] lstar in
            star_loop fuel' lstar m2 pq_zero2 pq_one2
        end
      else Ok m
  end.

Definition _process_star (fuel : nat) (m : TorusMesh) (idx : Z) :
  result TorusMesh :=
  let lstar := lower_star m idx in
  match lstar with
  | [] => Ok (set_critical m idx)
  | delta :: rest =>
      let m1 := set_gradient_arrow m idx delta in
      let pq_zero :=
        foldl (fun pq c =>
                 if dim (grid m) c =? 1 then heappush pq (heap_entry m1 c)
                 else pq) [] rest in
      cf ← _cofacets (grid m) delta;
      let pq_one :=
        foldl (fun pq f =>
                 if bool_decide (f ∈ lstar)
                    && (length (unpaired_facets m1 f lstar) =? 1)%nat
                 then heappush pq (heap_entry m1 f) else pq)
              [] [cf.1; cf.2] in
      star_loop fuel lstar m1 pq_zero pq_one
  end.

Definition _process_stars_parallel (fuel : nat) (m : TorusMesh)
    (cell_list : list Z) : result TorusMesh :=
  foldl (fun r cell => m' ← r; _process_star fuel m' cell) (Ok m) cell_list.

(** [range(a, b)]. *)
Definition range (a b : Z) : list Z := seqZ a (b - a).

(** The blocks of vertices handed to the threads: [threads_num] blocks of
    [size // threads_num] vertices, the last one running up to [size]. *)
Definition cell_blocks (size threads_num : Z) : list (Z * Z) :=
  let cell_num_in_thread := size / threads_num in
  let blocks :=
    List.map (fun i => (cell_num_in_thread * i, cell_num_in_thread * (i + 1)))
      (range 0 threads_num) in
  match reverse blocks with
  | [] => []
  | (a, _) :: r => reverse r ++ [(a, size)]
  end.

(** [cmp_discrete_gradient].  Each thread runs [_process_stars_parallel] on
    its block; a lower star is only read and written by the thread that owns
    its vertex, so the threads are run here one after the other, in the order
    of their blocks.  [cr_cells] is sorted after the join. *)
Definition cmp_discrete_gradient (fuel : nat) (m : TorusMesh)
    (threads_num : Z) : result TorusMesh :=
  let m0 := with_V (with_crit m [] ∅) ∅ in
  if threads_num =? 0 then Raise ZeroDivisionError
  else if threads_num <? 0 then Raise IndexError
  else
    m1 ← foldl (fun r b => m' ← r;
                  _process_stars_parallel fuel m' (range b.1 b.2))
          (Ok m0) (cell_blocks (size (grid m)) threads_num);
    Ok (with_crit m1
          (sort_by (fun x y => tuple_lt (_extvalue m1 x) (_extvalue m1 y))
             (cr_cells m1))
          (cr_id m1)).

(** [cmp_crit_cells]: the critical cells read off the gradient. *)
Definition cmp_crit_cells (m : TorusMesh) : TorusMesh :=
  let cells :=
    List.filter (fun i => bool_decide (V m !! i = None))
      (range 0 (4 * size (grid m))) in
  with_crit m
    (sort_by (fun x y => tuple_lt (_extvalue m x) (_extvalue m y)) cells)
    (list_to_set cells).

(** ** Morse-Smale graph *)

(** [self.V[face] > face]: comparing [None] with an integer raises
    [TypeError]. *)
Definition arrow_leaves (m : TorusMesh) (face : Z) : result bool :=
  match V m !! face with
  | Some v => Ok (face <? v)
  | None => Raise TypeError
  end.

(** One pass [for face in ...] of [cmp_msgraph]: critical cells become
    neighbours of [cidx], cells whose arrow leaves them enter the queue on
    the left; [skip] is the cell the walk came from, if any. *)
Fixpoint visit_faces (m : TorusMesh) (cidx : Z) (skip : option Z)
    (faces : list Z) (G : Nx.MultiGraph) (q : list Z) :
    result (Nx.MultiGraph * list Z) :=
  match faces with
  | [] => Ok (G, q)
  | face :: faces' =>
      if bool_decide (skip = Some face) then
        visit_faces m cidx skip faces' G q
      else if is_critical m face then
        visit_faces m cidx skip faces' (Nx.add_edge G cidx face) q
      else
        b ← arrow_leaves m face;
        visit_faces m cidx skip faces' G (if b : bool then face :: q else q)
  end.

(** The loop [while q] of [cmp_msgraph]; [q.pop()] takes the rightmost
    cell. *)
Fixpoint walk_queue (fuel : nat) (m : TorusMesh) (cidx : Z)
    (G : Nx.MultiGraph) (q : list Z) : result Nx.MultiGraph :=
  match fuel with
  | O => OutOfFuel
  | S fuel' =>
      match list_pop q with
      | None => Ok G
      | Some (a, q') =>
          match V m !! a with
          | None => Raise TypeError
          | Some b =>
              r ← visit_faces m cidx (Some a) (_facets (grid m) b) G q';
              walk_queue fuel' m cidx r.1 r.2
          end
      end
  end.

Definition msgraph_from (fuel : nat) (m : TorusMesh)
    (G : Nx.MultiGraph) (cidx : Z) : result Nx.MultiGraph :=
  r ← visit_faces m cidx None (_facets (grid m) cidx) G [];
  walk_queue fuel m cidx r.1 r.2.

Definition cmp_msgraph (fuel : nat) (m : TorusMesh) : result TorusMesh :=
  let G0 := Nx.add_nodes_from [] (cr_cells m) in
  G ← foldl (fun (r : result Nx.MultiGraph) cidx =>
               G' ← r; msgraph_from fuel m G' cidx) (Ok G0)
        (cp m 1 ++ cp m 2);
  Ok (with_msgraph m G).

Definition get_neib_msgraph (d : Z) (m : TorusMesh) (cidx : Z) :
  result (list Z) :=
  if negb (dim (grid m) cidx =? 1) then Raise AssertionError
  else
    es ← Nx.edges (msgraph m) cidx;
    let res :=
      List.map snd (List.filter (fun e => dim (grid m) e.2 =? d) es) in
    if negb (length res =? 2)%nat then Raise ValueError else Ok res.

Definition get_min_neib_msgraph := get_neib_msgraph 0.
Definition get_max_neib_msgraph := get_neib_msgraph 2.

(** ** Arcs *)

(** [cur = t[1] if t[0] == cur else t[0]] on a tuple [t]. *)
Definition step_forward (t : list Z) (cur : Z) : result Z :=
  match t with
  | [] => Raise IndexError
  | t0 :: t' =>
      if t0 =? cur then
        match t' with
        | [] => Raise IndexError
        | t1 :: _ => Ok t1
        end
      else Ok t0
  end.

(** The walk from a saddle down to a minimum: [separx] grows by an edge and a
    vertex at every step until the vertex is critical. *)
Fixpoint descend (fuel : nat) (m : TorusMesh) (cur_v : Z)
    (separx : list Z) : result (list Z) :=
  match fuel with
  | O => OutOfFuel
  | S fuel' =>
      if is_critical m cur_v then Ok separx
      else
        match V m !! cur_v with
        | None => Raise TypeError
        | Some cur_e =>
            cur_v' ← step_forward (_verts (grid m) cur_e) cur_v;
            descend fuel' m cur_v' (separx ++ [cur_e; cur_v'])
        end
  end.

(** The walk from a saddle up to a maximum. *)
Fixpoint ascend (fuel : nat) (m : TorusMesh) (cur_f : Z)
    (separx : list Z) : result (list Z) :=
  match fuel with
  | O => OutOfFuel
  | S fuel' =>
      if is_critical m cur_f then Ok separx
      else
        match V m !! cur_f with
        | None => Raise TypeError
        | Some cur_e =>
            f ← _cofacets (grid m) cur_e;
            cur_f' ← step_forward [f.1; f.2] cur_f;
            ascend fuel' m cur_f' (separx ++ [cur_e; cur_f'])
        end
  end.

Definition _cmp_arcs (fuel : nat) (m : TorusMesh) (s : Z) :
  result TorusMesh :=
  match dict_get (arcs m) s with
  | None => Raise KeyError
  | Some _ =>
      down ← foldl (fun (r : result (list (list Z))) cur_v => acc ← r;
                      separx ← descend fuel m cur_v [s; cur_v];
                      Ok (acc ++ [separx]))
               (Ok []) (_verts (grid m) s);
      faces ← _cofacets (grid m) s;
      all ← foldl (fun (r : result (list (list Z))) cur_f => acc ← r;
                     separx ← ascend fuel m cur_f [s; cur_f];
                     Ok (acc ++ [separx]))
               (Ok down) [faces.1; faces.2];
      Ok (with_arcs m (dict_set (arcs m) s all))
  end.

Definition cmp_arcs (fuel : nat) (m : TorusMesh) : result TorusMesh :=
  let d := foldl (fun d saddle => dict_set d saddle []) [] (cp m 1) in
  foldl (fun (r : result TorusMesh) s => m' ← r; _cmp_arcs fuel m' s) (Ok (with_arcs m d)) d.*1.

(** [find_arc]: the first arc out of [start_idx] whose last cell is
    [end_idx], together with its position in [arcs[start_idx]]. *)
Fixpoint first_arc_to (end_idx : Z) (l : list (list Z)) (pos : nat) :
  result (nat * list Z) :=
  match l with
  | [] => Raise RuntimeError
  | arc :: l' =>
      last_ ← index arc (-1);
      if last_ =? end_idx then Ok (pos, arc)
      else first_arc_to end_idx l' (S pos)
  end.

Definition find_arc_at (m : TorusMesh) (start_idx end_idx : Z) :
  result (nat * list Z) :=
  match dict_get (arcs m) start_idx with
  | None => Raise KeyError
  | Some l => first_arc_to end_idx l 0%nat
  end.

Definition find_arc (m : TorusMesh) (start_idx end_idx : Z) :
  result (list Z) :=
  r ← find_arc_at m start_idx end_idx; Ok r.2.

Definition is_arc_crossed_boundary (m : TorusMesh) (arc : list Z) : bool :=
  existsb (fun cell =>
             existsb (fun idx => (idx <? sizeX (grid m))
                                 || (idx mod sizeY (grid m) =? 0))
               (_verts (grid m) cell)) arc.

(** ** Persistence pairs *)

(** The module [morse.unionfind] is used through [UnionFind(n)],
    [makeset], [find] and [union] only. *)
Class UnionFind (U : Type) : Type := {
  uf_new : nat -> U;
  uf_makeset : U -> nat -> U;
  uf_find : U -> nat -> nat * U;
  uf_union : U -> nat -> nat -> U
}.

(** Modelled from the spec: the module [morse.unionfind], a standard
    union-find with ranks and path compression over the indices of the
    critical cells.  A structure holds the parent and the rank of every
    index. *)
Module RankedUnionFind.

Record t : Type := mk { parent : list nat; rank : list nat }.

Definition create (n : nat) : t := mk (seq 0 n) (replicate n 0%nat).

Definition makeset (u : t) (i : nat) : t :=
  mk (<[i := i]> (parent u)) (<[i := 0%nat]> (rank u)).

Fixpoint root (fuel : nat) (p : list nat) (i : nat) : nat :=
  match fuel with
  | O => i
  | S fuel' =>
      match p !! i with
      | Some j => if (j =? i)%nat then i else root fuel' p j
      | None => i
      end
  end.

Fixpoint compress (fuel : nat) (p : list nat) (i r : nat) : list nat :=
  match fuel with
  | O => p
  | S fuel' =>
      match p !! i with
      | Some j => if (j =? i)%nat then p else compress fuel' (<[i := r]> p) j r
      | None => p
      end
  end.

Definition find (u : t) (i : nat) : nat * t :=
  let r := root (length (parent u)) (parent u) i in
  (r, mk (compress (length (parent u)) (parent u) i r) (rank u)).

Definition union (u : t) (i j : nat) : t :=
  let '(ri, u1) := find u i in
  let '(rj, u2) := find u1 j in
  if (ri =? rj)%nat then u2
  else
    let ki := default 0%nat (rank u2 !! ri) in
    let kj := default 0%nat (rank u2 !! rj) in
    if (ki <? kj)%nat then mk (<[ri := rj]> (parent u2)) (rank u2)
    else if (kj <? ki)%nat then mk (<[rj := ri]> (parent u2)) (rank u2)
    else mk (<[rj := ri]> (parent u2)) (<[ri := S ki]> (rank u2)).

End RankedUnionFind.

#[global] Instance ranked_union_find : UnionFind RankedUnionFind.t := {
  uf_new := RankedUnionFind.create;
  uf_makeset := RankedUnionFind.makeset;
  uf_find := RankedUnionFind.find;
  uf_union := RankedUnionFind.union
}.

(** [idx_reverse]: from a critical cell to its place in [cr_cells]. *)
Definition idx_reverse (m : TorusMesh) : dict nat :=
  foldl (fun d p => dict_set d p.2 p.1) [] (imap (fun i c => (i, c)) (cr_cells m)).

Definition idx_of (m : TorusMesh) (c : Z) : result nat :=
  match dict_get (idx_reverse m) c with
  | Some i => Ok i
  | None => Raise KeyError
  end.

Definition persistence (m : TorusMesh) (cidx1 cidx2 : Z) : Z :=
  Z.abs (np_max (_extvalue m cidx1) - np_max (_extvalue m cidx2)).

(** *** Bit arrays *)

Definition bit_count (b : list bool) : nat := length (List.filter id b).

(** [b.to01().index('1')] *)
Fixpoint bit_index (b : list bool) : option nat :=
  match b with
  | [] => None
  | true :: _ => Some 0%nat
  | false :: b' => S <$> bit_index b'
  end.

(** [b.to01().rindex('1')] *)
Definition bit_rindex (b : list bool) : option nat :=
  (fun i => (length b - 1 - i)%nat) <$> bit_index (reverse b).

(** [for b in re.finditer('1', c.to01()): curset[b.span()[0]] ^= 1] *)
Definition flip_bits (curset c : list bool) : list bool :=
  foldl (fun cs p => if p.2 : bool then alter negb p.1 cs else cs) curset
    (imap (fun i b => (i, b)) c).

Section Persistence.

Context {U : Type} `{UnionFind U}.

(** The labelling loop: [signs[i]] and the union-find after every critical
    cell of the filtration. *)
Definition label_cell (m : TorusMesh) (st : result (U * list bool))
    (p : nat * Z) : result (U * list bool) :=
  s ← st;
  let uf := uf_makeset s.1 p.1 in
  let d := dim (grid m) p.2 in
  if d =? 0 then Ok (uf, s.2 ++ [true])
  else if d =? 1 then
    neighbours ← get_min_neib_msgraph m p.2;
    n0 ← index neighbours 0;
    n1 ← index neighbours 1;
    i0 ← idx_of m n0;
    i1 ← idx_of m n1;
    let '(r0, uf1) := uf_find uf i0 in
    let '(r1, uf2) := uf_find uf1 i1 in
    j0 ← idx_of m n0;
    j1 ← idx_of m n1;
    Ok (uf_union uf2 j0 j1, s.2 ++ [bool_decide (r0 = r1)])
  else Ok (uf, s.2 ++ [false]).

Definition pstate : Type :=
  list bool * list (option (list bool)) * list (Z * Z * Z).

(** [not cycles[s]]: [None] and the empty bit array are false values. *)
Definition no_cycle (c : option (list bool)) : bool :=
  match c with
  | None => true
  | Some b => (length b =? 0)%nat
  end.

(** The loop [while curset.count() > 0]; [pick] is [rindex] on the way
    forward and [index] on the way back. *)
Fixpoint reduce (fuel : nat) (pick : list bool -> option nat)
    (m : TorusMesh) (i : nat) (st : pstate) : result pstate :=
  match fuel with
  | O => OutOfFuel
  | S fuel' =>
      let '(curset, cycles, pairs) := st in
      if (bit_count curset =? 0)%nat then Ok st
      else
        match pick curset with
        | None => Raise ValueError
        | Some s =>
            match cycles !! s with
            | None => Raise IndexError
            | Some c =>
                if no_cycle c then
                  match cr_cells m !! i, cr_cells m !! s with
                  | Some ci, Some cs =>
                      reduce fuel' pick m i
                        (curset,
                         <[i := Some curset]> (<[s := Some curset]> cycles),
                         pairs ++ [(ci, cs, persistence m ci cs)])
                  | _, _ => Raise IndexError
                  end
                else
                  reduce fuel' pick m i
                    (flip_bits curset (default [] c), cycles, pairs)
            end
        end
  end.

Definition mark_neighbours (m : TorusMesh) (curset : list bool)
    (ns : list Z) : result (list bool) :=
  foldl (fun (r : result (list bool)) neighbor =>
           cs ← r; j ← idx_of m neighbor; Ok (<[j := true]> cs))
    (Ok curset) ns.

Definition pass_cell (fuel : nat) (forward : bool) (m : TorusMesh)
    (signs : list bool) (r : result pstate) (i : nat) : result pstate :=
  st ← r;
  match cr_cells m !! i, signs !! i with
  | Some cidx, Some sign =>
      if (dim (grid m) cidx =? 1) && (if forward then negb sign else sign)
      then
        ns ← (if forward then get_min_neib_msgraph m cidx
              else get_max_neib_msgraph m cidx);
        curset ← mark_neighbours m st.1.1 ns;
        reduce fuel (if forward then bit_rindex else bit_index) m i
          (curset, st.1.2, st.2)
      else Ok st
  | _, _ => Raise IndexError
  end.

Definition cmp_persistent_pairs (fuel : nat) (m : TorusMesh) :
  result TorusMesh :=
  let critical_cells_num := length (cr_cells m) in
  lab ← foldl (label_cell m) (Ok (uf_new critical_cells_num, []))
         (imap (fun i c => (i, c)) (cr_cells m));
  let signs := lab.2 in
  let cycles := replicate critical_cells_num None in
  let curset := replicate critical_cells_num false in
  st1 ← foldl (pass_cell fuel true m signs) (Ok (curset, cycles, []))
         (seq 0 critical_cells_num);
  let curset' := replicate (length (cr_cells m)) false in
  st2 ← foldl (pass_cell fuel false m signs) (Ok (curset', st1.1.2, st1.2))
         (reverse (seq 0 critical_cells_num));
  Ok (with_ppairs m (sort_by (fun x y => y.2 <? x.2) st2.2)).

End Persistence.

(** ** Simplification *)

(** [for i in range(0, len(arc), 2): set_gradient_arrow(arc[i], arc[i + 1])] *)
Fixpoint revert_along (m : TorusMesh) (arc : list Z) : result TorusMesh :=
  match arc with
  | [] => Ok m
  | [_] => Raise IndexError
  | a :: b :: arc' => revert_along (set_gradient_arrow m a b) arc'
  end.

(** The part shared by the two cancellations: the saddles around the
    extremum other than [saddle], and the other extremum of [saddle]. *)
Definition other_saddles (m : TorusMesh) (saddle extr : Z) :
  result (list Z) :=
  es ← Nx.edges (msgraph m) extr;
  Ok (List.map snd (List.filter (fun e => negb (e.2 =? saddle)) es)).

Definition other_extremum (m : TorusMesh) (saddle extr : Z) : result Z :=
  mins_or_maxs ← (if dim (grid m) extr =? 0 then get_min_neib_msgraph m saddle
                  else get_max_neib_msgraph m saddle);
  m0 ← index mins_or_maxs 0;
  if negb (m0 =? extr) then Ok m0 else index mins_or_maxs 1.

Definition eliminate_pair_revert_gradient (fuel : nat) (m : TorusMesh) :
  result TorusMesh :=
  match list_pop (ppairs m) with
  | None => Ok m
  | Some (pair_, rest) =>
      let m := with_ppairs m rest in
      let saddle := pair_.1.1 in
      if negb (dim (grid m) saddle =? 1) then Raise AssertionError
      else
        let extr := pair_.1.2 in
        let extr_dim := dim (grid m) extr in
        saddles ← other_saddles m saddle extr;
        min_or_max ← other_extremum m saddle extr;
        if extr_dim =? 1 then Raise AssertionError
        else
          arc ← find_arc m saddle extr;
          m ← revert_along m arc;
          m ← unset_critical m saddle;
          m ← unset_critical m extr;
          G ← Nx.remove_node (msgraph m) saddle;
          a ← dict_del (arcs m) saddle;
          let m := with_arcs (with_msgraph m G) a in
          m ← foldl (fun (r : result TorusMesh) s =>
                       m' ← r;
                       G' ← Nx.remove_edge (msgraph m') s extr;
                       _cmp_arcs fuel
                         (with_msgraph m' (Nx.add_edge G' s min_or_max)) s)
                (Ok m) saddles;
          G ← Nx.remove_node (msgraph m) extr;
          Ok (with_msgraph m G)
  end.

(** The inner loop of [_simplify_arc]: the length of the mustache that ends
    at [it]. *)
Fixpoint mustache (fuel : nat) (arc : list Z) (it mustache_len : Z) :
  result Z :=
  match fuel with
  | O => OutOfFuel
  | S fuel' =>
      a ← index arc (it - mustache_len - 1);
      b ← index arc (it + mustache_len + 1);
      if a =? b then mustache fuel' arc it (mustache_len + 1)
      else Ok mustache_len
  end.

Fixpoint simplify_arc_loop (fuel : nat) (arc : list Z) (it arc_num : Z) :
  result (list Z) :=
  match fuel with
  | O => OutOfFuel
  | S fuel' =>
      if it <? arc_num - 2 then
        a ← index arc (it - 1);
        b ← index arc (it + 1);
        if a =? b then
          mustache_len ← mustache fuel' arc it 1;
          simplify_arc_loop fuel'
            (del_slice arc (it - mustache_len) (it + mustache_len))
            (it - mustache_len) (arc_num - mustache_len * 2)
        else simplify_arc_loop fuel' arc (it + 1) arc_num
      else Ok arc
  end.

Definition _simplify_arc (fuel : nat) (arc : list Z) : result (list Z) :=
  simplify_arc_loop fuel arc 0 (Z.of_nat (length arc)).

(** [arc = self.find_arc(s, extr); arc.extend(arc_extension);
    _simplify_arc(arc)]: the arc found is the list stored in [arcs[s]], so
    it changes there. *)
Definition extend_arc (fuel : nat) (m : TorusMesh) (s extr : Z)
    (arc_extension : list Z) : result TorusMesh :=
  r ← find_arc_at m s extr;
  arc ← _simplify_arc fuel (r.2 ++ arc_extension);
  match dict_get (arcs m) s with
  | None => Raise KeyError
  | Some l => Ok (with_arcs m (dict_set (arcs m) s (<[r.1 := arc]> l)))
  end.

Definition eliminate_pair_change_msgraph (fuel : nat) (m : TorusMesh) :
  result TorusMesh :=
  match list_pop (ppairs m) with
  | None => Ok m
  | Some (pair_, rest) =>
      let m := with_ppairs m rest in
      let saddle := pair_.1.1 in
      if negb (dim (grid m) saddle =? 1) then Raise AssertionError
      else
        let extr := pair_.1.2 in
        let extr_dim := dim (grid m) extr in
        if extr_dim =? 1 then Raise AssertionError
        else
          saddles ← other_saddles m saddle extr;
          min_or_max ← other_extremum m saddle extr;
          G ← Nx.remove_node (msgraph m) saddle;
          G ← foldl (fun (r : result Nx.MultiGraph) s =>
                       G' ← r;
                       G'' ← Nx.remove_edge G' s extr;
                       Ok (Nx.add_edge G'' s min_or_max))
                (Ok G) saddles;
          G ← Nx.remove_node G extr;
          let m := with_msgraph m G in
          arc1 ← find_arc m saddle extr;
          arc2 ← find_arc m saddle min_or_max;
          let arc_extension := reverse (slice arc1 1 (-1)) ++ arc2 in
          m ← foldl (fun (r : result TorusMesh) s =>
                       m' ← r; extend_arc fuel m' s extr arc_extension)
                (Ok m) saddles;
          a ← dict_del (arcs m) saddle;
          let m := with_arcs m a in
          m ← unset_critical m saddle;
          unset_critical m extr
  end.

Definition valid_method (method : string) : bool :=
  bool_decide (method = "gradient") || bool_decide (method = "arc").

Definition eliminate (fuel : nat) (method : string) (m : TorusMesh) :
  result TorusMesh :=
  if bool_decide (method = "gradient") then
    eliminate_pair_revert_gradient fuel m
  else if bool_decide (method = "arc") then
    eliminate_pair_change_msgraph fuel m
  else Ok m.

(** [for i in range(n): eliminate...] *)
Fixpoint eliminate_times (n : nat) (fuel : nat) (method : string)
    (m : TorusMesh) : result TorusMesh :=
  match n with
  | O => Ok m
  | S n' => m' ← eliminate fuel method m; eliminate_times n' fuel method m'
  end.

Definition simplify_by_level (fuel : nat) (m : TorusMesh) (level : Z)
    (method : string) : result TorusMesh :=
  if negb (valid_method method) then Raise AssertionError
  else
    let pairs_elimination_num :=
      length (List.filter (fun p => p.2 <? level) (ppairs m)) in
    eliminate_times pairs_elimination_num fuel method m.

(** [simplify_by_pairs_remained]; the warning of the first test is not
    modelled, the call just returns. *)
Definition simplify_by_pairs_remained (fuel : nat) (m : TorusMesh)
    (pairs_remained : Z) (method : string) : result TorusMesh :=
  if negb (valid_method method) then Raise AssertionError
  else if Z.of_nat (length (ppairs m)) <? pairs_remained then Ok m
  else if pairs_remained <? 2 then Raise AssertionError
  else
    let pairs_elimination_num :=
      Z.to_nat (Z.of_nat (length (ppairs m)) - pairs_remained) in
    eliminate_times pairs_elimination_num fuel method m.

(** ** Export *)

(** [get_cut_morse_graph]: [g.remove_edge] inside [try ... except
    NetworkXError: pass]. *)
Definition cut_arc (m : TorusMesh) (r : result Nx.Graph) (arc : list Z) :
  result Nx.Graph :=
  g ← r;
  if is_arc_crossed_boundary m arc then
    a ← index arc 0;
    b ← index arc (-1);
    match Nx.g_remove_edge g a b with
    | Ok g' => Ok g'
    | Raise NetworkXError => Ok g
    | Raise e => Raise e
    | OutOfFuel => OutOfFuel
    end
  else Ok g.

Definition get_cut_morse_graph (m : TorusMesh) : result Nx.Graph :=
  foldl (cut_arc m) (Ok (Nx.to_simple (msgraph m))) (list_arcs m).

(** [build_all]. *)
Definition build_all (fuel : nat) (lx ly : Z) (field : Z -> Z -> Z)
    (threads_num : Z) : result TorusMesh :=
  let mesh := new_mesh lx ly field in
  mesh ← cmp_discrete_gradient fuel mesh threads_num;
  mesh ← cmp_msgraph fuel mesh;
  mesh ← cmp_arcs fuel mesh;
  cmp_persistent_pairs (U := RankedUnionFind.t) fuel mesh.

(** ** Predicates of the statements *)

(** The order in which [sort_by lt] leaves a list: no element is smaller than
    one that stands before it. *)
Definition not_after {A : Type} (lt : A -> A -> bool) (a b : A) : Prop :=
  lt b a = false.

(** A triple of [ppairs] whose third component is the persistence of its two
    cells. *)
Definition carries_persistence (m : TorusMesh) (t : Z * Z * Z) : Prop :=
  t.2 = Z.abs (np_max (_extvalue m t.1.1) - np_max (_extvalue m t.1.2)).

(** A graph without parallel edges: no neighbour is listed twice. *)
Definition simple (G : Nx.Graph) : Prop :=
  forall u adj, dict_get G u = Some adj -> NoDup adj.

(** Two nodes joined by at least one edge of a multigraph: one of them is
    listed in the adjacency of the other. *)
Definition mg_joined (G : Nx.MultiGraph) (a b : Z) : bool :=
  existsb (fun p : Z * dict nat =>
             existsb (fun q : Z * nat =>
                        ((a =? p.1) && (b =? q.1)) || ((a =? q.1) && (b =? p.1)))
               p.2) G.

(** An arc that crosses the seam and runs between [u] and [v]. *)
Definition cut_by (m : TorusMesh) (u v : Z) (arc : list Z) : bool :=
  is_arc_crossed_boundary m arc &&
  match index arc 0, index arc (-1) with
  | Ok a, Ok b => ((u =? a) && (v =? b)) || ((u =? b) && (v =? a))
  | _, _ => false
  end.

(** The vertex [idx] is the highest vertex of the cell [c]. *)
Definition owns (m : TorusMesh) (idx c : Z) : Prop :=
  idx ∈ _verts (grid m) c /\
  forall u, u ∈ _verts (grid m) c -> u = idx \/ value m u < value m idx.

(** The gradient is a partial involution that pairs cells whose dimensions
    differ by one. *)
Definition gradient_involution (m : TorusMesh) : Prop :=
  forall c d, V m !! c = Some d ->
    V m !! d = Some c /\
    (dim (grid m) d - dim (grid m) c = 1 \/
     dim (grid m) c - dim (grid m) d = 1).

(** What the gradient builder leaves alone. *)
Definition frame (m0 m : TorusMesh) : Prop :=
  grid m = grid m0 /\ values m = values m0 /\ msgraph m = msgraph m0 /\
  ppairs m = ppairs m0 /\ arcs m = arcs m0.

Definition count_unpaired (m : TorusMesh) (c : Z) (L : list Z) : nat :=
  length (unpaired_facets m c L).

Definition unpaired_in (m : TorusMesh) (L : list Z) : nat :=
  length (List.filter (is_unpaired m) L).

(** The state of the gradient when the lower stars of the vertices [done]
    have been processed and those of [busy] are being processed: the cells
    touched so far belong to these stars, and the stars of [done] are
    finished; an arrow joins a facet and a cell of one star, or a vertex
    and an edge of its star, and a critical vertex has an empty star. *)
Record stars_done (m0 m : TorusMesh) (done busy : list Z) : Prop := {
  sd_involution : gradient_involution m;
  sd_exclusive : forall c, c ∈ cr_id m -> V m !! c = None;
  sd_owned : forall c, is_unpaired m c = false ->
    (c ∈ busy ++ done) \/
    exists idx, (idx ∈ busy ++ done) /\ c ∈ lower_star m0 idx;
  sd_cells : NoDup (cr_cells m) /\ forall c, c ∈ cr_cells m <-> c ∈ cr_id m;
  sd_complete : forall idx c, idx ∈ done ->
    c = idx \/ c ∈ lower_star m0 idx -> is_unpaired m c = false;
  sd_local : forall c d, V m !! c = Some d -> c < d ->
    c ∈ _facets (grid m0) d /\
    exists i, 0 <= i < size (grid m0) /\
              (c = i \/ c ∈ lower_star m0 i) /\ d ∈ lower_star m0 i;
  sd_minima : forall v, v ∈ cr_id m -> 0 <= v < size (grid m0) ->
    lower_star m0 v = []
}.

(** The two heaps while the lower star [L] is processed: they hold distinct
    cells of [L] that are still unpaired; an edge of [L] is in [pq_zero] until
    it is paired or critical; a face of [L] is outside the heaps exactly as
    long as two of its facets in [L] are unpaired. *)
Record star_inv (g : dims) (m : TorusMesh) (L : list Z)
    (pq_zero pq_one : list entry) : Prop := {
  si_one : NoDup pq_one.*2 /\
    forall c, c ∈ pq_one.*2 ->
      c ∈ L /\ is_unpaired m c = true /\ 3 * size g <= c;
  si_zero : NoDup pq_zero.*2 /\
    forall c, c ∈ pq_zero.*2 -> c ∈ L /\ is_unpaired m c = true;
  si_apart : forall c, c ∈ pq_zero.*2 -> ~ c ∈ pq_one.*2;
  si_fresh : forall c, c ∈ L -> 3 * size g <= c ->
    (2 <= count_unpaired m c L)%nat ->
    is_unpaired m c = true /\ (~ c ∈ pq_zero.*2) /\ ~ c ∈ pq_one.*2;
  si_edges : forall c, c ∈ L -> c < 3 * size g ->
    (c ∈ pq_zero.*2) \/ is_unpaired m c = false;
  si_faces : forall c, c ∈ L -> 3 * size g <= c ->
    (count_unpaired m c L <= 1)%nat ->
    (c ∈ pq_one.*2) \/ (c ∈ pq_zero.*2) \/ is_unpaired m c = false
}.

(** The vertex values of the field are pairwise distinct. *)
Definition distinct_values (m : TorusMesh) : Prop :=
  forall x y x' y',
    0 <= x < sizeX (grid m) -> 0 <= y < sizeY (grid m) ->
    0 <= x' < sizeX (grid m) -> 0 <= y' < sizeY (grid m) ->
    values m x y = values m x' y' -> x = x' /\ y = y'.

(** The field of the test at the end of [torusmesh.py], on a 3 x 4 grid. *)
Definition test_field (x y : Z) : Z :=
  nth (Z.to_nat y)
    (nth (Z.to_nat x) [[2; 8; 1; 10]; [9; 5; 6; 11]; [7; 3; 4; 12]] []) 0.

(** The complex of the test field before [cmp_persistent_pairs], as
    [build_all] computes it. *)
Definition test_complex (fuel : nat) : result TorusMesh :=
  mesh ← cmp_discrete_gradient fuel (new_mesh 3 4 test_field) 8;
  mesh ← cmp_msgraph fuel mesh;
  cmp_arcs fuel mesh.

(** [set_values(val)]. *)
Definition set_values (m : TorusMesh) (val : Z -> Z -> Z) : TorusMesh :=
  mkMesh (grid m) val (cr_cells m) (V m) (cr_id m) (msgraph m) (ppairs m)
    (arcs m).

(** The states of the engine: those reached from the constructor by calls of
    its methods that return.  [simplify_by_percent] runs the same loop as the
    other two simplifications, after computing the number of rounds in
    floating point; that number is left open here. *)
Inductive engine_state : TorusMesh -> Prop :=
| es_new (lx ly : Z) (val : Z -> Z -> Z) : engine_state (new_mesh lx ly val)
| es_set_values (m : TorusMesh) (val : Z -> Z -> Z) :
    engine_state m -> engine_state (set_values m val)
| es_gradient (fuel : nat) (m m' : TorusMesh) (threads_num : Z) :
    engine_state m -> cmp_discrete_gradient fuel m threads_num = Ok m' ->
    engine_state m'
| es_crit_cells (m : TorusMesh) :
    engine_state m -> engine_state (cmp_crit_cells m)
| es_msgraph (fuel : nat) (m m' : TorusMesh) :
    engine_state m -> cmp_msgraph fuel m = Ok m' -> engine_state m'
| es_arcs (fuel : nat) (m m' : TorusMesh) :
    engine_state m -> cmp_arcs fuel m = Ok m' -> engine_state m'
| es_persistent_pairs (U : Type) (uf : UnionFind U) (fuel : nat)
    (m m' : TorusMesh) :
    engine_state m -> cmp_persistent_pairs (U := U) fuel m = Ok m' ->
    engine_state m'
| es_revert_gradient (fuel : nat) (m m' : TorusMesh) :
    engine_state m -> eliminate_pair_revert_gradient fuel m = Ok m' ->
    engine_state m'
| es_change_msgraph (fuel : nat) (m m' : TorusMesh) :
    engine_state m -> eliminate_pair_change_msgraph fuel m = Ok m' ->
    engine_state m'
| es_simplify_by_level (fuel : nat) (m m' : TorusMesh) (level : Z)
    (method : string) :
    engine_state m -> simplify_by_level fuel m level method = Ok m' ->
    engine_state m'
| es_simplify_by_percent (n fuel : nat) (m m' : TorusMesh)
    (method : string) :
    engine_state m -> valid_method method = true ->
    eliminate_times n fuel method m = Ok m' -> engine_state m'
| es_simplify_by_pairs_remained (fuel : nat) (m m' : TorusMesh)
    (pairs_remained : Z) (method : string) :
    engine_state m ->
    simplify_by_pairs_remained fuel m pairs_remained method = Ok m' ->
    engine_state m'.

(** Dimensions that differ by one. *)
Definition differ_by_one (a b : Z) : bool := (a - b =? 1) || (b - a =? 1).

(** The part of an arc after its first two cells: from the cell [cur] the
    arc goes on with the cell that the gradient pairs with [cur] and with a
    neighbour of that one, until it stops at a critical cell. *)
Fixpoint follows_gradient (m : TorusMesh) (cur : Z) (rest : list Z) : bool :=
  match rest with
  | [] => is_critical m cur
  | [_] => false
  | e :: c :: rest' =>
      bool_decide (V m !! cur = Some e)
      && differ_by_one (dim (grid m) e) (dim (grid m) c)
      && follows_gradient m c rest'
  end.

(** An arc as [_cmp_arcs] leaves it when the gradient has no closed path: it
    starts at a critical cell, follows the gradient to a critical cell and
    passes no cell twice. *)
Definition is_separatrix (m : TorusMesh) (arc : list Z) : bool :=
  match arc with
  | s :: c :: rest =>
      is_critical m s
      && differ_by_one (dim (grid m) s) (dim (grid m) c)
      && follows_gradient m c rest
      && bool_decide (NoDup arc)
  | _ => false
  end.

(** The invariants of the complex that a cancellation relies on. *)
Record ms_complex (m : TorusMesh) : Prop := {
  ms_involution : gradient_involution m;
  ms_exclusive : forall c, c ∈ cr_id m -> V m !! c = None;
  ms_arcs : Forall (fun arc => is_separatrix m arc = true) (list_arcs m)
}.


(** The number of edges of the multigraph between the node [n] and nodes of
    dimension [d], parallel edges counted. *)
Definition degree (g : dims) (d : Z) (G : Nx.MultiGraph) (n : Z) : nat :=
  match Nx.edges G n with
  | Ok es => length (List.filter (fun e : Z * Z => dim g e.2 =? d) es)
  | _ => 0%nat
  end.

(** [add_edge(cidx, t)] for every cell [t] of a list. *)
Definition add_edges (G : Nx.MultiGraph) (cidx : Z) (ts : list Z) :
  Nx.MultiGraph :=
  foldl (fun G' t => Nx.add_edge G' cidx t) G ts.

(** [V[c] > c] for a paired cell: the arrow at [c] points to the cell of
    higher dimension. *)
Definition paired_up (m : TorusMesh) (c : Z) : bool :=
  match V m !! c with
  | Some v => c <? v
  | None => false
  end.

(** A valid discrete gradient: an involution that pairs a cell with one of
    its facets or cofacets, leaves exactly the critical cells unpaired, and
    has no closed path; [rank0] decreases along the paths that go down from
    vertex to vertex, [rank2] along the paths that go back from face to
    face. *)
Record discrete_gradient (m : TorusMesh) (rank0 rank2 : Z -> nat) : Prop := {
  dg_involution : gradient_involution m;
  dg_critical : forall c, 0 <= c < 4 * size (grid m) ->
    (c ∈ cr_id m <-> V m !! c = None);
  dg_range : forall c, is_unpaired m c = false ->
    0 <= c < 4 * size (grid m);
  dg_cells : NoDup (cr_cells m) /\ forall c, c ∈ cr_cells m <-> c ∈ cr_id m;
  dg_incident : forall c d, V m !! c = Some d -> c < d ->
    c ∈ _facets (grid m) d;
  dg_descends : forall v e u, 0 <= v < size (grid m) ->
    V m !! v = Some e -> u ∈ _verts (grid m) e -> u <> v ->
    (rank0 u < rank0 v)%nat;
  dg_rank0 : forall v, (rank0 v < Z.to_nat (size (grid m)))%nat;
  dg_ascends : forall f e c1 c2 f', 3 * size (grid m) <= f ->
    V m !! f = Some e -> _cofacets (grid m) e = Ok (c1, c2) ->
    f' = c1 \/ f' = c2 -> f' <> f -> (rank2 f' < rank2 f)%nat
}.

(** The walks of [cmp_msgraph] from the maxima, seen from the faces: [X]
    lists the faces whose facets have been visited, [q] is the queue, and
    [done] lists the maxima whose walk has begun.  An edge waits in the
    queue from the visit of one of its two faces to the visit of the face
    the gradient pairs it with. *)
Record max_walk (m : TorusMesh) (done q X : list Z) : Prop := {
  mw_queue : NoDup q;
  mw_pending : forall a, a ∈ q ->
    size (grid m) <= a < 3 * size (grid m) /\ ~ a ∈ cr_id m /\
    exists b, V m !! a = Some b /\ a < b /\ ~ b ∈ X;
  mw_reached : forall a b c1 c2 f',
    size (grid m) <= a < 3 * size (grid m) ->
    V m !! a = Some b -> a < b -> _cofacets (grid m) a = Ok (c1, c2) ->
    f' = c1 \/ f' = c2 -> f' <> b -> (f' ∈ X <-> a ∈ q \/ b ∈ X);
  mw_faces : NoDup X /\
    forall f, f ∈ X -> 3 * size (grid m) <= f < 4 * size (grid m);
  mw_roots : forall f, f ∈ X -> f ∈ cr_id m -> f ∈ done
}.

(** The saddles as the walks from the maxima have left them: two edges to
    minima each, and one edge to a maximum for each of the two faces of the
    saddle that has been visited. *)
Definition saddles_joined (m : TorusMesh) (G : Nx.MultiGraph) (X : list Z) :
  Prop :=
  forall s c1 c2,
    size (grid m) <= s < 3 * size (grid m) -> s ∈ cr_id m ->
    _cofacets (grid m) s = Ok (c1, c2) ->
    degree (grid m) 0 G s = 2%nat /\
    degree (grid m) 2 G s =
    ((if bool_decide (c1 ∈ X) then 1 else 0)
     + (if bool_decide (c2 ∈ X) then 1 else 0))%nat.

(** The number of vertices that stand below the vertex [v]. *)
Definition rank_descent (m : TorusMesh) (v : Z) : nat :=
  if (0 <=? v) && (v <? size (grid m)) then
    length (List.filter (fun w => value m w <? value m v)
              (range 0 (size (grid m))))
  else 0%nat.

(** The edges and the faces around a vertex, in the order in which one
    meets them on a turn around it: the face [k] lies between the edges [k]
    and [k + 1]. *)
Definition ring_edges (g : dims) (idx : Z) : list Z :=
  [_eleft g idx; _etop g idx; _eright g idx; _ebottom g idx].

Definition ring_faces (g : dims) (idx : Z) : list Z :=
  [_flefttop g idx; _frighttop g idx; _frightbottom g idx;
   _fleftbottom g idx].

(** The place of a cell in a list. *)
Fixpoint pos (l : list Z) (x : Z) : nat :=
  match l with
  | [] => 0%nat
  | y :: l' => if x =? y then 0%nat else S (pos l' x)
  end.

(** The highest vertex of a cell. *)
Definition owner (m : TorusMesh) (c : Z) : Z :=
  default 0
    (List.find
       (fun i => forallb (fun u => (u =? i) || (value m u <? value m i))
                   (_verts (grid m) c))
       (_verts (grid m) c)).

(** The number of vertices that stand above the cell [c]. *)
Definition above (m : TorusMesh) (c : Z) : nat :=
  length (List.filter (fun w => value m (owner m c) <? value m w)
            (range 0 (size (grid m)))).

(** From the face [k] of a ring across its edge [a], the number of edges
    met before the edge [j] when one keeps turning the same way. *)
Definition ring_steps (k a j : nat) : nat :=
  if (a =? (k + 1) mod 4)%nat then ((j + 4 - a) mod 4)%nat
  else ((a + 4 - j) mod 4)%nat.

(** How far the walk back from a face can go: the vertices above the face,
    and, around its highest vertex, the edges up to the one that the
    gradient pairs with this vertex. *)
Definition rank_ascent (m : TorusMesh) (f : Z) : nat :=
  let i := owner m f in
  let s :=
    match V m !! f, V m !! i with
    | Some e, Some delta =>
        ring_steps (pos (ring_faces (grid m) i) f)
          (pos (ring_edges (grid m) i) e)
          (pos (ring_edges (grid m) i) delta)
    | _, _ => 0%nat
    end in
  (4 * above m f + s)%nat.

(** The cells that a walk along the gradient appends to an arc after the
    cell [v]: none twice; the cells of the kind [node] stand lower than [v]
    in the order [rank], and the others are paired with cells that do not
    stand higher than [v]. *)
Definition trail (m : TorusMesh) (rank : Z -> nat) (node : Z -> bool)
    (v : Z) (rest : list Z) : Prop :=
  NoDup rest /\
  Forall (fun c =>
            if node c then (rank c < rank v)%nat
            else exists w, V m !! c = Some w /\ node w = true /\
                           (rank w <= rank v)%nat) rest.

(** The arcs that [_cmp_arcs] lists under the saddle [s]: four arcs that
    start at [s], follow the gradient without passing a cell twice, and stop
    at critical cells, the first two at vertices and the last two at
    faces. *)
Definition saddle_arcs (m : TorusMesh) (s : Z) (l : list (list Z)) : Prop :=
  exists a1 a2 a3 a4 x1 x2 x3 x4,
    l = [a1; a2; a3; a4] /\
    Forall (fun a => is_separatrix m a = true /\ index a 0 = Ok s) l /\
    (index a1 (-1) = Ok x1 /\ index a2 (-1) = Ok x2 /\
     index a3 (-1) = Ok x3 /\ index a4 (-1) = Ok x4) /\
    (x1 ∈ cr_id m /\ x2 ∈ cr_id m /\ x3 ∈ cr_id m /\ x4 ∈ cr_id m) /\
    dim (grid m) x1 = 0 /\ dim (grid m) x2 = 0 /\
    dim (grid m) x3 = 2 /\ dim (grid m) x4 = 2.

(** The bits of a bit array over [cr_cells] that are set stand at critical
    cells of dimension [d]. *)
Definition bits_at (m : TorusMesh) (d : Z) (b : list bool) : Prop :=
  forall j, b !! j = Some true ->
    exists c, cr_cells m !! j = Some c /\ dim (grid m) c = d.

(** The cycles stored at the minima and at the maxima list cells of their
    own dimension. *)
Definition cycles_at (m : TorusMesh) (cycles : list (option (list bool))) :
  Prop :=
  forall s c cs, cr_cells m !! s = Some cs -> dim (grid m) cs <> 1 ->
    cycles !! s = Some (Some c) -> bits_at m (dim (grid m) cs) c.

(** A persistence pair joins a saddle with a minimum or a maximum. *)
Definition joins_extremum (m : TorusMesh) (t : Z * Z * Z) : Prop :=
  t.1.1 ∈ cp m 1 /\ t.1.2 ∈ cr_cells m /\
  (dim (grid m) t.1.2 = 0 \/ dim (grid m) t.1.2 = 2).

(** Every neighbour listed in the graph [G] is a cell of [S]. *)
Definition adj_in (G : Nx.MultiGraph) (S : gset Z) : Prop :=
  forall u adj v k, (u, adj) ∈ G -> (v, k) ∈ adj -> v ∈ S.

(** How far the reduction of a bit array can still go: on the way forward
    the place after its last set bit, on the way back the number of places
    from its first set bit on. *)
Definition span_forward (b : list bool) : nat :=
  match bit_rindex b with Some s => S s | None => 0%nat end.

Definition span_backward (b : list bool) : nat :=
  match bit_index b with Some s => (length b - s)%nat | None => 0%nat end.

(** The state of a pass of [cmp_persistent_pairs] over the cells of
    dimension [d]: the bit arrays are as long as [cr_cells], the set bits of
    [curset] stand at cells of dimension [d], a cycle stored at such a cell
    [s] has [s] as the bit that [pick] chooses and lists cells of dimension
    [d] only, and no cycle is stored yet at a cell of dimension [d']. *)
Definition reducing (m : TorusMesh) (d d' : Z)
    (pick : list bool -> option nat) (st : pstate) : Prop :=
  length st.1.1 = length (cr_cells m) /\
  length st.1.2 = length (cr_cells m) /\
  bits_at m d st.1.1 /\
  (forall s cs b, cr_cells m !! s = Some cs -> dim (grid m) cs = d ->
     st.1.2 !! s = Some (Some b) ->
     length b = length (cr_cells m) /\ pick b = Some s /\ bits_at m d b) /\
  (forall s cs, cr_cells m !! s = Some cs -> dim (grid m) cs = d' ->
     st.1.2 !! s = Some None).

(** * Properties *)


(** ** Arithmetic of the neighbour accessors *)

Section GridFacts.

Variable g : dims.
Hypothesis HX : 0 < sizeX g.
Hypothesis HY : 0 < sizeY g.

Lemma size_pos : 0 < size g.
Proof. unfold size. lia. Qed.

(** Every vertex id splits as [y * sizeX + x]. *)
Lemma vertex_split idx :
  0 <= idx < size g ->
  idx = coordy g idx * sizeX g + coordx g idx /\
  0 <= coordx g idx < sizeX g /\ 0 <= coordy g idx < sizeY g.
Proof.
  intros Hi. unfold coordx, coordy, size in *.
  pose proof (Z.div_mod idx (sizeX g) ltac:(lia)) as Hdm.
  pose proof (Z.mod_pos_bound idx (sizeX g) HX) as Hm.
  split; [lia|]. split; [lia|].
  split; [apply Z.div_pos; lia|].
  apply Z.div_lt_upper_bound; lia.
Qed.

Lemma coords_of_split x y :
  0 <= x < sizeX g ->
  coordx g (y * sizeX g + x) = x /\ coordy g (y * sizeX g + x) = y.
Proof.
  intros Hx. unfold coordx, coordy. split.
  - rewrite Z.add_comm, Z.mod_add by lia. apply Z.mod_small; lia.
  - rewrite Z.add_comm, Z.div_add by lia. rewrite Z.div_small by lia. lia.
Qed.

Lemma in_grid x y :
  0 <= x < sizeX g -> 0 <= y < sizeY g -> 0 <= y * sizeX g + x < size g.
Proof using HX HY. unfold size. nia. Qed.

Lemma _vright_split x y :
  0 <= x < sizeX g ->
  _vright g (y * sizeX g + x) = y * sizeX g + (x + 1) mod sizeX g.
Proof.
  intros Hx. unfold _vright.
  replace (y * sizeX g + x + 1) with (x + 1 + y * sizeX g) by lia.
  rewrite Z.mod_add by lia.
  replace (y * sizeX g + x) with (x + y * sizeX g) by lia.
  rewrite Z.mod_add by lia. rewrite (Z.mod_small x) by lia. lia.
Qed.

Lemma _vleft_split x y :
  0 <= x < sizeX g ->
  _vleft g (y * sizeX g + x) = y * sizeX g + (x - 1) mod sizeX g.
Proof.
  intros Hx. unfold _vleft.
  replace (y * sizeX g + x + sizeX g - 1) with (x - 1 + (y + 1) * sizeX g) by lia.
  rewrite Z.mod_add by lia.
  replace (y * sizeX g + x) with (x + y * sizeX g) by lia.
  rewrite Z.mod_add by lia. rewrite (Z.mod_small x) by lia. lia.
Qed.

Lemma row_mod x y :
  0 <= x < sizeX g ->
  (y * sizeX g + x) mod size g = (y mod sizeY g) * sizeX g + x.
Proof.
  intros Hx. pose proof size_pos as Hs.
  pose proof (Z.mod_pos_bound y (sizeY g) HY) as Hm.
  pose proof (Z.div_mod y (sizeY g) ltac:(lia)) as Hdm.
  symmetry. apply (Z.mod_unique_pos _ _ (y / sizeY g)).
  - unfold size. nia.
  - unfold size. nia.
Qed.

Lemma _vbottom_split x y :
  0 <= x < sizeX g ->
  _vbottom g (y * sizeX g + x) = ((y + 1) mod sizeY g) * sizeX g + x.
Proof.
  intros Hx. unfold _vbottom.
  replace (y * sizeX g + x + sizeX g) with ((y + 1) * sizeX g + x) by lia.
  apply row_mod; lia.
Qed.

Lemma _vtop_split x y :
  0 <= x < sizeX g ->
  _vtop g (y * sizeX g + x) = ((y - 1) mod sizeY g) * sizeX g + x.
Proof.
  intros Hx. unfold _vtop.
  replace (y * sizeX g + x + size g - sizeX g)
    with ((y - 1) * sizeX g + x + 1 * size g) by (unfold size; lia).
  rewrite Z.mod_add by (pose proof size_pos; lia).
  apply row_mod; lia.
Qed.

End GridFacts.

(** ** The right neighbour (C1) *)

(** C1, as stated, fails: on a 3 x 3 grid the vertex [_to_index 0 0 = 0] has
    [_vright] equal to 1, while [_to_index 1 0 = 3]. *)
Lemma vright_to_index_counterexample :
  let g := mkDims 3 3 in
  _vright g (_to_index g 0 0) <> _to_index g ((0 + 1) mod sizeX g) 0.
Proof. vm_compute. discriminate. Qed.

(** C1 (amended): with the vertex of column [x] and row [y] numbered
    [v = y * sizeX + x], which is the numbering [coordx] and [coordy] invert,
    [_vright v] is the vertex of column [(x + 1) mod sizeX] in the same row,
    and the horizontal edge [size + v] joins [v] and [_vright v]. *)
Theorem vright_is_right_neighbour (g : dims) (x y : Z) :
  0 <= x < sizeX g -> 0 <= y < sizeY g ->
  let v := y * sizeX g + x in
  0 <= v < size g /\ coordx g v = x /\ coordy g v = y /\
  _vright g v = y * sizeX g + (x + 1) mod sizeX g /\
  coordx g (_vright g v) = (x + 1) mod sizeX g /\
  coordy g (_vright g v) = y /\
  _verts g (size g + v) = [v; _vright g v].
Proof.
  intros Hx Hy v.
  assert (HX : 0 < sizeX g) by lia.
  assert (HY : 0 < sizeY g) by lia.
  pose proof (in_grid g HX HY x y Hx Hy) as Hv.
  pose proof (coords_of_split g HX x y Hx) as [Hcx Hcy].
  pose proof (_vright_split g HX x y Hx) as Hr.
  pose proof (Z.mod_pos_bound (x + 1) (sizeX g) HX) as Hm.
  pose proof (coords_of_split g HX ((x + 1) mod sizeX g) y Hm) as [Hrx Hry].
  fold v in Hv, Hcx, Hcy, Hr.
  repeat split; try lia; try assumption.
  - rewrite Hr. exact Hrx.
  - rewrite Hr. exact Hry.
  - unfold _verts.
    destruct (Z.ltb_spec (size g + v) (size g)); [lia|].
    destruct (Z.ltb_spec (size g + v) (2 * size g)); [|lia].
    replace (size g + v - size g) with v by lia. reflexivity.
Qed.

Lemma vright_is_right_neighbour_witness :
  let g := mkDims 3 4 in
  _vright g (1 * 3 + 2) = 1 * 3 + (2 + 1) mod 3.
Proof.
  intros g.
  exact (proj1 (proj2 (proj2 (proj2
    (vright_is_right_neighbour g 2 1 ltac:(simpl; lia) ltac:(simpl; lia)))))).
Defined.


(** ** Python helpers *)

Lemma bind_Ok {A B : Type} (r : result A) (k : A -> result B) (b : B) :
  r ≫= k = Ok b -> exists a, r = Ok a /\ k a = Ok b.
Proof. destruct r; simpl; [eauto | discriminate | discriminate]. Qed.

Ltac inv_bind H :=
  let a := fresh "a" in
  let Ha := fresh "Ha" in
  apply bind_Ok in H; destruct H as (a & Ha & H).

Ltac bind_as H a Ha := apply bind_Ok in H; destruct H as (a & Ha & H).

Lemma list_pop_Some {A : Type} (l : list A) (x : A) (r : list A) :
  list_pop l = Some (x, r) <-> l = r ++ [x].
Proof.
  unfold list_pop. split.
  - destruct (reverse l) as [|y t] eqn:E; [discriminate|].
    intros [= -> <-]. rewrite <- (reverse_involutive l), E.
    rewrite reverse_cons. reflexivity.
  - intros ->. rewrite reverse_snoc, reverse_involutive. reflexivity.
Qed.

Lemma list_pop_None {A : Type} (l : list A) :
  list_pop l = None <-> l = [].
Proof.
  unfold list_pop. split.
  - destruct (reverse l) as [|y t] eqn:E; [|discriminate].
    intros _. rewrite <- (reverse_involutive l), E. reflexivity.
  - intros ->. reflexivity.
Qed.

Lemma list_remove_length (x : Z) (l l' : list Z) :
  list_remove x l = Ok l' -> length l = S (length l').
Proof.
  revert l'. induction l as [|y l IH]; intros l' H; simpl in H.
  - discriminate.
  - destruct (x =? y).
    + injection H as <-. reflexivity.
    + inv_bind H. injection H as <-. simpl. f_equal. eauto.
Qed.

Lemma dict_get_set {A : Type} (d : dict A) (k k' : Z) (a : A) :
  dict_get (dict_set d k a) k' = if k' =? k then Some a else dict_get d k'.
Proof.
  induction d as [|[k0 a0] d IH]; simpl.
  - destruct (Z.eqb_spec k' k); reflexivity.
  - destruct (Z.eqb_spec k k0) as [->|Hne]; simpl.
    + destruct (Z.eqb_spec k' k0); reflexivity.
    + destruct (Z.eqb_spec k' k0) as [->|Hne'].
      * destruct (Z.eqb_spec k0 k); [congruence|reflexivity].
      * exact IH.
Qed.

Lemma StronglySorted_mono {A : Type} (R R' : A -> A -> Prop) (l : list A) :
  (forall a b, R a b -> R' a b) -> StronglySorted R l -> StronglySorted R' l.
Proof.
  intros HR. induction 1 as [|x l Hs IH Hx]; constructor; [exact IH|].
  eapply Forall_impl; [exact Hx|]. intros y. apply HR.
Qed.

Section SortFacts.
Context {A : Type} (lt : A -> A -> bool).

Lemma insert_by_perm (x : A) (l : list A) : insert_by lt x l ≡ₚ x :: l.
Proof.
  induction l as [|y l IH]; simpl; [reflexivity|].
  destruct (lt y x); [|reflexivity].
  rewrite IH. apply Permutation_swap.
Qed.

Lemma sort_by_perm (l : list A) : sort_by lt l ≡ₚ l.
Proof.
  induction l as [|x l IH]; simpl; [reflexivity|].
  rewrite insert_by_perm, IH. reflexivity.
Qed.

Lemma sort_by_length (l : list A) : length (sort_by lt l) = length l.
Proof. apply Permutation_length, sort_by_perm. Qed.

Lemma sort_by_elem (x : A) (l : list A) : x ∈ sort_by lt l <-> x ∈ l.
Proof. rewrite (sort_by_perm l). reflexivity. Qed.

Hypothesis lt_asym : forall a b, lt a b = true -> lt b a = false.
Hypothesis ge_trans :
  forall a b c, lt b a = false -> lt c b = false -> lt c a = false.

Lemma insert_by_sorted (x : A) (l : list A) :
  StronglySorted (not_after lt) l -> StronglySorted (not_after lt) (insert_by lt x l).
Proof.
  induction 1 as [|y l Hs IH Hy]; simpl.
  - repeat constructor.
  - destruct (lt y x) eqn:E.
    + constructor; [exact IH|].
      rewrite insert_by_perm. constructor; [|exact Hy].
      unfold not_after. auto.
    + constructor; [constructor; assumption|].
      constructor; [exact E|].
      eapply Forall_impl; [exact Hy|].
      intros z Hz. unfold not_after in *. eauto.
Qed.

Lemma sort_by_sorted (l : list A) : StronglySorted (not_after lt) (sort_by lt l).
Proof.
  induction l as [|x l IH]; simpl; [constructor|].
  apply insert_by_sorted, IH.
Qed.

(** The head of a sorted list is smaller than no element of the list. *)
Lemma sort_by_head (x : A) (l r : list A) :
  sort_by lt l = x :: r -> forall y, y ∈ l -> lt y x = false.
Proof.
  intros E y Hy. pose proof (sort_by_sorted l) as Hs.
  rewrite <- sort_by_elem, E in Hy. rewrite E in Hs.
  apply StronglySorted_inv in Hs as [_ Hall].
  apply elem_of_cons in Hy as [->|Hy].
  - destruct (lt x x) eqn:Exx; [|reflexivity].
    rewrite (lt_asym _ _ Exx) in Exx. discriminate.
  - rewrite Forall_forall in Hall. apply Hall, Hy.
Qed.
End SortFacts.

(** ** Fewer than two pairs remaining (C9) *)

(** C9, as stated, fails: with no persistence pair left, asking for one
    remaining pair returns normally. *)
Lemma pairs_remained_counterexample :
  1 < 2 /\ valid_method "gradient" = true /\
  simplify_by_pairs_remained 0 (new_mesh 3 4 (fun _ _ => 0)) 1 "gradient"
  = Ok (new_mesh 3 4 (fun _ _ => 0)).
Proof. split; [lia|]. split; reflexivity. Qed.

(** C9 (amended): a call with a valid method and [k < 2] raises
    [AssertionError] when [k] does not exceed the number of persistence pairs;
    when [k] exceeds it, the call returns with the mesh unchanged. *)
Theorem pairs_remained_below_two (fuel : nat) (m : TorusMesh) (k : Z)
    (method : string) :
  valid_method method = true -> k < 2 ->
  (k <= Z.of_nat (length (ppairs m)) ->
   simplify_by_pairs_remained fuel m k method = Raise AssertionError) /\
  (Z.of_nat (length (ppairs m)) < k ->
   simplify_by_pairs_remained fuel m k method = Ok m).
Proof.
  intros Hm Hk. unfold simplify_by_pairs_remained. rewrite Hm. simpl.
  split; intros Hlen.
  - destruct (Z.ltb_spec (Z.of_nat (length (ppairs m))) k); [lia|].
    destruct (Z.ltb_spec k 2); [reflexivity|lia].
  - destruct (Z.ltb_spec (Z.of_nat (length (ppairs m))) k); [reflexivity|lia].
Qed.

Lemma pairs_remained_below_two_witness :
  simplify_by_pairs_remained 0
    (with_ppairs (new_mesh 3 4 (fun _ _ => 0)) [(12, 0, 1); (13, 1, 1)])
    1 "arc" = Raise AssertionError.
Proof.
  apply (pairs_remained_below_two 0
           (with_ppairs (new_mesh 3 4 (fun _ _ => 0)) [(12, 0, 1); (13, 1, 1)])
           1 "arc"); [reflexivity | lia | simpl; lia].
Defined.

(** ** Persistence pairs are sorted and carry their persistence (C6) *)

Lemma foldl_result_inv {S X : Type} (f : result S -> X -> result S)
    (P : S -> Prop) :
  (forall r x s', (forall s, r = Ok s -> P s) -> f r x = Ok s' -> P s') ->
  forall l r s', (forall s, r = Ok s -> P s) -> foldl f r l = Ok s' -> P s'.
Proof.
  intros Hstep l. induction l as [|x l IH]; intros r s' Hr Hf; simpl in Hf.
  - apply Hr, Hf.
  - eapply IH; [|exact Hf]. intros s Hs. eapply Hstep; eauto.
Qed.

Lemma sorted_desc_perm (l : list Z) : sorted_desc l ≡ₚ l.
Proof. apply sort_by_perm. Qed.

Lemma sorted_desc_sorted (l : list Z) :
  StronglySorted (fun a b => b <= a) (sorted_desc l).
Proof.
  unfold sorted_desc.
  eapply StronglySorted_mono;
    [|apply (sort_by_sorted (fun y x : Z => x <? y))].
  - unfold not_after. intros a b Hab. lia.
  - intros a b Hab. lia.
  - intros a b c. lia.
Qed.

Section PersistenceFacts.

Context {U : Type} `{UnionFind U}.

Lemma reduce_pairs (fuel : nat) pick (m : TorusMesh) (i : nat)
    (st st' : pstate) :
  Forall (carries_persistence m) st.2 ->
  reduce fuel pick m i st = Ok st' ->
  Forall (carries_persistence m) st'.2.
Proof.
  revert st. induction fuel as [|fuel IH]; intros st Hst Hr; simpl in Hr.
  - discriminate.
  - destruct st as [[curset cycles] pairs].
    destruct (bit_count curset =? 0)%nat.
    + injection Hr as <-. exact Hst.
    + destruct (pick curset) as [s|]; [|discriminate].
      destruct (cycles !! s) as [c|]; [|discriminate].
      destruct (no_cycle c).
      * destruct (cr_cells m !! i) as [ci|]; [|discriminate].
        destruct (cr_cells m !! s) as [cs|]; [|discriminate].
        eapply IH; [|exact Hr]. simpl in *.
        apply Forall_app. split; [exact Hst|].
        constructor; [reflexivity|constructor].
      * eapply IH; [|exact Hr]. exact Hst.
Qed.

Lemma pass_cell_pairs (fuel : nat) (forward : bool) (m : TorusMesh)
    (signs : list bool) (r : result pstate) (i : nat) (st' : pstate) :
  (forall st, r = Ok st -> Forall (carries_persistence m) st.2) ->
  pass_cell fuel forward m signs r i = Ok st' ->
  Forall (carries_persistence m) st'.2.
Proof.
  intros Hr Hp. unfold pass_cell in Hp. inv_bind Hp.
  specialize (Hr _ Ha).
  destruct (cr_cells m !! i) as [cidx|]; [|discriminate].
  destruct (signs !! i) as [sign|]; [|discriminate].
  destruct ((dim (grid m) cidx =? 1) && (if forward then negb sign else sign)).
  - inv_bind Hp. inv_bind Hp.
    eapply reduce_pairs; [|exact Hp]. exact Hr.
  - injection Hp as <-. exact Hr.
Qed.

(** [cmp_persistent_pairs] only writes [ppairs]: the sorted list of the
    triples found by the two passes. *)
Lemma persistent_pairs_carry (fuel : nat) (m m' : TorusMesh) :
  cmp_persistent_pairs fuel m = Ok m' ->
  exists pairs,
    m' = with_ppairs m (sort_by (fun x y : Z * Z * Z => y.2 <? x.2) pairs) /\
    Forall (carries_persistence m) pairs.
Proof.
  intros Hc. unfold cmp_persistent_pairs in Hc.
  bind_as Hc lab Hlab. bind_as Hc st1 Hst1. bind_as Hc st2 Hst2.
  injection Hc as <-.
  assert (H1 : Forall (carries_persistence m) st1.2).
  { eapply (foldl_result_inv _ (fun st : pstate =>
                                  Forall (carries_persistence m) st.2));
      [|  |exact Hst1].
    - intros r x s'. apply pass_cell_pairs.
    - intros s [= <-]. constructor. }
  assert (H2 : Forall (carries_persistence m) st2.2).
  { eapply (foldl_result_inv _ (fun st : pstate =>
                                  Forall (carries_persistence m) st.2));
      [|  |exact Hst2].
    - intros r x s'. apply pass_cell_pairs.
    - intros s [= <-]. exact H1. }
  exists st2.2. split; [reflexivity|exact H2].
Qed.

(** C6: when [cmp_persistent_pairs] returns, [ppairs] is sorted by
    decreasing third component, and the third component of every triple
    [(saddle, extremum, p)] is [|max ext(saddle) - max ext(extremum)|]; the
    extended value of a cell is the tuple of the values at its vertices in
    decreasing order. *)
Theorem persistent_pairs_sorted (fuel : nat) (m m' : TorusMesh) :
  cmp_persistent_pairs fuel m = Ok m' ->
  StronglySorted (fun a b : Z * Z * Z => b.2 <= a.2) (ppairs m') /\
  Forall (fun t : Z * Z * Z =>
            t.2 = Z.abs (np_max (_extvalue m' t.1.1)
                         - np_max (_extvalue m' t.1.2))) (ppairs m') /\
  forall c, StronglySorted (fun a b => b <= a) (_extvalue m' c) /\
            _extvalue m' c ≡ₚ List.map (value m') (_verts (grid m') c).
Proof.
  intros Hc. destruct (persistent_pairs_carry _ _ _ Hc) as (pairs & -> & H2).
  split; [|split].
  - simpl. eapply StronglySorted_mono;
      [|apply (sort_by_sorted (fun x y : Z * Z * Z => y.2 <? x.2))].
    + unfold not_after. intros a b Hab. lia.
    + intros a b Hab. lia.
    + intros a b c. lia.
  - simpl. rewrite sort_by_perm. exact H2.
  - intros c. split; [apply sorted_desc_sorted | apply sorted_desc_perm].
Qed.

End PersistenceFacts.

Lemma persistent_pairs_sorted_witness :
  exists m m',
    test_complex 100 = Ok m /\
    cmp_persistent_pairs (U := RankedUnionFind.t) 100 m = Ok m' /\
    ppairs m' = [(26, 0, 5); (33, 46, 2); (29, 5, 1)] /\
    StronglySorted (fun a b : Z * Z * Z => b.2 <= a.2) (ppairs m') /\
    Forall (fun t : Z * Z * Z =>
              t.2 = Z.abs (np_max (_extvalue m' t.1.1)
                           - np_max (_extvalue m' t.1.2))) (ppairs m') /\
    forall c, StronglySorted (fun a b => b <= a) (_extvalue m' c) /\
              _extvalue m' c ≡ₚ List.map (value m') (_verts (grid m') c).
Proof.
  eexists. eexists. split; [vm_compute; reflexivity|].
  match goal with
  | |- ?run = Ok ?r /\ _ => assert (E : run = Ok r) by (vm_compute; reflexivity)
  end.
  split; [exact E|]. split; [reflexivity|].
  exact (persistent_pairs_sorted 100 _ _ E).
Defined.

(** ** The cut Morse graph (C10) *)

Lemma dict_get_snoc {A : Type} (d : dict A) (k k' : Z) (a : A) :
  dict_get (d ++ [(k, a)]) k' =
  match dict_get d k' with
  | Some x => Some x
  | None => if k' =? k then Some a else None
  end.
Proof.
  induction d as [|[k0 a0] d IH]; simpl; [reflexivity|].
  destruct (k' =? k0); [reflexivity|exact IH].
Qed.

Lemma index_Ok_elem {A : Type} (l : list A) (i : Z) (x : A) :
  index l i = Ok x -> x ∈ l.
Proof.
  unfold index. intros Hi.
  destruct (_ || _); [discriminate|].
  destruct (l !! _) eqn:E; [|discriminate].
  injection Hi as <-. eapply list_elem_of_lookup_2, E.
Qed.

Lemma index_last {A : Type} (l : list A) (x : A) :
  index (l ++ [x]) (-1) = Ok x.
Proof.
  unfold index. rewrite length_app. simpl length.
  change (-1 <? 0) with true. cbv iota.
  destruct (Z.ltb_spec (-1 + Z.of_nat (length l + 1)) 0); [lia|].
  destruct (Z.leb_spec (Z.of_nat (length l + 1))
              (-1 + Z.of_nat (length l + 1))); [lia|].
  simpl orb. cbv iota.
  replace (Z.to_nat (-1 + Z.of_nat (length l + 1))) with (length l) by lia.
  rewrite lookup_app_r by lia. rewrite Nat.sub_diag. reflexivity.
Qed.

Lemma index_nonempty {A : Type} (x : A) (l : list A) :
  (exists a, index (x :: l) 0 = Ok a) /\ (exists b, index (x :: l) (-1) = Ok b).
Proof.
  split.
  - exists x. reflexivity.
  - destruct (list_pop (x :: l)) as [[b r]|] eqn:E.
    + apply list_pop_Some in E. rewrite E. exists b. apply index_last.
    + apply list_pop_None in E. discriminate.
Qed.

Module NxFacts.
Import Nx.

Lemma g_has_edge_unlink (G : Graph) (u v a b : Z) :
  g_has_edge (g_unlink G u v) a b =
  g_has_edge G a b && negb ((a =? u) && (b =? v)).
Proof.
  unfold g_unlink, g_has_edge.
  destruct (dict_get G u) as [adj|] eqn:E.
  - rewrite dict_get_set. destruct (Z.eqb_spec a u) as [->|Hne].
    + rewrite E. simpl.
      destruct (Z.eqb_spec b v) as [->|Hbv].
      * rewrite andb_false_r. apply bool_decide_eq_false.
        rewrite list_elem_of_In, filter_In. intros [_ Hc].
        rewrite Z.eqb_refl in Hc. discriminate.
      * rewrite andb_true_r. apply bool_decide_ext.
        rewrite !list_elem_of_In, filter_In.
        destruct (Z.eqb_spec b v); [congruence|]. tauto.
    + simpl. rewrite andb_true_r. reflexivity.
  - destruct (Z.eqb_spec a u) as [->|Hne]; simpl.
    + rewrite E. reflexivity.
    + rewrite andb_true_r. reflexivity.
Qed.

Lemma g_remove_edge_has (G G' : Graph) (u v a b : Z) :
  g_remove_edge G u v = Ok G' ->
  g_has_edge G' a b =
  g_has_edge G a b && negb ((a =? u) && (b =? v))
  && negb ((a =? v) && (b =? u)).
Proof.
  unfold g_remove_edge. destruct (g_has_edge G u v); [|discriminate].
  intros [= <-]. rewrite !g_has_edge_unlink. reflexivity.
Qed.

Lemma g_remove_edge_error (G : Graph) (u v : Z) (e : exn) :
  g_remove_edge G u v = Raise e -> e = NetworkXError /\ g_has_edge G u v = false.
Proof.
  unfold g_remove_edge. destruct (g_has_edge G u v); [discriminate|].
  intros [= <-]. auto.
Qed.

Lemma g_remove_edge_fuel (G : Graph) (u v : Z) :
  g_remove_edge G u v <> OutOfFuel.
Proof. unfold g_remove_edge. destruct (g_has_edge G u v); discriminate. Qed.

(** No neighbour is listed twice: there are no parallel edges. *)
Lemma simple_add_node (G : Graph) (n : Z) : simple G -> simple (g_add_node G n).
Proof.
  intros HG u adj. unfold g_add_node.
  destruct (dict_get G n) eqn:E; [apply HG|].
  rewrite dict_get_snoc. destruct (dict_get G u) as [x|] eqn:Eu.
  - intros [= <-]. eapply HG, Eu.
  - destruct (u =? n); [|discriminate]. intros [= <-]. constructor.
Qed.

Lemma simple_link (G : Graph) (u v : Z) : simple G -> simple (g_link G u v).
Proof.
  intros HG w adj. unfold g_link.
  destruct (dict_get G u) as [adj0|] eqn:E; [|apply HG].
  destruct (bool_decide_reflect (v ∈ adj0)) as [Hin|Hin]; [apply HG|].
  rewrite dict_get_set. destruct (Z.eqb_spec w u) as [->|Hne]; [|apply HG].
  intros [= <-]. apply NoDup_app. split; [eapply HG, E|].
  split; [|apply NoDup_singleton].
  intros x Hx Hx'. apply list_elem_of_singleton in Hx'. congruence.
Qed.

Lemma simple_unlink (G : Graph) (u v : Z) : simple G -> simple (g_unlink G u v).
Proof.
  intros HG w adj. unfold g_unlink.
  destruct (dict_get G u) as [adj0|] eqn:E; [|apply HG].
  rewrite dict_get_set. destruct (Z.eqb_spec w u) as [->|Hne]; [|apply HG].
  intros [= <-]. apply NoDup_ListNoDup, List.NoDup_filter, NoDup_ListNoDup.
  eapply HG, E.
Qed.

Lemma simple_add_edge (G : Graph) (u v : Z) : simple G -> simple (g_add_edge G u v).
Proof.
  intros HG. unfold g_add_edge.
  auto using simple_link, simple_add_node.
Qed.

Lemma simple_to_simple (G : MultiGraph) : simple (to_simple G).
Proof.
  unfold to_simple.
  assert (Hn : forall ns H, simple H -> simple (foldl g_add_node H ns)).
  { induction ns as [|n ns IH]; intros H0 HH; simpl; [exact HH|].
    apply IH, simple_add_node, HH. }
  assert (He : forall (p : Z) (qs : dict nat) H, simple H ->
             simple (foldl (fun H' q => g_add_edge H' p q.1) H qs)).
  { intros p. induction qs as [|q qs IH]; intros H0 HH; simpl; [exact HH|].
    apply IH, simple_add_edge, HH. }
  generalize (foldl g_add_node [] G.*1) (Hn G.*1 [] ltac:(intros ? ?; discriminate)).
  induction G as [|p G IH]; intros H0 HH; simpl; [exact HH|].
  apply IH, He, HH.
Qed.

Lemma simple_remove_edge (G G' : Graph) (u v : Z) :
  simple G -> g_remove_edge G u v = Ok G' -> simple G'.
Proof.
  unfold g_remove_edge. destruct (g_has_edge G u v); [|discriminate].
  intros HG [= <-]. auto using simple_unlink.
Qed.

Lemma g_has_edge_add_node (G : Graph) (n a b : Z) :
  g_has_edge (g_add_node G n) a b = g_has_edge G a b.
Proof.
  unfold g_add_node, g_has_edge.
  destruct (dict_get G n) eqn:E; [reflexivity|].
  rewrite dict_get_snoc. destruct (dict_get G a) eqn:Ea; [reflexivity|].
  destruct (a =? n); [|reflexivity].
  apply bool_decide_eq_false. apply not_elem_of_nil.
Qed.

Lemma g_has_node_add_node (G : Graph) (n n' : Z) :
  is_Some (dict_get G n') \/ n' = n -> is_Some (dict_get (g_add_node G n) n').
Proof.
  unfold g_add_node. intros Hn.
  destruct (dict_get G n) eqn:E.
  - destruct Hn as [Hn| ->]; [exact Hn|eauto].
  - rewrite dict_get_snoc. destruct (dict_get G n') eqn:E'; [eauto|].
    destruct Hn as [[x Hx]| ->]; [discriminate|].
    rewrite Z.eqb_refl. eauto.
Qed.

Lemma g_has_edge_link (G : Graph) (u v a b : Z) :
  is_Some (dict_get G u) ->
  g_has_edge (g_link G u v) a b =
  g_has_edge G a b || ((a =? u) && (b =? v)).
Proof.
  intros [adj E]. unfold g_link, g_has_edge. rewrite E.
  destruct (bool_decide_reflect (v ∈ adj)) as [Hin|Hin].
  - destruct (Z.eqb_spec a u) as [->|Hne]; simpl; [|apply eq_sym, orb_false_r].
    rewrite E. destruct (Z.eqb_spec b v) as [->|Hbv];
      [|apply eq_sym, orb_false_r].
    rewrite orb_true_r. apply bool_decide_eq_true, Hin.
  - rewrite dict_get_set.
    destruct (Z.eqb_spec a u) as [->|Hne]; simpl; [|apply eq_sym, orb_false_r].
    rewrite E. destruct (Z.eqb_spec b v) as [->|Hbv].
    + rewrite orb_true_r. apply bool_decide_eq_true.
      apply elem_of_app. right. apply list_elem_of_singleton. reflexivity.
    + rewrite orb_false_r. apply bool_decide_ext.
      rewrite elem_of_app, list_elem_of_singleton. tauto.
Qed.

Lemma g_has_node_link (G : Graph) (u v n : Z) :
  is_Some (dict_get G n) -> is_Some (dict_get (g_link G u v) n).
Proof.
  intros Hn. unfold g_link. destruct (dict_get G u) as [adj|]; [|exact Hn].
  destruct (bool_decide (v ∈ adj)); [exact Hn|].
  rewrite dict_get_set. destruct (n =? u); eauto.
Qed.

Lemma g_has_edge_add_edge (G : Graph) (u v a b : Z) :
  g_has_edge (g_add_edge G u v) a b =
  g_has_edge G a b || ((a =? u) && (b =? v)) || ((a =? v) && (b =? u)).
Proof.
  unfold g_add_edge.
  rewrite g_has_edge_link.
  - rewrite g_has_edge_link.
    + rewrite !g_has_edge_add_node. reflexivity.
    + apply g_has_node_add_node. left. apply g_has_node_add_node. auto.
  - apply g_has_node_link, g_has_node_add_node. auto.
Qed.

Lemma g_has_edge_nodes (ns : list Z) (G : Graph) (a b : Z) :
  g_has_edge (foldl g_add_node G ns) a b = g_has_edge G a b.
Proof.
  revert G. induction ns as [|n ns IH]; intros G; simpl; [reflexivity|].
  rewrite IH. apply g_has_edge_add_node.
Qed.

(** [nx.Graph(G)] joins two nodes exactly when [G] has an edge between
    them. *)
Lemma g_has_edge_to_simple (G : MultiGraph) (a b : Z) :
  g_has_edge (to_simple G) a b = mg_joined G a b.
Proof.
  unfold to_simple, mg_joined.
  assert (He : forall (p : Z) (qs : dict nat) H,
             g_has_edge (foldl (fun H' q => g_add_edge H' p q.1) H qs) a b =
             g_has_edge H a b ||
             existsb (fun q : Z * nat =>
                        ((a =? p) && (b =? q.1)) || ((a =? q.1) && (b =? p)))
               qs).
  { intros p. induction qs as [|q qs IH]; intros H0; simpl.
    - rewrite orb_false_r. reflexivity.
    - rewrite IH, g_has_edge_add_edge. rewrite <- !orb_assoc. reflexivity. }
  assert (Hf : forall (G0 : MultiGraph) H0,
             g_has_edge
               (foldl (fun H1 (p : Z * dict nat) =>
                         foldl (fun H' (q : Z * nat) => g_add_edge H' p.1 q.1)
                           H1 p.2) H0 G0) a b =
             g_has_edge H0 a b ||
             existsb (fun p : Z * dict nat =>
                        existsb (fun q : Z * nat =>
                                   ((a =? p.1) && (b =? q.1))
                                   || ((a =? q.1) && (b =? p.1))) p.2) G0).
  { induction G0 as [|p G0 IH]; intros H0; simpl.
    - rewrite orb_false_r. reflexivity.
    - rewrite IH, He. rewrite orb_assoc. reflexivity. }
  rewrite Hf, g_has_edge_nodes. reflexivity.
Qed.

Lemma g_has_edge_sym_to_simple (G : MultiGraph) (a b : Z) :
  g_has_edge (to_simple G) a b = g_has_edge (to_simple G) b a.
Proof.
  rewrite !g_has_edge_to_simple. unfold mg_joined.
  apply eq_true_iff_eq. rewrite !existsb_exists.
  split; intros (p & Hp & Hq); exists p; (split; [exact Hp|]);
    rewrite existsb_exists in *; destruct Hq as (q & Hq & Hab); exists q;
    (split; [exact Hq|]);
    rewrite orb_comm, (andb_comm (_ =? p.1)), (andb_comm (_ =? q.1));
    exact Hab.
Qed.

End NxFacts.

Section CutGraph.

Variable m : TorusMesh.

Lemma cut_arc_step (g : Nx.Graph) (arc : list Z) :
  simple g -> (forall a b, Nx.g_has_edge g a b = Nx.g_has_edge g b a) ->
  exists g', cut_arc m (Ok g) arc = Ok g' /\ simple g' /\
    (forall a b, Nx.g_has_edge g' a b = Nx.g_has_edge g' b a) /\
    forall a b, Nx.g_has_edge g' a b =
                Nx.g_has_edge g a b && negb (cut_by m a b arc).
Proof.
  intros Hs Hsym. unfold cut_arc, cut_by. simpl.
  destruct (is_arc_crossed_boundary m arc) eqn:Hc.
  - destruct arc as [|x arc]; [discriminate|].
    destruct (index_nonempty x arc) as [[a Ea] [b Eb]].
    rewrite Ea, Eb. simpl.
    destruct (Nx.g_remove_edge g a b) as [g'|e|] eqn:Er.
    + exists g'. split; [reflexivity|].
      pose proof (fun u v => NxFacts.g_remove_edge_has g g' a b u v Er) as Hh.
      split; [eapply NxFacts.simple_remove_edge; eauto|]. split.
      * intros u v. rewrite !Hh, (Hsym u v).
        destruct (Nx.g_has_edge g v u), (u =? a), (v =? b), (u =? b),
          (v =? a); reflexivity.
      * intros u v. rewrite Hh.
        destruct (Nx.g_has_edge g u v), (u =? a), (v =? b), (u =? b),
          (v =? a); reflexivity.
    + apply NxFacts.g_remove_edge_error in Er as [-> Hab].
      exists g. split; [reflexivity|]. split; [exact Hs|].
      split; [exact Hsym|]. intros u v.
      destruct (Z.eqb_spec u a) as [->|Hua]; simpl.
      * destruct (Z.eqb_spec v b) as [->|Hvb]; simpl.
        { rewrite Hab. reflexivity. }
        destruct (Z.eqb_spec a b) as [->|Hab']; simpl;
          [|rewrite andb_true_r; reflexivity].
        destruct (Z.eqb_spec v b) as [->|]; [congruence|].
        rewrite andb_true_r. reflexivity.
      * destruct (Z.eqb_spec u b) as [->|Hub]; simpl;
          [|rewrite andb_true_r; reflexivity].
        destruct (Z.eqb_spec v a) as [->|Hva]; simpl;
          [|rewrite andb_true_r; reflexivity].
        rewrite Hsym, Hab. reflexivity.
    + exfalso. eapply NxFacts.g_remove_edge_fuel, Er.
  - exists g. split; [reflexivity|]. split; [exact Hs|]. split; [exact Hsym|].
    intros a b. rewrite andb_true_r. reflexivity.
Qed.

Lemma cut_arcs_fold (arcs_ : list (list Z)) (g : Nx.Graph) :
  simple g -> (forall a b, Nx.g_has_edge g a b = Nx.g_has_edge g b a) ->
  exists g', foldl (cut_arc m) (Ok g) arcs_ = Ok g' /\ simple g' /\
    forall a b, Nx.g_has_edge g' a b =
                Nx.g_has_edge g a b && negb (existsb (cut_by m a b) arcs_).
Proof.
  revert g. induction arcs_ as [|arc arcs_ IH]; intros g Hs Hsym; cbn [foldl].
  - exists g. split; [reflexivity|]. split; [exact Hs|].
    intros a b. simpl. rewrite andb_true_r. reflexivity.
  - destruct (cut_arc_step g arc Hs Hsym) as (g1 & E1 & Hs1 & Hsym1 & H1).
    rewrite E1. destruct (IH g1 Hs1 Hsym1) as (g' & E' & Hs' & H').
    exists g'. split; [exact E'|]. split; [exact Hs'|].
    intros a b. rewrite H', H1. simpl. rewrite negb_orb, andb_assoc. reflexivity.
Qed.

(** C10: [get_cut_morse_graph] returns a graph without parallel edges, in
    which two nodes are joined exactly when the multigraph joins them and no
    arc between them crosses the seam.  So one crossing arc is enough to
    remove the edge between its end cells, whatever the other arcs between
    the same cells do. *)
Theorem cut_morse_graph_collapses :
  exists g, get_cut_morse_graph m = Ok g /\ simple g /\
    (forall a b, Nx.g_has_edge g a b =
                 mg_joined (msgraph m) a b
                 && negb (existsb (cut_by m a b) (list_arcs m))) /\
    (forall arc a b, arc ∈ list_arcs m ->
       is_arc_crossed_boundary m arc = true ->
       index arc 0 = Ok a -> index arc (-1) = Ok b ->
       Nx.g_has_edge g a b = false /\ Nx.g_has_edge g b a = false).
Proof.
  unfold get_cut_morse_graph.
  destruct (cut_arcs_fold (list_arcs m) (Nx.to_simple (msgraph m))
              (NxFacts.simple_to_simple _)
              (NxFacts.g_has_edge_sym_to_simple _)) as (g & E & Hs & Hg).
  exists g. split; [exact E|]. split; [exact Hs|].
  assert (Hchar : forall a b, Nx.g_has_edge g a b =
                 mg_joined (msgraph m) a b
                 && negb (existsb (cut_by m a b) (list_arcs m))).
  { intros a b. rewrite Hg, NxFacts.g_has_edge_to_simple. reflexivity. }
  split; [exact Hchar|].
  intros arc a b Hin Hc Ha Hb.
  assert (Hcut : forall u v, (u = a /\ v = b) \/ (u = b /\ v = a) ->
                 existsb (cut_by m u v) (list_arcs m) = true).
  { intros u v Huv. apply existsb_exists. exists arc.
    split; [apply list_elem_of_In, Hin|].
    unfold cut_by. rewrite Hc, Ha, Hb. simpl.
    destruct Huv as [[-> ->]|[-> ->]]; rewrite !Z.eqb_refl; simpl;
      [reflexivity|apply orb_true_r]. }
  split; rewrite Hchar, Hcut by auto; apply andb_false_r.
Qed.

End CutGraph.

(** ** The neighbour accessors on the torus *)

Section Torus.

Variable g : dims.
Hypothesis HX : 0 < sizeX g.
Hypothesis HY : 0 < sizeY g.

Lemma mod_succ (n x : Z) :
  0 < n -> 0 <= x < n -> (x + 1) mod n = if x + 1 =? n then 0 else x + 1.
Proof.
  intros Hn Hx. destruct (Z.eqb_spec (x + 1) n) as [->|Hne].
  - apply Z_mod_same_full.
  - apply Z.mod_small. lia.
Qed.

Lemma mod_pred (n x : Z) :
  0 < n -> 0 <= x < n -> (x - 1) mod n = if x =? 0 then n - 1 else x - 1.
Proof.
  intros Hn Hx. destruct (Z.eqb_spec x 0) as [->|Hne].
  - symmetry. apply (Z.mod_unique_pos _ _ (-1)); lia.
  - apply Z.mod_small. lia.
Qed.

(** A vertex together with its four neighbours, in coordinates. *)
Lemma neighbours (idx : Z) :
  0 <= idx < size g ->
  exists x y,
    0 <= x < sizeX g /\ 0 <= y < sizeY g /\ idx = y * sizeX g + x /\
    _vleft g idx = y * sizeX g + (if x =? 0 then sizeX g - 1 else x - 1) /\
    _vright g idx = y * sizeX g + (if x + 1 =? sizeX g then 0 else x + 1) /\
    _vtop g idx = (if y =? 0 then sizeY g - 1 else y - 1) * sizeX g + x /\
    _vbottom g idx = (if y + 1 =? sizeY g then 0 else y + 1) * sizeX g + x.
Proof using HX HY.
  intros Hi. destruct (vertex_split g HX idx Hi) as (E & Hx & Hy).
  exists (coordx g idx), (coordy g idx).
  split; [exact Hx|]. split; [exact Hy|]. split; [exact E|].
  rewrite <- (mod_pred (sizeX g)), <- (mod_succ (sizeX g)),
    <- (mod_pred (sizeY g)), <- (mod_succ (sizeY g)) by assumption.
  revert E Hx Hy. generalize (coordx g idx) (coordy g idx).
  intros x y -> Hx Hy.
  rewrite _vleft_split, _vright_split, _vtop_split, _vbottom_split
    by assumption.
  auto.
Qed.

Lemma grid_cell (x y : Z) :
  0 <= x < sizeX g -> 0 <= y < sizeY g -> 0 <= y * sizeX g + x < size g.
Proof using HX HY. apply in_grid; assumption. Qed.

Lemma grid_cell_inj (x y x' y' : Z) :
  0 <= x < sizeX g -> 0 <= x' < sizeX g ->
  y * sizeX g + x = y' * sizeX g + x' -> x = x' /\ y = y'.
Proof using HX.
  intros Hx Hx' E.
  destruct (coords_of_split g HX x y Hx) as [E1 E2].
  destruct (coords_of_split g HX x' y' Hx') as [E1' E2'].
  rewrite E in E1, E2. split; congruence.
Qed.

End Torus.

(** [torus idx as x y] replaces the vertex [idx] of the goal by its
    coordinates. *)
Ltac torus_at g HX HY idx Hi :=
  let x := fresh "x" in
  let y := fresh "y" in
  let Hx := fresh "Hx" in
  let Hy := fresh "Hy" in
  let E := fresh "E" in
  let El := fresh "El" in
  let Er := fresh "Er" in
  let Et := fresh "Et" in
  let Eb := fresh "Eb" in
  destruct (neighbours g HX HY idx Hi) as (x & y & Hx & Hy & E & El & Er & Et & Eb).

Section TorusNeighbours.

Variable g : dims.
Hypothesis HX : 0 < sizeX g.
Hypothesis HY : 0 < sizeY g.

Ltac cases_coords :=
  repeat match goal with
         | H : context [if ?b =? ?c then _ else _] |- _ =>
             destruct (Z.eqb_spec b c)
         | |- context [if ?b =? ?c then _ else _] =>
             destruct (Z.eqb_spec b c)
         end.

Lemma neighbour_range (idx : Z) :
  0 <= idx < size g ->
  0 <= _vleft g idx < size g /\ 0 <= _vright g idx < size g /\
  0 <= _vtop g idx < size g /\ 0 <= _vbottom g idx < size g.
Proof using HX HY.
  intros Hi. torus_at g HX HY idx Hi.
  rewrite El, Er, Et, Eb.
  repeat split; apply (grid_cell g HX HY); cases_coords; lia.
Qed.

Lemma _vright_vleft (idx : Z) :
  0 <= idx < size g -> _vright g (_vleft g idx) = idx.
Proof using HX HY.
  intros Hi. pose proof (neighbour_range idx Hi) as (Hl & _).
  torus_at g HX HY idx Hi. torus_at g HX HY (_vleft g idx) Hl.
  rewrite El in E0.
  apply (grid_cell_inj g HX) in E0 as [<- <-]; [|cases_coords; lia|lia].
  rewrite Er0, E. f_equal. cases_coords; lia.
Qed.

Lemma _vleft_vright (idx : Z) :
  0 <= idx < size g -> _vleft g (_vright g idx) = idx.
Proof using HX HY.
  intros Hi. pose proof (neighbour_range idx Hi) as (_ & Hr & _).
  torus_at g HX HY idx Hi. torus_at g HX HY (_vright g idx) Hr.
  rewrite Er in E0.
  apply (grid_cell_inj g HX) in E0 as [<- <-]; [|cases_coords; lia|lia].
  rewrite El0, E. f_equal. cases_coords; lia.
Qed.

Lemma _vbottom_vtop (idx : Z) :
  0 <= idx < size g -> _vbottom g (_vtop g idx) = idx.
Proof using HX HY.
  intros Hi. pose proof (neighbour_range idx Hi) as (_ & _ & Ht & _).
  torus_at g HX HY idx Hi. torus_at g HX HY (_vtop g idx) Ht.
  rewrite Et in E0.
  apply (grid_cell_inj g HX) in E0 as [<- <-]; [|lia|lia].
  rewrite Eb0, E. f_equal. cases_coords; nia.
Qed.

Lemma _vtop_vbottom (idx : Z) :
  0 <= idx < size g -> _vtop g (_vbottom g idx) = idx.
Proof using HX HY.
  intros Hi. pose proof (neighbour_range idx Hi) as (_ & _ & _ & Hb).
  torus_at g HX HY idx Hi. torus_at g HX HY (_vbottom g idx) Hb.
  rewrite Eb in E0.
  apply (grid_cell_inj g HX) in E0 as [<- <-]; [|lia|lia].
  rewrite Et0, E. f_equal. cases_coords; nia.
Qed.

Lemma _vleft_at (x y : Z) :
  0 <= x < sizeX g ->
  _vleft g (y * sizeX g + x) =
  y * sizeX g + (if x =? 0 then sizeX g - 1 else x - 1).
Proof using HX.
  intros Hx. rewrite _vleft_split, mod_pred by assumption. reflexivity.
Qed.

Lemma _vright_at (x y : Z) :
  0 <= x < sizeX g ->
  _vright g (y * sizeX g + x) =
  y * sizeX g + (if x + 1 =? sizeX g then 0 else x + 1).
Proof using HX.
  intros Hx. rewrite _vright_split, mod_succ by assumption. reflexivity.
Qed.

Lemma _vtop_at (x y : Z) :
  0 <= x < sizeX g -> 0 <= y < sizeY g ->
  _vtop g (y * sizeX g + x) =
  (if y =? 0 then sizeY g - 1 else y - 1) * sizeX g + x.
Proof using HX HY.
  intros Hx Hy. rewrite _vtop_split, mod_pred by assumption. reflexivity.
Qed.

Lemma _vbottom_at (x y : Z) :
  0 <= x < sizeX g -> 0 <= y < sizeY g ->
  _vbottom g (y * sizeX g + x) =
  (if y + 1 =? sizeY g then 0 else y + 1) * sizeX g + x.
Proof using HX HY.
  intros Hx Hy. rewrite _vbottom_split, mod_succ by assumption. reflexivity.
Qed.

Ltac in_coords idx Hi :=
  let x := fresh "x" in
  let y := fresh "y" in
  let Hx := fresh "Hx" in
  let Hy := fresh "Hy" in
  let E := fresh "E" in
  destruct (vertex_split g HX idx Hi) as (E & Hx & Hy);
  revert E Hx Hy; generalize (coordx g idx) (coordy g idx);
  intros x y E Hx Hy; subst idx.

Ltac walk :=
  repeat first
    [ rewrite _vleft_at by (cases_coords; lia)
    | rewrite _vright_at by (cases_coords; lia)
    | rewrite _vtop_at by (cases_coords; lia)
    | rewrite _vbottom_at by (cases_coords; lia) ].

Lemma _vleft_vtop (idx : Z) :
  0 <= idx < size g -> _vleft g (_vtop g idx) = _vtop g (_vleft g idx).
Proof using HX HY. intros Hi. in_coords idx Hi. walk. reflexivity. Qed.

Lemma _vright_vtop (idx : Z) :
  0 <= idx < size g -> _vright g (_vtop g idx) = _vtop g (_vright g idx).
Proof using HX HY. intros Hi. in_coords idx Hi. walk. reflexivity. Qed.

Lemma _vleft_vbottom (idx : Z) :
  0 <= idx < size g -> _vleft g (_vbottom g idx) = _vbottom g (_vleft g idx).
Proof using HX HY. intros Hi. in_coords idx Hi. walk. reflexivity. Qed.

Lemma _vright_vbottom (idx : Z) :
  0 <= idx < size g -> _vright g (_vbottom g idx) = _vbottom g (_vright g idx).
Proof using HX HY. intros Hi. in_coords idx Hi. walk. reflexivity. Qed.

(** A vertex is its own horizontal neighbour only on a grid one column wide,
    and its own vertical neighbour only on a grid one row high. *)
Lemma _vright_fixed (idx : Z) :
  0 <= idx < size g -> _vright g idx = idx -> sizeX g = 1.
Proof using HX HY.
  intros Hi. in_coords idx Hi. walk. cases_coords; lia.
Qed.

Lemma _vleft_fixed (idx : Z) :
  0 <= idx < size g -> _vleft g idx = idx -> sizeX g = 1.
Proof using HX HY.
  intros Hi. in_coords idx Hi. walk. cases_coords; lia.
Qed.

Lemma _vbottom_fixed (idx : Z) :
  0 <= idx < size g -> _vbottom g idx = idx -> sizeY g = 1.
Proof using HX HY.
  intros Hi. in_coords idx Hi. walk. cases_coords; nia.
Qed.

Lemma _vtop_fixed (idx : Z) :
  0 <= idx < size g -> _vtop g idx = idx -> sizeY g = 1.
Proof using HX HY.
  intros Hi. in_coords idx Hi. walk. cases_coords; nia.
Qed.

(** Vertical neighbours lie in another row than horizontal ones. *)
Lemma row_differs (idx : Z) :
  0 <= idx < size g -> 2 <= sizeY g ->
  _vtop g idx <> idx /\ _vbottom g idx <> idx /\
  _vtop g idx <> _vleft g idx /\ _vtop g idx <> _vright g idx /\
  _vbottom g idx <> _vleft g idx /\ _vbottom g idx <> _vright g idx.
Proof using HX HY.
  intros Hi H2. in_coords idx Hi. walk.
  repeat split; intros Heq;
    apply (grid_cell_inj g HX) in Heq as [_ Heq];
    cases_coords; lia.
Qed.

End TorusNeighbours.

(** ** Cells and their vertices *)

Section Cells.

Variable g : dims.
Hypothesis HX : 0 < sizeX g.
Hypothesis HY : 0 < sizeY g.

Lemma dim_vertex (c : Z) : c < size g -> dim g c = 0.
Proof. intros Hc. unfold dim. destruct (Z.ltb_spec c (size g)); lia. Qed.

Lemma dim_edge (c : Z) : size g <= c < 3 * size g -> dim g c = 1.
Proof.
  intros Hc. unfold dim.
  destruct (Z.ltb_spec c (size g)); [lia|].
  destruct (Z.ltb_spec c (3 * size g)); lia.
Qed.

Lemma dim_face (c : Z) : 3 * size g <= c -> dim g c = 2.
Proof using HX HY.
  intros Hc. pose proof (size_pos g HX HY). unfold dim.
  destruct (Z.ltb_spec c (size g)); [lia|].
  destruct (Z.ltb_spec c (3 * size g)); lia.
Qed.

Lemma dim_cases (c : Z) :
  (dim g c = 0 /\ c < size g) \/
  (dim g c = 1 /\ size g <= c < 3 * size g) \/
  (dim g c = 2 /\ 3 * size g <= c).
Proof using HX HY.
  pose proof (size_pos g HX HY). unfold dim.
  destruct (Z.ltb_spec c (size g)); [lia|].
  destruct (Z.ltb_spec c (3 * size g)); lia.
Qed.

Lemma verts_hedge (t : Z) :
  0 <= t < size g -> _verts g (size g + t) = [t; _vright g t].
Proof.
  intros Ht. unfold _verts.
  destruct (Z.ltb_spec (size g + t) (size g)); [lia|].
  destruct (Z.ltb_spec (size g + t) (2 * size g)); [|lia].
  replace (size g + t - size g) with t by lia. reflexivity.
Qed.

Lemma verts_vedge (t : Z) :
  0 <= t < size g -> _verts g (size g * 2 + t) = [t; _vbottom g t].
Proof.
  intros Ht. unfold _verts.
  destruct (Z.ltb_spec (size g * 2 + t) (size g)); [lia|].
  destruct (Z.ltb_spec (size g * 2 + t) (2 * size g)); [lia|].
  destruct (Z.ltb_spec (size g * 2 + t) (3 * size g)); [|lia].
  replace (size g * 2 + t - 2 * size g) with t by lia. reflexivity.
Qed.

Lemma verts_face (t : Z) :
  0 <= t < size g ->
  _verts g (size g * 3 + t) =
  [t; _vright g t; _vbottom g (_vright g t); _vbottom g t].
Proof.
  intros Ht. unfold _verts.
  destruct (Z.ltb_spec (size g * 3 + t) (size g)); [lia|].
  destruct (Z.ltb_spec (size g * 3 + t) (2 * size g)); [lia|].
  destruct (Z.ltb_spec (size g * 3 + t) (3 * size g)); [lia|].
  replace (size g * 3 + t - 3 * size g) with t by lia. reflexivity.
Qed.

Lemma facets_face (t : Z) :
  0 <= t < size g ->
  _facets g (size g * 3 + t) =
  [size g + t; 2 * size g + t; size g + _vbottom g t;
   2 * size g + _vright g t].
Proof using HX HY.
  intros Ht. unfold _facets. rewrite dim_face by lia. simpl.
  replace (size g * 3 + t - 3 * size g) with t by lia. reflexivity.
Qed.

Lemma facets_below (c : Z) : c < 3 * size g -> _facets g c = _verts g c.
Proof using HX HY.
  intros Hc. unfold _facets.
  destruct (dim_cases c) as [[-> _]|[[-> _]|[_ H]]]; [reflexivity..|lia].
Qed.

(** The vertices of a cell are vertices. *)
Lemma verts_range (c u : Z) :
  0 <= c < 4 * size g -> u ∈ _verts g c -> 0 <= u < size g.
Proof using HX HY.
  intros Hc Hu. unfold _verts in Hu.
  assert (Hn : forall t, 0 <= t < size g ->
             0 <= _vright g t < size g /\ 0 <= _vbottom g t < size g).
  { intros t Ht. destruct (neighbour_range g HX HY t Ht) as (_ & ? & _ & ?).
    auto. }
  destruct (Z.ltb_spec c (size g)).
  { apply list_elem_of_singleton in Hu. lia. }
  destruct (Z.ltb_spec c (2 * size g)).
  { destruct (Hn (c - size g)) as [? ?]; [lia|].
    repeat (apply elem_of_cons in Hu as [->|Hu]; [lia|]).
    apply elem_of_nil in Hu. contradiction. }
  destruct (Z.ltb_spec c (3 * size g)).
  { destruct (Hn (c - 2 * size g)) as [? ?]; [lia|].
    repeat (apply elem_of_cons in Hu as [->|Hu]; [lia|]).
    apply elem_of_nil in Hu. contradiction. }
  destruct (Hn (c - 3 * size g)) as [? ?]; [lia|].
  destruct (Hn (_vright g (c - 3 * size g))) as [? ?]; [lia|].
  repeat (apply elem_of_cons in Hu as [->|Hu]; [lia|]).
  apply elem_of_nil in Hu. contradiction.
Qed.

(** The facets of a face are edges, those of an edge are vertices. *)
Lemma facets_range (c f : Z) :
  0 <= c < 4 * size g -> f ∈ _facets g c ->
  (c < 3 * size g /\ 0 <= f < size g) \/
  (3 * size g <= c /\ size g <= f < 3 * size g).
Proof using HX HY.
  intros Hc Hf. destruct (Z.lt_ge_cases c (3 * size g)) as [Hlt|Hge].
  - left. split; [exact Hlt|]. rewrite facets_below in Hf by exact Hlt.
    eapply verts_range; eauto.
  - right. split; [exact Hge|].
    replace c with (size g * 3 + (c - 3 * size g)) in Hf by lia.
    rewrite facets_face in Hf by lia.
    destruct (neighbour_range g HX HY (c - 3 * size g)) as (_ & ? & _ & ?);
      [lia|].
    repeat (apply elem_of_cons in Hf as [->|Hf]; [lia|]).
    apply elem_of_nil in Hf. contradiction.
Qed.

(** An edge among the facets of a face has that face among its cofacets. *)
Lemma cofacets_of_facet (t e : Z) :
  0 <= t < size g -> e ∈ _facets g (size g * 3 + t) ->
  exists c1 c2, _cofacets g e = Ok (c1, c2) /\
                (size g * 3 + t = c1 \/ size g * 3 + t = c2).
Proof using HX HY.
  intros Ht He. rewrite facets_face in He by exact Ht.
  destruct (neighbour_range g HX HY t Ht) as (_ & Hr & _ & Hb).
  unfold _cofacets.
  repeat (apply elem_of_cons in He as [->|He]).
  - rewrite dim_edge by lia. simpl.
    destruct (Z.ltb_spec (size g + t) (2 * size g)); [|lia].
    eexists _, _. split; [reflexivity|]. right. lia.
  - rewrite dim_edge by lia. simpl.
    destruct (Z.ltb_spec (2 * size g + t) (2 * size g)); [lia|].
    eexists _, _. split; [reflexivity|]. right. lia.
  - rewrite dim_edge by lia. simpl.
    destruct (Z.ltb_spec (size g + _vbottom g t) (2 * size g)); [|lia].
    eexists _, _. split; [reflexivity|]. left.
    replace (size g + _vbottom g t - size g) with (_vbottom g t) by lia.
    rewrite (_vtop_vbottom g HX HY t Ht). lia.
  - rewrite dim_edge by lia. simpl.
    destruct (Z.ltb_spec (2 * size g + _vright g t) (2 * size g)); [lia|].
    eexists _, _. split; [reflexivity|]. left.
    replace (2 * size g + _vright g t - 2 * size g) with (_vright g t) by lia.
    rewrite (_vleft_vright g HX HY t Ht). lia.
  - apply elem_of_nil in He. contradiction.
Qed.

Lemma cofacets_edge (e : Z) :
  size g <= e < 3 * size g ->
  exists c1 c2, _cofacets g e = Ok (c1, c2) /\
    3 * size g <= c1 < 4 * size g /\ 3 * size g <= c2 < 4 * size g /\
    (2 <= sizeX g -> 2 <= sizeY g -> c1 <> c2).
Proof using HX HY.
  intros He. unfold _cofacets. rewrite dim_edge by exact He. simpl.
  destruct (Z.ltb_spec e (2 * size g)).
  - destruct (neighbour_range g HX HY (e - size g)) as (_ & _ & Ht & _);
      [lia|].
    eexists _, _. split; [reflexivity|]. repeat split; try lia.
    intros _ H2 Heq.
    assert (Hf : _vtop g (e - size g) = e - size g) by lia.
    apply (_vtop_fixed g HX HY) in Hf; lia.
  - destruct (neighbour_range g HX HY (e - 2 * size g)) as (Hl & _); [lia|].
    eexists _, _. split; [reflexivity|]. repeat split; try lia.
    intros H2 _ Heq.
    assert (Hf : _vleft g (e - 2 * size g) = e - 2 * size g) by lia.
    apply (_vleft_fixed g HX HY) in Hf; lia.
Qed.

Lemma facets_NoDup (t : Z) :
  2 <= sizeX g -> 2 <= sizeY g -> 0 <= t < size g ->
  NoDup (_facets g (size g * 3 + t)).
Proof using HX HY.
  intros H2x H2y Ht. rewrite facets_face by exact Ht.
  destruct (neighbour_range g HX HY t Ht) as (_ & Hr & _ & Hb).
  assert (Hb' : _vbottom g t <> t).
  { intros Hf. apply (_vbottom_fixed g HX HY) in Hf; lia. }
  assert (Hr' : _vright g t <> t).
  { intros Hf. apply (_vright_fixed g HX HY) in Hf; lia. }
  repeat (apply NoDup_cons; split;
          [rewrite ?elem_of_cons, elem_of_nil; lia|]).
  apply NoDup_nil_2.
Qed.

End Cells.

(** ** Extended values *)

Lemma tuple_lt_irrefl (a : list Z) : tuple_lt a a = false.
Proof.
  induction a as [|x a IH]; simpl; [reflexivity|].
  rewrite Z.ltb_irrefl. exact IH.
Qed.

Lemma tuple_lt_trans (a b c : list Z) :
  tuple_lt a b = true -> tuple_lt b c = true -> tuple_lt a c = true.
Proof.
  revert b c. induction a as [|x a IH]; intros [|y b] [|z c]; simpl;
    try discriminate; try reflexivity.
  destruct (Z.ltb_spec x y), (Z.ltb_spec y x), (Z.ltb_spec y z),
    (Z.ltb_spec z y), (Z.ltb_spec x z), (Z.ltb_spec z x);
    try discriminate; try reflexivity; try lia.
  apply IH.
Qed.

Lemma tuple_lt_asym (a b : list Z) :
  tuple_lt a b = true -> tuple_lt b a = false.
Proof.
  intros Hab. destruct (tuple_lt b a) eqn:Hba; [|reflexivity].
  rewrite <- (tuple_lt_irrefl a). symmetry. eapply tuple_lt_trans; eauto.
Qed.

Lemma tuple_ge_trans (a b c : list Z) :
  tuple_lt b a = false -> tuple_lt c b = false -> tuple_lt c a = false.
Proof.
  revert b c. induction a as [|x a IH]; intros [|y b] [|z c]; simpl;
    try discriminate; try reflexivity.
  destruct (Z.ltb_spec x y), (Z.ltb_spec y x), (Z.ltb_spec y z),
    (Z.ltb_spec z y), (Z.ltb_spec x z), (Z.ltb_spec z x);
    try discriminate; try reflexivity; try lia.
  apply IH.
Qed.

(** A decreasing tuple grows when a number is put at its place in it. *)
Lemma tuple_lt_cons_bound (y : Z) (s : list Z) :
  Forall (fun z => z <= y) s -> tuple_lt s (y :: s) = true.
Proof.
  revert y. induction s as [|z s IH]; intros y Hs; simpl; [reflexivity|].
  apply Forall_cons in Hs as [Hz Hs].
  destruct (Z.ltb_spec z y); [reflexivity|].
  destruct (Z.ltb_spec y z); [lia|].
  assert (z = y) as -> by lia. apply IH, Hs.
Qed.

Lemma tuple_lt_insert (x : Z) (s : list Z) :
  StronglySorted (fun a b => b <= a) s ->
  tuple_lt s (insert_by (fun y x => x <? y) x s) = true.
Proof.
  induction 1 as [|y s Hs IH Hy]; simpl; [reflexivity|].
  destruct (Z.ltb_spec x y).
  - simpl. rewrite Z.ltb_irrefl. exact IH.
  - simpl. destruct (Z.ltb_spec y x); [reflexivity|].
    destruct (Z.ltb_spec x y); [lia|].
    assert (x = y) as -> by lia.
    apply tuple_lt_cons_bound. exact Hy.
Qed.

Lemma sorted_desc_of_perm (l l' : list Z) :
  l ≡ₚ l' -> sorted_desc l = sorted_desc l'.
Proof.
  intros Hp.
  eapply (StronglySorted_unique (fun a b : Z => b <= a));
    [apply sorted_desc_sorted..|].
  rewrite !sorted_desc_perm. exact Hp.
  Unshelve. intros a b Hab Hba. lia.
Qed.

Lemma sorted_desc_grows (a b : list Z) :
  b <> [] -> tuple_lt (sorted_desc a) (sorted_desc (b ++ a)) = true.
Proof.
  induction b as [|x b IH]; intros Hb; [congruence|].
  change (sorted_desc ((x :: b) ++ a))
    with (insert_by (fun y x => x <? y) x (sorted_desc (b ++ a))).
  destruct b as [|x' b].
  - apply tuple_lt_insert, sorted_desc_sorted.
  - eapply tuple_lt_trans; [apply IH; discriminate|].
    apply tuple_lt_insert, sorted_desc_sorted.
Qed.

(** ** Lower stars *)

Lemma elem_of_option_cell (b : bool) (x c : Z) :
  c ∈ (if b then [x] else []) <-> b = true /\ c = x.
Proof.
  destruct b.
  - rewrite list_elem_of_singleton. tauto.
  - split; [intros H; apply elem_of_nil in H; contradiction|].
    intros [? _]. discriminate.
Qed.

Lemma sublist_option_cell (b : bool) (x : Z) (l l' : list Z) :
  sublist l l' -> sublist ((if b then [x] else []) ++ l) (x :: l').
Proof.
  intros Hl. destruct b; simpl.
  - apply sublist_skip, Hl.
  - apply sublist_cons, Hl.
Qed.

Section LowerStar.

Variable m : TorusMesh.
Hypothesis HX : 0 < sizeX (grid m).
Hypothesis HY : 0 < sizeY (grid m).
Variable idx : Z.
Hypothesis Hi : 0 <= idx < size (grid m).

Local Abbreviation g := (grid m).
Local Abbreviation low u := (value m u < value m idx).

Lemma lower_star_perm : lower_star m idx ≡ₚ lower_star_cells m idx.
Proof. apply sort_by_perm. Qed.

Lemma elem_lower_star (c : Z) :
  c ∈ lower_star m idx <->
  (low (_vleft g idx) /\ c = _eleft g idx) \/
  (low (_vtop g idx) /\ c = _etop g idx) \/
  (low (_vright g idx) /\ c = _eright g idx) \/
  (low (_vbottom g idx) /\ c = _ebottom g idx) \/
  ((low (_vleft g idx) /\ low (_vtop g idx) /\ low (_vleft g (_vtop g idx)))
   /\ c = _flefttop g idx) \/
  ((low (_vright g idx) /\ low (_vtop g idx) /\ low (_vright g (_vtop g idx)))
   /\ c = _frighttop g idx) \/
  ((low (_vleft g idx) /\ low (_vbottom g idx)
    /\ low (_vleft g (_vbottom g idx))) /\ c = _fleftbottom g idx) \/
  ((low (_vright g idx) /\ low (_vbottom g idx)
    /\ low (_vright g (_vbottom g idx))) /\ c = _frightbottom g idx).
Proof.
  rewrite lower_star_perm. unfold lower_star_cells.
  rewrite !elem_of_app, !elem_of_option_cell, !andb_true_iff, !Z.ltb_lt.
  tauto.
Qed.

Lemma lower_star_sublist :
  sublist (lower_star_cells m idx)
    [_eleft g idx; _etop g idx; _eright g idx; _ebottom g idx;
     _flefttop g idx; _frighttop g idx; _fleftbottom g idx;
     _frightbottom g idx].
Proof.
  unfold lower_star_cells.
  repeat apply sublist_option_cell.
  match goal with |- sublist (if ?b then _ else _) _ => destruct b end;
    [reflexivity|apply sublist_nil_l].
Qed.

Lemma lower_star_length : (length (lower_star m idx) <= 8)%nat.
Proof.
  rewrite lower_star_perm.
  apply (sublist_length _ _ lower_star_sublist).
Qed.

(** A lower neighbour is another vertex. *)
Lemma low_differs (u : Z) : low u -> u <> idx.
Proof. intros Hl ->. lia. Qed.

Lemma low_horizontal :
  low (_vleft g idx) \/ low (_vright g idx) -> 2 <= sizeX g.
Proof using HX HY Hi.
  intros Hl. assert (sizeX g <> 1); [|lia]. intros H1.
  torus_at (grid m) HX HY idx Hi. rewrite El, Er in Hl.
  assert (x = 0) as -> by lia.
  destruct (Z.eqb_spec 0 0); [|lia].
  destruct (Z.eqb_spec (0 + 1) (sizeX g)); [|lia].
  rewrite E, H1 in Hl. replace (1 - 1) with 0 in Hl by lia.
  lia.
Qed.

Lemma low_vertical :
  low (_vtop g idx) \/ low (_vbottom g idx) -> 2 <= sizeY g.
Proof using HX HY Hi.
  intros Hl. assert (sizeY g <> 1); [|lia]. intros H1.
  torus_at (grid m) HX HY idx Hi. rewrite Et, Eb in Hl.
  assert (y = 0) as -> by lia.
  destruct (Z.eqb_spec 0 0); [|lia].
  destruct (Z.eqb_spec (0 + 1) (sizeY g)); [|lia].
  rewrite E, H1 in Hl. replace (1 - 1) with 0 in Hl by lia.
  lia.
Qed.

(** The vertices of the cells around [idx]. *)
Lemma star_verts :
  _verts g (_eleft g idx) = [_vleft g idx; idx] /\
  _verts g (_etop g idx) = [_vtop g idx; idx] /\
  _verts g (_eright g idx) = [idx; _vright g idx] /\
  _verts g (_ebottom g idx) = [idx; _vbottom g idx] /\
  _verts g (_flefttop g idx) =
    [_vleft g (_vtop g idx); _vtop g idx; idx; _vleft g idx] /\
  _verts g (_frighttop g idx) =
    [_vtop g idx; _vright g (_vtop g idx); _vright g idx; idx] /\
  _verts g (_fleftbottom g idx) =
    [_vleft g idx; idx; _vbottom g idx; _vleft g (_vbottom g idx)] /\
  _verts g (_frightbottom g idx) =
    [idx; _vright g idx; _vright g (_vbottom g idx); _vbottom g idx].
Proof using HX HY Hi.
  destruct (neighbour_range g HX HY idx Hi) as (Hl & Hr & Ht & Hb).
  destruct (neighbour_range g HX HY _ Hl) as (_ & _ & Hlt & _).
  unfold _eleft, _etop, _eright, _ebottom, _flefttop, _frighttop,
    _fleftbottom, _frightbottom.
  rewrite !verts_hedge, !verts_vedge, !verts_face by assumption.
  rewrite (_vright_vleft g HX HY idx Hi), (_vbottom_vtop g HX HY idx Hi).
  do 4 (split; [reflexivity|]).
  split; [|split; [|split]].
  - rewrite <- (_vleft_vtop g HX HY idx Hi).
    rewrite (_vright_vleft g HX HY _ Ht).
    rewrite <- (_vleft_vbottom g HX HY _ Ht).
    rewrite (_vbottom_vtop g HX HY idx Hi). reflexivity.
  - rewrite <- (_vright_vbottom g HX HY _ Ht).
    rewrite (_vbottom_vtop g HX HY idx Hi). reflexivity.
  - rewrite <- (_vleft_vbottom g HX HY idx Hi). reflexivity.
  - rewrite <- (_vright_vbottom g HX HY idx Hi). reflexivity.
Qed.

Lemma NoDup_option_cell (b : bool) (x : Z) (l : list Z) :
  NoDup l -> (b = true -> x ∉ l) -> NoDup ((if b then [x] else []) ++ l).
Proof.
  intros Hl Hx. destruct b; simpl; [|exact Hl].
  apply NoDup_cons. auto.
Qed.

(** What tells the cells around [idx] apart. *)
Lemma star_apart :
  (low (_vleft g idx) \/ low (_vright g idx) -> 2 <= sizeX g) /\
  (low (_vtop g idx) \/ low (_vbottom g idx) -> 2 <= sizeY g) /\
  (_vleft g idx = idx -> sizeX g = 1) /\
  (_vtop g idx = idx -> sizeY g = 1) /\
  (_vtop g (_vleft g idx) = _vtop g idx -> sizeX g = 1) /\
  (_vtop g (_vleft g idx) = _vleft g idx -> sizeY g = 1) /\
  (_vtop g (_vleft g idx) = idx -> sizeY g = 1) /\
  (_vtop g idx = _vleft g idx -> sizeY g = 1) /\
  0 <= _vleft g idx < size g /\ 0 <= _vright g idx < size g /\
  0 <= _vtop g idx < size g /\ 0 <= _vbottom g idx < size g /\
  0 <= _vtop g (_vleft g idx) < size g.
Proof using HX HY Hi.
  destruct (neighbour_range g HX HY idx Hi) as (Hl & Hr & Ht & Hb).
  destruct (neighbour_range g HX HY _ Hl) as (_ & _ & Hlt & _).
  split; [apply low_horizontal|]. split; [apply low_vertical|].
  split; [apply (_vleft_fixed g HX HY idx Hi)|].
  split; [apply (_vtop_fixed g HX HY idx Hi)|].
  split.
  { intros Heq. apply (_vleft_fixed g HX HY idx Hi).
    rewrite <- (_vbottom_vtop g HX HY _ Hl), Heq.
    apply (_vbottom_vtop g HX HY idx Hi). }
  split; [apply (_vtop_fixed g HX HY _ Hl)|].
  split.
  { intros Heq. destruct (Z.eq_dec (sizeY g) 1) as [|Hne]; [assumption|].
    destruct (row_differs g HX HY _ Hl) as (_ & _ & _ & Hd & _); [lia|].
    rewrite (_vright_vleft g HX HY idx Hi) in Hd. contradiction. }
  split.
  { intros Heq. destruct (Z.eq_dec (sizeY g) 1) as [|Hne]; [assumption|].
    destruct (row_differs g HX HY _ Hi) as (_ & _ & Hd & _); [lia|].
    contradiction. }
  auto 10.
Qed.

Lemma lower_star_range (c : Z) :
  c ∈ lower_star m idx -> size g <= c < 4 * size g.
Proof using HX HY Hi.
  rewrite elem_lower_star.
  destruct star_apart as (_ & _ & _ & _ & _ & _ & _ & _ & ? & ? & ? & ? & ?).
  unfold _eleft, _etop, _eright, _ebottom, _flefttop, _frighttop,
    _fleftbottom, _frightbottom.
  intros Hc. decompose [and or] Hc; subst c; lia.
Qed.

Lemma lower_star_NoDup : NoDup (lower_star m idx).
Proof using HX HY Hi.
  rewrite lower_star_perm. unfold lower_star_cells.
  pose proof star_apart as Hap.
  repeat (apply NoDup_option_cell;
          [|rewrite ?app_nil_r, ?elem_of_app, ?elem_of_option_cell,
              ?andb_true_iff, ?Z.ltb_lt;
            unfold _eleft, _etop, _eright, _ebottom, _flefttop, _frighttop,
              _fleftbottom, _frightbottom; lia]).
  match goal with |- NoDup (if ?b then _ else _) => destruct b end;
    [apply NoDup_singleton|apply NoDup_nil_2].
Qed.

Lemma lower_star_owns (c : Z) : c ∈ lower_star m idx -> owns m idx c.
Proof using HX HY Hi.
  rewrite elem_lower_star. unfold owns.
  destruct star_verts as (E1 & E2 & E3 & E4 & E5 & E6 & E7 & E8).
  intros Hc. decompose [and or] Hc; subst c;
    rewrite ?E1, ?E2, ?E3, ?E4, ?E5, ?E6, ?E7, ?E8;
    (split; [rewrite !elem_of_cons; auto 10|]);
    intros u Hu;
    repeat (apply elem_of_cons in Hu as [->|Hu]; [auto|]);
    apply elem_of_nil in Hu; contradiction.
Qed.

(** A face of the lower star comes with two of its edges, and its extended
    value is above that of one of them. *)
Lemma lower_star_face (c : Z) :
  c ∈ lower_star m idx -> 3 * size g <= c ->
  2 <= sizeX g /\ 2 <= sizeY g /\
  exists e1 e2,
    size g <= e1 < 2 * size g /\ 2 * size g <= e2 < 3 * size g /\
    e1 ∈ lower_star m idx /\ e2 ∈ lower_star m idx /\
    e1 ∈ _facets g c /\ e2 ∈ _facets g c /\
    tuple_lt (_extvalue m e1) (_extvalue m c) = true.
Proof using HX HY Hi.
  intros Hc H3. pose proof Hc as Hc'. rewrite elem_lower_star in Hc'.
  pose proof star_apart as Hap.
  destruct Hap as (HW & HH & _ & _ & _ & _ & _ & _ & Hl & Hr & Ht & Hb & Hlt).
  destruct star_verts as (E1 & E2 & E3 & E4 & E5 & E6 & E7 & E8).
  assert (Hgrow : forall e a b l,
            List.map (value m) (_verts g e) = l ->
            List.map (value m) (_verts g c) ≡ₚ [a; b] ++ l ->
            tuple_lt (_extvalue m e) (_extvalue m c) = true).
  { intros e a b l He Hp. unfold _extvalue.
    rewrite (sorted_desc_of_perm _ _ Hp), He.
    apply sorted_desc_grows. discriminate. }
  unfold _eleft, _etop, _eright, _ebottom in Hc'.
  destruct Hc' as [[? ->]|[[? ->]|[[? ->]|[[? ->]|Hc']]]]; try lia.
  destruct Hc' as [[(Ha & Hb' & Hc') ->]|[[(Ha & Hb' & Hc') ->]|
                   [[(Ha & Hb' & Hc') ->]|[(Ha & Hb' & Hc') ->]]]];
    (split; [lia|]); (split; [lia|]).
  - exists (_eleft g idx), (_etop g idx).
    unfold _flefttop. rewrite (facets_face g HX HY _ Hlt).
    rewrite (_vbottom_vtop g HX HY _ Hl).
    rewrite (_vright_vtop g HX HY _ Hl), (_vright_vleft g HX HY idx Hi).
    split; [unfold _eleft; lia|]. split; [unfold _etop; lia|].
    split; [apply elem_lower_star; auto|].
    split; [apply elem_lower_star; auto|].
    split; [unfold _eleft; (rewrite !elem_of_cons; auto 10)|].
    split; [unfold _etop; replace (size g * 2) with (2 * size g) by lia;
            (rewrite !elem_of_cons; auto 10)|].
    eapply (Hgrow _ (value m (_vleft g (_vtop g idx))) (value m (_vtop g idx)));
      [rewrite E1; reflexivity|].
    fold (_flefttop g idx). rewrite E5. simpl.
    do 2 apply perm_skip. apply perm_swap.
  - exists (_eright g idx), (_etop g idx).
    unfold _frighttop. rewrite (facets_face g HX HY _ Ht).
    rewrite (_vbottom_vtop g HX HY _ Hi).
    split; [unfold _eright; lia|]. split; [unfold _etop; lia|].
    split; [apply elem_lower_star; auto 6|].
    split; [apply elem_lower_star; auto|].
    split; [unfold _eright; (rewrite !elem_of_cons; auto 10)|].
    split; [unfold _etop; replace (size g * 2) with (2 * size g) by lia;
            (rewrite !elem_of_cons; auto 10)|].
    eapply (Hgrow _ (value m (_vtop g idx))
              (value m (_vright g (_vtop g idx))));
      [rewrite E3; reflexivity|].
    fold (_frighttop g idx). rewrite E6. simpl.
    do 2 apply perm_skip. apply perm_swap.
  - exists (_eleft g idx), (_ebottom g idx).
    unfold _fleftbottom. rewrite (facets_face g HX HY _ Hl).
    rewrite (_vright_vleft g HX HY idx Hi).
    split; [unfold _eleft; lia|]. split; [unfold _ebottom; lia|].
    split; [apply elem_lower_star; auto|].
    split; [apply elem_lower_star; auto 6|].
    split; [unfold _eleft; (rewrite !elem_of_cons; auto 10)|].
    split; [unfold _ebottom; replace (size g * 2) with (2 * size g) by lia;
            (rewrite !elem_of_cons; auto 10)|].
    eapply (Hgrow _ (value m (_vbottom g idx))
              (value m (_vleft g (_vbottom g idx))));
      [rewrite E1; reflexivity|].
    fold (_fleftbottom g idx). rewrite E7. simpl.
    apply Permutation_sym.
    change ([?a; ?b; ?c; ?d]) with ([a; b] ++ [c; d]).
    apply Permutation_app_comm.
  - exists (_eright g idx), (_ebottom g idx).
    unfold _frightbottom. rewrite (facets_face g HX HY _ Hi).
    split; [unfold _eright; lia|]. split; [unfold _ebottom; lia|].
    split; [apply elem_lower_star; auto 6|].
    split; [apply elem_lower_star; auto 6|].
    split; [unfold _eright; (rewrite !elem_of_cons; auto 10)|].
    split; [unfold _ebottom; replace (size g * 2) with (2 * size g) by lia;
            (rewrite !elem_of_cons; auto 10)|].
    eapply (Hgrow _ (value m (_vright g (_vbottom g idx)))
              (value m (_vbottom g idx)));
      [rewrite E3; reflexivity|].
    fold (_frightbottom g idx). rewrite E8. simpl.
    apply Permutation_sym.
    change ([?a; ?b; ?c; ?d]) with ([a; b] ++ [c; d]).
    apply Permutation_app_comm.
Qed.

(** The first cell of a lower star is an edge. *)
Lemma lower_star_head (delta : Z) (rest : list Z) :
  lower_star m idx = delta :: rest -> size g <= delta < 3 * size g.
Proof using HX HY Hi.
  intros E.
  assert (Hd : delta ∈ lower_star m idx) by (rewrite E; apply elem_of_cons; auto).
  pose proof (lower_star_range _ Hd) as Hr.
  destruct (Z.lt_ge_cases delta (3 * size g)) as [|H3]; [lia|].
  destruct (lower_star_face _ Hd H3) as (_ & _ & e1 & _ & _ & _ & He1 & _ & _
                                         & _ & Hlt).
  unfold lower_star in E.
  eapply (sort_by_head (fun x y => tuple_lt (_extvalue m x) (_extvalue m y)))
    in E.
  - rewrite E in Hlt. discriminate.
  - intros a b. apply tuple_lt_asym.
  - intros a b c. apply tuple_ge_trans.
  - rewrite <- lower_star_perm. exact He1.
Qed.

End LowerStar.

(** Two lower stars share no cell. *)
Lemma owns_unique (m : TorusMesh) (idx idx' c : Z) :
  owns m idx c -> owns m idx' c -> idx = idx'.
Proof.
  intros [Hin Hlow] [Hin' Hlow'].
  destruct (Hlow _ Hin') as [|H1]; [congruence|].
  destruct (Hlow' _ Hin) as [|H2]; [congruence|]. lia.
Qed.

(** ** Heaps and counting *)

Lemma heap_min_elem (x : entry) (h : list entry) : heap_min x h ∈ x :: h.
Proof.
  revert x. induction h as [|y h IH]; intros x; simpl.
  - apply elem_of_cons. auto.
  - destruct (entry_lt y x).
    + apply elem_of_cons. right. apply IH.
    + specialize (IH x). apply elem_of_cons in IH as [->|IH].
      * apply elem_of_cons. auto.
      * apply elem_of_cons. right. apply elem_of_cons. auto.
Qed.

Lemma remove_entry_perm (x : entry) (h : list entry) :
  x ∈ h -> h ≡ₚ x :: remove_entry x h.
Proof.
  induction h as [|y h IH]; intros Hx; simpl.
  - apply elem_of_nil in Hx. contradiction.
  - destruct (bool_decide_reflect (x = y)) as [->|Hne]; [reflexivity|].
    apply elem_of_cons in Hx as [->|Hx]; [congruence|].
    rewrite (IH Hx) at 1. apply perm_swap.
Qed.

Lemma heappop_Some (h h' : list entry) (x : entry) :
  heappop h = Some (x, h') -> h ≡ₚ x :: h'.
Proof.
  destruct h as [|y h]; simpl; [discriminate|].
  intros [= <- <-]. apply remove_entry_perm, heap_min_elem.
Qed.

Lemma heappop_None (h : list entry) : heappop h = None -> h = [].
Proof. destruct h; [reflexivity|discriminate]. Qed.

Lemma push_fold {A : Type} (c : A -> bool) (e : A -> entry)
    (l : list A) (pq : list entry) :
  foldl (fun pq x => if c x then heappush pq (e x) else pq) pq l
  = pq ++ List.map e (List.filter c l).
Proof.
  revert pq. induction l as [|x l IH]; intros pq; simpl.
  - rewrite app_nil_r. reflexivity.
  - rewrite IH. destruct (c x); [|reflexivity].
    unfold heappush. simpl. rewrite <- app_assoc. reflexivity.
Qed.

Lemma filter_length_le {A : Type} (p p' : A -> bool) (l : list A) :
  (forall y, y ∈ l -> p' y = true -> p y = true) ->
  (length (List.filter p' l) <= length (List.filter p l))%nat.
Proof.
  induction l as [|y l IH]; intros Hpp; simpl; [lia|].
  assert (IH' : (length (List.filter p' l) <= length (List.filter p l))%nat).
  { apply IH. intros z Hz. apply Hpp, elem_of_cons. auto. }
  specialize (Hpp y ltac:(apply elem_of_cons; auto)).
  destruct (p' y), (p y); simpl;
    first [lia | specialize (Hpp eq_refl); discriminate].
Qed.

(** Knocking one element out of a filtered list. *)
Lemma filter_knock_out (p p' : Z -> bool) (x : Z) (l : list Z) :
  (forall y, y ∈ l -> p' y = p y && negb (y =? x)) ->
  (length (List.filter p' l) <= length (List.filter p l))%nat /\
  (x ∈ l -> p x = true ->
   (S (length (List.filter p' l)) <= length (List.filter p l))%nat) /\
  (x ∉ l \/ p x = false ->
   length (List.filter p' l) = length (List.filter p l)) /\
  (NoDup l ->
   (length (List.filter p l) <= S (length (List.filter p' l)))%nat).
Proof.
  induction l as [|y l IH]; intros Hpp; simpl.
  - split; [lia|]. split; [intros H; apply elem_of_nil in H; contradiction|].
    split; [reflexivity|]. lia.
  - destruct IH as (IH1 & IH2 & IH3 & IH4).
    { intros z Hz. apply Hpp, elem_of_cons. auto. }
    pose proof (Hpp y ltac:(apply elem_of_cons; auto)) as Hy.
    destruct (Z.eqb_spec y x) as [->|Hne].
    + rewrite andb_false_r in Hy. rewrite Hy.
      split; [destruct (p x); simpl; lia|].
      split; [intros _ ->; simpl; lia|].
      split.
      { intros [Hn|Hp]; [exfalso; apply Hn, elem_of_cons; auto|].
        rewrite Hp. apply IH3. auto. }
      intros Hnd. apply NoDup_cons in Hnd as [Hx Hnd].
      rewrite (IH3 (or_introl Hx)). destruct (p x); simpl; lia.
    + rewrite andb_true_r in Hy. rewrite Hy.
      split; [destruct (p y); simpl; lia|].
      split.
      { intros Hx Hp. apply elem_of_cons in Hx as [->|Hx]; [congruence|].
        specialize (IH2 Hx Hp). destruct (p y); simpl; lia. }
      split.
      { intros Hx.
        assert (Hl : length (List.filter p' l) = length (List.filter p l)).
        { apply IH3. destruct Hx as [Hx|Hx]; [left|right; exact Hx].
          intros Hin. apply Hx, elem_of_cons. auto. }
        destruct (p y); simpl; lia. }
      intros Hnd. apply NoDup_cons in Hnd as [_ Hnd].
      specialize (IH4 Hnd). destruct (p y); simpl; lia.
Qed.

(** ** One gradient arrow, one critical cell *)

Lemma is_unpaired_spec (m : TorusMesh) (c : Z) :
  is_unpaired m c = true <-> V m !! c = None /\ c ∉ cr_id m.
Proof.
  unfold is_unpaired, is_critical.
  rewrite andb_true_iff, negb_true_iff, bool_decide_eq_true,
    bool_decide_eq_false. reflexivity.
Qed.

Lemma is_unpaired_false (m : TorusMesh) (c : Z) :
  is_unpaired m c = false <-> V m !! c <> None \/ c ∈ cr_id m.
Proof.
  rewrite <- not_true_iff_false, is_unpaired_spec.
  destruct (V m !! c); split; intros H.
  - left. discriminate.
  - intros [? _]. discriminate.
  - right. destruct (decide (c ∈ cr_id m)); [assumption|]. tauto.
  - intros [_ Hn]. destruct H; [congruence|contradiction].
Qed.

Lemma is_unpaired_arrow (m : TorusMesh) (a b c : Z) :
  is_unpaired (set_gradient_arrow m a b) c =
  is_unpaired m c && negb (c =? a) && negb (c =? b).
Proof.
  unfold is_unpaired, is_critical, set_gradient_arrow. simpl.
  destruct (Z.eqb_spec c b) as [->|Hb].
  - rewrite lookup_insert_eq. rewrite andb_false_r. reflexivity.
  - rewrite lookup_insert_ne by congruence.
    destruct (Z.eqb_spec c a) as [->|Ha].
    + rewrite lookup_insert_eq. simpl. rewrite andb_false_r. reflexivity.
    + rewrite lookup_insert_ne by congruence. simpl.
      rewrite !andb_true_r. reflexivity.
Qed.

Lemma is_unpaired_critical (m : TorusMesh) (x c : Z) :
  is_unpaired (set_critical m x) c = is_unpaired m c && negb (c =? x).
Proof.
  unfold is_unpaired, is_critical, set_critical. simpl.
  destruct (Z.eqb_spec c x) as [->|Hx].
  - rewrite andb_false_r.
    rewrite (bool_decide_eq_true_2 (x ∈ {[x]} ∪ cr_id m)) by set_solver.
    apply andb_false_r.
  - rewrite andb_true_r. f_equal. f_equal. apply bool_decide_ext. set_solver.
Qed.

Lemma involution_arrow (m : TorusMesh) (a b : Z) :
  gradient_involution m ->
  V m !! a = None -> V m !! b = None -> a <> b ->
  (dim (grid m) b - dim (grid m) a = 1 \/
   dim (grid m) a - dim (grid m) b = 1) ->
  gradient_involution (set_gradient_arrow m a b).
Proof.
  intros Hinv Ha Hb Hab Hdim c d. unfold set_gradient_arrow. simpl.
  destruct (decide (c = b)) as [->|Hcb].
  { rewrite lookup_insert_eq. intros [= <-].
    rewrite lookup_insert_ne, lookup_insert_eq by congruence.
    split; [reflexivity|tauto]. }
  rewrite lookup_insert_ne by congruence.
  destruct (decide (c = a)) as [->|Hca].
  { rewrite lookup_insert_eq. intros [= <-].
    rewrite lookup_insert_eq. split; [reflexivity|tauto]. }
  rewrite lookup_insert_ne by congruence. intros Hc.
  destruct (Hinv _ _ Hc) as [Hd Hdd].
  rewrite !lookup_insert_ne by congruence. auto.
Qed.

(** ** Processing one lower star *)

Lemma elem_of_filter_bool {A : Type} (p : A -> bool) (l : list A) (x : A) :
  x ∈ List.filter p l <-> x ∈ l /\ p x = true.
Proof. rewrite !list_elem_of_In. apply filter_In. Qed.

Lemma NoDup_filter_bool {A : Type} (p : A -> bool) (l : list A) :
  NoDup l -> NoDup (List.filter p l).
Proof. rewrite !NoDup_ListNoDup. apply List.NoDup_filter. Qed.

Lemma filter_length_bool {A : Type} (p : A -> bool) (l : list A) :
  (length (List.filter p l) <= length l)%nat.
Proof. apply List.filter_length_le. Qed.

Lemma filter_length_lt {A : Type} (p p' : A -> bool) (x : A) (l : list A) :
  (forall y, y ∈ l -> p' y = true -> p y = true) ->
  x ∈ l -> p x = true -> p' x = false ->
  (S (length (List.filter p' l)) <= length (List.filter p l))%nat.
Proof.
  induction l as [|y l IH]; intros Hpp Hx Hp Hp'; simpl.
  - apply elem_of_nil in Hx. contradiction.
  - assert (Hle : (length (List.filter p' l) <= length (List.filter p l))%nat).
    { apply filter_length_le. intros z Hz. apply Hpp, elem_of_cons. auto. }
    apply elem_of_cons in Hx as [<-|Hx].
    + rewrite Hp, Hp'. simpl. lia.
    + assert (IH' : (S (length (List.filter p' l))
                     <= length (List.filter p l))%nat).
      { apply IH; auto. intros z Hz. apply Hpp, elem_of_cons. auto. }
      pose proof (Hpp y ltac:(apply elem_of_cons; auto)) as Hy.
      destruct (p' y), (p y); simpl;
        first [lia | specialize (Hy eq_refl); discriminate].
Qed.

Lemma filter_two {A : Type} (p : A -> bool) (x y : A) (l : list A) :
  x <> y -> x ∈ l -> y ∈ l -> p x = true -> p y = true ->
  (2 <= length (List.filter p l))%nat.
Proof.
  intros Hxy Hx Hy Hpx Hpy.
  assert (Hs : [x; y] ⊆+ List.filter p l \/ [y; x] ⊆+ List.filter p l).
  { assert (Hx' : x ∈ List.filter p l) by (apply elem_of_filter_bool; auto).
    assert (Hy' : y ∈ List.filter p l) by (apply elem_of_filter_bool; auto).
    apply list_elem_of_split in Hx' as (l1 & l2 & E). rewrite E in Hy' |- *.
    apply elem_of_app in Hy' as [Hy'|Hy'].
    - right. apply list_elem_of_split in Hy' as (l3 & l4 & ->).
      apply sublist_submseteq. rewrite <- app_assoc. simpl.
      apply sublist_inserts_l, sublist_skip, sublist_inserts_l, sublist_skip.
      apply sublist_nil_l.
    - apply elem_of_cons in Hy' as [->|Hy']; [congruence|].
      left. apply list_elem_of_split in Hy' as (l3 & l4 & ->).
      apply sublist_submseteq.
      apply sublist_inserts_l, sublist_skip, sublist_inserts_l, sublist_skip.
      apply sublist_nil_l. }
  destruct Hs as [Hs|Hs]; apply submseteq_length in Hs; simpl in Hs; lia.
Qed.

Lemma cells_app (h : list entry) (e : Z -> entry) (l : list Z) :
  (forall c, (e c).2 = c) -> (h ++ List.map e l).*2 = h.*2 ++ l.
Proof.
  intros He. rewrite fmap_app. f_equal.
  induction l as [|c l IH]; simpl; [reflexivity|].
  rewrite He. f_equal. exact IH.
Qed.

Lemma cells_map (m : TorusMesh) (l : list Z) :
  (List.map (heap_entry m) l).*2 = l.
Proof.
  induction l as [|c l IH]; simpl; [reflexivity|]. f_equal. exact IH.
Qed.

Lemma cells_filter (p : Z -> bool) (h : list entry) :
  (List.filter (fun x : entry => p x.2) h).*2 = List.filter p h.*2.
Proof.
  induction h as [|x h IH]; simpl; [reflexivity|].
  destruct (p x.2); simpl; [f_equal|]; exact IH.
Qed.

Lemma frame_refl (m : TorusMesh) : frame m m.
Proof. repeat split. Qed.

Lemma frame_trans (m1 m2 m3 : TorusMesh) :
  frame m1 m2 -> frame m2 m3 -> frame m1 m3.
Proof.
  intros (A1 & A2 & A3 & A4 & A5) (B1 & B2 & B3 & B4 & B5).
  repeat split; congruence.
Qed.

Lemma frame_arrow (m : TorusMesh) (a b : Z) :
  frame m (set_gradient_arrow m a b).
Proof. repeat split. Qed.

Lemma frame_critical (m : TorusMesh) (c : Z) : frame m (set_critical m c).
Proof. repeat split. Qed.

Lemma lower_star_frame (m0 m : TorusMesh) (idx : Z) :
  frame m0 m -> lower_star m idx = lower_star m0 idx.
Proof.
  intros (E1 & E2 & _).
  unfold lower_star, lower_star_cells, _extvalue, value.
  rewrite E1, E2. reflexivity.
Qed.

Section StarProcessing.

Variable m0 : TorusMesh.
Hypothesis HX : 0 < sizeX (grid m0).
Hypothesis HY : 0 < sizeY (grid m0).
Variable done : list Z.
Variable idx : Z.
Hypothesis Hi : 0 <= idx < size (grid m0).

Local Abbreviation g := (grid m0).
Local Abbreviation L := (lower_star m0 idx).

Lemma heap_entry_cell (m : TorusMesh) (c : Z) : (heap_entry m c).2 = c.
Proof. reflexivity. Qed.

Lemma unpaired_facets_eq (m : TorusMesh) (c : Z) :
  grid m = g ->
  unpaired_facets m c L =
  List.filter (fun f => bool_decide (f ∈ L) && is_unpaired m f) (_facets g c).
Proof. intros E. unfold unpaired_facets. rewrite E. reflexivity. Qed.

Lemma elem_unpaired_facets (m : TorusMesh) (c f : Z) :
  grid m = g ->
  f ∈ unpaired_facets m c L <->
  f ∈ _facets g c /\ f ∈ L /\ is_unpaired m f = true.
Proof.
  intros E. rewrite (unpaired_facets_eq m c E), elem_of_filter_bool.
  rewrite andb_true_iff, bool_decide_eq_true. tauto.
Qed.

(** A cell of the star with a facet in the star is a face, and the facet is
    an edge. *)
Lemma star_facet (c f : Z) :
  c ∈ L -> f ∈ L -> f ∈ _facets g c ->
  3 * size g <= c < 4 * size g /\ size g <= f < 3 * size g.
Proof using HX HY Hi.
  intros Hc Hf Hfc.
  pose proof (lower_star_range m0 HX HY idx Hi _ Hc) as Hrc.
  pose proof (lower_star_range m0 HX HY idx Hi _ Hf) as Hrf.
  destruct (facets_range g HX HY c f) as [[? ?]|[? ?]]; [lia|exact Hfc|lia|lia].
Qed.

Lemma star_face_facets (c : Z) :
  c ∈ L -> 3 * size g <= c ->
  NoDup (_facets g c) /\
  forall f, f ∈ _facets g c -> size g <= f < 3 * size g.
Proof using HX HY Hi.
  intros Hc H3.
  pose proof (lower_star_range m0 HX HY idx Hi _ Hc) as Hrc.
  destruct (lower_star_face m0 HX HY idx Hi _ Hc H3) as (H2x & H2y & _).
  split.
  - replace c with (size g * 3 + (c - 3 * size g)) by lia.
    apply facets_NoDup; auto; lia.
  - intros f Hf.
    destruct (facets_range g HX HY c f) as [[? ?]|[? ?]]; [lia|exact Hf|lia|lia].
Qed.

(** The count of unpaired facets of a face when one cell [x] stops being
    unpaired. *)
Lemma count_knock (m m' : TorusMesh) (c x : Z) :
  grid m = g -> grid m' = g -> c ∈ L -> 3 * size g <= c ->
  (forall y, size g <= y < 3 * size g ->
             is_unpaired m' y = is_unpaired m y && negb (y =? x)) ->
  (count_unpaired m' c L <= count_unpaired m c L)%nat /\
  (x ∈ _facets g c -> x ∈ L -> is_unpaired m x = true ->
   (S (count_unpaired m' c L) <= count_unpaired m c L)%nat) /\
  (~ x ∈ _facets g c -> count_unpaired m' c L = count_unpaired m c L) /\
  (count_unpaired m c L <= S (count_unpaired m' c L))%nat.
Proof using HX HY Hi.
  intros E E' Hc H3 Hy.
  destruct (star_face_facets c Hc H3) as [Hnd Hr].
  unfold count_unpaired.
  rewrite (unpaired_facets_eq m c E), (unpaired_facets_eq m' c E').
  destruct (filter_knock_out
              (fun f => bool_decide (f ∈ L) && is_unpaired m f)
              (fun f => bool_decide (f ∈ L) && is_unpaired m' f)
              x (_facets g c)) as (K1 & K2 & K3 & K4).
  { intros y Hyc. rewrite (Hy y (Hr y Hyc)), andb_assoc. reflexivity. }
  split; [exact K1|]. split; [|split].
  - intros Hx HxL Hux. apply K2; [exact Hx|].
    rewrite Hux, andb_true_r. apply bool_decide_eq_true, HxL.
  - intros Hx. apply K3. auto.
  - apply K4, Hnd.
Qed.

Section PairStep.

Variable m : TorusMesh.
Variables pq0 pq1 pq1' : list entry.
Variable alpha : entry.
Variable pair_ : Z.
Variable rest : list Z.
Hypothesis Hg : grid m = g.
Hypothesis Hsd : stars_done m0 m done [idx].
Hypothesis Hsi : star_inv g m L pq0 pq1.
Hypothesis Hpop : heappop pq1 = Some (alpha, pq1').
Hypothesis Hpair : unpaired_facets m alpha.2 L = pair_ :: rest.

Let m' := set_gradient_arrow m pair_ alpha.2.
Let pushed :=
  List.filter
    (fun beta =>
       (length (unpaired_facets m' beta L) =? 1)%nat
       && (entry_in_cells alpha (_facets (grid m) beta)
           || bool_decide (pair_ ∈ _facets (grid m) beta))) L.
Let pq0' := List.filter (fun x : entry => negb (x.2 =? pair_)) pq0.
Let pq1'' := pq1' ++ List.map (heap_entry m') pushed.

Lemma pair_cells : pq1.*2 ≡ₚ alpha.2 :: pq1'.*2.
Proof. rewrite (heappop_Some _ _ _ Hpop). reflexivity. Qed.

Lemma pair_alpha :
  alpha.2 ∈ L /\ is_unpaired m alpha.2 = true /\ 3 * size g <= alpha.2 /\
  (~ alpha.2 ∈ pq1'.*2) /\ NoDup pq1'.*2 /\ (~ alpha.2 ∈ pq0.*2) /\
  forall c, c ∈ pq1'.*2 -> c ∈ pq1.*2.
Proof.
  destruct (si_one _ _ _ _ _ Hsi) as [Hnd Hin].
  pose proof pair_cells as Hp. rewrite Hp in Hnd.
  apply NoDup_cons in Hnd as [Hna Hnd].
  assert (Ha : alpha.2 ∈ pq1.*2) by (rewrite Hp; apply elem_of_cons; auto).
  destruct (Hin _ Ha) as (HaL & Hau & Ha3).
  repeat split; auto.
  - intros Hz. exact (si_apart _ _ _ _ _ Hsi _ Hz Ha).
  - intros c Hc. rewrite Hp. apply elem_of_cons. auto.
Qed.

Lemma pair_pair :
  pair_ ∈ _facets g alpha.2 /\ pair_ ∈ L /\ is_unpaired m pair_ = true /\
  size g <= pair_ < 3 * size g.
Proof.
  assert (Hp : pair_ ∈ unpaired_facets m alpha.2 L).
  { rewrite Hpair. apply elem_of_cons. auto. }
  apply (elem_unpaired_facets m _ _ Hg) in Hp as (Hf & HL & Hu).
  destruct pair_alpha as (Ha & _).
  destruct (star_facet _ _ Ha HL Hf) as [_ Hr]. auto.
Qed.

Lemma pair_unpaired (c : Z) :
  is_unpaired m' c =
  is_unpaired m c && negb (c =? pair_) && negb (c =? alpha.2).
Proof. apply is_unpaired_arrow. Qed.

Lemma pair_mono (c : Z) :
  is_unpaired m c = false -> is_unpaired m' c = false.
Proof. intros Hc. rewrite pair_unpaired, Hc. reflexivity. Qed.

Lemma pair_edges (y : Z) :
  size g <= y < 3 * size g ->
  is_unpaired m' y = is_unpaired m y && negb (y =? pair_).
Proof.
  intros Hy. rewrite pair_unpaired.
  destruct pair_alpha as (_ & _ & H3 & _).
  destruct (Z.eqb_spec y alpha.2); [lia|]. apply andb_true_r.
Qed.

Lemma pair_stars_done : stars_done m0 m' done [idx].
Proof.
  destruct pair_alpha as (HaL & Hau & Ha3 & _).
  destruct pair_pair as (Hpf & HpL & Hpu & Hpr).
  apply is_unpaired_spec in Hau as [HaV Hac].
  apply is_unpaired_spec in Hpu as [HpV Hpc].
  pose proof (lower_star_range m0 HX HY idx Hi _ HaL) as Har.
  constructor.
  - apply involution_arrow.
    + exact (sd_involution _ _ _ _ Hsd).
    + exact HpV.
    + exact HaV.
    + intros E. rewrite E in Hpr. lia.
    + rewrite Hg, (dim_edge g pair_), (dim_face g HX HY alpha.2) by lia.
      left. reflexivity.
  - intros c Hc. change (cr_id m') with (cr_id m) in Hc.
    pose proof (sd_exclusive _ _ _ _ Hsd c Hc) as HcV.
    unfold m', set_gradient_arrow. simpl.
    rewrite !lookup_insert_ne by congruence. exact HcV.
  - intros c Hc. rewrite pair_unpaired in Hc.
    destruct (is_unpaired m c) eqn:Hu.
    + right. exists idx. split; [apply elem_of_cons; auto|].
      destruct (Z.eqb_spec c pair_) as [->|]; [exact HpL|].
      destruct (Z.eqb_spec c alpha.2) as [->|]; [exact HaL|].
      discriminate.
    + exact (sd_owned _ _ _ _ Hsd c Hu).
  - exact (sd_cells _ _ _ _ Hsd).
  - intros i c Hin Hc. apply pair_mono.
    exact (sd_complete _ _ _ _ Hsd i c Hin Hc).
  - intros c d Hc Hlt. unfold m', set_gradient_arrow in Hc. simpl in Hc.
    destruct (decide (c = alpha.2)) as [->|Hca].
    { rewrite lookup_insert_eq in Hc. injection Hc as <-. lia. }
    rewrite lookup_insert_ne in Hc by congruence.
    destruct (decide (c = pair_)) as [->|Hcp].
    + rewrite lookup_insert_eq in Hc. injection Hc as <-.
      split; [exact Hpf|]. exists idx. auto.
    + rewrite lookup_insert_ne in Hc by congruence.
      exact (sd_local _ _ _ _ Hsd c d Hc Hlt).
  - exact (sd_minima _ _ _ _ Hsd).
Qed.

Lemma pair_grid : grid m' = g.
Proof. exact Hg. Qed.

Lemma pair_count (c : Z) :
  c ∈ L -> 3 * size g <= c ->
  (count_unpaired m' c L <= count_unpaired m c L)%nat /\
  (pair_ ∈ _facets g c ->
   (S (count_unpaired m' c L) <= count_unpaired m c L)%nat) /\
  (~ pair_ ∈ _facets g c -> count_unpaired m' c L = count_unpaired m c L) /\
  (count_unpaired m c L <= S (count_unpaired m' c L))%nat.
Proof.
  intros Hc H3.
  destruct pair_pair as (Hpf & HpL & Hpu & Hpr).
  destruct (count_knock m m' c pair_ Hg pair_grid Hc H3 pair_edges)
    as (K1 & K2 & K3 & K4).
  auto.
Qed.

Lemma pair_pushed (beta : Z) :
  beta ∈ pushed <->
  beta ∈ L /\ count_unpaired m' beta L = 1%nat /\ pair_ ∈ _facets g beta.
Proof.
  unfold pushed. rewrite elem_of_filter_bool, andb_true_iff.
  unfold entry_in_cells. simpl. rewrite Hg.
  rewrite Nat.eqb_eq, bool_decide_eq_true. unfold count_unpaired. tauto.
Qed.

Lemma pair_pushed_fresh (beta : Z) :
  beta ∈ pushed ->
  beta ∈ L /\ 3 * size g <= beta /\ is_unpaired m' beta = true /\
  (~ beta ∈ pq0.*2) /\ ~ beta ∈ pq1.*2.
Proof.
  intros Hb. apply pair_pushed in Hb as (HbL & Hb1 & Hbf).
  destruct pair_pair as (Hpf & HpL & Hpu & Hpr).
  destruct pair_alpha as (HaL & Hau & Ha3 & Hna & Hnd & Hna0 & Hsub).
  destruct (star_facet _ _ HbL HpL Hbf) as [Hb3 _].
  destruct (pair_count beta HbL ltac:(lia)) as (_ & K2 & _).
  specialize (K2 Hbf).
  destruct (si_fresh _ _ _ _ _ Hsi beta HbL ltac:(lia) ltac:(lia))
    as (Hbu & Hb0 & Hb1').
  repeat split; auto; try lia.
  rewrite pair_unpaired, Hbu. simpl.
  destruct (Z.eqb_spec beta pair_); [lia|].
  destruct (Z.eqb_spec beta alpha.2) as [E|]; [|reflexivity].
  exfalso. apply Hb1'. rewrite E, pair_cells. apply elem_of_cons. auto.
Qed.

Lemma pair_star_inv : star_inv g m' L pq0' pq1''.
Proof.
  destruct pair_pair as (Hpf & HpL & Hpu & Hpr).
  destruct pair_alpha as (HaL & Hau & Ha3 & Hna & Hnd & Hna0 & Hsub).
  destruct (si_one _ _ _ _ _ Hsi) as [_ Hone].
  destruct (si_zero _ _ _ _ _ Hsi) as [Hnd0 Hzero].
  assert (Ec1 : pq1''.*2 = pq1'.*2 ++ pushed).
  { apply cells_app. intros c. reflexivity. }
  assert (Ec0 : pq0'.*2 = List.filter (fun c => negb (c =? pair_)) pq0.*2).
  { apply (cells_filter (fun c => negb (c =? pair_))). }
  assert (Hin0 : forall c, c ∈ pq0'.*2 <-> c ∈ pq0.*2 /\ c <> pair_).
  { intros c. rewrite Ec0, elem_of_filter_bool, negb_true_iff, Z.eqb_neq.
    reflexivity. }
  constructor.
  - rewrite Ec1. split.
    + apply NoDup_app. split; [exact Hnd|]. split.
      * intros c Hc Hp. apply pair_pushed_fresh in Hp as (_ & _ & _ & _ & Hn).
        apply Hn, Hsub, Hc.
      * apply NoDup_filter_bool, (lower_star_NoDup m0 HX HY idx Hi).
    + intros c Hc. apply elem_of_app in Hc as [Hc|Hc].
      * destruct (Hone c (Hsub c Hc)) as (HcL & Hcu & Hc3).
        split; [exact HcL|]. split; [|exact Hc3].
        rewrite pair_unpaired, Hcu. simpl.
        destruct (Z.eqb_spec c pair_); [lia|].
        destruct (Z.eqb_spec c alpha.2) as [E|]; [|reflexivity].
        rewrite E in Hc. contradiction.
      * apply pair_pushed_fresh in Hc as (? & ? & ? & _). auto.
  - split.
    + rewrite Ec0. apply NoDup_filter_bool, Hnd0.
    + intros c Hc. apply Hin0 in Hc as [Hc Hne].
      destruct (Hzero c Hc) as [HcL Hcu]. split; [exact HcL|].
      rewrite pair_unpaired, Hcu. simpl.
      destruct (Z.eqb_spec c pair_); [contradiction|].
      destruct (Z.eqb_spec c alpha.2) as [E|]; [|reflexivity].
      rewrite E in Hc. contradiction.
  - intros c Hc. apply Hin0 in Hc as [Hc Hne]. rewrite Ec1.
    intros Hc1. apply elem_of_app in Hc1 as [Hc1|Hc1].
    + exact (si_apart _ _ _ _ _ Hsi c Hc (Hsub c Hc1)).
    + apply pair_pushed_fresh in Hc1 as (_ & _ & _ & Hn & _). contradiction.
  - intros c HcL Hc3 Hc2.
    destruct (pair_count c HcL Hc3) as (K1 & _).
    destruct (si_fresh _ _ _ _ _ Hsi c HcL Hc3 ltac:(lia))
      as (Hcu & Hc0 & Hc1).
    split; [|split].
    + rewrite pair_unpaired, Hcu. simpl.
      destruct (Z.eqb_spec c pair_); [lia|].
      destruct (Z.eqb_spec c alpha.2) as [E|]; [|reflexivity].
      exfalso. apply Hc1. rewrite E, pair_cells. apply elem_of_cons. auto.
    + intros Hc. apply Hin0 in Hc as [Hc _]. contradiction.
    + rewrite Ec1. intros Hc. apply elem_of_app in Hc as [Hc|Hc].
      * apply Hc1, Hsub, Hc.
      * apply pair_pushed in Hc as (_ & Hc & _). lia.
  - intros c HcL Hc3.
    destruct (Z.eq_dec c pair_) as [->|Hne].
    { right. rewrite pair_unpaired, Z.eqb_refl, andb_false_r. reflexivity. }
    destruct (si_edges _ _ _ _ _ Hsi c HcL Hc3) as [Hc|Hc].
    + left. apply Hin0. auto.
    + right. apply pair_mono, Hc.
  - intros c HcL Hc3 Hc1. rewrite Ec1.
    destruct (pair_count c HcL Hc3) as (_ & _ & K3 & K4).
    destruct (le_lt_dec (count_unpaired m c L) 1) as [Hle|Hgt].
    + destruct (si_faces _ _ _ _ _ Hsi c HcL Hc3 Hle) as [Hc|[Hc|Hc]].
      * rewrite pair_cells in Hc. apply elem_of_cons in Hc as [->|Hc].
        { right. right.
          rewrite pair_unpaired, Z.eqb_refl, andb_false_r. reflexivity. }
        left. apply elem_of_app. auto.
      * right. left. apply Hin0. split; [exact Hc|]. lia.
      * right. right. apply pair_mono, Hc.
    + left. apply elem_of_app. right. apply pair_pushed.
      split; [exact HcL|].
      destruct (decide (pair_ ∈ _facets g c)) as [Hin|Hout].
      * split; [lia|exact Hin].
      * specialize (K3 Hout). lia.
Qed.

Lemma pair_measure :
  (length pq1'' <= length pq1' + length L)%nat /\
  (S (unpaired_in m' L) <= unpaired_in m L)%nat /\
  (length pq0' <= length pq0)%nat /\
  length pq1 = S (length pq1').
Proof.
  destruct pair_pair as (Hpf & HpL & Hpu & Hpr).
  split; [|split; [|split]].
  - unfold pq1''. rewrite length_app, length_map.
    pose proof (filter_length_bool
                  (fun beta =>
                     (length (unpaired_facets m' beta L) =? 1)%nat
                     && (entry_in_cells alpha (_facets (grid m) beta)
                         || bool_decide (pair_ ∈ _facets (grid m) beta))) L).
    fold pushed in H. lia.
  - unfold unpaired_in.
    apply (filter_length_lt (is_unpaired m) (is_unpaired m') pair_).
    + intros y _ Hy. rewrite pair_unpaired in Hy.
      destruct (is_unpaired m y); [reflexivity|discriminate].
    + exact HpL.
    + exact Hpu.
    + rewrite pair_unpaired, Z.eqb_refl, andb_false_r. reflexivity.
  - apply filter_length_bool.
  - rewrite (heappop_Some _ _ _ Hpop). reflexivity.
Qed.

End PairStep.

Section MoveStep.

Variable m : TorusMesh.
Variables pq0 pq1 pq1' : list entry.
Variable alpha : entry.
Hypothesis Hsi : star_inv g m L pq0 pq1.
Hypothesis Hpop : heappop pq1 = Some (alpha, pq1').

Lemma move_star_inv : star_inv g m L (heappush pq0 alpha) pq1'.
Proof.
  destruct (pair_alpha m pq0 pq1 pq1' alpha Hsi Hpop)
    as (HaL & Hau & Ha3 & Hna & Hnd & Hna0 & Hsub).
  pose proof (pair_cells pq1 pq1' alpha Hpop) as Hcells.
  destruct (si_one _ _ _ _ _ Hsi) as [_ Hone].
  destruct (si_zero _ _ _ _ _ Hsi) as [Hnd0 Hzero].
  assert (Ec0 : (heappush pq0 alpha).*2 = pq0.*2 ++ [alpha.2]).
  { unfold heappush. rewrite fmap_app. reflexivity. }
  assert (Hin0 : forall c, c ∈ (heappush pq0 alpha).*2 <->
                           c ∈ pq0.*2 \/ c = alpha.2).
  { intros c. rewrite Ec0, elem_of_app, list_elem_of_singleton.
    reflexivity. }
  constructor.
  - split; [exact Hnd|]. intros c Hc. apply Hone, Hsub, Hc.
  - split.
    + rewrite Ec0. apply NoDup_app. split; [exact Hnd0|]. split.
      * intros c Hc Hc'. apply list_elem_of_singleton in Hc'. congruence.
      * apply NoDup_singleton.
    + intros c Hc. apply Hin0 in Hc as [Hc| ->]; auto.
  - intros c Hc Hc1. apply Hin0 in Hc as [Hc| ->].
    + exact (si_apart _ _ _ _ _ Hsi c Hc (Hsub c Hc1)).
    + contradiction.
  - intros c HcL Hc3 Hc2.
    destruct (si_fresh _ _ _ _ _ Hsi c HcL Hc3 Hc2) as (Hcu & Hc0 & Hc1).
    split; [exact Hcu|]. split.
    + intros Hc. apply Hin0 in Hc as [Hc| ->]; [contradiction|].
      apply Hc1. rewrite Hcells. apply elem_of_cons. auto.
    + intros Hc. apply Hc1, Hsub, Hc.
  - intros c HcL Hc3.
    destruct (si_edges _ _ _ _ _ Hsi c HcL Hc3) as [Hc|Hc]; [|auto].
    left. apply Hin0. auto.
  - intros c HcL Hc3 Hc1.
    destruct (si_faces _ _ _ _ _ Hsi c HcL Hc3 Hc1) as [Hc|[Hc|Hc]]; [| |auto].
    + rewrite Hcells in Hc. apply elem_of_cons in Hc as [->|Hc]; [|auto].
      right. left. apply Hin0. auto.
    + right. left. apply Hin0. auto.
Qed.

End MoveStep.

Section GammaStep.

Variable m : TorusMesh.
Variables pq0 pq0' : list entry.
Variable gamma : entry.
Hypothesis Hg : grid m = g.
Hypothesis Hsd : stars_done m0 m done [idx].
Hypothesis Hsi : star_inv g m L pq0 [].
Hypothesis Hpop : heappop pq0 = Some (gamma, pq0').

Let m2 := set_critical m gamma.2.
Let pushed :=
  List.filter
    (fun a =>
       bool_decide (gamma.2 ∈ _facets g a)
       && (length (unpaired_facets m2 a L) =? 1)%nat) L.
Let pq1 := List.map (heap_entry m2) pushed.

Lemma gamma_cells : pq0.*2 ≡ₚ gamma.2 :: pq0'.*2.
Proof. rewrite (heappop_Some _ _ _ Hpop). reflexivity. Qed.

Lemma gamma_gamma :
  gamma.2 ∈ L /\ is_unpaired m gamma.2 = true /\
  (~ gamma.2 ∈ pq0'.*2) /\ NoDup pq0'.*2 /\
  forall c, c ∈ pq0'.*2 -> c ∈ pq0.*2.
Proof.
  destruct (si_zero _ _ _ _ _ Hsi) as [Hnd Hin].
  pose proof gamma_cells as Hp. rewrite Hp in Hnd.
  apply NoDup_cons in Hnd as [Hna Hnd].
  assert (Ha : gamma.2 ∈ pq0.*2) by (rewrite Hp; apply elem_of_cons; auto).
  destruct (Hin _ Ha) as (HaL & Hau).
  repeat split; auto.
  intros c Hc. rewrite Hp. apply elem_of_cons. auto.
Qed.

Lemma gamma_unpaired (c : Z) :
  is_unpaired m2 c = is_unpaired m c && negb (c =? gamma.2).
Proof. apply is_unpaired_critical. Qed.

Lemma gamma_mono (c : Z) :
  is_unpaired m c = false -> is_unpaired m2 c = false.
Proof. intros Hc. rewrite gamma_unpaired, Hc. reflexivity. Qed.

Lemma gamma_stars_done : stars_done m0 m2 done [idx].
Proof.
  destruct gamma_gamma as (HcL & Hcu & _).
  apply is_unpaired_spec in Hcu as [HcV Hcc].
  destruct (sd_cells _ _ _ _ Hsd) as [Hnd Hcells].
  constructor.
  - exact (sd_involution _ _ _ _ Hsd).
  - intros c Hc. change (V m2) with (V m).
    unfold m2, set_critical in Hc. simpl in Hc.
    apply elem_of_union in Hc as [Hc|Hc].
    + apply elem_of_singleton in Hc. subst c. exact HcV.
    + exact (sd_exclusive _ _ _ _ Hsd c Hc).
  - intros c Hc. rewrite gamma_unpaired in Hc.
    destruct (is_unpaired m c) eqn:Hu.
    + right. exists idx. split; [apply elem_of_cons; auto|].
      destruct (Z.eqb_spec c gamma.2) as [->|]; [exact HcL|discriminate].
    + exact (sd_owned _ _ _ _ Hsd c Hu).
  - unfold m2, set_critical. simpl. split.
    + apply NoDup_app. split; [exact Hnd|]. split; [|apply NoDup_singleton].
      intros c Hc Hc'. apply list_elem_of_singleton in Hc'. subst c.
      apply Hcc, Hcells, Hc.
    + intros c. rewrite elem_of_app, list_elem_of_singleton, elem_of_union,
        elem_of_singleton, Hcells. tauto.
  - intros i c Hin Hc. apply gamma_mono.
    exact (sd_complete _ _ _ _ Hsd i c Hin Hc).
  - exact (sd_local _ _ _ _ Hsd).
  - intros v Hv Hr. unfold m2, set_critical in Hv. simpl in Hv.
    apply elem_of_union in Hv as [Hv|Hv].
    + apply elem_of_singleton in Hv. subst v.
      pose proof (lower_star_range m0 HX HY idx Hi _ HcL). lia.
    + exact (sd_minima _ _ _ _ Hsd v Hv Hr).
Qed.

Lemma gamma_count (c : Z) :
  c ∈ L -> 3 * size g <= c ->
  (count_unpaired m2 c L <= count_unpaired m c L)%nat /\
  (gamma.2 ∈ _facets g c ->
   (S (count_unpaired m2 c L) <= count_unpaired m c L)%nat) /\
  (~ gamma.2 ∈ _facets g c -> count_unpaired m2 c L = count_unpaired m c L) /\
  (count_unpaired m c L <= S (count_unpaired m2 c L))%nat.
Proof.
  intros Hc H3.
  destruct gamma_gamma as (HcL & Hcu & _).
  destruct (count_knock m m2 c gamma.2 Hg Hg Hc H3) as (K1 & K2 & K3 & K4).
  { intros y _. apply gamma_unpaired. }
  auto.
Qed.

Lemma gamma_pushed (a : Z) :
  a ∈ pushed <->
  a ∈ L /\ count_unpaired m2 a L = 1%nat /\ gamma.2 ∈ _facets g a.
Proof.
  unfold pushed. rewrite elem_of_filter_bool, andb_true_iff.
  rewrite Nat.eqb_eq, bool_decide_eq_true. unfold count_unpaired. tauto.
Qed.

Lemma gamma_pushed_fresh (a : Z) :
  a ∈ pushed ->
  a ∈ L /\ 3 * size g <= a /\ is_unpaired m2 a = true /\ ~ a ∈ pq0.*2.
Proof.
  intros Ha. apply gamma_pushed in Ha as (HaL & Ha1 & Haf).
  destruct gamma_gamma as (HcL & Hcu & Hn & Hnd & Hsub).
  destruct (star_facet _ _ HaL HcL Haf) as [Ha3 _].
  destruct (gamma_count a HaL ltac:(lia)) as (_ & K2 & _).
  specialize (K2 Haf).
  destruct (si_fresh _ _ _ _ _ Hsi a HaL ltac:(lia) ltac:(lia))
    as (Hau & Ha0 & _).
  repeat split; auto; try lia.
  rewrite gamma_unpaired, Hau. simpl.
  destruct (Z.eqb_spec a gamma.2) as [E|]; [|reflexivity].
  exfalso. apply Ha0. rewrite E, gamma_cells. apply elem_of_cons. auto.
Qed.

Lemma gamma_star_inv : star_inv g m2 L pq0' pq1.
Proof.
  destruct gamma_gamma as (HcL & Hcu & Hn & Hnd & Hsub).
  destruct (si_zero _ _ _ _ _ Hsi) as [_ Hzero].
  assert (Ec1 : pq1.*2 = pushed).
  { apply (cells_app [] (heap_entry m2) pushed). intros c. reflexivity. }
  constructor.
  - rewrite Ec1. split.
    + apply NoDup_filter_bool, (lower_star_NoDup m0 HX HY idx Hi).
    + intros c Hc. apply gamma_pushed_fresh in Hc as (? & ? & ? & _). auto.
  - split; [exact Hnd|]. intros c Hc.
    destruct (Hzero c (Hsub c Hc)) as [HL Hu]. split; [exact HL|].
    rewrite gamma_unpaired, Hu. simpl.
    destruct (Z.eqb_spec c gamma.2) as [E|]; [|reflexivity].
    rewrite E in Hc. contradiction.
  - intros c Hc. rewrite Ec1. intros Hp.
    apply gamma_pushed_fresh in Hp as (_ & _ & _ & Hp). apply Hp, Hsub, Hc.
  - intros c HL H3 H2.
    destruct (gamma_count c HL H3) as (K1 & _).
    destruct (si_fresh _ _ _ _ _ Hsi c HL H3 ltac:(lia)) as (Hu & H0 & _).
    split; [|split].
    + rewrite gamma_unpaired, Hu. simpl.
      destruct (Z.eqb_spec c gamma.2) as [E|]; [|reflexivity].
      exfalso. apply H0. rewrite E, gamma_cells. apply elem_of_cons. auto.
    + intros Hc. apply H0, Hsub, Hc.
    + rewrite Ec1. intros Hc. apply gamma_pushed in Hc as (_ & Hc & _). lia.
  - intros c HL H3.
    destruct (Z.eq_dec c gamma.2) as [->|Hne].
    { right. rewrite gamma_unpaired, Z.eqb_refl, andb_false_r. reflexivity. }
    destruct (si_edges _ _ _ _ _ Hsi c HL H3) as [Hc|Hc].
    + left. rewrite gamma_cells in Hc.
      apply elem_of_cons in Hc as [->|Hc]; [contradiction|exact Hc].
    + right. apply gamma_mono, Hc.
  - intros c HL H3 H1. rewrite Ec1.
    destruct (gamma_count c HL H3) as (_ & _ & K3 & K4).
    destruct (le_lt_dec (count_unpaired m c L) 1) as [Hle|Hgt].
    + destruct (si_faces _ _ _ _ _ Hsi c HL H3 Hle) as [Hc|[Hc|Hc]].
      * apply elem_of_nil in Hc. contradiction.
      * rewrite gamma_cells in Hc. apply elem_of_cons in Hc as [->|Hc].
        { right. right.
          rewrite gamma_unpaired, Z.eqb_refl, andb_false_r. reflexivity. }
        right. left. exact Hc.
      * right. right. apply gamma_mono, Hc.
    + left. apply gamma_pushed. split; [exact HL|].
      destruct (decide (gamma.2 ∈ _facets g c)) as [Hin|Hout].
      * split; [lia|exact Hin].
      * specialize (K3 Hout). lia.
Qed.

Lemma gamma_measure :
  (length pq1 <= length L)%nat /\
  (S (unpaired_in m2 L) <= unpaired_in m L)%nat /\
  length pq0 = S (length pq0').
Proof.
  destruct gamma_gamma as (HcL & Hcu & _).
  split; [|split].
  - unfold pq1. rewrite length_map. apply filter_length_bool.
  - unfold unpaired_in.
    apply (filter_length_lt (is_unpaired m) (is_unpaired m2) gamma.2).
    + intros y _ Hy. rewrite gamma_unpaired in Hy.
      destruct (is_unpaired m y); [reflexivity|discriminate].
    + exact HcL.
    + exact Hcu.
    + rewrite gamma_unpaired, Z.eqb_refl, andb_false_r. reflexivity.
  - rewrite (heappop_Some _ _ _ Hpop). reflexivity.
Qed.

End GammaStep.

Section InitStep.

Variable m : TorusMesh.
Hypothesis Hg : grid m = g.
Hypothesis Hsd : stars_done m0 m done [].
Hypothesis Hfresh : ~ idx ∈ done.
Hypothesis Hrange : forall d, d ∈ done -> 0 <= d < size g.

(** Nothing has touched the vertex and its lower star yet. *)
Lemma star_untouched (c : Z) :
  c = idx \/ c ∈ L -> is_unpaired m c = true.
Proof.
  intros Hc. destruct (is_unpaired m c) eqn:Hu; [reflexivity|exfalso].
  destruct (sd_owned _ _ _ _ Hsd c Hu) as [Hd|(i & Hd & Hci)]; simpl in Hd.
  - destruct Hc as [->|Hc]; [contradiction|].
    pose proof (lower_star_range m0 HX HY idx Hi _ Hc).
    pose proof (Hrange _ Hd). lia.
  - pose proof (Hrange _ Hd) as Hir.
    destruct Hc as [->|Hc].
    + pose proof (lower_star_range m0 HX HY i Hir _ Hci). lia.
    + apply Hfresh.
      rewrite (owns_unique m0 idx i c); [exact Hd| |].
      * apply (lower_star_owns m0 HX HY idx Hi), Hc.
      * apply (lower_star_owns m0 HX HY i Hir), Hci.
Qed.

Lemma empty_star_done :
  lower_star m0 idx = [] -> stars_done m0 (set_critical m idx) (idx :: done) [].
Proof.
  intros HL.
  pose proof (star_untouched idx (or_introl eq_refl)) as Hu.
  apply is_unpaired_spec in Hu as [HV Hc].
  destruct (sd_cells _ _ _ _ Hsd) as [Hnd Hcells].
  constructor.
  - exact (sd_involution _ _ _ _ Hsd).
  - intros c Hc'. change (V (set_critical m idx)) with (V m).
    unfold set_critical in Hc'. simpl in Hc'.
    apply elem_of_union in Hc' as [Hc'|Hc'].
    + apply elem_of_singleton in Hc'. subst c. exact HV.
    + exact (sd_exclusive _ _ _ _ Hsd c Hc').
  - intros c Hc'. rewrite is_unpaired_critical in Hc'. simpl.
    destruct (is_unpaired m c) eqn:Hu.
    + left. destruct (Z.eqb_spec c idx) as [->|]; [|discriminate].
      apply elem_of_cons. auto.
    + destruct (sd_owned _ _ _ _ Hsd c Hu) as [Hd|(i & Hd & Hci)];
        simpl in Hd.
      * left. apply elem_of_cons. auto.
      * right. exists i. split; [apply elem_of_cons; auto|exact Hci].
  - unfold set_critical. simpl. split.
    + apply NoDup_app. split; [exact Hnd|]. split; [|apply NoDup_singleton].
      intros c Hc1 Hc2. apply list_elem_of_singleton in Hc2. subst c.
      apply Hc, Hcells, Hc1.
    + intros c. rewrite elem_of_app, list_elem_of_singleton, elem_of_union,
        elem_of_singleton, Hcells. tauto.
  - intros i c Hin Hci. rewrite is_unpaired_critical.
    apply elem_of_cons in Hin as [->|Hin].
    + destruct Hci as [->|Hci].
      * rewrite Z.eqb_refl. apply andb_false_r.
      * rewrite HL in Hci. apply elem_of_nil in Hci. contradiction.
    + rewrite (sd_complete _ _ _ _ Hsd i c Hin Hci). reflexivity.
  - exact (sd_local _ _ _ _ Hsd).
  - intros v Hv Hr. unfold set_critical in Hv. simpl in Hv.
    apply elem_of_union in Hv as [Hv|Hv].
    + apply elem_of_singleton in Hv. subst v. exact HL.
    + exact (sd_minima _ _ _ _ Hsd v Hv Hr).
Qed.

Variable delta : Z.
Variable rest : list Z.
Variables c1 c2 : Z.
Hypothesis HL : lower_star m0 idx = delta :: rest.
Hypothesis Hcf : _cofacets g delta = Ok (c1, c2).

Let m1 := set_gradient_arrow m idx delta.
Let pq0 :=
  List.map (heap_entry m1) (List.filter (fun c => dim g c =? 1) rest).
Let pq1 :=
  List.map (heap_entry m1)
    (List.filter
       (fun f => bool_decide (f ∈ L)
                 && (length (unpaired_facets m1 f L) =? 1)%nat) [c1; c2]).

Lemma init_delta :
  delta ∈ L /\ size g <= delta < 3 * size g /\ (~ delta ∈ rest) /\
  NoDup rest /\ forall c, c ∈ L <-> c = delta \/ c ∈ rest.
Proof.
  pose proof (lower_star_NoDup m0 HX HY idx Hi) as Hnd.
  pose proof (lower_star_head m0 HX HY idx Hi _ _ HL) as Hd.
  rewrite HL in Hnd |- *. apply NoDup_cons in Hnd as [Hn Hnd].
  split; [apply elem_of_cons; auto|]. split; [exact Hd|].
  split; [exact Hn|]. split; [exact Hnd|].
  intros c. apply elem_of_cons.
Qed.

Lemma init_unpaired (c : Z) :
  is_unpaired m1 c =
  is_unpaired m c && negb (c =? idx) && negb (c =? delta).
Proof. apply is_unpaired_arrow. Qed.

Lemma init_mono (c : Z) :
  is_unpaired m c = false -> is_unpaired m1 c = false.
Proof. intros Hc. rewrite init_unpaired, Hc. reflexivity. Qed.

Lemma init_star_unpaired (c : Z) :
  c ∈ L -> c <> delta -> is_unpaired m1 c = true.
Proof.
  intros Hc Hne. rewrite init_unpaired, (star_untouched c (or_intror Hc)).
  pose proof (lower_star_range m0 HX HY idx Hi _ Hc).
  destruct (Z.eqb_spec c idx); [lia|].
  destruct (Z.eqb_spec c delta); [contradiction|reflexivity].
Qed.

Lemma init_idx : is_unpaired m1 idx = false.
Proof. rewrite init_unpaired, Z.eqb_refl, andb_false_r. reflexivity. Qed.

Lemma init_stars_done : stars_done m0 m1 done [idx].
Proof.
  destruct init_delta as (HdL & Hdr & _).
  pose proof (star_untouched idx (or_introl eq_refl)) as Hu.
  apply is_unpaired_spec in Hu as [HV Hc].
  pose proof (star_untouched delta (or_intror HdL)) as Hu.
  apply is_unpaired_spec in Hu as [HVd Hcd].
  constructor.
  - apply involution_arrow.
    + exact (sd_involution _ _ _ _ Hsd).
    + exact HV.
    + exact HVd.
    + lia.
    + rewrite Hg, (dim_vertex g idx), (dim_edge g delta) by lia.
      left. reflexivity.
  - intros c Hc'. change (cr_id m1) with (cr_id m) in Hc'.
    pose proof (sd_exclusive _ _ _ _ Hsd c Hc') as HcV.
    unfold m1, set_gradient_arrow. simpl.
    rewrite !lookup_insert_ne by congruence. exact HcV.
  - intros c Hc'. rewrite init_unpaired in Hc'.
    destruct (is_unpaired m c) eqn:Hu.
    + destruct (Z.eqb_spec c idx) as [->|].
      * left. apply elem_of_cons. auto.
      * right. exists idx. split; [apply elem_of_cons; auto|].
        destruct (Z.eqb_spec c delta) as [->|]; [exact HdL|discriminate].
    + destruct (sd_owned _ _ _ _ Hsd c Hu) as [Hd|(i & Hd & Hci)];
        simpl in Hd.
      * left. apply elem_of_cons. auto.
      * right. exists i. split; [apply elem_of_cons; auto|exact Hci].
  - exact (sd_cells _ _ _ _ Hsd).
  - intros i c Hin Hci. apply init_mono.
    exact (sd_complete _ _ _ _ Hsd i c Hin Hci).
  - intros x y Hxy Hlt. unfold m1, set_gradient_arrow in Hxy. simpl in Hxy.
    destruct (decide (x = delta)) as [->|Hxd].
    { rewrite lookup_insert_eq in Hxy. injection Hxy as <-. lia. }
    rewrite lookup_insert_ne in Hxy by congruence.
    destruct (decide (x = idx)) as [->|Hxi].
    + rewrite lookup_insert_eq in Hxy. injection Hxy as <-.
      split; [|exists idx; auto].
      rewrite (facets_below g HX HY delta) by lia.
      apply (lower_star_owns m0 HX HY idx Hi delta HdL).
    + rewrite lookup_insert_ne in Hxy by congruence.
      exact (sd_local _ _ _ _ Hsd x y Hxy Hlt).
  - exact (sd_minima _ _ _ _ Hsd).
Qed.

Lemma init_count (c : Z) :
  c ∈ L -> 3 * size g <= c ->
  (2 <= count_unpaired m c L)%nat /\
  (~ delta ∈ _facets g c -> count_unpaired m1 c L = count_unpaired m c L) /\
  (count_unpaired m c L <= S (count_unpaired m1 c L))%nat.
Proof.
  intros Hc H3.
  destruct (count_knock m m1 c delta Hg Hg Hc H3) as (K1 & K2 & K3 & K4).
  { intros y Hy. rewrite init_unpaired.
    destruct (Z.eqb_spec y idx); [lia|]. rewrite andb_true_r. reflexivity. }
  split; [|auto].
  destruct (lower_star_face m0 HX HY idx Hi _ Hc H3)
    as (_ & _ & e1 & e2 & He1 & He2 & H1L & H2L & H1f & H2f & _).
  unfold count_unpaired. rewrite (unpaired_facets_eq m c Hg).
  apply (filter_two _ e1 e2); auto; try lia.
  - rewrite (star_untouched e1 (or_intror H1L)), andb_true_r.
    apply bool_decide_eq_true, H1L.
  - rewrite (star_untouched e2 (or_intror H2L)), andb_true_r.
    apply bool_decide_eq_true, H2L.
Qed.

Lemma init_pq1 (f : Z) :
  f ∈ pq1.*2 <->
  (f = c1 \/ f = c2) /\ f ∈ L /\ count_unpaired m1 f L = 1%nat.
Proof.
  unfold pq1.
  rewrite cells_map.
  rewrite elem_of_filter_bool, andb_true_iff, bool_decide_eq_true,
    Nat.eqb_eq. unfold count_unpaired.
  rewrite !elem_of_cons, elem_of_nil. tauto.
Qed.

Lemma init_pq0 (c : Z) : c ∈ pq0.*2 <-> c ∈ rest /\ dim g c = 1.
Proof.
  unfold pq0.
  rewrite cells_map.
  rewrite elem_of_filter_bool, Z.eqb_eq. reflexivity.
Qed.

Lemma init_star_inv : star_inv g m1 L pq0 pq1.
Proof.
  destruct init_delta as (HdL & Hdr & Hdn & Hndr & HinL).
  destruct (cofacets_edge g HX HY delta Hdr)
    as (c1' & c2' & Hcf' & Hc1 & Hc2 & Hne).
  rewrite Hcf in Hcf'. injection Hcf' as <- <-.
  constructor.
  - split.
    + unfold pq1.
      rewrite cells_map.
      destruct (decide (c1 = c2)) as [E|Hd].
      * simpl List.filter.
        destruct (bool_decide_reflect (c1 ∈ L)) as [HcL|HcL]; simpl.
        { destruct (lower_star_face m0 HX HY idx Hi _ HcL ltac:(lia))
            as (H2x & H2y & _).
          exfalso. apply Hne; assumption. }
        rewrite <- E.
        destruct (bool_decide_reflect (c1 ∈ L)) as [HcL'|HcL'];
          [contradiction|]. simpl. apply NoDup_nil_2.
      * apply NoDup_filter_bool.
        apply NoDup_cons. split; [|apply NoDup_singleton].
        intros Hc. apply list_elem_of_singleton in Hc. contradiction.
    + intros f Hf. apply init_pq1 in Hf as (Hf & HfL & Hf1).
      split; [exact HfL|].
      assert (3 * size g <= f) by (destruct Hf as [->| ->]; lia).
      split; [|assumption]. apply init_star_unpaired; [exact HfL|lia].
  - split.
    + unfold pq0.
      rewrite cells_map.
      apply NoDup_filter_bool, Hndr.
    + intros c Hc. apply init_pq0 in Hc as [Hc _].
      assert (HcL : c ∈ L) by (apply HinL; auto).
      split; [exact HcL|]. apply init_star_unpaired; [exact HcL|].
      intros ->. contradiction.
  - intros c Hc Hc'. apply init_pq0 in Hc as [_ Hc].
    apply init_pq1 in Hc' as (Hc' & _).
    rewrite (dim_face g HX HY c) in Hc; [discriminate|].
    destruct Hc' as [->| ->]; lia.
  - intros c HcL Hc3 Hc2'. split; [|split].
    + apply init_star_unpaired; [exact HcL|lia].
    + intros Hc. apply init_pq0 in Hc as [_ Hc].
      rewrite (dim_face g HX HY c Hc3) in Hc. discriminate.
    + intros Hc. apply init_pq1 in Hc as (_ & _ & Hc). lia.
  - intros c HcL Hc3.
    pose proof (lower_star_range m0 HX HY idx Hi _ HcL).
    apply HinL in HcL as [->|Hc].
    + right. rewrite init_unpaired, Z.eqb_refl, andb_false_r. reflexivity.
    + left. apply init_pq0. split; [exact Hc|]. apply dim_edge. lia.
  - intros c HcL Hc3 Hc1'.
    destruct (init_count c HcL Hc3) as (K2 & K3 & K4).
    left. apply init_pq1.
    destruct (decide (delta ∈ _facets g c)) as [Hin|Hout].
    + split; [|split; [exact HcL|lia]].
      pose proof (lower_star_range m0 HX HY idx Hi _ HcL).
      replace c with (size g * 3 + (c - 3 * size g)) in Hin by lia.
      destruct (cofacets_of_facet g HX HY (c - 3 * size g) delta ltac:(lia) Hin)
        as (d1 & d2 & Hd & Hor).
      rewrite Hcf in Hd. injection Hd as <- <-.
      destruct Hor; [left|right]; lia.
    + specialize (K3 Hout). lia.
Qed.

Lemma init_measure :
  (length pq0 + length pq1 + 9 * unpaired_in m1 L + 2 <= 100)%nat.
Proof.
  pose proof (lower_star_length m0 idx) as HLen.
  assert (H0 : (length pq0 <= length rest)%nat).
  { unfold pq0. rewrite length_map. apply filter_length_bool. }
  assert (H1 : (length pq1 <= 2)%nat).
  { unfold pq1. rewrite length_map.
    pose proof (filter_length_bool
                  (fun f => bool_decide (f ∈ L)
                            && (length (unpaired_facets m1 f L) =? 1)%nat)
                  [c1; c2]) as Hf.
    simpl length in Hf. exact Hf. }
  assert (H2 : (unpaired_in m1 L <= length L)%nat).
  { apply filter_length_bool. }
  assert (HS : length L = S (length rest)) by (rewrite HL; reflexivity).
  lia.
Qed.

End InitStep.

(** The inner loop ends, and keeps the invariants. *)
Lemma drain_ok (fuel : nat) :
  forall (m : TorusMesh) (pq0 pq1 : list entry),
    grid m = g -> stars_done m0 m done [idx] -> star_inv g m L pq0 pq1 ->
    (length pq1 + 9 * unpaired_in m L < fuel)%nat ->
    exists m' pq0',
      drain_pq_one fuel L m pq0 pq1 = Ok (m', pq0') /\
      frame m m' /\ stars_done m0 m' done [idx] /\
      star_inv g m' L pq0' [] /\
      (length pq0' + 9 * unpaired_in m' L
       <= length pq0 + length pq1 + 9 * unpaired_in m L)%nat /\
      forall c, is_unpaired m c = false -> is_unpaired m' c = false.
Proof.
  induction fuel as [|fuel IH]; intros m pq0 pq1 Hg Hsd Hsi Hfuel; [lia|].
  simpl. destruct (heappop pq1) as [[alpha pq1']|] eqn:Hpop.
  - destruct (unpaired_facets m alpha.2 L) as [|pair_ rest] eqn:Hpair.
    + pose proof (move_star_inv m pq0 pq1 pq1' alpha Hsi Hpop) as Hsi'.
      assert (Hlen : length pq1 = S (length pq1')).
      { rewrite (heappop_Some _ _ _ Hpop). reflexivity. }
      destruct (IH m (heappush pq0 alpha) pq1' Hg Hsd Hsi' ltac:(lia))
        as (m' & pq0' & E & Hf & Hsd' & Hsi'' & Hm & Hmono).
      exists m', pq0'. split; [exact E|]. split; [exact Hf|].
      split; [exact Hsd'|]. split; [exact Hsi''|]. split; [|exact Hmono].
      unfold heappush in Hm. rewrite length_app in Hm. simpl in Hm. lia.
    + rewrite push_fold.
      pose proof (pair_stars_done m pq0 pq1 pq1' alpha pair_ rest
                    Hg Hsd Hsi Hpop Hpair) as Hsd'.
      pose proof (pair_star_inv m pq0 pq1 pq1' alpha pair_ rest
                    Hg Hsi Hpop Hpair) as Hsi'.
      destruct (pair_measure m pq0 pq1 pq1' alpha pair_ rest
                  Hg Hsi Hpop Hpair) as (M1 & M2 & M3 & M4).
      pose proof (lower_star_length m0 idx) as HLen.
      match type of Hsi' with
      | star_inv _ ?m1 _ ?q0 ?q1 =>
          destruct (IH m1 q0 q1 Hg Hsd' Hsi' ltac:(lia))
            as (m' & pq0' & E & Hf & Hsd'' & Hsi'' & Hm & Hmono)
      end.
      exists m', pq0'. split; [exact E|].
      split; [exact (frame_trans _ _ _ (frame_arrow m _ _) Hf)|].
      split; [exact Hsd''|]. split; [exact Hsi''|]. split; [lia|].
      intros c Hc. apply Hmono.
      exact (pair_mono m alpha pair_ c Hc).
  - apply heappop_None in Hpop. subst pq1.
    exists m, pq0. split; [reflexivity|]. split; [apply frame_refl|].
    split; [exact Hsd|]. split; [exact Hsi|]. split; [simpl; lia|auto].
Qed.

(** The outer loop ends with both heaps empty. *)
Lemma star_loop_ok (fuel : nat) :
  forall (m : TorusMesh) (pq0 pq1 : list entry),
    grid m = g -> stars_done m0 m done [idx] -> star_inv g m L pq0 pq1 ->
    (length pq0 + length pq1 + 9 * unpaired_in m L + 2 <= fuel)%nat ->
    exists m',
      star_loop fuel L m pq0 pq1 = Ok m' /\
      frame m m' /\ stars_done m0 m' done [idx] /\
      star_inv g m' L [] [] /\
      forall c, is_unpaired m c = false -> is_unpaired m' c = false.
Proof.
  induction fuel as [|fuel IH]; intros m pq0 pq1 Hg Hsd Hsi Hfuel; [lia|].
  simpl. destruct (nonempty pq1 || nonempty pq0) eqn:Hne.
  - destruct (drain_ok fuel m pq0 pq1 Hg Hsd Hsi ltac:(lia))
      as (m1 & pq0' & E & Hf & Hsd1 & Hsi1 & Hm & Hmono).
    rewrite E. simpl.
    assert (Hg1 : grid m1 = g) by (destruct Hf as (-> & _); exact Hg).
    destruct (heappop pq0') as [[gamma pq0'']|] eqn:Hpop.
    + rewrite push_fold. simpl app. rewrite Hg.
      pose proof (gamma_stars_done m1 pq0' pq0'' gamma Hsd1 Hsi1 Hpop)
        as Hsd2.
      pose proof (gamma_star_inv m1 pq0' pq0'' gamma Hg1 Hsi1 Hpop) as Hsi2.
      destruct (gamma_measure m1 pq0' pq0'' gamma Hsi1 Hpop)
        as (M1 & M2 & M3).
      pose proof (lower_star_length m0 idx) as HLen.
      match type of Hsi2 with
      | star_inv _ ?m2 _ ?q0 ?q1 =>
          destruct (IH m2 q0 q1 Hg1 Hsd2 Hsi2 ltac:(lia))
            as (m' & E' & Hf' & Hsd' & Hsi' & Hmono')
      end.
      exists m'. split; [exact E'|].
      split.
      { eapply frame_trans; [exact Hf|].
        eapply frame_trans; [apply frame_critical|exact Hf']. }
      split; [exact Hsd'|]. split; [exact Hsi'|].
      intros c Hc. apply Hmono'.
      apply (gamma_mono m1 gamma c), Hmono, Hc.
    + apply heappop_None in Hpop. subst pq0'.
      destruct fuel as [|fuel]; [lia|]. simpl.
      exists m1. split; [reflexivity|]. split; [exact Hf|].
      split; [exact Hsd1|]. split; [exact Hsi1|exact Hmono].
  - destruct pq1; [|discriminate]. destruct pq0; [|discriminate].
    exists m. split; [reflexivity|]. split; [apply frame_refl|]. auto.
Qed.

(** With both heaps empty the whole lower star is paired or critical. *)
Lemma star_finished (m : TorusMesh) (c : Z) :
  grid m = g -> star_inv g m L [] [] -> c ∈ L -> is_unpaired m c = false.
Proof.
  intros Hg Hsi Hc.
  assert (He : forall e, e ∈ L -> e < 3 * size g -> is_unpaired m e = false).
  { intros e He H3.
    destruct (si_edges _ _ _ _ _ Hsi e He H3) as [Hin|Hu]; [|exact Hu].
    apply elem_of_nil in Hin. contradiction. }
  destruct (Z.lt_ge_cases c (3 * size g)) as [Hlt|Hge]; [auto|].
  destruct (le_lt_dec (count_unpaired m c L) 1) as [Hle|Hgt].
  - destruct (si_faces _ _ _ _ _ Hsi c Hc Hge Hle) as [Hin|[Hin|Hu]];
      [apply elem_of_nil in Hin; contradiction..|exact Hu].
  - exfalso. unfold count_unpaired in Hgt.
    destruct (unpaired_facets m c L) as [|f fs] eqn:E; [simpl in Hgt; lia|].
    assert (Hf : f ∈ unpaired_facets m c L).
    { rewrite E. apply elem_of_cons. auto. }
    apply (elem_unpaired_facets m c f Hg) in Hf as (Hfc & HfL & Hfu).
    destruct (star_facet c f Hc HfL Hfc) as [_ Hfr].
    rewrite (He f HfL) in Hfu; [discriminate|lia].
Qed.

(** Processing the lower star of [idx]. *)
Lemma process_star_ok (fuel : nat) (m : TorusMesh) :
  (100 <= fuel)%nat ->
  frame m0 m -> stars_done m0 m done [] ->
  ~ idx ∈ done -> (forall d, d ∈ done -> 0 <= d < size g) ->
  exists m',
    _process_star fuel m idx = Ok m' /\
    frame m m' /\ stars_done m0 m' (idx :: done) [].
Proof.
  intros Hfuel Hf Hsd Hfresh Hrange.
  assert (Hg : grid m = g) by (destruct Hf as (-> & _); reflexivity).
  unfold _process_star. rewrite (lower_star_frame m0 m idx Hf).
  destruct (lower_star m0 idx) as [|delta rest] eqn:HL.
  - eexists. split; [reflexivity|]. split; [apply frame_critical|].
    apply (empty_star_done m Hsd Hfresh Hrange HL).
  - rewrite Hg.
    pose proof (lower_star_head m0 HX HY idx Hi _ _ HL) as Hdr.
    destruct (cofacets_edge g HX HY delta Hdr)
      as (c1 & c2 & Hcf & _).
    rewrite Hcf. unfold mbind, result_bind. cbn [fst snd].
    rewrite !push_fold. simpl app.
    rewrite <- HL.
    pose proof (init_stars_done m Hg Hsd Hfresh Hrange delta rest HL)
      as Hsd1.
    pose proof (init_star_inv m Hg Hsd Hfresh Hrange delta rest c1 c2 HL Hcf)
      as Hsi1.
    pose proof (init_measure m delta rest c1 c2 HL) as Hm.
    match type of Hsi1 with
    | star_inv _ ?m1 _ ?q0 ?q1 =>
        destruct (star_loop_ok fuel m1 q0 q1 Hg Hsd1 Hsi1 ltac:(lia))
          as (m' & E & Hf' & Hsd' & Hsi' & Hmono)
    end.
    exists m'. split; [exact E|].
    split; [exact (frame_trans _ _ _ (frame_arrow m _ _) Hf')|].
    assert (Hg' : grid m' = g) by (destruct Hf' as (-> & _); exact Hg).
    constructor.
    + exact (sd_involution _ _ _ _ Hsd').
    + exact (sd_exclusive _ _ _ _ Hsd').
    + exact (sd_owned _ _ _ _ Hsd').
    + exact (sd_cells _ _ _ _ Hsd').
    + intros i c Hin Hc. apply elem_of_cons in Hin as [->|Hin].
      * destruct Hc as [->|Hc].
        { apply Hmono. apply (init_idx m delta). }
        apply (star_finished m' c Hg' Hsi' Hc).
      * exact (sd_complete _ _ _ _ Hsd' i c Hin Hc).
    + exact (sd_local _ _ _ _ Hsd').
    + exact (sd_minima _ _ _ _ Hsd').
Qed.

End StarProcessing.

(** ** All lower stars *)

Lemma process_stars_error (fuel : nat) (cells : list Z)
    (r : result TorusMesh) :
  (forall m, r <> Ok m) ->
  foldl (fun r cell => m' ← r; _process_star fuel m' cell) r cells = r.
Proof.
  revert r. induction cells as [|c cells IH]; intros r Hr; simpl;
    [reflexivity|].
  destruct r as [m| |]; [exfalso; eapply Hr; reflexivity|..]; simpl.
  - apply IH. discriminate.
  - apply IH. discriminate.
Qed.

Lemma process_blocks (fuel : nat) (blocks : list (Z * Z))
    (r : result TorusMesh) :
  foldl (fun r b => m' ← r; _process_stars_parallel fuel m' (range b.1 b.2))
    r blocks
  = foldl (fun r cell => m' ← r; _process_star fuel m' cell) r
      (concat (List.map (fun b => range b.1 b.2) blocks)).
Proof.
  revert r. induction blocks as [|b blocks IH]; intros r; simpl;
    [reflexivity|].
  rewrite foldl_app, IH. f_equal.
  destruct r as [m| |]; simpl.
  - reflexivity.
  - symmetry. apply process_stars_error. discriminate.
  - symmetry. apply process_stars_error. discriminate.
Qed.

Lemma range_app (a b c : Z) :
  a <= b <= c -> range a b ++ range b c = range a c.
Proof.
  intros H. unfold range.
  replace (c - a) with ((b - a) + (c - b)) by lia.
  rewrite seqZ_app by lia. do 2 f_equal. lia.
Qed.

Lemma blocks_telescope (c : Z) (k : nat) :
  0 <= c ->
  concat (List.map (fun b : Z * Z => range b.1 b.2)
            (List.map (fun i => (c * i, c * (i + 1)))
               (seqZ 0 (Z.of_nat k))))
  = range 0 (c * Z.of_nat k).
Proof.
  intros Hc. induction k as [|k IH].
  - simpl. unfold range. rewrite seqZ_nil by lia. reflexivity.
  - rewrite seqZ_S, !map_app, concat_app, IH. simpl.
    rewrite app_nil_r.
    replace (c * (0 + Z.of_nat k)) with (c * Z.of_nat k) by lia.
    replace (c * (0 + Z.of_nat k + 1)) with (c * Z.of_nat (S k)) by lia.
    apply range_app. nia.
Qed.

(** The blocks of the threads cover the vertices, in order. *)
Lemma cell_blocks_cover (n threads_num : Z) :
  0 <= n -> 0 < threads_num ->
  concat (List.map (fun b : Z * Z => range b.1 b.2)
            (cell_blocks n threads_num)) = range 0 n.
Proof.
  intros Hn Ht. unfold cell_blocks.
  set (c := n / threads_num).
  assert (Hc : 0 <= c) by (apply Z.div_pos; lia).
  assert (Hct : c * threads_num <= n).
  { rewrite Z.mul_comm. apply Z.mul_div_le. lia. }
  change (range 0 threads_num) with (seqZ 0 (threads_num - 0)).
  replace (threads_num - 0)
    with (Z.of_nat (S (Z.to_nat (threads_num - 1)))) by lia.
  rewrite seqZ_S, map_app, reverse_app. simpl.
  rewrite reverse_involutive, map_app, concat_app.
  rewrite blocks_telescope by exact Hc. simpl. rewrite app_nil_r.
  apply range_app. nia.
Qed.

Section AllStars.

Variable m0 : TorusMesh.
Hypothesis HX : 0 < sizeX (grid m0).
Hypothesis HY : 0 < sizeY (grid m0).
Variable fuel : nat.
Hypothesis Hfuel : (100 <= fuel)%nat.

Lemma process_stars_ok (cells : list Z) :
  forall (done : list Z) (m : TorusMesh),
    frame m0 m -> stars_done m0 m done [] ->
    NoDup cells ->
    (forall c, c ∈ cells -> 0 <= c < size (grid m0) /\ ~ c ∈ done) ->
    (forall d, d ∈ done -> 0 <= d < size (grid m0)) ->
    exists m',
      foldl (fun r cell => m' ← r; _process_star fuel m' cell) (Ok m) cells
      = Ok m' /\
      frame m0 m' /\ stars_done m0 m' (reverse cells ++ done) [].
Proof using HX HY Hfuel.
  induction cells as [|c cells IH]; intros done m Hf Hsd Hnd Hc Hd.
  - exists m. auto.
  - apply NoDup_cons in Hnd as [Hnc Hnd].
    destruct (Hc c ltac:(apply elem_of_cons; auto)) as [Hcr Hcd].
    destruct (process_star_ok m0 HX HY done c Hcr fuel m Hfuel Hf Hsd Hcd Hd)
      as (m1 & E & Hf1 & Hsd1).
    destruct (IH (c :: done) m1 (frame_trans _ _ _ Hf Hf1) Hsd1 Hnd)
      as (m' & E' & Hf' & Hsd').
    + intros x Hx. destruct (Hc x ltac:(apply elem_of_cons; auto)) as [? ?].
      split; [assumption|]. intros Hin.
      apply elem_of_cons in Hin as [->|Hin]; contradiction.
    + intros d Hin. apply elem_of_cons in Hin as [->|Hin]; auto.
    + exists m'. simpl. rewrite E. split; [exact E'|].
      split; [exact Hf'|].
      rewrite reverse_cons, <- app_assoc. exact Hsd'.
Qed.

End AllStars.

(** [cmp_discrete_gradient] returns, and every lower star is finished. *)
Lemma gradient_built (fuel : nat) (m : TorusMesh) (threads_num : Z) :
  0 < sizeX (grid m) -> 0 < sizeY (grid m) -> 0 < threads_num ->
  (100 <= fuel)%nat ->
  exists m',
    cmp_discrete_gradient fuel m threads_num = Ok m' /\
    frame m m' /\
    stars_done m m' (reverse (range 0 (size (grid m)))) [].
Proof.
  intros HX HY Ht Hfuel. unfold cmp_discrete_gradient.
  destruct (Z.eqb_spec threads_num 0); [lia|].
  destruct (Z.ltb_spec threads_num 0); [lia|].
  rewrite process_blocks, cell_blocks_cover
    by (pose proof (size_pos _ HX HY); lia).
  destruct (process_stars_ok m HX HY fuel Hfuel (range 0 (size (grid m))) []
              (with_V (with_crit m [] ∅) ∅)) as (m1 & E & Hf & Hsd).
  - repeat split.
  - constructor.
    + intros c d Hc. simpl in Hc. rewrite lookup_empty in Hc. discriminate.
    + intros c Hc. simpl in Hc. apply not_elem_of_empty in Hc. contradiction.
    + intros c Hc. discriminate.
    + split; [apply NoDup_nil_2|]. intros c. simpl.
      rewrite elem_of_nil. split; [contradiction|].
      intros Hc. apply not_elem_of_empty in Hc. contradiction.
    + intros i c Hi. apply elem_of_nil in Hi. contradiction.
    + intros c d Hc. simpl in Hc. rewrite lookup_empty in Hc. discriminate.
    + intros v Hv. simpl in Hv. apply not_elem_of_empty in Hv. contradiction.
  - apply NoDup_seqZ.
  - intros c Hc. unfold range in Hc. apply elem_of_seqZ in Hc.
    split; [lia|]. apply not_elem_of_nil.
  - intros d Hd. apply elem_of_nil in Hd. contradiction.
  - rewrite E. simpl. eexists. split; [reflexivity|].
    split; [exact Hf|].
    rewrite app_nil_r in Hsd. destruct (sd_cells _ _ _ _ Hsd) as [Hnd Hcells].
    constructor.
    + exact (sd_involution _ _ _ _ Hsd).
    + exact (sd_exclusive _ _ _ _ Hsd).
    + intros c Hc. rewrite app_nil_l.
      destruct (sd_owned _ _ _ _ Hsd c Hc) as [Ho|Ho]; auto.
    + simpl. split.
      * rewrite sort_by_perm. exact Hnd.
      * intros c. rewrite sort_by_elem. apply Hcells.
    + exact (sd_complete _ _ _ _ Hsd).
    + exact (sd_local _ _ _ _ Hsd).
    + exact (sd_minima _ _ _ _ Hsd).
Qed.

(** ** The gradient is an involution (C2) *)

(** C2: [cmp_discrete_gradient] returns, and in the gradient it leaves every
    paired cell is the partner of its partner, with dimensions that differ by
    one.  The values of the field need not even be distinct. *)
Theorem gradient_pairs_cells (fuel : nat) (m : TorusMesh) (threads_num : Z) :
  0 < sizeX (grid m) -> 0 < sizeY (grid m) -> 0 < threads_num ->
  (100 <= fuel)%nat ->
  exists m',
    cmp_discrete_gradient fuel m threads_num = Ok m' /\
    forall c d, 0 <= c < 4 * size (grid m') -> V m' !! c = Some d ->
      V m' !! d = Some c /\
      Z.abs (dim (grid m') d - dim (grid m') c) = 1.
Proof.
  intros HX HY Ht Hfuel.
  destruct (gradient_built fuel m threads_num HX HY Ht Hfuel)
    as (m' & E & Hf & Hsd).
  exists m'. split; [exact E|]. intros c d _ Hc.
  destruct (sd_involution _ _ _ _ Hsd c d Hc) as [Hd Hdim].
  split; [exact Hd|]. lia.
Qed.

Lemma gradient_pairs_cells_witness :
  exists m',
    cmp_discrete_gradient 100 (new_mesh 3 4 test_field) 8 = Ok m' /\
    forall c d, 0 <= c < 4 * size (grid m') -> V m' !! c = Some d ->
      V m' !! d = Some c /\
      Z.abs (dim (grid m') d - dim (grid m') c) = 1.
Proof.
  apply (gradient_pairs_cells 100 (new_mesh 3 4 test_field) 8);
    simpl; lia.
Defined.

(** ** Critical means unpaired (C3) *)

Section Coverage.

Variable m : TorusMesh.
Hypothesis H2X : 2 <= sizeX (grid m).
Hypothesis H2Y : 2 <= sizeY (grid m).
Hypothesis Hdist : distinct_values m.

Local Abbreviation g := (grid m).

Lemma coverage_pos : 0 < sizeX g /\ 0 < sizeY g.
Proof using H2X H2Y. lia. Qed.

Lemma value_inj (u v : Z) :
  0 <= u < size g -> 0 <= v < size g -> value m u = value m v -> u = v.
Proof using H2X H2Y Hdist.
  destruct coverage_pos as [HX HY]. intros Hu Hv E.
  destruct (vertex_split g HX u Hu) as (Eu & Hux & Huy).
  destruct (vertex_split g HX v Hv) as (Ev & Hvx & Hvy).
  destruct (Hdist _ _ _ _ Hux Huy Hvx Hvy E) as [Ex Ey].
  rewrite Eu, Ev, Ex, Ey. reflexivity.
Qed.

(** Every edge and every face lies in the lower star of its highest
    vertex. *)
Lemma star_covers (c : Z) :
  size g <= c < 4 * size g ->
  exists idx, 0 <= idx < size g /\ c ∈ lower_star m idx.
Proof using H2X H2Y Hdist.
  destruct coverage_pos as [HX HY]. intros Hc.
  destruct (Z.lt_ge_cases c (2 * size g)) as [H2|H2];
    [|destruct (Z.lt_ge_cases c (3 * size g)) as [H3|H3]].
  - (* a horizontal edge *)
    set (t := c - size g). assert (Ht : 0 <= t < size g) by (unfold t; lia).
    destruct (neighbour_range g HX HY t Ht) as (_ & Hr & _).
    assert (Hne : _vright g t <> t).
    { intros E. apply (_vright_fixed g HX HY) in E; lia. }
    assert (Hv : value m (_vright g t) <> value m t).
    { intros E. apply Hne, value_inj; assumption. }
    destruct (Z.lt_ge_cases (value m (_vright g t)) (value m t)) as [Hl|Hl].
    + exists t. split; [exact Ht|]. apply (elem_lower_star m); [assumption|].
      right. right. left. split; [exact Hl|]. unfold _eright, t. lia.
    + exists (_vright g t). split; [exact Hr|]. apply (elem_lower_star m); [assumption|].
      left. rewrite (_vleft_vright g HX HY t Ht). split; [lia|].
      unfold _eleft. rewrite (_vleft_vright g HX HY t Ht). unfold t. lia.
  - (* a vertical edge *)
    set (t := c - 2 * size g).
    assert (Ht : 0 <= t < size g) by (unfold t; lia).
    destruct (neighbour_range g HX HY t Ht) as (_ & _ & _ & Hb).
    assert (Hne : _vbottom g t <> t).
    { intros E. apply (_vbottom_fixed g HX HY) in E; lia. }
    assert (Hv : value m (_vbottom g t) <> value m t).
    { intros E. apply Hne, value_inj; assumption. }
    destruct (Z.lt_ge_cases (value m (_vbottom g t)) (value m t)) as [Hl|Hl].
    + exists t. split; [exact Ht|]. apply (elem_lower_star m); [assumption|].
      do 3 right. left. split; [exact Hl|]. unfold _ebottom, t. lia.
    + exists (_vbottom g t). split; [exact Hb|]. apply (elem_lower_star m); [assumption|].
      right. left. rewrite (_vtop_vbottom g HX HY t Ht). split; [lia|].
      unfold _etop. rewrite (_vtop_vbottom g HX HY t Ht). unfold t. lia.
  - (* a face *)
    set (t := c - 3 * size g).
    assert (Ht : 0 <= t < size g) by (unfold t; lia).
    destruct (neighbour_range g HX HY t Ht) as (_ & Hr & _ & Hb).
    destruct (neighbour_range g HX HY _ Hr) as (_ & _ & _ & Hrb).
    set (r := _vright g t) in *. set (b := _vbottom g t) in *.
    set (rb := _vbottom g r) in *.
    assert (Erb : _vright g b = rb).
    { apply (_vright_vbottom g HX HY t Ht). }
    assert (Htr : r <> t).
    { intros E. apply (_vright_fixed g HX HY) in E; lia. }
    assert (Htb : b <> t).
    { intros E. apply (_vbottom_fixed g HX HY) in E; lia. }
    assert (Hrrb : rb <> r).
    { intros E. apply (_vbottom_fixed g HX HY) in E; lia. }
    assert (Hbrb : rb <> b).
    { rewrite <- Erb. intros E. apply (_vright_fixed g HX HY) in E; lia. }
    assert (Elr : _vleft g r = t) by apply (_vleft_vright g HX HY t Ht).
    assert (Etb : _vtop g b = t) by apply (_vtop_vbottom g HX HY t Ht).
    assert (Etrb : _vtop g rb = r) by apply (_vtop_vbottom g HX HY r Hr).
    assert (Elrb : _vleft g rb = b).
    { rewrite <- Erb. apply (_vleft_vright g HX HY b Hb). }
    destruct (row_differs g HX HY t Ht H2Y) as (_ & _ & _ & _ & _ & Hbr).
    fold r b in Hbr.
    destruct (row_differs g HX HY r Hr H2Y) as (_ & _ & _ & _ & Hrbt & _).
    fold rb in Hrbt. rewrite Elr in Hrbt.
    assert (D1 : value m r <> value m t)
      by (intros E; apply Htr, value_inj; assumption).
    assert (D2 : value m b <> value m t)
      by (intros E; apply Htb, value_inj; assumption).
    assert (D3 : value m rb <> value m t)
      by (intros E; apply Hrbt, value_inj; assumption).
    assert (D4 : value m rb <> value m r)
      by (intros E; apply Hrrb, value_inj; assumption).
    assert (D5 : value m rb <> value m b)
      by (intros E; apply Hbrb, value_inj; assumption).
    assert (D6 : value m b <> value m r)
      by (intros E; apply Hbr, value_inj; assumption).
    assert (Hmax :
      (value m r < value m t /\ value m b < value m t
       /\ value m rb < value m t) \/
      (value m t < value m r /\ value m rb < value m r
       /\ value m b < value m r) \/
      (value m b < value m rb /\ value m r < value m rb
       /\ value m t < value m rb) \/
      (value m rb < value m b /\ value m t < value m b
       /\ value m r < value m b)) by lia.
    destruct Hmax as [(A1 & A2 & A3)|[(A1 & A2 & A3)|[(A1 & A2 & A3)|
                      (A1 & A2 & A3)]]].
    + exists t. split; [exact Ht|].
      apply (elem_lower_star m); [assumption|].
      do 7 right. fold b r. rewrite Erb.
      split; [auto|]. unfold _frightbottom, t. lia.
    + exists r. split; [exact Hr|].
      apply (elem_lower_star m); [assumption|].
      do 6 right. left. fold rb. rewrite Elr, Elrb.
      split; [auto|]. unfold _fleftbottom. rewrite Elr. unfold t. lia.
    + exists rb. split; [exact Hrb|].
      apply (elem_lower_star m); [assumption|].
      do 4 right. left. rewrite Etrb, Elrb, Elr.
      split; [auto|]. unfold _flefttop. rewrite Elrb, Etb. unfold t. lia.
    + exists b. split; [exact Hb|].
      apply (elem_lower_star m); [assumption|].
      do 5 right. left. rewrite Erb, Etb. fold r.
      split; [auto|]. unfold _frighttop. rewrite Etb. unfold t. lia.
Qed.

End Coverage.

(** After [cmp_discrete_gradient] on a grid with at least two rows and two
    columns and pairwise distinct values, every cell is paired or critical,
    never both. *)
Lemma gradient_complete (fuel : nat) (m : TorusMesh) (threads_num : Z) :
  2 <= sizeX (grid m) -> 2 <= sizeY (grid m) -> distinct_values m ->
  0 < threads_num -> (100 <= fuel)%nat ->
  exists m',
    cmp_discrete_gradient fuel m threads_num = Ok m' /\
    frame m m' /\
    stars_done m m' (reverse (range 0 (size (grid m)))) [] /\
    (forall c, 0 <= c < 4 * size (grid m) -> is_unpaired m' c = false) /\
    (forall c, is_unpaired m' c = false -> 0 <= c < 4 * size (grid m)).
Proof.
  intros H2X H2Y Hd Ht Hfuel.
  assert (HX : 0 < sizeX (grid m)) by lia.
  assert (HY : 0 < sizeY (grid m)) by lia.
  destruct (gradient_built fuel m threads_num HX HY Ht Hfuel)
    as (m' & E & Hf & Hsd).
  exists m'. split; [exact E|]. split; [exact Hf|]. split; [exact Hsd|].
  assert (Hv : forall i, i ∈ reverse (range 0 (size (grid m))) <->
                         0 <= i < size (grid m)).
  { intros i. rewrite elem_of_reverse. unfold range.
    rewrite elem_of_seqZ. lia. }
  split.
  - intros c Hc.
    destruct (Z.lt_ge_cases c (size (grid m))) as [Hlt|Hge].
    + apply (sd_complete _ _ _ _ Hsd c c); [apply Hv; lia|auto].
    + destruct (star_covers m H2X H2Y Hd c ltac:(lia)) as (i & Hi & Hin).
      apply (sd_complete _ _ _ _ Hsd i c); [apply Hv; lia|auto].
  - intros c Hc.
    destruct (sd_owned _ _ _ _ Hsd c Hc) as [Hin|(i & Hin & Hci)];
      simpl in Hin; apply Hv in Hin.
    + lia.
    + pose proof (lower_star_range m HX HY i Hin c Hci). lia.
Qed.

(** C3, as stated, fails on the 1 x 1 grid: the edges and the face are in no
    lower star, so they end up neither paired nor critical. *)
Lemma critical_iff_unpaired_counterexample :
  exists m',
    cmp_discrete_gradient 100 (new_mesh 1 1 (fun _ _ => 0)) 8 = Ok m' /\
    0 <= 1 < 4 * size (grid m') /\
    V m' !! 1 = None /\ ~ 1 ∈ cr_id m'.
Proof.
  eexists. split; [vm_compute; reflexivity|].
  split; [vm_compute; split; [discriminate|reflexivity]|].
  split; [vm_compute; reflexivity|].
  match goal with
  | |- ~ ?P => apply (proj1 (bool_decide_eq_false P))
  end.
  vm_compute. reflexivity.
Qed.

(** C3 (amended): on a grid with at least two rows and two columns and
    pairwise distinct vertex values, [cmp_discrete_gradient] returns and
    leaves a cell critical exactly when the gradient does not pair it. *)
Theorem critical_iff_unpaired (fuel : nat) (m : TorusMesh) (threads_num : Z) :
  2 <= sizeX (grid m) -> 2 <= sizeY (grid m) -> distinct_values m ->
  0 < threads_num -> (100 <= fuel)%nat ->
  exists m',
    cmp_discrete_gradient fuel m threads_num = Ok m' /\
    forall c, 0 <= c < 4 * size (grid m') ->
      (c ∈ cr_id m' <-> V m' !! c = None).
Proof.
  intros H2X H2Y Hd Ht Hfuel.
  destruct (gradient_complete fuel m threads_num H2X H2Y Hd Ht Hfuel)
    as (m' & E & Hf & Hsd & Hall & _).
  exists m'. split; [exact E|]. intros c Hc.
  destruct Hf as (Eg & _). rewrite Eg in Hc.
  split.
  - apply (sd_exclusive _ _ _ _ Hsd).
  - intros HV. specialize (Hall c Hc).
    apply is_unpaired_false in Hall as [Hn|Hin]; [contradiction|exact Hin].
Qed.

Lemma test_field_distinct : distinct_values (new_mesh 3 4 test_field).
Proof.
  intros x y x' y' Hx Hy Hx' Hy' E. simpl in Hx, Hy, Hx', Hy'.
  assert (Cx : x = 0 \/ x = 1 \/ x = 2) by lia.
  assert (Cy : y = 0 \/ y = 1 \/ y = 2 \/ y = 3) by lia.
  assert (Cx' : x' = 0 \/ x' = 1 \/ x' = 2) by lia.
  assert (Cy' : y' = 0 \/ y' = 1 \/ y' = 2 \/ y' = 3) by lia.
  simpl in E.
  destruct Cx as [->|[->| ->]], Cy as [->|[->|[->| ->]]],
    Cx' as [->|[->| ->]], Cy' as [->|[->|[->| ->]]];
    first [split; reflexivity | vm_compute in E; discriminate].
Qed.

Lemma critical_iff_unpaired_witness :
  exists m',
    cmp_discrete_gradient 100 (new_mesh 3 4 test_field) 8 = Ok m' /\
    forall c, 0 <= c < 4 * size (grid m') ->
      (c ∈ cr_id m' <-> V m' !! c = None).
Proof.
  apply (critical_iff_unpaired 100 (new_mesh 3 4 test_field) 8);
    [simpl; lia | simpl; lia | apply test_field_distinct | lia | lia].
Defined.

(** ** The Euler characteristic (C4) *)

Lemma filter_perm {A : Type} (p : A -> bool) (l l' : list A) :
  l ≡ₚ l' -> List.filter p l ≡ₚ List.filter p l'.
Proof.
  induction 1 as [|x l l' _ IH|x y l|l1 l2 l3 _ IH1 _ IH2]; simpl.
  - reflexivity.
  - destruct (p x); [apply perm_skip|]; exact IH.
  - destruct (p x), (p y); try reflexivity. apply perm_swap.
  - etransitivity; eassumption.
Qed.

Lemma filter_filter {A : Type} (p q : A -> bool) (l : list A) :
  List.filter p (List.filter q l) = List.filter (fun x => q x && p x) l.
Proof.
  induction l as [|x l IH]; simpl; [reflexivity|].
  destruct (q x); simpl; [destruct (p x); simpl; rewrite IH|]; auto.
Qed.

Lemma filter_split_length {A : Type} (p q : A -> bool) (l : list A) :
  length (List.filter p l) =
  (length (List.filter (fun x => p x && q x) l)
   + length (List.filter (fun x => p x && negb (q x)) l))%nat.
Proof.
  induction l as [|x l IH]; simpl; [reflexivity|].
  destruct (p x), (q x); simpl; lia.
Qed.

Lemma filter_ext_length {A : Type} (p q : A -> bool) (l : list A) :
  (forall x, x ∈ l -> p x = q x) ->
  length (List.filter p l) = length (List.filter q l).
Proof.
  intros H. f_equal. apply filter_ext_in. intros x Hx.
  apply H, list_elem_of_In, Hx.
Qed.

(** Two parts of a list matched by an involution have the same size. *)
Lemma filter_matching (f : Z -> Z) (p q : Z -> bool) (l : list Z) :
  NoDup l ->
  (forall x, x ∈ l -> p x = true ->
             f x ∈ l /\ q (f x) = true /\ f (f x) = x) ->
  (forall y, y ∈ l -> q y = true ->
             f y ∈ l /\ p (f y) = true /\ f (f y) = y) ->
  length (List.filter p l) = length (List.filter q l).
Proof.
  intros Hnd Hp Hq.
  rewrite <- (length_fmap f (List.filter p l)).
  apply Permutation_length, NoDup_Permutation.
  - apply NoDup_fmap_2_strong; [|apply NoDup_filter_bool, Hnd].
    intros x y Hx Hy E. apply elem_of_filter_bool in Hx as [Hx Hpx].
    apply elem_of_filter_bool in Hy as [Hy Hpy].
    destruct (Hp x Hx Hpx) as (_ & _ & <-).
    destruct (Hp y Hy Hpy) as (_ & _ & <-). rewrite E. reflexivity.
  - apply NoDup_filter_bool, Hnd.
  - intros y. rewrite list_elem_of_fmap, elem_of_filter_bool. split.
    + intros (x & -> & Hx). apply elem_of_filter_bool in Hx as [Hx Hpx].
      destruct (Hp x Hx Hpx) as (? & ? & _). auto.
    + intros [Hy Hqy]. destruct (Hq y Hy Hqy) as (Hfy & Hpf & Hff).
      exists (f y). split; [congruence|].
      apply elem_of_filter_bool. auto.
Qed.

Lemma filter_range_all (p : Z -> bool) (a b : Z) :
  (forall x, a <= x < b -> p x = true) ->
  List.filter p (range a b) = range a b.
Proof.
  intros H. apply forallb_filter_id, forallb_forall. intros x Hx.
  apply list_elem_of_In in Hx. unfold range in Hx.
  apply elem_of_seqZ in Hx. apply H. lia.
Qed.

Lemma filter_range_none (p : Z -> bool) (a b : Z) :
  (forall x, a <= x < b -> p x = false) ->
  List.filter p (range a b) = [].
Proof.
  intros H. destruct (List.filter p (range a b)) as [|x l] eqn:E;
    [reflexivity|].
  assert (Hx : x ∈ List.filter p (range a b)).
  { rewrite E. apply elem_of_cons. auto. }
  apply elem_of_filter_bool in Hx as [Hx Hp]. unfold range in Hx.
  apply elem_of_seqZ in Hx. rewrite H in Hp by lia. discriminate.
Qed.

Lemma range_length (a b : Z) : a <= b -> Z.of_nat (length (range a b)) = b - a.
Proof. intros H. unfold range. rewrite length_seqZ. lia. Qed.

Section Euler.

Variable m : TorusMesh.
Hypothesis HX : 0 < sizeX (grid m).
Hypothesis HY : 0 < sizeY (grid m).
Hypothesis Hinv : gradient_involution m.
Hypothesis Hxor : forall c, 0 <= c < 4 * size (grid m) ->
  (c ∈ cr_id m <-> V m !! c = None).
Hypothesis Hrange : forall c, is_unpaired m c = false ->
  0 <= c < 4 * size (grid m).
Hypothesis Hcells :
  NoDup (cr_cells m) /\ forall c, c ∈ cr_cells m <-> c ∈ cr_id m.

Local Abbreviation g := (grid m).
Local Abbreviation n := (size (grid m)).
Local Abbreviation cells := (range 0 (4 * size (grid m))).

Let partner (c : Z) : Z := default 0 (V m !! c).
Let paired (c : Z) : bool := negb (bool_decide (V m !! c = None)).
Let isdim (k c : Z) : bool := dim g c =? k.

Lemma euler_cells (c : Z) : c ∈ cells <-> 0 <= c < 4 * n.
Proof. unfold range. rewrite elem_of_seqZ. lia. Qed.

Lemma euler_cp (k : Z) :
  length (cp m k) =
  length (List.filter (fun c => isdim k c && negb (paired c)) cells).
Proof using Hxor Hrange Hcells.
  destruct Hcells as [Hnd Hin].
  assert (Hp : cr_cells m ≡ₚ List.filter (is_critical m) cells).
  { apply NoDup_Permutation; [exact Hnd|apply NoDup_filter_bool, NoDup_seqZ|].
    intros c. rewrite Hin, elem_of_filter_bool, euler_cells.
    unfold is_critical. rewrite bool_decide_eq_true. split; [|tauto].
    intros Hc. split; [|exact Hc]. apply Hrange, is_unpaired_false. auto. }
  unfold cp. rewrite (Permutation_length (filter_perm _ _ _ Hp)).
  rewrite filter_filter. apply filter_ext_length.
  intros c Hc. apply euler_cells in Hc. rewrite andb_comm. f_equal.
  unfold is_critical, paired. rewrite negb_involutive.
  apply bool_decide_ext, Hxor, Hc.
Qed.

Lemma euler_dims :
  Z.of_nat (length (List.filter (isdim 0) cells)) = n /\
  Z.of_nat (length (List.filter (isdim 1) cells)) = 2 * n /\
  Z.of_nat (length (List.filter (isdim 2) cells)) = n.
Proof using HX HY.
  pose proof (size_pos g HX HY) as Hn.
  assert (E : cells = range 0 n ++ range n (3 * n) ++ range (3 * n) (4 * n)).
  { rewrite !range_app by lia. reflexivity. }
  rewrite E, !List.filter_app, !length_app.
  repeat split.
  - rewrite (filter_range_all (isdim 0) 0 n),
      (filter_range_none (isdim 0) n (3 * n)),
      (filter_range_none (isdim 0) (3 * n) (4 * n)).
    + simpl. rewrite Nat.add_0_r. rewrite range_length; lia.
    + intros x Hx. unfold isdim. rewrite (dim_face g HX HY) by lia.
      reflexivity.
    + intros x Hx. unfold isdim. rewrite (dim_edge g) by lia. reflexivity.
    + intros x Hx. unfold isdim. rewrite (dim_vertex g) by lia. reflexivity.
  - rewrite (filter_range_none (isdim 1) 0 n),
      (filter_range_all (isdim 1) n (3 * n)),
      (filter_range_none (isdim 1) (3 * n) (4 * n)).
    + simpl. rewrite Nat.add_0_r. rewrite range_length; lia.
    + intros x Hx. unfold isdim. rewrite (dim_face g HX HY) by lia.
      reflexivity.
    + intros x Hx. unfold isdim. rewrite (dim_edge g) by lia. reflexivity.
    + intros x Hx. unfold isdim. rewrite (dim_vertex g) by lia. reflexivity.
  - rewrite (filter_range_none (isdim 2) 0 n),
      (filter_range_none (isdim 2) n (3 * n)),
      (filter_range_all (isdim 2) (3 * n) (4 * n)).
    + simpl. rewrite range_length; lia.
    + intros x Hx. unfold isdim. rewrite (dim_face g HX HY) by lia.
      reflexivity.
    + intros x Hx. unfold isdim. rewrite (dim_edge g) by lia. reflexivity.
    + intros x Hx. unfold isdim. rewrite (dim_vertex g) by lia. reflexivity.
Qed.

(** A paired cell, its partner and their dimensions. *)
Lemma euler_partner (c : Z) :
  paired c = true ->
  partner c ∈ cells /\ paired (partner c) = true /\
  partner (partner c) = c /\ c ∈ cells /\
  (dim g (partner c) - dim g c = 1 \/ dim g c - dim g (partner c) = 1).
Proof using Hinv Hrange.
  unfold paired, partner. intros Hc.
  apply negb_true_iff, bool_decide_eq_false in Hc.
  destruct (V m !! c) as [d|] eqn:E; [|contradiction]. simpl.
  destruct (Hinv c d E) as [Ed Hdim].
  rewrite Ed. simpl. split; [|split; [|split; [|split]]].
  - apply euler_cells, Hrange, is_unpaired_false. left. congruence.
  - first [reflexivity
          |apply negb_true_iff, bool_decide_eq_false; discriminate].
  - reflexivity.
  - apply euler_cells, Hrange, is_unpaired_false. left. congruence.
  - exact Hdim.
Qed.

Lemma euler_matching (k : Z) :
  k = 0 \/ k = 2 ->
  length (List.filter (fun c => isdim k c && paired c) cells) =
  length (List.filter
            (fun c => isdim 1 c && paired c && isdim k (partner c)) cells).
Proof using HX HY Hinv Hrange.
  intros Hk. apply (filter_matching partner); [apply NoDup_seqZ|..].
  - intros x _ Hx. apply andb_true_iff in Hx as [Hd Hp].
    destruct (euler_partner x Hp) as (Hin & Hpp & Hff & _ & Hdim).
    split; [exact Hin|]. split; [|exact Hff].
    unfold isdim in *. rewrite Hpp, Hff, Hd. apply Z.eqb_eq in Hd.
    destruct (dim_cases g HX HY (partner x)) as [[E _]|[[E _]|[E _]]];
      rewrite E in *; simpl; try reflexivity; lia.
  - intros y _ Hy. apply andb_true_iff in Hy as [Hy Hk'].
    apply andb_true_iff in Hy as [Hd Hp].
    destruct (euler_partner y Hp) as (Hin & Hpp & Hff & _ & _).
    split; [exact Hin|]. split; [|exact Hff].
    rewrite Hpp, Hk'. reflexivity.
Qed.

Lemma euler_characteristic :
  Z.of_nat (length (cp m 0)) - Z.of_nat (length (cp m 1))
  + Z.of_nat (length (cp m 2)) = 0.
Proof using HX HY Hinv Hxor Hrange Hcells.
  rewrite !euler_cp.
  destruct euler_dims as (D0 & D1 & D2).
  pose proof (filter_split_length (isdim 0) paired cells) as S0.
  pose proof (filter_split_length (isdim 1) paired cells) as S1.
  pose proof (filter_split_length (isdim 2) paired cells) as S2.
  pose proof (filter_split_length (fun c => isdim 1 c && paired c)
                (fun c => isdim 0 (partner c)) cells) as S3.
  pose proof (euler_matching 0 (or_introl eq_refl)) as M0.
  pose proof (euler_matching 2 (or_intror eq_refl)) as M2.
  assert (E : length (List.filter
                (fun c => isdim 1 c && paired c && negb (isdim 0 (partner c)))
                cells) =
              length (List.filter
                (fun c => isdim 1 c && paired c && isdim 2 (partner c))
                cells)).
  { apply filter_ext_length. intros c _.
    destruct (isdim 1 c) eqn:Hd; [|reflexivity].
    destruct (paired c) eqn:Hp; [|reflexivity]. simpl.
    destruct (euler_partner c Hp) as (_ & _ & _ & _ & Hdim).
    unfold isdim in *. apply Z.eqb_eq in Hd. rewrite Hd in Hdim.
    destruct (dim_cases g HX HY (partner c)) as [[E _]|[[E _]|[E _]]];
      rewrite E in *; simpl; try reflexivity; lia. }
  lia.
Qed.

End Euler.

(** C4, as stated, fails on the 1 x 1 grid (whose single value is trivially
    pairwise distinct): the vertex is the only critical cell, so the
    alternating count is 1. *)
Lemma euler_characteristic_counterexample :
  exists m',
    cmp_discrete_gradient 100 (new_mesh 1 1 (fun _ _ => 0)) 8 = Ok m' /\
    distinct_values (new_mesh 1 1 (fun _ _ => 0)) /\
    Z.of_nat (length (cp m' 0)) - Z.of_nat (length (cp m' 1))
    + Z.of_nat (length (cp m' 2)) = 1.
Proof.
  eexists. split; [vm_compute; reflexivity|]. split.
  - intros x y x' y' Hx Hy Hx' Hy' _. simpl in *. lia.
  - vm_compute. reflexivity.
Qed.

(** C4 (amended): on a grid with at least two rows and two columns and
    pairwise distinct vertex values, [cmp_discrete_gradient] returns and the
    numbers of critical cells it leaves satisfy
    [len(cp(0)) - len(cp(1)) + len(cp(2)) = 0]. *)
Theorem euler_characteristic_torus
    (fuel : nat) (m : TorusMesh) (threads_num : Z) :
  2 <= sizeX (grid m) -> 2 <= sizeY (grid m) -> distinct_values m ->
  0 < threads_num -> (100 <= fuel)%nat ->
  exists m',
    cmp_discrete_gradient fuel m threads_num = Ok m' /\
    Z.of_nat (length (cp m' 0)) - Z.of_nat (length (cp m' 1))
    + Z.of_nat (length (cp m' 2)) = 0.
Proof.
  intros H2X H2Y Hd Ht Hfuel.
  destruct (gradient_complete fuel m threads_num H2X H2Y Hd Ht Hfuel)
    as (m' & E & Hf & Hsd & Hall & Hrange).
  exists m'. split; [exact E|].
  destruct Hf as (Eg & _).
  apply euler_characteristic.
  - rewrite Eg. lia.
  - rewrite Eg. lia.
  - exact (sd_involution _ _ _ _ Hsd).
  - rewrite Eg. intros c Hc. split.
    + apply (sd_exclusive _ _ _ _ Hsd).
    + intros HV. specialize (Hall c Hc).
      apply is_unpaired_false in Hall as [Hn|Hin]; [contradiction|exact Hin].
  - rewrite Eg. exact Hrange.
  - exact (sd_cells _ _ _ _ Hsd).
Qed.

Lemma euler_characteristic_torus_witness :
  exists m',
    cmp_discrete_gradient 100 (new_mesh 3 4 test_field) 8 = Ok m' /\
    Z.of_nat (length (cp m' 0)) - Z.of_nat (length (cp m' 1))
    + Z.of_nat (length (cp m' 2)) = 0.
Proof.
  apply (euler_characteristic_torus 100 (new_mesh 3 4 test_field) 8);
    [simpl; lia | simpl; lia | apply test_field_distinct | lia | lia].
Defined.

(** ** Simplification to level zero (C7) *)

(** What the builders of the complex do to [ppairs]: nothing. *)
Lemma drain_pq_one_ppairs (fuel : nat) (lstar : list Z) (m : TorusMesh)
    (pq_zero pq_one : list entry) (r : TorusMesh * list entry) :
  drain_pq_one fuel lstar m pq_zero pq_one = Ok r -> ppairs r.1 = ppairs m.
Proof.
  revert m pq_zero pq_one.
  induction fuel as [|fuel IH]; intros m pq_zero pq_one H; simpl in H;
    [discriminate|].
  destruct (heappop pq_one) as [[alpha pq_one']|];
    [|injection H as <-; reflexivity].
  destruct (unpaired_facets m alpha.2 lstar); apply IH in H; exact H.
Qed.

Lemma star_loop_ppairs (fuel : nat) (lstar : list Z) (m m' : TorusMesh)
    (pq_zero pq_one : list entry) :
  star_loop fuel lstar m pq_zero pq_one = Ok m' -> ppairs m' = ppairs m.
Proof.
  revert m pq_zero pq_one.
  induction fuel as [|fuel IH]; intros m pq_zero pq_one H; simpl in H;
    [discriminate|].
  destruct (nonempty pq_one || nonempty pq_zero);
    [|injection H as <-; reflexivity].
  inv_bind H. apply drain_pq_one_ppairs in Ha.
  destruct (heappop a.2) as [[gamma pq_zero2]|]; apply IH in H;
    rewrite H; exact Ha.
Qed.

Lemma process_star_ppairs (fuel : nat) (m m' : TorusMesh) (idx : Z) :
  _process_star fuel m idx = Ok m' -> ppairs m' = ppairs m.
Proof.
  unfold _process_star. intros H.
  destruct (lower_star m idx) as [|delta rest];
    [injection H as <-; reflexivity|].
  inv_bind H. apply star_loop_ppairs in H. exact H.
Qed.

Lemma foldl_ppairs {X : Type} (f : TorusMesh -> X -> result TorusMesh)
    (l : list X) (m m' : TorusMesh) :
  (forall m1 x m2, f m1 x = Ok m2 -> ppairs m2 = ppairs m1) ->
  foldl (fun (r : result TorusMesh) x => m1 ← r; f m1 x) (Ok m) l = Ok m' ->
  ppairs m' = ppairs m.
Proof.
  intros Hf H.
  eapply (foldl_result_inv _ (fun s => ppairs s = ppairs m)); [| |exact H].
  - intros r x s' Hr Hs. inv_bind Hs. rewrite (Hf _ _ _ Hs). auto.
  - intros s [= <-]. reflexivity.
Qed.

Lemma cmp_discrete_gradient_ppairs (fuel : nat) (m m' : TorusMesh)
    (threads_num : Z) :
  cmp_discrete_gradient fuel m threads_num = Ok m' -> ppairs m' = ppairs m.
Proof.
  unfold cmp_discrete_gradient. intros H.
  destruct (threads_num =? 0); [discriminate|].
  destruct (threads_num <? 0); [discriminate|].
  inv_bind H. injection H as <-. simpl.
  apply (foldl_ppairs
           (fun m1 (b : Z * Z) =>
              _process_stars_parallel fuel m1 (range b.1 b.2))) in Ha;
    [exact Ha|].
  intros m1 b m2 Hb. unfold _process_stars_parallel in Hb.
  apply (foldl_ppairs (fun m3 cell => _process_star fuel m3 cell)) in Hb;
    [exact Hb|].
  intros m3 x m4. apply process_star_ppairs.
Qed.

Lemma cmp_msgraph_ppairs (fuel : nat) (m m' : TorusMesh) :
  cmp_msgraph fuel m = Ok m' -> ppairs m' = ppairs m.
Proof.
  unfold cmp_msgraph. intros H. inv_bind H. injection H as <-. reflexivity.
Qed.

(** What the computation of the arcs out of a saddle leaves alone. *)
Lemma cmp_arcs_at_keeps (fuel : nat) (m m' : TorusMesh) (s : Z) :
  _cmp_arcs fuel m s = Ok m' ->
  grid m' = grid m /\ cr_cells m' = cr_cells m /\ V m' = V m /\
  cr_id m' = cr_id m /\ ppairs m' = ppairs m /\ msgraph m' = msgraph m.
Proof.
  unfold _cmp_arcs. intros H.
  destruct (dict_get (arcs m) s); [|discriminate].
  inv_bind H. inv_bind H. inv_bind H. injection H as <-.
  repeat split; reflexivity.
Qed.

Lemma cmp_arcs_ppairs (fuel : nat) (m m' : TorusMesh) :
  cmp_arcs fuel m = Ok m' -> ppairs m' = ppairs m.
Proof.
  unfold cmp_arcs. intros H.
  apply (foldl_ppairs (fun m1 s => _cmp_arcs fuel m1 s)) in H; [exact H|].
  intros m1 x m2 Hx. apply cmp_arcs_at_keeps in Hx. tauto.
Qed.

Lemma revert_along_keeps (arc : list Z) (m m' : TorusMesh) :
  revert_along m arc = Ok m' ->
  grid m' = grid m /\ cr_cells m' = cr_cells m /\ cr_id m' = cr_id m /\
  ppairs m' = ppairs m /\ msgraph m' = msgraph m /\ arcs m' = arcs m.
Proof.
  revert m. induction arc as [arc IH] using (induction_ltof1 _ (@length Z)).
  unfold ltof in IH. intros m H.
  destruct arc as [|a [|b arc']]; simpl in H.
  - injection H as <-. repeat split; reflexivity.
  - discriminate.
  - apply IH in H; [|simpl; lia]. exact H.
Qed.

Lemma unset_critical_keeps (m m' : TorusMesh) (idx : Z) :
  unset_critical m idx = Ok m' ->
  grid m' = grid m /\ V m' = V m /\ ppairs m' = ppairs m /\
  msgraph m' = msgraph m /\ arcs m' = arcs m /\
  length (cr_cells m) = S (length (cr_cells m')).
Proof.
  unfold unset_critical. intros H. inv_bind H. injection H as <-. simpl.
  apply list_remove_length in Ha. repeat split; auto.
Qed.

(** The effect of one cancellation by reverting the gradient. *)
Lemma revert_gradient_effect (fuel : nat) (m m' : TorusMesh)
    (p : Z * Z * Z) (rest : list (Z * Z * Z)) :
  list_pop (ppairs m) = Some (p, rest) ->
  eliminate_pair_revert_gradient fuel m = Ok m' ->
  exists arc m1,
    find_arc m p.1.1 p.1.2 = Ok arc /\
    revert_along (with_ppairs m rest) arc = Ok m1 /\
    V m' = V m1 /\ grid m' = grid m /\ ppairs m' = rest /\
    length (cr_cells m) = S (S (length (cr_cells m'))).
Proof.
  unfold eliminate_pair_revert_gradient. intros Hp H. rewrite Hp in H.
  cbn [grid with_ppairs] in H.
  destruct (negb (dim (grid m) p.1.1 =? 1)); [discriminate|].
  bind_as H saddles Hs. bind_as H min_or_max Hmm.
  destruct (dim (grid m) p.1.2 =? 1); [discriminate|].
  bind_as H arc Harc. bind_as H m1 Hrev. bind_as H m2 Hu1.
  bind_as H m3 Hu2. bind_as H G HG. bind_as H ar Har.
  bind_as H m4 Hfold. bind_as H G' HG'. injection H as <-.
  destruct (revert_along_keeps _ _ _ Hrev) as (Eg1 & Ec1 & _ & Ep1 & _).
  destruct (unset_critical_keeps _ _ _ Hu1)
    as (Eg2 & Ev2 & Ep2 & _ & _ & El2).
  destruct (unset_critical_keeps _ _ _ Hu2)
    as (Eg3 & Ev3 & Ep3 & _ & _ & El3).
  assert (K : grid m4 = grid m3 /\ cr_cells m4 = cr_cells m3 /\
              V m4 = V m3 /\ ppairs m4 = ppairs m3).
  { eapply (foldl_result_inv _
              (fun s => grid s = grid m3 /\ cr_cells s = cr_cells m3 /\
                        V s = V m3 /\ ppairs s = ppairs m3));
      [| |exact Hfold].
    - intros r x s' Hr Hx. bind_as Hx m5 Hm5. bind_as Hx G5 HG5.
      apply cmp_arcs_at_keeps in Hx. simpl in Hx.
      destruct (Hr _ Hm5) as (? & ? & ? & ?).
      destruct Hx as (-> & -> & -> & _ & -> & _). auto.
    - intros s [= <-]. simpl. auto. }
  destruct K as (Eg4 & Ec4 & Ev4 & Ep4).
  exists arc, m1.
  split; [exact Harc|]. split; [exact Hrev|].
  simpl. rewrite Ev4, Ev3, Ev2, Eg4, Eg3, Eg2, Eg1, Ep4, Ep3, Ep2, Ep1.
  rewrite Ec1 in El2. rewrite Ec4. simpl in *.
  repeat split; try reflexivity. lia.
Qed.

Lemma extend_arc_ppairs (fuel : nat) (m m' : TorusMesh) (s extr : Z)
    (arc_extension : list Z) :
  extend_arc fuel m s extr arc_extension = Ok m' -> ppairs m' = ppairs m.
Proof.
  unfold extend_arc. intros H. bind_as H r Hr. bind_as H arc Harc.
  destruct (dict_get (arcs m) s); [|discriminate].
  injection H as <-. reflexivity.
Qed.

Lemma change_msgraph_ppairs (fuel : nat) (m m' : TorusMesh)
    (p : Z * Z * Z) (rest : list (Z * Z * Z)) :
  list_pop (ppairs m) = Some (p, rest) ->
  eliminate_pair_change_msgraph fuel m = Ok m' -> ppairs m' = rest.
Proof.
  unfold eliminate_pair_change_msgraph. intros Hp H. rewrite Hp in H.
  cbn [grid with_ppairs] in H.
  destruct (negb (dim (grid m) p.1.1 =? 1)); [discriminate|].
  destruct (dim (grid m) p.1.2 =? 1); [discriminate|].
  bind_as H saddles Hs. bind_as H min_or_max Hmm. bind_as H G1 HG1.
  bind_as H G2 HG2. bind_as H G3 HG3. bind_as H arc1 Harc1.
  bind_as H arc2 Harc2. bind_as H m1 Hfold. bind_as H ar Har.
  bind_as H m2 Hu1.
  apply (foldl_ppairs
           (fun m1 s => extend_arc fuel m1 s p.1.2
                          (reverse (slice arc1 1 (-1)) ++ arc2))) in Hfold.
  2:{ intros ? ? ?. apply extend_arc_ppairs. }
  destruct (unset_critical_keeps _ _ _ Hu1) as (_ & _ & Ep1 & _).
  destruct (unset_critical_keeps _ _ _ H) as (_ & _ & Ep2 & _).
  rewrite Ep2, Ep1. simpl. rewrite Hfold. reflexivity.
Qed.

(** Every round of a simplification leaves [ppairs] as it is or takes its
    last triple away. *)
Lemma eliminate_ppairs (fuel : nat) (method : string) (m m' : TorusMesh) :
  eliminate fuel method m = Ok m' ->
  ppairs m' = ppairs m \/ exists p, ppairs m = ppairs m' ++ [p].
Proof.
  unfold eliminate. intros H.
  destruct (list_pop (ppairs m)) as [[p rest]|] eqn:Hp.
  - pose proof (proj1 (list_pop_Some _ _ _) Hp) as E.
    destruct (bool_decide (method = "gradient")).
    + destruct (revert_gradient_effect _ _ _ _ _ Hp H)
        as (_ & _ & _ & _ & _ & _ & -> & _). eauto.
    + destruct (bool_decide (method = "arc")).
      * rewrite (change_msgraph_ppairs _ _ _ _ _ Hp H). eauto.
      * injection H as <-. auto.
  - left. revert H.
    unfold eliminate_pair_revert_gradient, eliminate_pair_change_msgraph.
    rewrite Hp. destruct (bool_decide (method = "gradient"));
      [|destruct (bool_decide (method = "arc"))];
      intros [= <-]; reflexivity.
Qed.

Lemma eliminate_times_nonneg (n fuel : nat) (method : string)
    (m m' : TorusMesh) :
  eliminate_times n fuel method m = Ok m' ->
  Forall (fun p : Z * Z * Z => 0 <= p.2) (ppairs m) ->
  Forall (fun p : Z * Z * Z => 0 <= p.2) (ppairs m').
Proof.
  revert m. induction n as [|n IH]; intros m H Hm; simpl in H.
  - injection H as <-. exact Hm.
  - bind_as H m1 H1. apply (IH _ H).
    destruct (eliminate_ppairs _ _ _ _ H1) as [->|[p E]]; [exact Hm|].
    rewrite E in Hm. apply Forall_app in Hm. tauto.
Qed.

Lemma persistent_pairs_nonneg {U : Type} `{UnionFind U} (fuel : nat)
    (m m' : TorusMesh) :
  cmp_persistent_pairs fuel m = Ok m' ->
  Forall (fun p : Z * Z * Z => 0 <= p.2) (ppairs m').
Proof.
  intros Hc. destruct (persistent_pairs_carry _ _ _ Hc) as (pairs & -> & H2).
  simpl. rewrite sort_by_perm. eapply Forall_impl; [exact H2|].
  intros t Ht. unfold carries_persistence in Ht. lia.
Qed.

(** In every state of the engine the persistences in [ppairs] are absolute
    values. *)
Lemma engine_pairs_nonneg (m : TorusMesh) :
  engine_state m -> Forall (fun p : Z * Z * Z => 0 <= p.2) (ppairs m).
Proof.
  induction 1 as [lx ly val|m val _ IH|fuel m m' t _ IH E|m _ IH
                  |fuel m m' _ IH E|fuel m m' _ IH E|U uf fuel m m' _ IH E
                  |fuel m m' _ IH E|fuel m m' _ IH E
                  |fuel m m' level method _ IH E
                  |n fuel m m' method _ IH Hm E
                  |fuel m m' k method _ IH E].
  - constructor.
  - exact IH.
  - rewrite (cmp_discrete_gradient_ppairs _ _ _ _ E). exact IH.
  - exact IH.
  - rewrite (cmp_msgraph_ppairs _ _ _ E). exact IH.
  - rewrite (cmp_arcs_ppairs _ _ _ E). exact IH.
  - exact (persistent_pairs_nonneg _ _ _ E).
  - apply (eliminate_times_nonneg 1 fuel "gradient" m); [|exact IH].
    simpl. unfold eliminate. simpl. rewrite E. reflexivity.
  - apply (eliminate_times_nonneg 1 fuel "arc" m); [|exact IH].
    simpl. unfold eliminate. simpl. rewrite E. reflexivity.
  - unfold simplify_by_level in E.
    destruct (negb (valid_method method)); [discriminate|].
    exact (eliminate_times_nonneg _ _ _ _ _ E IH).
  - exact (eliminate_times_nonneg _ _ _ _ _ E IH).
  - unfold simplify_by_pairs_remained in E.
    destruct (negb (valid_method method)); [discriminate|].
    destruct (Z.of_nat (length (ppairs m)) <? k);
      [injection E as <-; exact IH|].
    destruct (k <? 2); [discriminate|].
    exact (eliminate_times_nonneg _ _ _ _ _ E IH).
Qed.

Lemma build_all_engine_state (fuel : nat) (lx ly : Z) (field : Z -> Z -> Z)
    (threads_num : Z) (m : TorusMesh) :
  build_all fuel lx ly field threads_num = Ok m -> engine_state m.
Proof.
  unfold build_all. intros H.
  bind_as H m1 H1. bind_as H m2 H2. bind_as H m3 H3.
  eapply es_persistent_pairs; [|exact H].
  eapply es_arcs; [|exact H3].
  eapply es_msgraph; [|exact H2].
  eapply es_gradient; [|exact H1].
  apply es_new.
Qed.

(** C7: in every state of the engine, [simplify_by_level(0, method)] with a
    valid method returns after no elimination, and the state it leaves, [V],
    [cr_cells], [cr_id], [msgraph], [arcs] and [ppairs], is the state it
    found. *)
Theorem simplify_by_level_zero (fuel : nat) (m : TorusMesh)
    (method : string) :
  engine_state m -> valid_method method = true ->
  List.filter (fun p : Z * Z * Z => p.2 <? 0) (ppairs m) = [] /\
  simplify_by_level fuel m 0 method = Ok m.
Proof.
  intros Hm Hv. apply engine_pairs_nonneg in Hm.
  assert (E : List.filter (fun p : Z * Z * Z => p.2 <? 0) (ppairs m) = []).
  { induction Hm as [|p l Hp _ IH]; simpl; [reflexivity|].
    destruct (Z.ltb_spec p.2 0); [lia|exact IH]. }
  split; [exact E|].
  unfold simplify_by_level. rewrite Hv, E. reflexivity.
Qed.

Lemma simplify_by_level_zero_witness :
  exists m,
    build_all 100 3 4 test_field 8 = Ok m /\
    ppairs m = [(26, 0, 5); (33, 46, 2); (29, 5, 1)] /\
    List.filter (fun p : Z * Z * Z => p.2 <? 0) (ppairs m) = [] /\
    simplify_by_level 100 m 0 "gradient" = Ok m.
Proof.
  eexists. split; [vm_compute; reflexivity|]. split; [reflexivity|].
  apply simplify_by_level_zero; [|reflexivity].
  apply (build_all_engine_state 100 3 4 test_field 8).
  vm_compute. reflexivity.
Defined.

(** ** One cancellation by reverting the gradient (C8) *)




Section Separatrix.

Variable m : TorusMesh.
Hypothesis Hinv : gradient_involution m.
Hypothesis Hex : forall c, c ∈ cr_id m -> V m !! c = None.



End Separatrix.







(** ** The degree of a saddle in the Morse-Smale graph (C5) *)

Import Nx.

Section Degree.

Variable g : dims.
Variable d : Z.

Let adj_count (n : Z) (adj : dict nat) : nat :=
  length (List.filter (fun e : Z * Z => dim g e.2 =? d)
            (flat_map (fun p : Z * nat => replicate p.2 (n, p.1)) adj)).

Lemma filter_replicate (k : nat) (n v : Z) :
  length (List.filter (fun e : Z * Z => dim g e.2 =? d) (replicate k (n, v)))
  = if dim g v =? d then k else 0%nat.
Proof.
  induction k as [|k IH]; simpl; [destruct (dim g v =? d); reflexivity|].
  destruct (dim g v =? d); simpl; [rewrite IH|]; auto.
Qed.

Lemma adj_count_bump (n v : Z) (adj : dict nat) :
  adj_count n (bump adj v) =
  (adj_count n adj + if (dim g v =? d)%Z then 1 else 0)%nat.
Proof.
  unfold adj_count, bump.
  induction adj as [|[k a] adj IH]; simpl.
  - destruct (dim g v =? d); reflexivity.
  - destruct (Z.eqb_spec v k) as [->|Hne]; simpl.
    + destruct (dim g k =? d); simpl; lia.
    + destruct (dict_get adj v); simpl in *;
        rewrite !List.filter_app, !length_app in *; lia.
Qed.

Lemma degree_bump_at (G : MultiGraph) (u v n : Z) :
  has_node G u = true ->
  degree g d (bump_at G u v) n =
  (degree g d G n + if ((n =? u) && (dim g v =? d))%Z then 1 else 0)%nat.
Proof.
  unfold has_node, degree, edges, bump_at.
  destruct (dict_get G u) as [adj|] eqn:E; [intros _|discriminate].
  rewrite dict_get_set.
  destruct (Z.eqb_spec n u) as [->|Hne]; simpl.
  - rewrite E. apply adj_count_bump.
  - destruct (dict_get G n); lia.
Qed.

Lemma has_node_add_node (G : MultiGraph) (u n : Z) :
  has_node (add_node G u) n = has_node G n || (n =? u).
Proof.
  unfold add_node. destruct (has_node G u) eqn:E.
  - destruct (Z.eqb_spec n u) as [->|]; [rewrite E|rewrite orb_false_r];
      reflexivity.
  - unfold has_node in *. rewrite dict_get_snoc.
    destruct (dict_get G n); [reflexivity|].
    destruct (n =? u); reflexivity.
Qed.

Lemma degree_add_node (G : MultiGraph) (u n : Z) :
  degree g d (add_node G u) n = degree g d G n.
Proof.
  unfold add_node. destruct (has_node G u) eqn:E; [reflexivity|].
  unfold degree, edges. rewrite dict_get_snoc.
  destruct (dict_get G n); [reflexivity|].
  destruct (n =? u); reflexivity.
Qed.

Lemma has_node_bump_at (G : MultiGraph) (u v n : Z) :
  has_node (bump_at G u v) n = has_node G n.
Proof.
  unfold bump_at. destruct (dict_get G u) as [adj|] eqn:E; [|reflexivity].
  unfold has_node. rewrite dict_get_set.
  destruct (Z.eqb_spec n u) as [->|]; [rewrite E|]; reflexivity.
Qed.

Lemma has_node_add_edge (G : MultiGraph) (u v n : Z) :
  has_node (add_edge G u v) n = has_node G n || (n =? u) || (n =? v).
Proof.
  unfold add_edge. destruct (u =? v);
    rewrite ?has_node_bump_at, !has_node_add_node; reflexivity.
Qed.

Lemma degree_add_edge (G : MultiGraph) (u v n : Z) :
  degree g d (add_edge G u v) n =
  (degree g d G n
   + (if ((n =? u) && (dim g v =? d))%Z then 1 else 0)
   + (if ((n =? v) && negb (u =? v) && (dim g u =? d))%Z then 1 else 0))%nat.
Proof.
  unfold add_edge.
  destruct (Z.eqb_spec u v) as [->|Hne]; simpl.
  - rewrite degree_bump_at, !degree_add_node.
    + rewrite andb_false_r. simpl. lia.
    + rewrite !has_node_add_node, Z.eqb_refl. apply orb_true_r.
  - rewrite degree_bump_at, degree_bump_at, !degree_add_node.
    + rewrite ?andb_true_r. simpl. lia.
    + rewrite !has_node_add_node, Z.eqb_refl. rewrite orb_true_r. reflexivity.
    + rewrite has_node_bump_at, !has_node_add_node, Z.eqb_refl.
      apply orb_true_r.
Qed.

End Degree.

Lemma visit_faces_spec (m : TorusMesh) (cidx : Z) (skip : option Z)
    (faces : list Z) (G : MultiGraph) (q : list Z) :
  (forall f, f ∈ faces -> skip <> Some f -> is_critical m f = false ->
             V m !! f <> None) ->
  visit_faces m cidx skip faces G q =
  Ok (add_edges G cidx
        (List.filter (fun f => negb (bool_decide (skip = Some f))
                               && is_critical m f) faces),
      reverse (List.filter (fun f => negb (bool_decide (skip = Some f))
                                     && negb (is_critical m f)
                                     && paired_up m f) faces) ++ q).
Proof.
  revert G q. induction faces as [|f faces IH]; intros G q Hp; simpl.
  - reflexivity.
  - assert (Hp' : forall f', f' ∈ faces -> skip <> Some f' ->
                    is_critical m f' = false -> V m !! f' <> None).
    { intros f' Hf'. apply Hp, elem_of_cons. auto. }
    destruct (bool_decide (skip = Some f)) eqn:Es; simpl.
    + apply IH, Hp'.
    + apply bool_decide_eq_false in Es.
      destruct (is_critical m f) eqn:Ec; simpl.
      * rewrite IH by exact Hp'. reflexivity.
      * unfold arrow_leaves, paired_up.
        specialize (Hp f ltac:(apply elem_of_cons; auto) Es Ec).
        destruct (V m !! f) as [v|]; [|contradiction]. simpl.
        rewrite IH by exact Hp'.
        destruct (f <? v); simpl; [|reflexivity].
        rewrite reverse_cons, <- app_assoc. reflexivity.
Qed.

Section DegreeOfEdges.

Variable g : dims.
Variable d : Z.

Lemma degree_add_edges_other (G : MultiGraph) (c n : Z) (ts : list Z) :
  n <> c ->
  degree g d (add_edges G c ts) n =
  (degree g d G n
   + if (dim g c =? d)%Z
     then length (List.filter (fun t => (t =? n)%Z) ts) else 0)%nat.
Proof.
  intros Hn. revert G. induction ts as [|t ts IH]; intros G; simpl.
  - destruct (dim g c =? d); lia.
  - unfold add_edges in *. rewrite IH, degree_add_edge.
    destruct (Z.eqb_spec n c); [contradiction|]. simpl.
    destruct (Z.eqb_spec n t) as [->|Hnt]; simpl.
    + rewrite Z.eqb_refl. destruct (Z.eqb_spec c t); [congruence|]. simpl.
      destruct (dim g c =? d); simpl; lia.
    + destruct (Z.eqb_spec t n); [congruence|].
      destruct (dim g c =? d); simpl; lia.
Qed.

Lemma degree_add_edges_self (G : MultiGraph) (c : Z) (ts : list Z) :
  (forall t, t ∈ ts -> t <> c) ->
  degree g d (add_edges G c ts) c =
  (degree g d G c + length (List.filter (fun t => (dim g t =? d)%Z) ts))%nat.
Proof.
  revert G. induction ts as [|t ts IH]; intros G Hts; simpl.
  - lia.
  - unfold add_edges in *. rewrite IH, degree_add_edge.
    2:{ intros t' Ht'. apply Hts, elem_of_cons. auto. }
    rewrite Z.eqb_refl. simpl.
    destruct (Z.eqb_spec c t) as [->|Hne].
    { exfalso. apply (Hts t); [apply elem_of_cons; auto|reflexivity]. }
    simpl. destruct (dim g t =? d); simpl; lia.
Qed.

End DegreeOfEdges.

Section MorseSmaleGraph.

Variable m : TorusMesh.
Variables rank0 rank2 : Z -> nat.
Hypothesis H2X : 2 <= sizeX (grid m).
Hypothesis H2Y : 2 <= sizeY (grid m).
Hypothesis Hdg : discrete_gradient m rank0 rank2.

Local Abbreviation g := (grid m).
Local Abbreviation N := (size (grid m)).

Lemma msg_pos : 0 < sizeX g /\ 0 < sizeY g /\ 0 < N.
Proof using H2X H2Y.
  assert (HX : 0 < sizeX g) by lia. assert (HY : 0 < sizeY g) by lia.
  pose proof (size_pos g HX HY). auto.
Qed.

Lemma critical_false (c : Z) :
  is_critical m c = false <-> ~ c ∈ cr_id m.
Proof. unfold is_critical. apply bool_decide_eq_false. Qed.

Lemma critical_true (c : Z) : is_critical m c = true <-> c ∈ cr_id m.
Proof. unfold is_critical. apply bool_decide_eq_true. Qed.

(** The arrow at a vertex that is not critical: it points to an edge whose
    other end stands lower. *)
Lemma vertex_arrow (v : Z) :
  0 <= v < N -> ~ v ∈ cr_id m ->
  exists e u,
    V m !! v = Some e /\ N <= e < 3 * N /\ u <> v /\ 0 <= u < N /\
    (_verts g e = [v; u] \/ _verts g e = [u; v]) /\
    (rank0 u < rank0 v)%nat.
Proof using H2X H2Y Hdg.
  intros Hv Hc. destruct msg_pos as (HX & HY & HN).
  destruct (V m !! v) as [e|] eqn:E.
  2:{ exfalso. apply Hc, (dg_critical _ _ _ Hdg); [lia|exact E]. }
  destruct (dg_involution _ _ _ Hdg v e E) as [Eev Hdim].
  rewrite (dim_vertex g v) in Hdim by lia.
  assert (He : N <= e < 3 * N).
  { destruct (dim_cases g HX HY e) as [[D ?]|[[D ?]|[D ?]]]; lia. }
  assert (Hin : v ∈ _verts g e).
  { rewrite <- (facets_below g HX HY e) by lia.
    apply (dg_incident _ _ _ Hdg v e E). lia. }
  assert (Hu : forall u, u ∈ _verts g e -> u <> v -> (rank0 u < rank0 v)%nat).
  { intros u Hu Hne. exact (dg_descends _ _ _ Hdg v e u Hv E Hu Hne). }
  exists e.
  destruct (Z.lt_ge_cases e (2 * N)) as [Hlt|Hge].
  - assert (Ht : 0 <= e - N < N) by lia.
    pose proof (verts_hedge g (e - N) Ht) as Ev.
    replace (N + (e - N)) with e in Ev by lia.
    destruct (neighbour_range g HX HY _ Ht) as (_ & Hr & _ & _).
    assert (Hne : _vright g (e - N) <> e - N).
    { intros Ef. apply (_vright_fixed g HX HY) in Ef; [lia|exact Ht]. }
    rewrite Ev in Hin, Hu |- *.
    rewrite !elem_of_cons in Hin.
    destruct Hin as [->|[->|Hin]]; [| |apply elem_of_nil in Hin; tauto].
    + exists (_vright g (e - N)). repeat split; auto; try lia.
      apply Hu; [rewrite !elem_of_cons; auto|exact Hne].
    + exists (e - N). repeat split; auto; try lia.
      apply Hu; [rewrite !elem_of_cons; auto|congruence].
  - assert (Ht : 0 <= e - 2 * N < N) by lia.
    pose proof (verts_vedge g (e - 2 * N) Ht) as Ev.
    replace (N * 2 + (e - 2 * N)) with e in Ev by lia.
    destruct (neighbour_range g HX HY _ Ht) as (_ & _ & _ & Hb).
    destruct (row_differs g HX HY _ Ht H2Y) as (_ & Hne & _).
    rewrite Ev in Hin, Hu |- *.
    rewrite !elem_of_cons in Hin.
    destruct Hin as [->|[->|Hin]]; [| |apply elem_of_nil in Hin; tauto].
    + exists (_vbottom g (e - 2 * N)). repeat split; auto; try lia.
      apply Hu; [rewrite !elem_of_cons; auto|exact Hne].
    + exists (e - 2 * N). repeat split; auto; try lia.
      apply Hu; [rewrite !elem_of_cons; auto|congruence].
Qed.

Lemma add_edges_app (G : MultiGraph) (c : Z) (ts ts' : list Z) :
  add_edges G c (ts ++ ts') = add_edges (add_edges G c ts) c ts'.
Proof. unfold add_edges. apply foldl_app. Qed.

(** The walk from a saddle [s] down to the minima: every vertex of the
    queue ends in one edge of the graph between [s] and a vertex. *)
Lemma saddle_walk (s : Z) (fuel : nat) (q : list Z) (G : MultiGraph) :
  (forall v, v ∈ q -> 0 <= v < N /\ ~ v ∈ cr_id m) ->
  (sum_list_with (fun v => S (rank0 v)) q < fuel)%nat ->
  exists ts,
    walk_queue fuel m s G q = Ok (add_edges G s ts) /\
    length ts = length q /\ forall t, t ∈ ts -> 0 <= t < N.
Proof using H2X H2Y Hdg.
  destruct msg_pos as (HX & HY & HN).
  revert q G. induction fuel as [|fuel IH]; intros q G Hq Hfuel; [lia|].
  simpl. destruct (list_pop q) as [[a q']|] eqn:Hpop.
  2:{ apply list_pop_None in Hpop as ->. exists []. simpl.
      split; [reflexivity|]. split; [reflexivity|].
      intros t Ht. apply elem_of_nil in Ht. contradiction. }
  apply list_pop_Some in Hpop as ->.
  destruct (Hq a) as [Ha Hac]; [apply elem_of_app; right; apply elem_of_cons; auto|].
  destruct (vertex_arrow a Ha Hac) as (e & u & E & He & Hne & Hu & Hv & Hr).
  rewrite E. rewrite visit_faces_spec.
  2:{ intros f Hf _ Hfc. rewrite (facets_below g HX HY e) in Hf by lia.
      apply (verts_range g HX HY e f) in Hf; [|lia].
      intros HV. apply critical_false in Hfc. apply Hfc.
      apply (dg_critical _ _ _ Hdg); [lia|exact HV]. }
  rewrite (facets_below g HX HY e) by lia. cbn [mbind result_bind fst snd].
  rewrite sum_list_with_app in Hfuel. simpl in Hfuel.
  assert (Hq' : forall v, v ∈ q' -> 0 <= v < N /\ ~ v ∈ cr_id m).
  { intros v Hv'. apply Hq, elem_of_app. auto. }
  set (P := fun f => negb (bool_decide (Some a = Some f)) && is_critical m f).
  set (Q := fun f => negb (bool_decide (Some a = Some f))
                     && negb (is_critical m f) && paired_up m f).
  assert (Pa : P a = false).
  { unfold P. rewrite bool_decide_eq_true_2 by reflexivity. reflexivity. }
  assert (Qa : Q a = false).
  { unfold Q. rewrite bool_decide_eq_true_2 by reflexivity. reflexivity. }
  assert (EP : List.filter P (_verts g e) = List.filter P [u]).
  { destruct Hv as [-> | ->]; cbn [List.filter]; rewrite Pa;
      destruct (P u); reflexivity. }
  assert (EQ : List.filter Q (_verts g e) = List.filter Q [u]).
  { destruct Hv as [-> | ->]; cbn [List.filter]; rewrite Qa;
      destruct (Q u); reflexivity. }
  clear Pa Qa.
  rewrite EP, EQ. simpl. unfold P, Q.
  rewrite bool_decide_eq_false_2 by congruence. simpl.
  destruct (is_critical m u) eqn:Ec; simpl.
  - destruct (IH q' (add_edge G s u) Hq' ltac:(lia)) as (ts & Hw & Hl & Ht).
    exists (u :: ts). split; [exact Hw|]. split.
    + rewrite length_app. simpl. lia.
    + intros t Hin. apply elem_of_cons in Hin as [->|Hin]; auto.
  - apply critical_false in Ec.
    destruct (vertex_arrow u Hu Ec) as (e' & _ & E' & He' & _).
    unfold paired_up. rewrite E'.
    destruct (Z.ltb_spec u e'); [|lia]. simpl.
    destruct (IH (u :: q') G) as (ts & Hw & Hl & Ht).
    + intros v Hv'. apply elem_of_cons in Hv' as [->|Hv']; auto.
    + simpl. lia.
    + exists ts. split; [exact Hw|]. split; [|exact Ht].
      rewrite Hl, length_app. simpl. lia.
Qed.

Lemma rank0_sum (l : list Z) :
  (sum_list_with (fun v => S (rank0 v)) l <= length l * Z.to_nat N)%nat.
Proof using Hdg.
  induction l as [|v l IH]; simpl; [lia|].
  pose proof (dg_rank0 _ _ _ Hdg v). lia.
Qed.

(** [cmp_msgraph] at a saddle: two edges of the graph, each between the
    saddle and a vertex. *)
Lemma saddle_from (s : Z) (fuel : nat) (G : MultiGraph) :
  N <= s < 3 * N -> (2 * Z.to_nat N < fuel)%nat ->
  exists ts,
    msgraph_from fuel m G s = Ok (add_edges G s ts) /\
    length ts = 2%nat /\ forall t, t ∈ ts -> 0 <= t < N.
Proof using H2X H2Y Hdg.
  intros Hs Hfuel. destruct msg_pos as (HX & HY & HN).
  unfold msgraph_from.
  assert (Hr : forall f, f ∈ _verts g s -> 0 <= f < N).
  { intros f Hf. apply (verts_range g HX HY s f); [lia|exact Hf]. }
  assert (Hlen : length (_verts g s) = 2%nat).
  { destruct (Z.lt_ge_cases s (2 * N)).
    - replace s with (N + (s - N)) by lia. rewrite verts_hedge by lia.
      reflexivity.
    - replace s with (N * 2 + (s - 2 * N)) by lia.
      rewrite verts_vedge by lia. reflexivity. }
  rewrite visit_faces_spec.
  2:{ intros f Hf _ Hfc. rewrite (facets_below g HX HY s) in Hf by lia.
      intros HV. apply critical_false in Hfc. apply Hfc.
      apply (dg_critical _ _ _ Hdg); [specialize (Hr f Hf); lia|exact HV]. }
  rewrite (facets_below g HX HY s) by lia. cbn [mbind result_bind fst snd].
  rewrite app_nil_r.
  set (P := fun f => negb (bool_decide (None = Some f)) && is_critical m f).
  set (Q := fun f => negb (bool_decide (None = Some f))
                     && negb (is_critical m f) && paired_up m f).
  assert (Hsplit : forall l, (forall f, f ∈ l -> 0 <= f < N) ->
            (length (List.filter P l) + length (List.filter Q l))%nat
            = length l /\
            forall v, v ∈ List.filter Q l -> 0 <= v < N /\ ~ v ∈ cr_id m).
  { induction l as [|f l IHl]; intros Hl.
    - split; [reflexivity|]. intros v Hv. apply elem_of_nil in Hv. tauto.
    - destruct IHl as [IH1 IH2].
      { intros f' Hf'. apply Hl, elem_of_cons. auto. }
      assert (Hf : 0 <= f < N) by (apply Hl, elem_of_cons; auto).
      assert (EPf : P f = is_critical m f).
      { unfold P. rewrite bool_decide_eq_false_2 by discriminate.
        reflexivity. }
      assert (EQf : Q f = negb (is_critical m f) && paired_up m f).
      { unfold Q. rewrite bool_decide_eq_false_2 by discriminate.
        reflexivity. }
      cbn [List.filter]. rewrite EPf, EQf.
      destruct (is_critical m f) eqn:Ec; simpl.
      + split; [lia|exact IH2].
      + apply critical_false in Ec.
        destruct (vertex_arrow f Hf Ec) as (e & _ & E & He & _).
        unfold paired_up. rewrite E.
        destruct (Z.ltb_spec f e); [|lia]. simpl. split; [lia|].
        intros v Hv. apply elem_of_cons in Hv as [->|Hv]; auto. }
  destruct (Hsplit _ Hr) as [Hl HQ].
  destruct (saddle_walk s fuel (reverse (List.filter Q (_verts g s)))
              (add_edges G s (List.filter P (_verts g s))))
    as (ts & Hw & Hlt & Ht).
  - intros v Hv. rewrite elem_of_reverse in Hv. auto.
  - pose proof (rank0_sum (reverse (List.filter Q (_verts g s)))) as Hsum.
    rewrite length_reverse in Hsum.
    assert (length (List.filter Q (_verts g s)) <= 2)%nat by lia. nia.
  - exists (List.filter P (_verts g s) ++ ts).
    rewrite add_edges_app. split; [exact Hw|]. split.
    + rewrite length_app, Hlt, length_reverse. lia.
    + intros t Hin. apply elem_of_app in Hin as [Hin|Hin]; [|auto].
      apply elem_of_filter_bool in Hin as [Hin _]. auto.
Qed.

Lemma facet_of_cofacet (e b c1 c2 : Z) :
  N <= e < 3 * N -> _cofacets g e = Ok (c1, c2) -> b = c1 \/ b = c2 ->
  e ∈ _facets g b.
Proof using H2X H2Y.
  destruct msg_pos as (HX & HY & HN).
  intros He Hc Hb. unfold _cofacets in Hc.
  rewrite dim_edge in Hc by exact He. simpl in Hc.
  destruct (Z.ltb_spec e (2 * N)).
  - assert (Ht : 0 <= e - N < N) by lia.
    destruct (neighbour_range g HX HY _ Ht) as (_ & _ & Htop & _).
    injection Hc as <- <-. destruct Hb as [-> | ->].
    + replace (3 * N + _vtop g (e - N)) with (N * 3 + _vtop g (e - N))
        by lia.
      rewrite (facets_face g HX HY _ Htop).
      rewrite (_vbottom_vtop g HX HY _ Ht).
      rewrite !elem_of_cons. right. right. left. lia.
    + replace (3 * N + (e - N)) with (N * 3 + (e - N)) by lia.
      rewrite (facets_face g HX HY _ Ht).
      rewrite !elem_of_cons. left. lia.
  - assert (Ht : 0 <= e - 2 * N < N) by lia.
    destruct (neighbour_range g HX HY _ Ht) as (Hleft & _).
    injection Hc as <- <-. destruct Hb as [-> | ->].
    + replace (3 * N + _vleft g (e - 2 * N))
        with (N * 3 + _vleft g (e - 2 * N)) by lia.
      rewrite (facets_face g HX HY _ Hleft).
      rewrite (_vright_vleft g HX HY _ Ht).
      rewrite !elem_of_cons. right. right. right. left. lia.
    + replace (3 * N + (e - 2 * N)) with (N * 3 + (e - 2 * N)) by lia.
      rewrite (facets_face g HX HY _ Ht).
      rewrite !elem_of_cons. right. left. lia.
Qed.

(** The faces of an edge that the gradient pairs with a face. *)
Lemma edge_arrow (a b : Z) :
  N <= a < 3 * N -> V m !! a = Some b -> a < b ->
  3 * N <= b < 4 * N /\ ~ a ∈ cr_id m /\ ~ b ∈ cr_id m /\
  V m !! b = Some a /\ a ∈ _facets g b /\
  exists c1 c2, _cofacets g a = Ok (c1, c2) /\ c1 <> c2 /\
                (b = c1 \/ b = c2).
Proof using H2X H2Y Hdg.
  destruct msg_pos as (HX & HY & HN).
  intros Ha E Hlt.
  destruct (dg_involution _ _ _ Hdg a b E) as [Eb Hdim].
  rewrite (dim_edge g a) in Hdim by lia.
  assert (Hb : 3 * N <= b < 4 * N).
  { assert (is_unpaired m b = false).
    { apply is_unpaired_false. left. congruence. }
    pose proof (dg_range _ _ _ Hdg b H).
    destruct (dim_cases g HX HY b) as [[D ?]|[[D ?]|[D ?]]]; lia. }
  pose proof (dg_incident _ _ _ Hdg a b E Hlt) as Hin.
  split; [exact Hb|]. split.
  { intros Hc. apply (dg_critical _ _ _ Hdg) in Hc; [congruence|lia]. }
  split.
  { intros Hc. apply (dg_critical _ _ _ Hdg) in Hc; [congruence|lia]. }
  split; [exact Eb|]. split; [exact Hin|].
  destruct (cofacets_edge g HX HY a Ha) as (c1 & c2 & Ec & _ & _ & Hne).
  exists c1, c2. split; [exact Ec|]. split; [auto|].
  replace b with (N * 3 + (b - 3 * N)) in Hin by lia.
  destruct (cofacets_of_facet g HX HY (b - 3 * N) a ltac:(lia) Hin)
    as (d1 & d2 & Ed & Hd).
  rewrite Ec in Ed. injection Ed as <- <-. lia.
Qed.

Lemma paired_up_spec (e : Z) :
  paired_up m e = true <-> exists b, V m !! e = Some b /\ e < b.
Proof.
  unfold paired_up. destruct (V m !! e) as [b|].
  - rewrite Z.ltb_lt. split; [eauto|]. intros (b' & [= <-] & ?). lia.
  - split; [discriminate|]. intros (b' & ? & _). discriminate.
Qed.

Lemma queued_spec (skip : option Z) (e : Z) :
  negb (bool_decide (skip = Some e)) && negb (is_critical m e)
  && paired_up m e = true <->
  skip <> Some e /\ ~ e ∈ cr_id m /\ exists b, V m !! e = Some b /\ e < b.
Proof.
  rewrite !andb_true_iff, !negb_true_iff, bool_decide_eq_false,
    critical_false, paired_up_spec. tauto.
Qed.

(** The visit of the facets of a face [b], from a maximum ([skip] is
    [None]) or from the edge [skip] that was taken from the queue. *)
Lemma face_visit (done q X : list Z) (skip : option Z) (b : Z) :
  max_walk m done (q ++ option_list skip) X ->
  3 * N <= b < 4 * N ->
  match skip with
  | Some a => V m !! a = Some b
  | None => b ∈ cr_id m /\ ~ b ∈ X
  end ->
  max_walk m (match skip with Some _ => done | None => b :: done end)
    (reverse (List.filter
                (fun f => negb (bool_decide (skip = Some f))
                          && negb (is_critical m f) && paired_up m f)
                (_facets g b)) ++ q)
    (b :: X).
Proof using H2X H2Y Hdg.
  destruct msg_pos as (HX & HY & HN).
  intros [Hnd Hpend Hreach [HndX HX'] Hroots] Hb Hskip.
  assert (Hfr : forall e, e ∈ _facets g b -> N <= e < 3 * N).
  { intros e He.
    destruct (facets_range g HX HY b e ltac:(lia) He); lia. }
  assert (HbX : ~ b ∈ X).
  { destruct skip as [a|]; [|tauto].
    destruct (Hpend a) as (_ & _ & b' & E & _ & Hn);
      [apply elem_of_app; right; apply elem_of_cons; auto|].
    congruence. }
  assert (HVb : V m !! b = skip).
  { destruct skip as [a|].
    - apply (dg_involution _ _ _ Hdg a b Hskip).
    - apply (dg_critical _ _ _ Hdg); [lia|tauto]. }
  assert (Hnew : forall e,
            e ∈ _facets g b -> skip <> Some e -> ~ e ∈ cr_id m ->
            forall be, V m !! e = Some be -> e < be ->
            be <> b /\ ~ be ∈ X /\ ~ e ∈ q ++ option_list skip).
  { intros e He Hs Hc be E Hlt.
    assert (Hbe : be <> b).
    { intros ->. destruct (dg_involution _ _ _ Hdg e b E) as [Eb _].
      congruence. }
    destruct (edge_arrow e be (Hfr e He) E Hlt)
      as (_ & _ & _ & _ & _ & c1 & c2 & Ec & Hne & Hbc).
    replace b with (N * 3 + (b - 3 * N)) in He by lia.
    destruct (cofacets_of_facet g HX HY (b - 3 * N) e ltac:(lia) He)
      as (d1 & d2 & Ed & Hd).
    rewrite Ec in Ed. injection Ed as <- <-.
    pose proof (Hreach e be c1 c2 b (Hfr e ltac:(replace b with
                  (N * 3 + (b - 3 * N)) by lia; exact He)) E Hlt Ec
                  ltac:(lia) ltac:(congruence)) as Hiff.
    split; [exact Hbe|]. split; tauto. }
  split.
  - (* the queue has no cell twice *)
    apply NoDup_app. split; [|split].
    + rewrite reverse_Permutation. apply NoDup_filter_bool.
      replace b with (N * 3 + (b - 3 * N)) by lia.
      apply (facets_NoDup g HX HY); [exact H2X|exact H2Y|lia].
    + intros e He Hq. rewrite elem_of_reverse in He.
      apply elem_of_filter_bool in He as [He HQ].
      apply queued_spec in HQ as (Hs & Hc & be & E & Hlt).
      destruct (Hnew e He Hs Hc be E Hlt) as (_ & _ & Hn).
      apply Hn, elem_of_app. auto.
    + apply NoDup_app in Hnd. tauto.
  - (* what waits in the queue *)
    intros a Ha. apply elem_of_app in Ha as [Ha|Ha].
    + rewrite elem_of_reverse in Ha.
      apply elem_of_filter_bool in Ha as [Ha HQ].
      apply queued_spec in HQ as (Hs & Hc & be & E & Hlt).
      destruct (Hnew a Ha Hs Hc be E Hlt) as (Hbe & HbeX & _).
      split; [auto|]. split; [exact Hc|]. exists be.
      split; [exact E|]. split; [exact Hlt|].
      rewrite elem_of_cons. tauto.
    + destruct (Hpend a) as (Har & Hac & b' & E & Hlt & Hb');
        [apply elem_of_app; auto|].
      split; [exact Har|]. split; [exact Hac|]. exists b'.
      split; [exact E|]. split; [exact Hlt|].
      rewrite elem_of_cons. intros [->|Hin]; [|contradiction].
      destruct (dg_involution _ _ _ Hdg a b E) as [Eb _].
      rewrite HVb in Eb. destruct skip as [a'|]; [|discriminate].
      injection Eb as ->. simpl in Hnd.
      apply NoDup_app in Hnd as (_ & Hd & _).
      apply (Hd a Ha), elem_of_cons. auto.
  - (* the faces reached *)
    intros a b' c1 c2 f' Har E Hlt Ec Hf' Hne.
    pose proof (Hreach a b' c1 c2 f' Har E Hlt Ec Hf' Hne) as Hold.
    destruct (edge_arrow a b' Har E Hlt)
      as (_ & Hac & _ & Eb' & _ & d1 & d2 & Ed & Hd12 & Hb'c).
    rewrite Ec in Ed. injection Ed as <- <-.
    rewrite !elem_of_cons, elem_of_app, elem_of_reverse,
      elem_of_filter_bool, queued_spec.
    rewrite elem_of_app in Hold.
    destruct (decide (b' = b)) as [->|Hbb].
    { (* the edge taken from the queue *)
      rewrite HVb in Eb'. destruct skip as [a'|]; [|discriminate].
      injection Eb' as ->. simpl in Hold.
      rewrite elem_of_cons in Hold. split; [auto|]. intros _. right.
      apply Hold. auto. }
    assert (Hsk : skip <> Some a).
    { intros ->. simpl in Hskip. congruence. }
    destruct (decide (f' = b)) as [->|Hfb].
    { split; [|auto]. intros _. left. left.
      split; [|eauto].
      apply (facet_of_cofacet a b c1 c2 Har Ec Hf'). }
    split.
    + intros [?|Hin]; [contradiction|].
      apply Hold in Hin as [[Hin|Hin]|Hin]; auto.
      destruct skip as [a'|]; simpl in Hin.
      * apply elem_of_cons in Hin as [->|Hin]; [congruence|].
        apply elem_of_nil in Hin. contradiction.
      * apply elem_of_nil in Hin. contradiction.
    + intros [[[Hin _]|Hin]|[?|Hin]]; try congruence.
      * exfalso.
        replace b with (N * 3 + (b - 3 * N)) in Hin by lia.
        destruct (cofacets_of_facet g HX HY (b - 3 * N) a ltac:(lia) Hin)
          as (e1 & e2 & Ee & He).
        rewrite Ec in Ee. injection Ee as <- <-. lia.
      * right. apply Hold. auto.
      * right. apply Hold. auto.
  - (* the faces visited *)
    split; [apply NoDup_cons; auto|].
    intros f Hf. apply elem_of_cons in Hf as [->|Hf]; auto.
  - (* the maxima visited *)
    intros f Hf Hc. apply elem_of_cons in Hf as [->|Hf].
    + destruct skip as [a|]; [|apply elem_of_cons; auto].
      apply (dg_critical _ _ _ Hdg) in Hc; [congruence|lia].
    + specialize (Hroots f Hf Hc).
      destruct skip; [exact Hroots|apply elem_of_cons; auto].
Qed.

Lemma filter_count_NoDup (P : Z -> bool) (s : Z) (l : list Z) :
  NoDup l ->
  length (List.filter (fun t => t =? s) (List.filter P l)) =
  if bool_decide (s ∈ l) && P s then 1%nat else 0%nat.
Proof.
  induction 1 as [|x l Hx Hnd IH]; [reflexivity|].
  cbn [List.filter].
  destruct (decide (x = s)) as [->|Hne].
  - rewrite (bool_decide_eq_true_2 (s ∈ s :: l)) by (apply elem_of_cons; auto).
    rewrite (bool_decide_eq_false_2 (s ∈ l)) in IH by exact Hx.
    simpl in IH. destruct (P s); simpl; [rewrite Z.eqb_refl; simpl|];
      rewrite IH; reflexivity.
  - assert (E : bool_decide (s ∈ x :: l) = bool_decide (s ∈ l)).
    { apply bool_decide_ext. rewrite elem_of_cons. split; [|auto].
      intros [?|?]; [congruence|auto]. }
    rewrite E, <- IH. destruct (P x); simpl; [|reflexivity].
    destruct (Z.eqb_spec x s); [contradiction|reflexivity].
Qed.

(** The edges that the visit of a face adds to the graph. *)
Lemma face_visit_joined (G : MultiGraph) (X : list Z) (skip : option Z)
    (b c : Z) :
  saddles_joined m G X -> ~ b ∈ X ->
  3 * N <= b < 4 * N -> 3 * N <= c ->
  (forall a, skip = Some a -> ~ a ∈ cr_id m) ->
  saddles_joined m
    (add_edges G c
       (List.filter (fun f => negb (bool_decide (skip = Some f))
                              && is_critical m f) (_facets g b)))
    (b :: X).
Proof using H2X H2Y Hdg.
  destruct msg_pos as (HX & HY & HN).
  intros HJ HbX Hb Hc Hskip s c1 c2 Hs Hcr Ec.
  destruct (HJ s c1 c2 Hs Hcr Ec) as [H0 H2].
  rewrite !degree_add_edges_other by lia.
  rewrite (dim_face g HX HY c Hc). simpl.
  split; [lia|]. rewrite H2.
  rewrite filter_count_NoDup.
  2:{ replace b with (N * 3 + (b - 3 * N)) by lia.
      apply (facets_NoDup g HX HY); [exact H2X|exact H2Y|lia]. }
  destruct (cofacets_edge g HX HY s Hs) as (d1 & d2 & Ed & _ & _ & Hne).
  rewrite Ec in Ed. injection Ed as <- <-. specialize (Hne H2X H2Y).
  assert (Ps : negb (bool_decide (skip = Some s)) && is_critical m s = true).
  { apply andb_true_iff. split; [|apply critical_true, Hcr].
    apply negb_true_iff, bool_decide_eq_false. intros E.
    exact (Hskip s E Hcr). }
  rewrite Ps, andb_true_r.
  assert (Hin : s ∈ _facets g b <-> b = c1 \/ b = c2).
  { split.
    - intros Hin. replace b with (N * 3 + (b - 3 * N)) in Hin by lia.
      destruct (cofacets_of_facet g HX HY (b - 3 * N) s ltac:(lia) Hin)
        as (e1 & e2 & Ee & He).
      rewrite Ec in Ee. injection Ee as <- <-. lia.
    - apply (facet_of_cofacet s b c1 c2 Hs Ec). }
  repeat match goal with
         | |- context [bool_decide ?P] => destruct (bool_decide_reflect P)
         end;
    rewrite ?elem_of_cons in *; try lia; exfalso;
    destruct Hin as [Hi1 Hi2]; intuition (subst; tauto).
Qed.

Lemma faces_bound (X : list Z) :
  NoDup X -> (forall f, f ∈ X -> 3 * N <= f < 4 * N) ->
  (length X <= Z.to_nat N)%nat.
Proof.
  intros Hnd Hr.
  assert (Hsub : X ⊆+ seqZ (3 * N) N).
  { apply NoDup_submseteq; [exact Hnd|].
    intros f Hf. apply elem_of_seqZ. specialize (Hr f Hf). lia. }
  apply submseteq_length in Hsub. rewrite length_seqZ in Hsub. exact Hsub.
Qed.

(** The walk from a maximum [c]: every round takes an edge from the queue
    and visits the face paired with it, which had not been visited. *)
Lemma max_walk_run (c : Z) (done : list Z) (fuel : nat) (q X : list Z)
    (G : MultiGraph) :
  3 * N <= c ->
  max_walk m done q X -> saddles_joined m G X ->
  (Z.to_nat N < fuel + length X)%nat ->
  exists G' X',
    walk_queue fuel m c G q = Ok G' /\
    max_walk m done [] X' /\ saddles_joined m G' X' /\
    forall f, f ∈ X -> f ∈ X'.
Proof using H2X H2Y Hdg.
  destruct msg_pos as (HX & HY & HN). intros Hc.
  revert q X G. induction fuel as [|fuel IH]; intros q X G Hw HJ Hfuel.
  { destruct Hw as [_ _ _ [HndX HXr] _].
    pose proof (faces_bound X HndX HXr). lia. }
  simpl. destruct (list_pop q) as [[a q']|] eqn:Hpop.
  2:{ apply list_pop_None in Hpop as ->. exists G, X. auto. }
  apply list_pop_Some in Hpop as ->.
  destruct (mw_pending _ _ _ _ Hw a) as (Ha & Hac & b & E & Hlt & HbX);
    [apply elem_of_app; right; apply elem_of_cons; auto|].
  destruct (edge_arrow a b Ha E Hlt) as (Hb & _).
  rewrite E. rewrite visit_faces_spec.
  2:{ intros f Hf _ Hfc.
      destruct (facets_range g HX HY b f ltac:(lia) Hf) as [?|[_ Hfr]];
        [lia|].
      intros HV. apply critical_false in Hfc. apply Hfc.
      apply (dg_critical _ _ _ Hdg); [lia|exact HV]. }
  cbn [mbind result_bind fst snd].
  pose proof (face_visit done q' X (Some a) b Hw Hb E) as Hw'.
  pose proof (face_visit_joined G X (Some a) b c HJ HbX Hb Hc) as HJ'.
  destruct (IH _ _ _ Hw' (HJ' ltac:(intros ? [= <-]; exact Hac)))
    as (G' & X' & Hrun & Hw2 & HJ2 & Hsub).
  { simpl. lia. }
  exists G', X'. split; [exact Hrun|]. split; [exact Hw2|].
  split; [exact HJ2|]. intros f Hf. apply Hsub, elem_of_cons. auto.
Qed.

(** [cmp_msgraph] at a maximum. *)
Lemma max_from (c : Z) (done : list Z) (fuel : nat) (X : list Z)
    (G : MultiGraph) :
  3 * N <= c < 4 * N -> c ∈ cr_id m -> ~ c ∈ done ->
  max_walk m done [] X -> saddles_joined m G X ->
  (Z.to_nat N < fuel)%nat ->
  exists G' X',
    msgraph_from fuel m G c = Ok G' /\
    max_walk m (c :: done) [] X' /\ saddles_joined m G' X' /\
    c ∈ X' /\ forall f, f ∈ X -> f ∈ X'.
Proof using H2X H2Y Hdg.
  destruct msg_pos as (HX & HY & HN).
  intros Hc Hcr Hnd Hw HJ Hfuel.
  assert (HcX : ~ c ∈ X).
  { intros Hin. apply Hnd. exact (mw_roots _ _ _ _ Hw c Hin Hcr). }
  unfold msgraph_from. rewrite visit_faces_spec.
  2:{ intros f Hf _ Hfc.
      destruct (facets_range g HX HY c f ltac:(lia) Hf) as [?|[_ Hfr]];
        [lia|].
      intros HV. apply critical_false in Hfc. apply Hfc.
      apply (dg_critical _ _ _ Hdg); [lia|exact HV]. }
  cbn [mbind result_bind fst snd].
  pose proof (face_visit done [] X None c) as Hw'. simpl in Hw'.
  specialize (Hw' Hw Hc (conj Hcr HcX)).
  pose proof (face_visit_joined G X None c c HJ HcX Hc ltac:(lia)
                ltac:(discriminate)) as HJ'.
  destruct (max_walk_run c (c :: done) fuel _ _ _ ltac:(lia) Hw' HJ')
    as (G' & X' & Hrun & Hw2 & HJ2 & Hsub).
  { simpl. lia. }
  exists G', X'. split; [exact Hrun|]. split; [exact Hw2|].
  split; [exact HJ2|]. split.
  - apply Hsub, elem_of_cons. auto.
  - intros f Hf. apply Hsub, elem_of_cons. auto.
Qed.

Local Abbreviation roots_from fuel :=
  (fun (r : result MultiGraph) cidx => G' ← r; msgraph_from fuel m G' cidx).

Lemma max_roots (fuel : nat) (rs done X : list Z) (G : MultiGraph) :
  NoDup rs ->
  (forall c, c ∈ rs -> 3 * N <= c < 4 * N /\ c ∈ cr_id m /\ ~ c ∈ done) ->
  max_walk m done [] X -> saddles_joined m G X ->
  (Z.to_nat N < fuel)%nat ->
  exists G' X',
    foldl (roots_from fuel) (Ok G) rs = Ok G' /\
    max_walk m (reverse rs ++ done) [] X' /\ saddles_joined m G' X' /\
    (forall c, c ∈ rs -> c ∈ X') /\ forall f, f ∈ X -> f ∈ X'.
Proof using H2X H2Y Hdg.
  intros Hnd. revert done X G.
  induction Hnd as [|c rs Hc Hnd IH]; intros done X G Hrs Hw HJ Hfuel.
  - exists G, X. simpl. split; [reflexivity|]. split; [exact Hw|].
    split; [exact HJ|]. split; [|auto].
    intros c Hc. apply elem_of_nil in Hc. contradiction.
  - destruct (Hrs c) as (Hcr & Hcc & Hcd); [apply elem_of_cons; auto|].
    destruct (max_from c done fuel X G Hcr Hcc Hcd Hw HJ Hfuel)
      as (G1 & X1 & E1 & Hw1 & HJ1 & HcX & Hsub1).
    destruct (IH (c :: done) X1 G1) as (G2 & X2 & E2 & Hw2 & HJ2 & Hin & Hsub2);
      auto.
    { intros c' Hc'. destruct (Hrs c') as (? & ? & ?);
        [apply elem_of_cons; auto|].
      split; [auto|]. split; [auto|].
      intros Hin. apply elem_of_cons in Hin as [->|?]; auto. }
    exists G2, X2. cbn [foldl]. cbn [mbind result_bind]. rewrite E1.
    split; [exact E2|]. split.
    { rewrite reverse_cons, <- app_assoc. exact Hw2. }
    split; [exact HJ2|]. split.
    + intros c' Hc'. apply elem_of_cons in Hc' as [->|Hc']; auto.
    + auto.
Qed.

Lemma saddle_roots (fuel : nat) (rs : list Z) (G : MultiGraph) :
  NoDup rs -> (forall s, s ∈ rs -> N <= s < 3 * N) ->
  (2 * Z.to_nat N < fuel)%nat ->
  exists G',
    foldl (roots_from fuel) (Ok G) rs = Ok G' /\
    forall s, N <= s < 3 * N ->
      degree g 2 G' s = degree g 2 G s /\
      degree g 0 G' s =
      (degree g 0 G s + if bool_decide (s ∈ rs) then 2 else 0)%nat.
Proof using H2X H2Y Hdg.
  destruct msg_pos as (HX & HY & HN).
  intros Hnd. revert G.
  induction Hnd as [|c rs Hc Hnd IH]; intros G Hrs Hfuel.
  - exists G. split; [reflexivity|]. intros s Hs. simpl. lia.
  - assert (Hcr : N <= c < 3 * N) by (apply Hrs, elem_of_cons; auto).
    destruct (saddle_from c fuel G Hcr Hfuel) as (ts & E & Hlen & Hts).
    destruct (IH (add_edges G c ts)) as (G' & E' & Hdeg); [|exact Hfuel|].
    { intros s Hs. apply Hrs, elem_of_cons. auto. }
    exists G'. cbn [foldl]. cbn [mbind result_bind]. rewrite E.
    split; [exact E'|]. intros s Hs.
    destruct (Hdeg s Hs) as [D2 D0]. rewrite D2, D0.
    destruct (decide (s = c)) as [->|Hne].
    + rewrite !degree_add_edges_self
        by (intros t Ht; specialize (Hts t Ht); lia).
      rewrite (bool_decide_eq_false_2 (c ∈ rs)) by exact Hc.
      rewrite (bool_decide_eq_true_2 (c ∈ c :: rs))
        by (apply elem_of_cons; auto).
      assert (E0 : List.filter (fun t => dim g t =? 0) ts = ts).
      { apply forallb_filter_id, forallb_forall. intros t Ht.
        apply list_elem_of_In in Ht.
        rewrite (dim_vertex g t) by (specialize (Hts t Ht); lia).
        reflexivity. }
      assert (E2 : List.filter (fun t => dim g t =? 2) ts = []).
      { clear -Hts. induction ts as [|t ts IHt]; [reflexivity|]. simpl.
        rewrite (dim_vertex g t)
          by (specialize (Hts t ltac:(apply elem_of_cons; auto)); lia).
        simpl. apply IHt. intros t' Ht'. apply Hts, elem_of_cons. auto. }
      rewrite E0, E2, Hlen. simpl. lia.
    + rewrite !degree_add_edges_other by exact Hne.
      rewrite (dim_edge g c) by lia. simpl.
      assert (Eb : bool_decide (s ∈ c :: rs) = bool_decide (s ∈ rs)).
      { apply bool_decide_ext. rewrite elem_of_cons. split; [|auto].
        intros [?|?]; [contradiction|auto]. }
      rewrite Eb. lia.
Qed.

(** When the walks are over, every face has been visited: follow the arrows
    back from a face to a maximum. *)
Lemma all_faces_reached (done X : list Z) :
  max_walk m done [] X ->
  (forall c, 3 * N <= c < 4 * N -> c ∈ cr_id m -> c ∈ X) ->
  forall f, 3 * N <= f < 4 * N -> f ∈ X.
Proof using H2X H2Y Hdg.
  destruct msg_pos as (HX & HY & HN).
  intros Hw Hroots f.
  remember (rank2 f) as n eqn:En. revert f En.
  induction n as [n IH] using lt_wf_ind. intros f En Hf.
  destruct (decide (f ∈ cr_id m)) as [Hc|Hc]; [auto|].
  destruct (V m !! f) as [e|] eqn:E.
  2:{ exfalso. apply Hc, (dg_critical _ _ _ Hdg); [lia|exact E]. }
  destruct (dg_involution _ _ _ Hdg f e E) as [Ee Hdim].
  rewrite (dim_face g HX HY f) in Hdim by lia.
  assert (He : N <= e < 3 * N).
  { destruct (dim_cases g HX HY e) as [[D ?]|[[D ?]|[D ?]]]; lia. }
  destruct (edge_arrow e f He Ee ltac:(lia))
    as (_ & _ & _ & _ & _ & c1 & c2 & Ec & Hne & Hfc).
  destruct (cofacets_edge g HX HY e He) as (d1 & d2 & Ed & Hd1 & Hd2 & _).
  rewrite Ec in Ed. injection Ed as <- <-.
  set (f' := if decide (f = c1) then c2 else c1).
  assert (Hf' : (f' = c1 \/ f' = c2) /\ f' <> f /\ 3 * N <= f' < 4 * N).
  { unfold f'. destruct (decide (f = c1)) as [Ef|Ef].
    - split; [auto|]. split; [congruence|lia].
    - split; [auto|]. split; [congruence|lia]. }
  destruct Hf' as (Hf1 & Hf2 & Hf3).
  assert (Hin : f' ∈ X).
  { apply (IH (rank2 f')); [|reflexivity|exact Hf3].
    rewrite En. exact (dg_ascends _ _ _ Hdg f e c1 c2 f' ltac:(lia) E Ec
                         Hf1 Hf2). }
  apply (mw_reached _ _ _ _ Hw e f c1 c2 f' He Ee ltac:(lia) Ec Hf1 Hf2)
    in Hin as [Hin|Hin]; [|exact Hin].
  apply elem_of_nil in Hin. contradiction.
Qed.

Lemma degree_add_nodes (d : Z) (ns : list Z) (G : MultiGraph) (n : Z) :
  degree g d (add_nodes_from G ns) n = degree g d G n.
Proof.
  unfold add_nodes_from. revert G.
  induction ns as [|x ns IH]; intros G; simpl; [reflexivity|].
  rewrite IH. apply degree_add_node.
Qed.

Lemma get_neib_degree (d : Z) (m' : TorusMesh) (s : Z) :
  dim (grid m') s = 1 -> degree (grid m') d (msgraph m') s = 2%nat ->
  exists a b, get_neib_msgraph d m' s = Ok [a; b].
Proof.
  unfold get_neib_msgraph, degree. intros -> Hd. simpl.
  destruct (edges (msgraph m') s) as [es| |]; try discriminate.
  simpl. rewrite length_map, Hd. simpl.
  destruct (List.filter (fun e : Z * Z => dim (grid m') e.2 =? d) es)
    as [|a [|b [|c l]]]; try discriminate.
  exists a.2, b.2. reflexivity.
Qed.

(** [cmp_msgraph] on a valid gradient: it returns, and leaves every saddle
    with two neighbours among the minima and two among the maxima. *)
Lemma msgraph_saddles (fuel : nat) :
  (2 * Z.to_nat N < fuel)%nat ->
  exists m2,
    cmp_msgraph fuel m = Ok m2 /\
    forall s, s ∈ cp m2 1 ->
      (exists a b, get_min_neib_msgraph m2 s = Ok [a; b]) /\
      (exists c d, get_max_neib_msgraph m2 s = Ok [c; d]).
Proof using H2X H2Y Hdg.
  destruct msg_pos as (HX & HY & HN). intros Hfuel.
  destruct (dg_cells _ _ _ Hdg) as [Hnd Hcells].
  assert (Hcp : forall k c, c ∈ cp m k <-> c ∈ cr_id m /\ dim g c = k).
  { intros k c. unfold cp. rewrite elem_of_filter_bool, Hcells, Z.eqb_eq.
    tauto. }
  assert (Hcr : forall c, c ∈ cr_id m -> 0 <= c < 4 * N).
  { intros c Hc. apply (dg_range _ _ _ Hdg), is_unpaired_false. auto. }
  unfold cmp_msgraph. rewrite foldl_app.
  destruct (saddle_roots fuel (cp m 1) (add_nodes_from [] (cr_cells m)))
    as (G1 & E1 & Hdeg1).
  { apply NoDup_filter_bool, Hnd. }
  { intros s Hs. apply Hcp in Hs as [Hs Hd].
    destruct (dim_cases g HX HY s) as [[D ?]|[[D ?]|[D ?]]]; lia. }
  { exact Hfuel. }
  rewrite E1.
  destruct (max_roots fuel (cp m 2) [] [] G1)
    as (G2 & X2 & E2 & Hw2 & HJ2 & Hin2 & _).
  { apply NoDup_filter_bool, Hnd. }
  { intros c Hc. apply Hcp in Hc as [Hc Hd].
    specialize (Hcr c Hc).
    destruct (dim_cases g HX HY c) as [[D ?]|[[D ?]|[D ?]]]; try lia.
    split; [lia|]. split; [exact Hc|]. apply not_elem_of_nil. }
  { split.
    - constructor.
    - intros a Ha. apply elem_of_nil in Ha. contradiction.
    - intros a b c1 c2 f' _ _ _ _ _ _. split.
      + intros Hf. apply elem_of_nil in Hf. contradiction.
      + intros [Hf|Hf]; apply elem_of_nil in Hf; contradiction.
    - split; [constructor|]. intros f Hf. apply elem_of_nil in Hf.
      contradiction.
    - intros f Hf. apply elem_of_nil in Hf. contradiction. }
  { intros s c1 c2 Hs Hc Ec. destruct (Hdeg1 s Hs) as [D2 D0].
    rewrite D2, D0, !degree_add_nodes.
    rewrite (bool_decide_eq_true_2 (s ∈ cp m 1)).
    2:{ apply Hcp. split; [exact Hc|]. apply (dim_edge g). exact Hs. }
    rewrite !(bool_decide_eq_false_2 (_ ∈ [])) by apply not_elem_of_nil.
    split; reflexivity. }
  { lia. }
  rewrite E2. cbn [mbind result_bind]. eexists. split; [reflexivity|].
  intros s Hs. change (cp (with_msgraph m G2) 1) with (cp m 1) in Hs.
  apply Hcp in Hs as [Hc Hd].
  assert (Hsr : N <= s < 3 * N).
  { destruct (dim_cases g HX HY s) as [[D ?]|[[D ?]|[D ?]]]; lia. }
  destruct (cofacets_edge g HX HY s Hsr) as (c1 & c2 & Ec & Hc1 & Hc2 & _).
  destruct (HJ2 s c1 c2 Hsr Hc Ec) as [D0 D2].
  assert (Hall : forall f, 3 * N <= f < 4 * N -> f ∈ X2).
  { apply (all_faces_reached _ _ Hw2). intros c Hcr' Hcc.
    apply Hin2, Hcp. split; [exact Hcc|]. apply (dim_face g HX HY). lia. }
  rewrite !bool_decide_eq_true_2 in D2 by auto.
  split.
  - apply (get_neib_degree 0 (with_msgraph m G2) s); assumption.
  - apply (get_neib_degree 2 (with_msgraph m G2) s); assumption.
Qed.

End MorseSmaleGraph.

(** * Further properties of the engine *)

(** ** The grid *)

(** X1: [coordx] and [coordy] split the number of a vertex into a column and
    a row, and [y * sizeX + x] puts them together again: the two ways are
    inverse to each other and stay inside the grid. *)
Theorem coords_round_trip (g : dims) :
  0 < sizeX g -> 0 < sizeY g ->
  (forall idx, 0 <= idx < size g ->
     0 <= coordx g idx < sizeX g /\ 0 <= coordy g idx < sizeY g /\
     coordy g idx * sizeX g + coordx g idx = idx) /\
  (forall x y, 0 <= x < sizeX g -> 0 <= y < sizeY g ->
     0 <= y * sizeX g + x < size g /\
     coordx g (y * sizeX g + x) = x /\ coordy g (y * sizeX g + x) = y).
Proof.
  intros HX HY. split.
  - intros idx Hi. destruct (vertex_split g HX idx Hi) as (E & Hx & Hy).
    split; [exact Hx|]. split; [exact Hy|]. symmetry. exact E.
  - intros x y Hx Hy. split; [exact (in_grid g HX HY x y Hx Hy)|].
    exact (coords_of_split g HX x y Hx).
Qed.

Lemma coords_round_trip_witness :
  (forall idx, 0 <= idx < size (mkDims 3 4) ->
     0 <= coordx (mkDims 3 4) idx < 3 /\ 0 <= coordy (mkDims 3 4) idx < 4 /\
     coordy (mkDims 3 4) idx * 3 + coordx (mkDims 3 4) idx = idx) /\
  (forall x y, 0 <= x < 3 -> 0 <= y < 4 ->
     0 <= y * 3 + x < size (mkDims 3 4) /\
     coordx (mkDims 3 4) (y * 3 + x) = x /\
     coordy (mkDims 3 4) (y * 3 + x) = y).
Proof. apply (coords_round_trip (mkDims 3 4)); simpl; lia. Defined.

(** X2: the four neighbour accessors stay inside the grid; left and right
    undo each other, so do top and bottom, and a horizontal step commutes
    with a vertical one. *)
Theorem neighbours_invert (g : dims) (v : Z) :
  0 < sizeX g -> 0 < sizeY g -> 0 <= v < size g ->
  (0 <= _vleft g v < size g /\ 0 <= _vright g v < size g /\
   0 <= _vtop g v < size g /\ 0 <= _vbottom g v < size g) /\
  (_vright g (_vleft g v) = v /\ _vleft g (_vright g v) = v /\
   _vbottom g (_vtop g v) = v /\ _vtop g (_vbottom g v) = v) /\
  (_vleft g (_vtop g v) = _vtop g (_vleft g v) /\
   _vright g (_vtop g v) = _vtop g (_vright g v) /\
   _vleft g (_vbottom g v) = _vbottom g (_vleft g v) /\
   _vright g (_vbottom g v) = _vbottom g (_vright g v)).
Proof.
  intros HX HY Hv. split; [exact (neighbour_range g HX HY v Hv)|]. split.
  - split; [exact (_vright_vleft g HX HY v Hv)|].
    split; [exact (_vleft_vright g HX HY v Hv)|].
    split; [exact (_vbottom_vtop g HX HY v Hv)|].
    exact (_vtop_vbottom g HX HY v Hv).
  - split; [exact (_vleft_vtop g HX HY v Hv)|].
    split; [exact (_vright_vtop g HX HY v Hv)|].
    split; [exact (_vleft_vbottom g HX HY v Hv)|].
    exact (_vright_vbottom g HX HY v Hv).
Qed.

Lemma neighbours_invert_witness :
  (0 <= _vleft (mkDims 3 4) 0 < 12 /\ 0 <= _vright (mkDims 3 4) 0 < 12 /\
   0 <= _vtop (mkDims 3 4) 0 < 12 /\ 0 <= _vbottom (mkDims 3 4) 0 < 12) /\
  (_vright (mkDims 3 4) (_vleft (mkDims 3 4) 0) = 0 /\
   _vleft (mkDims 3 4) (_vright (mkDims 3 4) 0) = 0 /\
   _vbottom (mkDims 3 4) (_vtop (mkDims 3 4) 0) = 0 /\
   _vtop (mkDims 3 4) (_vbottom (mkDims 3 4) 0) = 0) /\
  (_vleft (mkDims 3 4) (_vtop (mkDims 3 4) 0)
   = _vtop (mkDims 3 4) (_vleft (mkDims 3 4) 0) /\
   _vright (mkDims 3 4) (_vtop (mkDims 3 4) 0)
   = _vtop (mkDims 3 4) (_vright (mkDims 3 4) 0) /\
   _vleft (mkDims 3 4) (_vbottom (mkDims 3 4) 0)
   = _vbottom (mkDims 3 4) (_vleft (mkDims 3 4) 0) /\
   _vright (mkDims 3 4) (_vbottom (mkDims 3 4) 0)
   = _vbottom (mkDims 3 4) (_vright (mkDims 3 4) 0)).
Proof.
  apply (neighbours_invert (mkDims 3 4) 0); [simpl; lia|simpl; lia|].
  vm_compute. split; [discriminate|reflexivity].
Defined.

(** X3: a vertex is its own left or right neighbour exactly on a grid with a
    single column, and its own top or bottom neighbour exactly on a grid
    with a single row. *)
Theorem neighbour_is_self (g : dims) (v : Z) :
  0 < sizeX g -> 0 < sizeY g -> 0 <= v < size g ->
  (_vleft g v = v <-> sizeX g = 1) /\ (_vright g v = v <-> sizeX g = 1) /\
  (_vtop g v = v <-> sizeY g = 1) /\ (_vbottom g v = v <-> sizeY g = 1).
Proof.
  intros HX HY Hv.
  assert (EN : size g = sizeX g * sizeY g) by reflexivity.
  repeat split.
  - apply (_vleft_fixed g HX HY v Hv).
  - intros E. unfold _vleft. rewrite E, !Z.mod_1_r. lia.
  - apply (_vright_fixed g HX HY v Hv).
  - intros E. unfold _vright. rewrite E, !Z.mod_1_r. lia.
  - apply (_vtop_fixed g HX HY v Hv).
  - intros E. unfold _vtop. rewrite E in EN.
    replace (v + size g - sizeX g) with v by lia.
    apply Z.mod_small. exact Hv.
  - apply (_vbottom_fixed g HX HY v Hv).
  - intros E. unfold _vbottom. rewrite E in EN.
    replace (v + sizeX g) with (v + 1 * size g) by lia.
    rewrite Z.mod_add by lia. apply Z.mod_small. exact Hv.
Qed.

Lemma neighbour_is_self_witness :
  (_vleft (mkDims 1 2) 1 = 1 <-> sizeX (mkDims 1 2) = 1) /\
  (_vright (mkDims 1 2) 1 = 1 <-> sizeX (mkDims 1 2) = 1) /\
  (_vtop (mkDims 1 2) 1 = 1 <-> sizeY (mkDims 1 2) = 1) /\
  (_vbottom (mkDims 1 2) 1 = 1 <-> sizeY (mkDims 1 2) = 1).
Proof.
  apply (neighbour_is_self (mkDims 1 2) 1); [simpl; lia|simpl; lia|].
  vm_compute. split; [discriminate|reflexivity].
Defined.

(** X4: [_facets] and [_cofacets] describe the same incidence: an edge is a
    facet of a face exactly when the face is one of the two cofacets of the
    edge; [_cofacets] raises [AssertionError] on every cell that is not an
    edge. *)
Theorem facets_cofacets (g : dims) :
  0 < sizeX g -> 0 < sizeY g ->
  (forall e f, size g <= e < 3 * size g -> 3 * size g <= f < 4 * size g ->
     (e ∈ _facets g f <->
      exists c1 c2, _cofacets g e = Ok (c1, c2) /\ (f = c1 \/ f = c2))) /\
  (forall c, ~ size g <= c < 3 * size g ->
     _cofacets g c = Raise AssertionError).
Proof.
  intros HX HY. split.
  - intros e f He Hf. split.
    + intros Hin. replace f with (size g * 3 + (f - 3 * size g)) in Hin by lia.
      destruct (cofacets_of_facet g HX HY (f - 3 * size g) e ltac:(lia) Hin)
        as (c1 & c2 & Ec & Hc).
      exists c1, c2. split; [exact Ec|]. lia.
    + intros (c1 & c2 & Hc & Hb). unfold _cofacets in Hc.
      rewrite dim_edge in Hc by exact He. simpl in Hc.
      destruct (Z.ltb_spec e (2 * size g)).
      * assert (Ht : 0 <= e - size g < size g) by lia.
        destruct (neighbour_range g HX HY _ Ht) as (_ & _ & Htop & _).
        injection Hc as <- <-. destruct Hb as [-> | ->].
        -- replace (3 * size g + _vtop g (e - size g))
             with (size g * 3 + _vtop g (e - size g)) by lia.
           rewrite (facets_face g HX HY _ Htop).
           rewrite (_vbottom_vtop g HX HY _ Ht).
           rewrite !elem_of_cons. right. right. left. lia.
        -- replace (3 * size g + (e - size g))
             with (size g * 3 + (e - size g)) by lia.
           rewrite (facets_face g HX HY _ Ht).
           rewrite !elem_of_cons. left. lia.
      * assert (Ht : 0 <= e - 2 * size g < size g) by lia.
        destruct (neighbour_range g HX HY _ Ht) as (Hleft & _).
        injection Hc as <- <-. destruct Hb as [-> | ->].
        -- replace (3 * size g + _vleft g (e - 2 * size g))
             with (size g * 3 + _vleft g (e - 2 * size g)) by lia.
           rewrite (facets_face g HX HY _ Hleft).
           rewrite (_vright_vleft g HX HY _ Ht).
           rewrite !elem_of_cons. right. right. right. left. lia.
        -- replace (3 * size g + (e - 2 * size g))
             with (size g * 3 + (e - 2 * size g)) by lia.
           rewrite (facets_face g HX HY _ Ht).
           rewrite !elem_of_cons. right. left. lia.
  - intros c Hc. unfold _cofacets.
    destruct (dim_cases g HX HY c) as [[D ?]|[[D ?]|[D ?]]]; try lia;
      rewrite D; reflexivity.
Qed.

Lemma facets_cofacets_witness :
  (forall e f, size (mkDims 3 4) <= e < 3 * size (mkDims 3 4) ->
     3 * size (mkDims 3 4) <= f < 4 * size (mkDims 3 4) ->
     (e ∈ _facets (mkDims 3 4) f <->
      exists c1 c2, _cofacets (mkDims 3 4) e = Ok (c1, c2)
                    /\ (f = c1 \/ f = c2))) /\
  (forall c, ~ size (mkDims 3 4) <= c < 3 * size (mkDims 3 4) ->
     _cofacets (mkDims 3 4) c = Raise AssertionError).
Proof. apply (facets_cofacets (mkDims 3 4)); simpl; lia. Defined.

(** ** Lower stars *)

(** X5: [lower_star] returns at most eight cells, none twice, sorted by
    their extended values in increasing order, and the first one, which
    [_process_star] pairs with the vertex, is an edge. *)
Theorem lower_star_shape (m : TorusMesh) (idx : Z) :
  0 < sizeX (grid m) -> 0 < sizeY (grid m) -> 0 <= idx < size (grid m) ->
  (length (lower_star m idx) <= 8)%nat /\
  NoDup (lower_star m idx) /\
  StronglySorted
    (fun a b => tuple_lt (_extvalue m b) (_extvalue m a) = false)
    (lower_star m idx) /\
  (forall delta rest, lower_star m idx = delta :: rest ->
     size (grid m) <= delta < 3 * size (grid m)) /\
  (forall c, c ∈ lower_star m idx ->
     size (grid m) <= c < 4 * size (grid m)).
Proof.
  intros HX HY Hi.
  split; [apply lower_star_length|].
  split; [exact (lower_star_NoDup m HX HY idx Hi)|].
  split.
  { unfold lower_star.
    apply (sort_by_sorted
             (fun x y => tuple_lt (_extvalue m x) (_extvalue m y))).
    - intros a b. apply tuple_lt_asym.
    - intros a b c. apply tuple_ge_trans. }
  split; [exact (lower_star_head m HX HY idx Hi)|].
  exact (lower_star_range m HX HY idx Hi).
Qed.

Lemma lower_star_shape_witness :
  (length (lower_star (new_mesh 3 4 test_field) 4) <= 8)%nat /\
  NoDup (lower_star (new_mesh 3 4 test_field) 4) /\
  StronglySorted
    (fun a b => tuple_lt (_extvalue (new_mesh 3 4 test_field) b)
                  (_extvalue (new_mesh 3 4 test_field) a) = false)
    (lower_star (new_mesh 3 4 test_field) 4) /\
  (forall delta rest,
     lower_star (new_mesh 3 4 test_field) 4 = delta :: rest ->
     size (grid (new_mesh 3 4 test_field)) <= delta
     < 3 * size (grid (new_mesh 3 4 test_field))) /\
  (forall c, c ∈ lower_star (new_mesh 3 4 test_field) 4 ->
     size (grid (new_mesh 3 4 test_field)) <= c
     < 4 * size (grid (new_mesh 3 4 test_field))).
Proof.
  apply (lower_star_shape (new_mesh 3 4 test_field) 4);
    [simpl; lia|simpl; lia|].
  vm_compute. split; [discriminate|reflexivity].
Defined.

(** X6: the vertex [idx] is a vertex of every cell of [lower_star(idx)], and
    the other vertices of the cell have strictly smaller values; hence the
    lower stars of two different vertices share no cell. *)
Theorem lower_stars_disjoint (m : TorusMesh) (idx idx' c : Z) :
  0 < sizeX (grid m) -> 0 < sizeY (grid m) ->
  0 <= idx < size (grid m) -> 0 <= idx' < size (grid m) ->
  c ∈ lower_star m idx ->
  (idx ∈ _verts (grid m) c /\
   forall u, u ∈ _verts (grid m) c -> u = idx \/ value m u < value m idx) /\
  (c ∈ lower_star m idx' -> idx' = idx).
Proof.
  intros HX HY Hi Hi' Hc.
  pose proof (lower_star_owns m HX HY idx Hi c Hc) as Ho.
  split; [exact Ho|]. intros Hc'.
  pose proof (lower_star_owns m HX HY idx' Hi' c Hc') as Ho'.
  exact (owns_unique m idx' idx c Ho' Ho).
Qed.

Lemma lower_stars_disjoint_witness :
  (3 ∈ _verts (grid (new_mesh 3 4 test_field)) 15 /\
   forall u, u ∈ _verts (grid (new_mesh 3 4 test_field)) 15 ->
     u = 3 \/ value (new_mesh 3 4 test_field) u
              < value (new_mesh 3 4 test_field) 3) /\
  (15 ∈ lower_star (new_mesh 3 4 test_field) 4 -> 4 = 3).
Proof.
  apply (lower_stars_disjoint (new_mesh 3 4 test_field) 3 4 15);
    [simpl; lia|simpl; lia| | |].
  - vm_compute. split; [discriminate|reflexivity].
  - vm_compute. split; [discriminate|reflexivity].
  - match goal with
    | |- ?P => apply (bool_decide_unpack P)
    end.
    vm_compute. exact I.
Defined.

(** X7: on a grid with at least two rows and two columns and pairwise
    distinct values, every edge and every face lies in the lower star of
    exactly one vertex. *)
Theorem lower_stars_cover (m : TorusMesh) (c : Z) :
  2 <= sizeX (grid m) -> 2 <= sizeY (grid m) -> distinct_values m ->
  size (grid m) <= c < 4 * size (grid m) ->
  exists idx,
    0 <= idx < size (grid m) /\ c ∈ lower_star m idx /\
    forall idx', 0 <= idx' < size (grid m) -> c ∈ lower_star m idx' ->
                 idx' = idx.
Proof.
  intros H2X H2Y Hd Hc.
  destruct (star_covers m H2X H2Y Hd c Hc) as (idx & Hi & Hin).
  exists idx. split; [exact Hi|]. split; [exact Hin|].
  intros idx' Hi' Hin'.
  apply (owns_unique m idx' idx c).
  - apply (lower_star_owns m ltac:(lia) ltac:(lia) idx' Hi' c Hin').
  - apply (lower_star_owns m ltac:(lia) ltac:(lia) idx Hi c Hin).
Qed.

Lemma lower_stars_cover_witness :
  exists idx,
    0 <= idx < size (grid (new_mesh 3 4 test_field)) /\
    15 ∈ lower_star (new_mesh 3 4 test_field) idx /\
    forall idx', 0 <= idx' < size (grid (new_mesh 3 4 test_field)) ->
                 15 ∈ lower_star (new_mesh 3 4 test_field) idx' ->
                 idx' = idx.
Proof.
  apply (lower_stars_cover (new_mesh 3 4 test_field) 15);
    [simpl; lia|simpl; lia|apply test_field_distinct|].
  vm_compute. split; [discriminate|reflexivity].
Defined.

(** ** The gradient builder *)

Lemma gradient_sorted (fuel : nat) (m m' : TorusMesh) (threads_num : Z) :
  cmp_discrete_gradient fuel m threads_num = Ok m' ->
  StronglySorted
    (fun a b => tuple_lt (_extvalue m' b) (_extvalue m' a) = false)
    (cr_cells m').
Proof.
  unfold cmp_discrete_gradient. intros H.
  destruct (threads_num =? 0); [discriminate|].
  destruct (threads_num <? 0); [discriminate|].
  bind_as H m1 H1. injection H as <-. cbn [cr_cells with_crit].
  apply (sort_by_sorted
           (fun x y => tuple_lt (_extvalue m1 x) (_extvalue m1 y))).
  - intros a b. apply tuple_lt_asym.
  - intros a b c. apply tuple_ge_trans.
Qed.

(** X8: [cmp_discrete_gradient] returns on every grid and every field; it
    leaves the values, the graph, the pairs and the arcs alone, and the list
    [cr_cells] it builds holds exactly the cells marked in [cr_id], none
    twice, in increasing order of their extended values (a filtration); a
    cell marked critical is a cell of the grid and is not paired. *)
Theorem gradient_filtration (fuel : nat) (m : TorusMesh) (threads_num : Z) :
  0 < sizeX (grid m) -> 0 < sizeY (grid m) -> 0 < threads_num ->
  (100 <= fuel)%nat ->
  exists m',
    cmp_discrete_gradient fuel m threads_num = Ok m' /\
    (grid m' = grid m /\ values m' = values m /\ msgraph m' = msgraph m /\
     ppairs m' = ppairs m /\ arcs m' = arcs m) /\
    NoDup (cr_cells m') /\
    (forall c, c ∈ cr_cells m' <-> c ∈ cr_id m') /\
    StronglySorted
      (fun a b => tuple_lt (_extvalue m' b) (_extvalue m' a) = false)
      (cr_cells m') /\
    (forall c, c ∈ cr_id m' ->
       V m' !! c = None /\ 0 <= c < 4 * size (grid m)).
Proof.
  intros HX HY Ht Hfuel.
  destruct (gradient_built fuel m threads_num HX HY Ht Hfuel)
    as (m' & E & Hf & Hsd).
  exists m'. split; [exact E|]. split; [exact Hf|].
  destruct (sd_cells _ _ _ _ Hsd) as [Hnd Hcells].
  split; [exact Hnd|]. split; [exact Hcells|].
  split; [exact (gradient_sorted _ _ _ _ E)|].
  intros c Hc. split; [exact (sd_exclusive _ _ _ _ Hsd c Hc)|].
  assert (Hu : is_unpaired m' c = false) by (apply is_unpaired_false; auto).
  destruct (sd_owned _ _ _ _ Hsd c Hu) as [Hin|(i & Hin & Hci)];
    simpl in Hin; rewrite elem_of_reverse in Hin; unfold range in Hin;
    apply elem_of_seqZ in Hin.
  - lia.
  - pose proof (lower_star_range m HX HY i ltac:(lia) c Hci). lia.
Qed.

Lemma gradient_filtration_witness :
  exists m',
    cmp_discrete_gradient 100 (new_mesh 3 4 test_field) 8 = Ok m' /\
    (grid m' = grid (new_mesh 3 4 test_field) /\
     values m' = values (new_mesh 3 4 test_field) /\
     msgraph m' = msgraph (new_mesh 3 4 test_field) /\
     ppairs m' = ppairs (new_mesh 3 4 test_field) /\
     arcs m' = arcs (new_mesh 3 4 test_field)) /\
    NoDup (cr_cells m') /\
    (forall c, c ∈ cr_cells m' <-> c ∈ cr_id m') /\
    StronglySorted
      (fun a b => tuple_lt (_extvalue m' b) (_extvalue m' a) = false)
      (cr_cells m') /\
    (forall c, c ∈ cr_id m' ->
       V m' !! c = None /\
       0 <= c < 4 * size (grid (new_mesh 3 4 test_field))).
Proof.
  apply (gradient_filtration 100 (new_mesh 3 4 test_field) 8);
    [simpl; lia|simpl; lia|lia|lia].
Defined.

(** X9: every arrow of the gradient that [cmp_discrete_gradient] builds
    joins a cell with one of its facets, and both lie in the lower star of
    one vertex (or the facet is that vertex itself). *)
Theorem gradient_arrows_local (fuel : nat) (m : TorusMesh)
    (threads_num : Z) :
  0 < sizeX (grid m) -> 0 < sizeY (grid m) -> 0 < threads_num ->
  (100 <= fuel)%nat ->
  exists m',
    cmp_discrete_gradient fuel m threads_num = Ok m' /\
    forall c d, V m' !! c = Some d -> c < d ->
      c ∈ _facets (grid m') d /\
      exists i, 0 <= i < size (grid m') /\
                (c = i \/ c ∈ lower_star m' i) /\ d ∈ lower_star m' i.
Proof.
  intros HX HY Ht Hfuel.
  destruct (gradient_built fuel m threads_num HX HY Ht Hfuel)
    as (m' & E & Hf & Hsd).
  exists m'. split; [exact E|]. intros c d Hc Hlt.
  destruct (sd_local _ _ _ _ Hsd c d Hc Hlt) as (Hin & i & Hi & Hci & Hdi).
  pose proof Hf as (Eg & _). rewrite Eg.
  split; [exact Hin|]. exists i. split; [exact Hi|].
  rewrite !(lower_star_frame m m' i Hf). auto.
Qed.

Lemma gradient_arrows_local_witness :
  exists m',
    cmp_discrete_gradient 100 (new_mesh 3 4 test_field) 8 = Ok m' /\
    forall c d, V m' !! c = Some d -> c < d ->
      c ∈ _facets (grid m') d /\
      exists i, 0 <= i < size (grid m') /\
                (c = i \/ c ∈ lower_star m' i) /\ d ∈ lower_star m' i.
Proof.
  apply (gradient_arrows_local 100 (new_mesh 3 4 test_field) 8);
    [simpl; lia|simpl; lia|lia|lia].
Defined.

(** X10: after [cmp_discrete_gradient] a vertex is critical exactly when
    none of its four neighbours has a smaller value: the critical vertices
    are the local minima of the field. *)
Theorem critical_vertices_are_minima (fuel : nat) (m : TorusMesh)
    (threads_num : Z) :
  0 < sizeX (grid m) -> 0 < sizeY (grid m) -> 0 < threads_num ->
  (100 <= fuel)%nat ->
  exists m',
    cmp_discrete_gradient fuel m threads_num = Ok m' /\
    forall v, 0 <= v < size (grid m) ->
      (v ∈ cr_id m' <->
       value m v <= value m (_vleft (grid m) v) /\
       value m v <= value m (_vtop (grid m) v) /\
       value m v <= value m (_vright (grid m) v) /\
       value m v <= value m (_vbottom (grid m) v)).
Proof.
  intros HX HY Ht Hfuel.
  destruct (gradient_built fuel m threads_num HX HY Ht Hfuel)
    as (m' & E & Hf & Hsd).
  exists m'. split; [exact E|]. intros v Hv.
  assert (Hempty : lower_star m v = [] <->
            value m v <= value m (_vleft (grid m) v) /\
            value m v <= value m (_vtop (grid m) v) /\
            value m v <= value m (_vright (grid m) v) /\
            value m v <= value m (_vbottom (grid m) v)).
  { split.
    - intros HL.
      assert (Hno : forall c, ~ c ∈ lower_star m v).
      { intros c. rewrite HL. apply not_elem_of_nil. }
      repeat split; apply Z.nlt_ge; intros Hlow.
      + apply (Hno (_eleft (grid m) v)), (elem_lower_star m v Hv). auto.
      + apply (Hno (_etop (grid m) v)), (elem_lower_star m v Hv). auto.
      + apply (Hno (_eright (grid m) v)), (elem_lower_star m v Hv). auto 6.
      + apply (Hno (_ebottom (grid m) v)), (elem_lower_star m v Hv). auto 6.
    - intros (H1 & H2 & H3 & H4).
      destruct (lower_star m v) as [|c l] eqn:HL; [reflexivity|exfalso].
      assert (Hc : c ∈ lower_star m v) by (rewrite HL; apply elem_of_cons; auto).
      apply (elem_lower_star m v Hv) in Hc. lia. }
  rewrite <- Hempty. split.
  - intros Hc. exact (sd_minima _ _ _ _ Hsd v Hc Hv).
  - intros HL.
    assert (Hu : is_unpaired m' v = false).
    { apply (sd_complete _ _ _ _ Hsd v v); [|auto].
      rewrite elem_of_reverse. unfold range. apply elem_of_seqZ. lia. }
    apply is_unpaired_false in Hu as [Hp|Hc]; [exfalso|exact Hc].
    destruct (V m' !! v) as [d|] eqn:EV; [|contradiction].
    destruct (sd_involution _ _ _ _ Hsd v d EV) as [_ Hdim].
    destruct Hf as (Eg & _). rewrite Eg in Hdim.
    rewrite (dim_vertex (grid m) v) in Hdim by lia.
    assert (Hvd : v < d).
    { destruct (dim_cases (grid m) HX HY d) as [[D ?]|[[D ?]|[D ?]]]; lia. }
    destruct (sd_local _ _ _ _ Hsd v d EV Hvd) as (_ & i & Hi & Hci & Hdi).
    destruct Hci as [->|Hci].
    + rewrite HL in Hdi. apply elem_of_nil in Hdi. contradiction.
    + pose proof (lower_star_range m HX HY i Hi v Hci). lia.
Qed.

Lemma critical_vertices_are_minima_witness :
  exists m',
    cmp_discrete_gradient 100 (new_mesh 3 4 test_field) 8 = Ok m' /\
    forall v, 0 <= v < size (grid (new_mesh 3 4 test_field)) ->
      (v ∈ cr_id m' <->
       value (new_mesh 3 4 test_field) v
       <= value (new_mesh 3 4 test_field)
            (_vleft (grid (new_mesh 3 4 test_field)) v) /\
       value (new_mesh 3 4 test_field) v
       <= value (new_mesh 3 4 test_field)
            (_vtop (grid (new_mesh 3 4 test_field)) v) /\
       value (new_mesh 3 4 test_field) v
       <= value (new_mesh 3 4 test_field)
            (_vright (grid (new_mesh 3 4 test_field)) v) /\
       value (new_mesh 3 4 test_field) v
       <= value (new_mesh 3 4 test_field)
            (_vbottom (grid (new_mesh 3 4 test_field)) v)).
Proof.
  apply (critical_vertices_are_minima 100 (new_mesh 3 4 test_field) 8);
    [simpl; lia|simpl; lia|lia|lia].
Defined.

(** ** Walking down the gradient *)

Lemma value_frame (m m' : TorusMesh) (c : Z) :
  frame m m' -> value m' c = value m c.
Proof. intros (Eg & Ev & _). unfold value. rewrite Eg, Ev. reflexivity. Qed.

Lemma rank_descent_bound (m : TorusMesh) (v : Z) :
  0 <= v < size (grid m) ->
  (rank_descent m v < Z.to_nat (size (grid m)))%nat.
Proof.
  intros Hv. unfold rank_descent.
  destruct (Z.leb_spec 0 v); [|lia]. destruct (Z.ltb_spec v (size (grid m)));
    [|lia]. simpl.
  assert (Hin : v ∈ range 0 (size (grid m))).
  { unfold range. apply elem_of_seqZ. lia. }
  pose proof (filter_length_lt (fun _ : Z => true)
                (fun w => value m w <? value m v) v
                (range 0 (size (grid m))) ltac:(auto) Hin eq_refl
                ltac:(apply Z.ltb_irrefl)) as Hlt.
  rewrite (forallb_filter_id (fun _ : Z => true)) in Hlt
    by (apply forallb_forall; auto).
  unfold range in Hlt at 2. rewrite length_seqZ in Hlt. lia.
Qed.

Lemma rank_descent_lt (m : TorusMesh) (u v : Z) :
  0 <= u < size (grid m) -> 0 <= v < size (grid m) ->
  value m u < value m v -> (rank_descent m u < rank_descent m v)%nat.
Proof.
  intros Hu Hv Hlt. unfold rank_descent.
  destruct (Z.leb_spec 0 u); [|lia]. destruct (Z.ltb_spec u (size (grid m)));
    [|lia].
  destruct (Z.leb_spec 0 v); [|lia]. destruct (Z.ltb_spec v (size (grid m)));
    [|lia]. simpl.
  apply (filter_length_lt (fun w => value m w <? value m v)
           (fun w => value m w <? value m u) u).
  - intros y _ Hy. apply Z.ltb_lt in Hy. apply Z.ltb_lt. lia.
  - unfold range. apply elem_of_seqZ. lia.
  - apply Z.ltb_lt. exact Hlt.
  - apply Z.ltb_irrefl.
Qed.

Lemma last_two (e u v : Z) (rest : list Z) :
  List.last ([e; u] ++ rest) v = List.last rest u.
Proof.
  destruct rest as [|x rest]; [reflexivity|].
  change (List.last (x :: rest) v = List.last (x :: rest) u).
  revert x. induction rest as [|y rest IHr]; intros x; [reflexivity|].
  change (List.last (y :: rest) v = List.last (y :: rest) u). apply IHr.
Qed.

Section Descent.

Variables m m' : TorusMesh.
Hypothesis HX : 0 < sizeX (grid m).
Hypothesis HY : 0 < sizeY (grid m).
Hypothesis Hf : frame m m'.
Hypothesis Hsd : stars_done m m' (reverse (range 0 (size (grid m)))) [].

Local Abbreviation g := (grid m).
Local Abbreviation N := (size (grid m)).

(** The arrow at a vertex that is not critical points to an edge whose other
    end, the vertex that [descend] steps to, stands lower. *)
Lemma descent_step (v : Z) :
  0 <= v < N -> ~ v ∈ cr_id m' ->
  exists e u,
    V m' !! v = Some e /\ N <= e < 3 * N /\ e ∈ lower_star m v /\
    step_forward (_verts g e) v = Ok u /\
    0 <= u < N /\ value m u < value m v.
Proof using HX HY Hf Hsd.
  intros Hv Hc.
  assert (Hu : is_unpaired m' v = false).
  { apply (sd_complete _ _ _ _ Hsd v v); [|auto].
    rewrite elem_of_reverse. unfold range. apply elem_of_seqZ. lia. }
  apply is_unpaired_false in Hu as [Hp|Hc']; [|contradiction].
  destruct (V m' !! v) as [e|] eqn:EV; [|contradiction].
  destruct (sd_involution _ _ _ _ Hsd v e EV) as [_ Hdim].
  destruct Hf as (Eg & _). rewrite Eg in Hdim.
  rewrite (dim_vertex g v) in Hdim by lia.
  assert (He : N <= e < 3 * N).
  { destruct (dim_cases g HX HY e) as [[D ?]|[[D ?]|[D ?]]]; lia. }
  destruct (sd_local _ _ _ _ Hsd v e EV ltac:(lia))
    as (_ & i & Hi & Hci & Hei).
  destruct Hci as [<-|Hci].
  2:{ pose proof (lower_star_range m HX HY i Hi v Hci). lia. }
  exists e.
  destruct (star_apart m HX HY v Hv)
    as (_ & _ & _ & _ & _ & _ & _ & _ & Hl & Hr & Ht & Hb & _).
  destruct (star_verts m HX HY v Hv) as (E1 & E2 & E3 & E4 & _).
  pose proof Hei as Hcase. apply (elem_lower_star m v Hv) in Hcase.
  unfold _flefttop, _frighttop, _fleftbottom, _frightbottom in Hcase.
  destruct Hcase as [[Hlow ->]|[[Hlow ->]|[[Hlow ->]|[[Hlow ->]|Hface]]]].
  - exists (_vleft g v). rewrite E1. simpl.
    destruct (Z.eqb_spec (_vleft g v) v) as [E|_]; [rewrite E in Hlow; lia|].
    auto 10.
  - exists (_vtop g v). rewrite E2. simpl.
    destruct (Z.eqb_spec (_vtop g v) v) as [E|_]; [rewrite E in Hlow; lia|].
    auto 10.
  - exists (_vright g v). rewrite E3. simpl. rewrite Z.eqb_refl. auto 10.
  - exists (_vbottom g v). rewrite E4. simpl. rewrite Z.eqb_refl. auto 10.
  - exfalso.
    pose proof (neighbour_range g HX HY (_vleft g v) Hl) as (_ & _ & Hlt & _).
    decompose [and or] Hface; subst e; lia.
Qed.

Lemma descend_reaches (fuel : nat) :
  forall v sep,
    0 <= v < N -> (rank_descent m v < fuel)%nat ->
    exists rest,
      descend fuel m' v sep = Ok (sep ++ rest) /\
      List.last rest v ∈ cr_id m' /\ 0 <= List.last rest v < N /\
      value m (List.last rest v) <= value m v.
Proof using HX HY Hf Hsd.
  induction fuel as [|fuel IH]; intros v sep Hv Hfuel; [lia|].
  simpl. destruct (is_critical m' v) eqn:Ec.
  - exists []. rewrite app_nil_r. simpl.
    unfold is_critical in Ec. apply bool_decide_eq_true in Ec.
    split; [reflexivity|]. split; [exact Ec|]. split; [exact Hv|lia].
  - unfold is_critical in Ec. apply bool_decide_eq_false in Ec.
    destruct (descent_step v Hv Ec) as (e & u & EV & He & _ & Es & Hu & Hlt).
    pose proof Hf as (Eg & _).
    rewrite EV, Eg, Es. cbn [mbind result_bind].
    pose proof (rank_descent_lt m u v Hu Hv Hlt) as Hr.
    destruct (IH u (sep ++ [e; u]) Hu ltac:(lia))
      as (rest & E & Hc & Hrange & Hval).
    exists ([e; u] ++ rest). rewrite app_assoc. split; [exact E|].
    assert (El : List.last ([e; u] ++ rest) v = List.last rest u).
    { apply last_two. }
    rewrite El. split; [exact Hc|]. split; [exact Hrange|lia].
Qed.

End Descent.

(** X11: in the gradient that [cmp_discrete_gradient] builds, whatever the
    field, the walk of [_cmp_arcs] down from any vertex returns: it follows
    the arrows through vertices of decreasing value, appends the cells it
    passes to the arc, and stops at a critical vertex. *)
Theorem descent_reaches_minimum (fuel fuel' : nat) (m : TorusMesh)
    (threads_num v : Z) (sep : list Z) :
  0 < sizeX (grid m) -> 0 < sizeY (grid m) -> 0 < threads_num ->
  (100 <= fuel)%nat -> 0 <= v < size (grid m) ->
  (Z.to_nat (size (grid m)) <= fuel')%nat ->
  exists m' rest,
    cmp_discrete_gradient fuel m threads_num = Ok m' /\
    descend fuel' m' v sep = Ok (sep ++ rest) /\
    List.last rest v ∈ cr_id m' /\ 0 <= List.last rest v < size (grid m) /\
    value m (List.last rest v) <= value m v.
Proof.
  intros HX HY Ht Hfuel Hv Hfuel'.
  destruct (gradient_built fuel m threads_num HX HY Ht Hfuel)
    as (m' & E & Hf & Hsd).
  pose proof (rank_descent_bound m v Hv) as Hr.
  destruct (descend_reaches m m' HX HY Hf Hsd fuel' v sep Hv ltac:(lia))
    as (rest & Ed & Hrest).
  exists m', rest. auto.
Qed.

Lemma descent_reaches_minimum_witness :
  exists m' rest,
    cmp_discrete_gradient 100 (new_mesh 3 4 test_field) 8 = Ok m' /\
    descend 12 m' 11 [35; 11] = Ok ([35; 11] ++ rest) /\
    List.last rest 11 ∈ cr_id m' /\
    0 <= List.last rest 11 < size (grid (new_mesh 3 4 test_field)) /\
    value (new_mesh 3 4 test_field) (List.last rest 11)
    <= value (new_mesh 3 4 test_field) 11.
Proof.
  apply (descent_reaches_minimum 100 12 (new_mesh 3 4 test_field) 8 11
           [35; 11]); [reflexivity|reflexivity|lia|lia| |vm_compute; lia].
  vm_compute. split; [discriminate|reflexivity].
Defined.

(** X12: the number of threads does not change the gradient: the blocks
    handed to the threads split [range(size)] in order, so every positive
    [threads_num] gives the result of a single thread; [threads_num = 0]
    raises [ZeroDivisionError] and a negative one [IndexError]. *)
Theorem gradient_threads_irrelevant (fuel : nat) (m : TorusMesh)
    (threads_num : Z) :
  0 <= size (grid m) ->
  (0 < threads_num ->
   cmp_discrete_gradient fuel m threads_num
   = cmp_discrete_gradient fuel m 1) /\
  (threads_num = 0 ->
   cmp_discrete_gradient fuel m threads_num = Raise ZeroDivisionError) /\
  (threads_num < 0 ->
   cmp_discrete_gradient fuel m threads_num = Raise IndexError).
Proof.
  intros Hn. unfold cmp_discrete_gradient. split; [|split]; intros Ht.
  - destruct (Z.eqb_spec threads_num 0); [lia|].
    destruct (Z.ltb_spec threads_num 0); [lia|].
    change (1 =? 0) with false. change (1 <? 0) with false. cbv iota.
    rewrite !process_blocks, !cell_blocks_cover by lia. reflexivity.
  - subst threads_num. reflexivity.
  - destruct (Z.eqb_spec threads_num 0); [lia|].
    destruct (Z.ltb_spec threads_num 0); [reflexivity|lia].
Qed.

Lemma gradient_threads_irrelevant_witness :
  (0 < 5 ->
   cmp_discrete_gradient 100 (new_mesh 3 4 test_field) 5
   = cmp_discrete_gradient 100 (new_mesh 3 4 test_field) 1) /\
  (5 = 0 ->
   cmp_discrete_gradient 100 (new_mesh 3 4 test_field) 5
   = Raise ZeroDivisionError) /\
  (5 < 0 ->
   cmp_discrete_gradient 100 (new_mesh 3 4 test_field) 5 = Raise IndexError).
Proof.
  apply (gradient_threads_irrelevant 100 (new_mesh 3 4 test_field) 5).
  vm_compute. discriminate.
Defined.

(** ** Critical cells *)

Lemma with_crit_same (m : TorusMesh) : with_crit m (cr_cells m) (cr_id m) = m.
Proof. destruct m; reflexivity. Qed.

Lemma list_remove_last (x : Z) (l : list Z) :
  ~ x ∈ l -> list_remove x (l ++ [x]) = Ok l.
Proof.
  induction l as [|y l IH]; intros Hx; simpl.
  - rewrite Z.eqb_refl. reflexivity.
  - apply not_elem_of_cons in Hx as [Hxy Hx].
    destruct (Z.eqb_spec x y); [contradiction|]. rewrite (IH Hx). reflexivity.
Qed.

Lemma list_remove_absent (x : Z) (l : list Z) :
  ~ x ∈ l -> list_remove x l = Raise ValueError.
Proof.
  induction l as [|y l IH]; intros Hx; simpl; [reflexivity|].
  apply not_elem_of_cons in Hx as [Hxy Hx].
  destruct (Z.eqb_spec x y); [contradiction|]. rewrite (IH Hx). reflexivity.
Qed.

(** X13: marking a cell of the grid critical and unmarking it again gives
    the mesh back, when the cell was not critical before; unmarking a cell
    that is not in [cr_cells] raises [ValueError]. *)
Theorem critical_mark_round_trip (m : TorusMesh) (idx : Z) :
  0 <= idx < 4 * size (grid m) ->
  ~ idx ∈ cr_cells m -> ~ idx ∈ cr_id m ->
  is_critical (set_critical m idx) idx = true /\
  cp (set_critical m idx) (dim (grid m) idx)
  = cp m (dim (grid m) idx) ++ [idx] /\
  unset_critical (set_critical m idx) idx = Ok m /\
  unset_critical m idx = Raise ValueError.
Proof.
  intros _ Hcells Hid. split; [|split; [|split]].
  - unfold is_critical, set_critical. simpl. apply bool_decide_eq_true.
    set_solver.
  - unfold cp, set_critical. simpl. rewrite List.filter_app. simpl.
    rewrite Z.eqb_refl. reflexivity.
  - unfold unset_critical, set_critical. simpl.
    rewrite (list_remove_last idx (cr_cells m) Hcells). simpl.
    assert (E : ({[idx]} ∪ cr_id m) ∖ {[idx]} = cr_id m) by set_solver.
    rewrite E. destruct m; reflexivity.
  - unfold unset_critical.
    rewrite (list_remove_absent idx (cr_cells m) Hcells). reflexivity.
Qed.

Lemma critical_mark_round_trip_witness :
  is_critical (set_critical (new_mesh 3 4 test_field) 17) 17 = true /\
  cp (set_critical (new_mesh 3 4 test_field) 17)
    (dim (grid (new_mesh 3 4 test_field)) 17)
  = cp (new_mesh 3 4 test_field) (dim (grid (new_mesh 3 4 test_field)) 17)
    ++ [17] /\
  unset_critical (set_critical (new_mesh 3 4 test_field) 17) 17
  = Ok (new_mesh 3 4 test_field) /\
  unset_critical (new_mesh 3 4 test_field) 17 = Raise ValueError.
Proof.
  apply (critical_mark_round_trip (new_mesh 3 4 test_field) 17).
  - vm_compute. split; [discriminate|reflexivity].
  - simpl. apply not_elem_of_nil.
  - simpl. apply not_elem_of_empty.
Defined.

(** X14: [cmp_crit_cells] marks exactly the cells of the grid that the
    gradient leaves without an arrow, lists each of them once in [cr_cells],
    in increasing order of their extended values, and changes nothing
    else. *)
Theorem crit_cells_from_gradient (m : TorusMesh) :
  (forall c, c ∈ cr_id (cmp_crit_cells m) <->
             0 <= c < 4 * size (grid m) /\ V m !! c = None) /\
  (forall c, c ∈ cr_cells (cmp_crit_cells m) <->
             c ∈ cr_id (cmp_crit_cells m)) /\
  NoDup (cr_cells (cmp_crit_cells m)) /\
  StronglySorted
    (fun a b => tuple_lt (_extvalue m b) (_extvalue m a) = false)
    (cr_cells (cmp_crit_cells m)) /\
  with_crit (cmp_crit_cells m) (cr_cells m) (cr_id m) = m.
Proof.
  unfold cmp_crit_cells. cbn [cr_id cr_cells with_crit].
  set (cells := List.filter (fun i => bool_decide (V m !! i = None))
                  (range 0 (4 * size (grid m)))).
  assert (Hin : forall c, c ∈ cells <->
                  0 <= c < 4 * size (grid m) /\ V m !! c = None).
  { intros c. unfold cells. rewrite list_elem_of_In, filter_In.
    rewrite <- list_elem_of_In. unfold range. rewrite elem_of_seqZ.
    rewrite bool_decide_eq_true. split; intros [H1 H2]; split; auto; lia. }
  split; [|split; [|split; [|split]]].
  - intros c. rewrite elem_of_list_to_set. apply Hin.
  - intros c. rewrite sort_by_elem, elem_of_list_to_set. reflexivity.
  - rewrite sort_by_perm. unfold cells. apply NoDup_ListNoDup.
    apply List.NoDup_filter. apply NoDup_ListNoDup. apply NoDup_seqZ.
  - apply (sort_by_sorted
             (fun x y => tuple_lt (_extvalue m x) (_extvalue m y))).
    + intros a b. apply tuple_lt_asym.
    + intros a b c. apply tuple_ge_trans.
  - destruct m; reflexivity.
Qed.

(** X15: on a grid with at least two rows and two columns and pairwise
    distinct values, [cmp_crit_cells] after [cmp_discrete_gradient] finds
    the critical cells that the gradient builder has marked: [cr_id] is the
    same set and [cr_cells] lists the same cells. *)
Theorem crit_cells_recomputed (fuel : nat) (m : TorusMesh)
    (threads_num : Z) :
  2 <= sizeX (grid m) -> 2 <= sizeY (grid m) -> distinct_values m ->
  0 < threads_num -> (100 <= fuel)%nat ->
  exists m',
    cmp_discrete_gradient fuel m threads_num = Ok m' /\
    cr_id (cmp_crit_cells m') = cr_id m' /\
    cr_cells (cmp_crit_cells m') ≡ₚ cr_cells m'.
Proof.
  intros H2X H2Y Hd Ht Hfuel.
  destruct (gradient_complete fuel m threads_num H2X H2Y Hd Ht Hfuel)
    as (m' & E & Hf & Hsd & Hall & Hrange).
  exists m'. split; [exact E|].
  pose proof Hf as (Eg & _).
  assert (Hid : forall c, c ∈ cr_id (cmp_crit_cells m') <-> c ∈ cr_id m').
  { intros c. unfold cmp_crit_cells. cbn [cr_id with_crit].
    rewrite elem_of_list_to_set, list_elem_of_In, filter_In.
    rewrite <- list_elem_of_In. unfold range. rewrite elem_of_seqZ.
    rewrite bool_decide_eq_true, Eg. split.
    - intros [Hc HV]. specialize (Hall c ltac:(lia)).
      apply is_unpaired_false in Hall as [Hn|Hin]; [contradiction|exact Hin].
    - intros Hc. split; [|exact (sd_exclusive _ _ _ _ Hsd c Hc)].
      assert (Hu : is_unpaired m' c = false)
        by (apply is_unpaired_false; auto).
      specialize (Hrange c Hu). lia. }
  split.
  - apply set_eq. exact Hid.
  - apply NoDup_Permutation.
    + unfold cmp_crit_cells. cbn [cr_cells with_crit].
      rewrite sort_by_perm. apply NoDup_ListNoDup.
      apply List.NoDup_filter. apply NoDup_ListNoDup. apply NoDup_seqZ.
    + exact (proj1 (sd_cells _ _ _ _ Hsd)).
    + intros c. rewrite (proj2 (sd_cells _ _ _ _ Hsd) c), <- Hid.
      unfold cmp_crit_cells. cbn [cr_cells cr_id with_crit].
      rewrite sort_by_elem, elem_of_list_to_set. reflexivity.
Qed.

Lemma crit_cells_recomputed_witness :
  exists m',
    cmp_discrete_gradient 100 (new_mesh 3 4 test_field) 8 = Ok m' /\
    cr_id (cmp_crit_cells m') = cr_id m' /\
    cr_cells (cmp_crit_cells m') ≡ₚ cr_cells m'.
Proof.
  apply (crit_cells_recomputed 100 (new_mesh 3 4 test_field) 8);
    [simpl; lia | simpl; lia | apply test_field_distinct | lia | lia].
Defined.

(** ** Arcs *)




(** ** Simplification *)

Lemma eliminate_pops (fuel : nat) (method : string) (m m' : TorusMesh) :
  valid_method method = true -> eliminate fuel method m = Ok m' ->
  ppairs m' = take (length (ppairs m) - 1) (ppairs m).
Proof.
  unfold valid_method, eliminate. intros Hv H.
  destruct (list_pop (ppairs m)) as [[p rest]|] eqn:Hp.
  - pose proof (proj1 (list_pop_Some _ _ _) Hp) as E.
    assert (Er : ppairs m' = rest).
    { destruct (bool_decide (method = "gradient")).
      - destruct (revert_gradient_effect _ _ _ _ _ Hp H)
          as (_ & _ & _ & _ & _ & _ & -> & _). reflexivity.
      - destruct (bool_decide (method = "arc")); [|discriminate].
        exact (change_msgraph_ppairs _ _ _ _ _ Hp H). }
    rewrite Er, E, length_app. simpl.
    replace (length rest + 1 - 1)%nat with (length rest) by lia.
    rewrite take_app_length. reflexivity.
  - assert (E : ppairs m = []).
    { unfold list_pop in Hp.
      destruct (reverse (ppairs m)) as [|x r] eqn:Er; [|discriminate].
      rewrite <- (reverse_involutive (ppairs m)), Er. reflexivity. }
    revert H. unfold eliminate_pair_revert_gradient,
      eliminate_pair_change_msgraph. rewrite Hp, E.
    destruct (bool_decide (method = "gradient"));
      [|destruct (bool_decide (method = "arc"))];
      intros [= <-]; rewrite E; reflexivity.
Qed.

Lemma eliminate_times_pops (n fuel : nat) (method : string)
    (m m' : TorusMesh) :
  valid_method method = true -> eliminate_times n fuel method m = Ok m' ->
  ppairs m' = take (length (ppairs m) - n) (ppairs m).
Proof.
  intros Hv. revert m. induction n as [|n IH]; intros m H; simpl in H.
  - injection H as <-. rewrite Nat.sub_0_r, firstn_all. reflexivity.
  - bind_as H m1 H1. rewrite (IH _ H), (eliminate_pops _ _ _ _ Hv H1).
    rewrite length_take, take_take. f_equal. lia.
Qed.

(** X17: a call of [simplify_by_pairs_remained] that returns has either
    found fewer pairs than asked for and changed nothing, or has left
    exactly the first [pairs_remained] pairs of [ppairs], those that were
    listed first. *)
Theorem pairs_remained_keeps_first (fuel : nat) (m m' : TorusMesh)
    (pairs_remained : Z) (method : string) :
  simplify_by_pairs_remained fuel m pairs_remained method = Ok m' ->
  (Z.of_nat (length (ppairs m)) < pairs_remained /\ m' = m) \/
  (2 <= pairs_remained <= Z.of_nat (length (ppairs m)) /\
   ppairs m' = take (Z.to_nat pairs_remained) (ppairs m) /\
   Z.of_nat (length (ppairs m')) = pairs_remained).
Proof.
  unfold simplify_by_pairs_remained. intros H.
  destruct (valid_method method) eqn:Hv; [|discriminate]. simpl in H.
  destruct (Z.ltb_spec (Z.of_nat (length (ppairs m))) pairs_remained)
    as [Hlt|Hge].
  - left. injection H as <-. auto.
  - destruct (Z.ltb_spec pairs_remained 2); [discriminate|].
    right. split; [lia|].
    rewrite (eliminate_times_pops _ _ _ _ _ Hv H).
    replace (length (ppairs m)
             - Z.to_nat (Z.of_nat (length (ppairs m)) - pairs_remained))%nat
      with (Z.to_nat pairs_remained) by lia.
    split; [reflexivity|]. rewrite length_take. lia.
Qed.

Lemma pairs_remained_keeps_first_witness :
  exists m m',
    build_all 100 3 4 test_field 8 = Ok m /\
    simplify_by_pairs_remained 100 m 2 "gradient" = Ok m' /\
    ((Z.of_nat (length (ppairs m)) < 2 /\ m' = m) \/
     (2 <= 2 <= Z.of_nat (length (ppairs m)) /\
      ppairs m' = take (Z.to_nat 2) (ppairs m) /\
      Z.of_nat (length (ppairs m')) = 2)).
Proof.
  eexists. eexists. split; [vm_compute; reflexivity|].
  match goal with
  | |- ?run = Ok ?r /\ _ => assert (E : run = Ok r) by (vm_compute; reflexivity)
  end.
  split; [exact E|].
  exact (pairs_remained_keeps_first 100 _ _ 2 "gradient" E).
Defined.

Lemma sorted_split (level : Z) (l : list (Z * Z * Z)) :
  StronglySorted (fun a b : Z * Z * Z => b.2 <= a.2) l ->
  take (length l
        - length (List.filter (fun p : Z * Z * Z => p.2 <? level) l)) l
  = List.filter (fun p : Z * Z * Z => level <=? p.2) l.
Proof.
  induction 1 as [|x l Hl IH Hx]; [reflexivity|].
  cbn [List.filter]. destruct (Z.ltb_spec x.2 level) as [Hlt|Hge].
  - destruct (Z.leb_spec level x.2); [lia|].
    assert (Ea : List.filter (fun p : Z * Z * Z => p.2 <? level) l = l).
    { apply forallb_filter_id, forallb_forall. intros y Hy.
      apply list_elem_of_In in Hy. rewrite Forall_forall in Hx.
      specialize (Hx y Hy). apply Z.ltb_lt. lia. }
    assert (En : List.filter (fun p : Z * Z * Z => level <=? p.2) l = []).
    { clear -Hx Hlt. induction Hx as [|y l Hy _ IH]; [reflexivity|].
      simpl. destruct (Z.leb_spec level y.2); [lia|exact IH]. }
    rewrite Ea, En. simpl. rewrite Nat.sub_diag. reflexivity.
  - destruct (Z.leb_spec level x.2); [|lia].
    set (k := length (List.filter (fun p : Z * Z * Z => p.2 <? level) l))
      in *.
    assert (Hk : (k <= length l)%nat) by apply List.filter_length_le.
    replace (length (x :: l) - k)%nat with (S (length l - k))
      by (simpl; lia).
    simpl. rewrite IH. reflexivity.
Qed.

(** X18: on pairs listed by decreasing persistence, as
    [cmp_persistent_pairs] leaves them, a call of [simplify_by_level] that
    returns has removed every pair whose persistence is below the level and
    kept every other pair, in order. *)
Theorem level_keeps_persistent (fuel : nat) (m m' : TorusMesh) (level : Z)
    (method : string) :
  StronglySorted (fun a b : Z * Z * Z => b.2 <= a.2) (ppairs m) ->
  simplify_by_level fuel m level method = Ok m' ->
  ppairs m'
  = List.filter (fun p : Z * Z * Z => level <=? p.2) (ppairs m).
Proof.
  unfold simplify_by_level. intros Hs H.
  destruct (valid_method method) eqn:Hv; [|discriminate]. simpl in H.
  rewrite (eliminate_times_pops _ _ _ _ _ Hv H). apply sorted_split, Hs.
Qed.

Lemma level_keeps_persistent_witness :
  exists m m',
    build_all 100 3 4 test_field 8 = Ok m /\
    simplify_by_level 100 m 2 "gradient" = Ok m' /\
    ppairs m = [(26, 0, 5); (33, 46, 2); (29, 5, 1)] /\
    ppairs m' = [(26, 0, 5); (33, 46, 2)] /\
    ppairs m'
    = List.filter (fun p : Z * Z * Z => 2 <=? p.2) (ppairs m).
Proof.
  eexists. eexists. split; [vm_compute; reflexivity|].
  match goal with
  | |- ?run = Ok ?r /\ _ => assert (E : run = Ok r) by (vm_compute; reflexivity)
  end.
  split; [exact E|]. split; [reflexivity|]. split; [reflexivity|].
  apply (level_keeps_persistent 100 _ _ 2 "gradient"); [|exact E].
  change (StronglySorted (fun a b : Z * Z * Z => b.2 <= a.2)
            [(26, 0, 5); (33, 46, 2); (29, 5, 1)]).
  repeat constructor; simpl; lia.
Defined.

(** ** Around a vertex *)

Lemma pos_lookup (l : list Z) (x : Z) :
  x ∈ l -> l !! pos l x = Some x.
Proof.
  induction l as [|y l IH]; intros Hx; [apply elem_of_nil in Hx; contradiction|].
  simpl. destruct (Z.eqb_spec x y) as [->|Hne]; [reflexivity|].
  apply elem_of_cons in Hx as [?|Hx]; [contradiction|]. simpl. auto.
Qed.

Lemma pos_unique (l : list Z) (k : nat) (x : Z) :
  NoDup l -> l !! k = Some x -> pos l x = k.
Proof.
  intros Hnd. revert k. induction Hnd as [|y l Hy Hnd IH]; intros k Hk;
    [discriminate|].
  destruct k as [|k]; simpl in *.
  - injection Hk as ->. rewrite Z.eqb_refl. reflexivity.
  - destruct (Z.eqb_spec x y) as [->|_].
    + exfalso. apply Hy. eapply list_elem_of_lookup_2. exact Hk.
    + f_equal. auto.
Qed.

Section Ring.

Variable g : dims.
Hypothesis H2X : 2 <= sizeX g.
Hypothesis H2Y : 2 <= sizeY g.
Variable idx : Z.
Hypothesis Hi : 0 <= idx < size g.

Local Abbreviation N := (size g).

Lemma ring_sides : 0 < sizeX g /\ 0 < sizeY g.
Proof using H2X H2Y. lia. Qed.

(** The neighbours of a vertex that differ. *)
Lemma ring_apart :
  (0 <= _vleft g idx < N /\ 0 <= _vright g idx < N /\
   0 <= _vtop g idx < N /\ 0 <= _vbottom g idx < N /\
   0 <= _vtop g (_vleft g idx) < N) /\
  _vleft g idx <> idx /\ _vright g idx <> idx /\
  _vtop g idx <> idx /\ _vbottom g idx <> idx /\
  _vtop g idx <> _vleft g idx /\ _vtop g idx <> _vright g idx /\
  _vbottom g idx <> _vleft g idx /\ _vbottom g idx <> _vright g idx /\
  _vtop g (_vleft g idx) <> _vleft g idx /\
  _vtop g (_vleft g idx) <> _vtop g idx /\
  _vtop g (_vleft g idx) <> idx /\
  _vbottom g (_vleft g idx) <> _vleft g idx /\
  _vbottom g (_vleft g idx) <> idx /\
  _vright g (_vtop g idx) <> _vtop g idx /\
  _vright g (_vtop g idx) <> idx.
Proof using H2X H2Y Hi.
  destruct ring_sides as [HX HY].
  destruct (neighbour_range g HX HY idx Hi) as (Hl & Hr & Ht & Hb).
  destruct (neighbour_range g HX HY _ Hl) as (_ & _ & Hlt & Hlb).
  destruct (neighbour_range g HX HY _ Ht) as (_ & Htr & _ & _).
  destruct (row_differs g HX HY idx Hi H2Y) as (D1 & D2 & D3 & D4 & D5 & D6).
  destruct (row_differs g HX HY _ Hl H2Y) as (L1 & L2 & L3 & L4 & L5 & L6).
  rewrite (_vright_vleft g HX HY idx Hi) in L4, L6.
  split; [auto 10|].
  assert (Al : _vleft g idx <> idx).
  { intros E. apply (_vleft_fixed g HX HY) in E; [lia|exact Hi]. }
  assert (Ar : _vright g idx <> idx).
  { intros E. apply (_vright_fixed g HX HY) in E; [lia|exact Hi]. }
  assert (Atl : _vtop g (_vleft g idx) <> _vtop g idx).
  { intros E. apply Al.
    rewrite <- (_vbottom_vtop g HX HY _ Hl), E.
    apply (_vbottom_vtop g HX HY idx Hi). }
  assert (Art : _vright g (_vtop g idx) <> _vtop g idx).
  { intros E. apply (_vright_fixed g HX HY) in E; [lia|exact Ht]. }
  assert (Arti : _vright g (_vtop g idx) <> idx).
  { intros E. apply D3.
    rewrite <- (_vleft_vright g HX HY _ Ht), E. reflexivity. }
  repeat split; auto.
Qed.

Lemma ring_edges_NoDup : NoDup (ring_edges g idx).
Proof using H2X H2Y Hi.
  destruct ring_apart as ((Hl & Hr & Ht & Hb & Hlt) & Al & Ar & At & Ab & _).
  unfold ring_edges, _eleft, _etop, _eright, _ebottom.
  repeat (apply NoDup_cons; split;
          [rewrite ?elem_of_cons, elem_of_nil; lia|]).
  apply NoDup_nil_2.
Qed.

Lemma ring_faces_NoDup : NoDup (ring_faces g idx).
Proof using H2X H2Y Hi.
  destruct ring_apart
    as ((Hl & Hr & Ht & Hb & Hlt) & Al & Ar & At & Ab & Atl & _ & _ & _ &
        Altl & Altt & Alti & _).
  unfold ring_faces, _flefttop, _frighttop, _frightbottom, _fleftbottom.
  repeat (apply NoDup_cons; split;
          [rewrite ?elem_of_cons, elem_of_nil; lia|]).
  apply NoDup_nil_2.
Qed.

(** The two faces on the sides of an edge of the ring: the face before it
    and the face after it. *)
Lemma ring_cofacets (a : nat) (e : Z) :
  ring_edges g idx !! a = Some e ->
  exists c1 c2,
    _cofacets g e = Ok (c1, c2) /\
    ((ring_faces g idx !! ((a + 3) mod 4)%nat = Some c1 /\
      ring_faces g idx !! a = Some c2) \/
     (ring_faces g idx !! ((a + 3) mod 4)%nat = Some c2 /\
      ring_faces g idx !! a = Some c1)).
Proof using H2X H2Y Hi.
  destruct ring_sides as [HX HY].
  destruct ring_apart as ((Hl & Hr & Ht & Hb & Hlt) & _).
  intros Ha. unfold ring_edges in Ha.
  destruct a as [|[|[|[|a]]]]; simpl in Ha; [..|discriminate];
    injection Ha as <-;
    unfold _cofacets, _eleft, _etop, _eright, _ebottom;
    rewrite !(dim_edge g) by lia; simpl.
  - destruct (Z.ltb_spec (N + _vleft g idx) (2 * N)); [|lia].
    replace (N + _vleft g idx - N) with (_vleft g idx) by lia.
    eexists _, _. split; [reflexivity|]. right.
    unfold _fleftbottom, _flefttop.
    split; f_equal; lia.
  - destruct (Z.ltb_spec (N * 2 + _vtop g idx) (2 * N)); [lia|].
    replace (N * 2 + _vtop g idx - 2 * N) with (_vtop g idx) by lia.
    rewrite (_vleft_vtop g HX HY idx Hi).
    eexists _, _. split; [reflexivity|]. left.
    unfold _frighttop, _flefttop. split; f_equal; lia.
  - destruct (Z.ltb_spec (N + idx) (2 * N)); [|lia].
    replace (N + idx - N) with idx by lia.
    eexists _, _. split; [reflexivity|]. left.
    unfold _frighttop, _frightbottom. split; f_equal; lia.
  - destruct (Z.ltb_spec (N * 2 + idx) (2 * N)); [lia|].
    replace (N * 2 + idx - 2 * N) with idx by lia.
    eexists _, _. split; [reflexivity|]. right.
    unfold _fleftbottom, _frightbottom. split; f_equal; lia.
Qed.

(** The facets of the faces of the ring. *)
Lemma ring_face_facets :
  _facets g (_flefttop g idx)
  = [N + _vtop g (_vleft g idx); 2 * N + _vtop g (_vleft g idx);
     N + _vleft g idx; 2 * N + _vtop g idx] /\
  _facets g (_frighttop g idx)
  = [N + _vtop g idx; 2 * N + _vtop g idx; N + idx;
     2 * N + _vright g (_vtop g idx)] /\
  _facets g (_frightbottom g idx)
  = [N + idx; 2 * N + idx; N + _vbottom g idx; 2 * N + _vright g idx] /\
  _facets g (_fleftbottom g idx)
  = [N + _vleft g idx; 2 * N + _vleft g idx; N + _vbottom g (_vleft g idx);
     2 * N + idx].
Proof using H2X H2Y Hi.
  destruct ring_sides as [HX HY].
  destruct ring_apart as ((Hl & Hr & Ht & Hb & Hlt) & _).
  unfold _flefttop, _frighttop, _frightbottom, _fleftbottom.
  rewrite !(facets_face g HX HY) by assumption.
  rewrite (_vbottom_vtop g HX HY _ Hl), (_vbottom_vtop g HX HY idx Hi),
    (_vright_vleft g HX HY idx Hi).
  rewrite <- (_vleft_vtop g HX HY idx Hi),
    (_vright_vleft g HX HY _ Ht).
  auto.
Qed.

(** A face of the ring has two of the edges of the ring among its facets: the
    edge before it and the edge after it. *)
Lemma ring_facets (k a : nat) (f e : Z) :
  ring_faces g idx !! k = Some f -> ring_edges g idx !! a = Some e ->
  e ∈ _facets g f -> a = k \/ a = ((k + 1) mod 4)%nat.
Proof using H2X H2Y Hi.
  destruct ring_apart
    as ((Hl & Hr & Ht & Hb & Hlt) & Al & Ar & At & Ab & Atl & Atr & Abl &
        Abr & Altl & Altt & Alti & Albl & Albi & Artt & Arti).
  destruct ring_face_facets as (F0 & F1 & F2 & F3).
  intros Hk Ha He. unfold ring_faces in Hk. unfold ring_edges in Ha.
  destruct k as [|[|[|[|k]]]]; simpl in Hk; [..|discriminate];
    injection Hk as <-;
    (destruct a as [|[|[|[|a]]]]; simpl in Ha; [..|discriminate]);
    injection Ha as <-.
  all: try (left; reflexivity).
  all: try (right; reflexivity).
  all: exfalso.
  all: rewrite ?F0, ?F1, ?F2, ?F3 in He.
  all: unfold _eleft, _etop, _eright, _ebottom in He.
  all: destruct ring_sides as [HX HY].
  all: destruct (neighbour_range g HX HY _ Hl) as (_ & _ & _ & Hlb).
  all: destruct (neighbour_range g HX HY _ Ht) as (_ & Htr & _ & _).
  all: repeat (apply elem_of_cons in He as [He|He];
               [first [ clear -He Hi Hl Hr Ht Hb Hlt Hlb Htr; lia
                      | match type of He with
                        | _ + ?x = _ + ?y =>
                            assert (Ex : x = y)
                              by (clear -He Hi Hl Hr Ht Hb Hlt Hlb Htr; lia);
                            congruence
                        end ]|]).
  all: apply elem_of_nil in He; exact He.
Qed.

End Ring.

Lemma ring_steps_bound (k a j : nat) : (ring_steps k a j < 4)%nat.
Proof.
  unfold ring_steps. destruct (a =? (k + 1) mod 4)%nat;
    apply Nat.mod_upper_bound; discriminate.
Qed.

Lemma ring_steps_pos (k a j : nat) :
  (k < 4)%nat -> (a < 4)%nat -> (j < 4)%nat -> a <> j ->
  (1 <= ring_steps k a j)%nat.
Proof.
  intros Hk Ha Hj Haj.
  assert (Ck : (k = 0 \/ k = 1 \/ k = 2 \/ k = 3)%nat) by lia.
  assert (Ca : (a = 0 \/ a = 1 \/ a = 2 \/ a = 3)%nat) by lia.
  assert (Cj : (j = 0 \/ j = 1 \/ j = 2 \/ j = 3)%nat) by lia.
  destruct Ck as [->|[->|[->| ->]]], Ca as [->|[->|[->| ->]]],
    Cj as [->|[->|[->| ->]]]; try contradiction; vm_compute; lia.
Qed.

(** One step of the walk back around a vertex: from the face [k] across
    its edge [a] to the next face [k'], whose own edge [a'] is the next
    edge in the same direction, one step closer to the edge [j]. *)
Lemma ring_steps_decrease (k a j k' a' : nat) :
  (k < 4)%nat -> (a < 4)%nat -> (j < 4)%nat -> a <> j ->
  a = k \/ a = ((k + 1) mod 4)%nat ->
  k' <> k -> k' = ((a + 3) mod 4)%nat \/ k' = a ->
  a' = k' \/ a' = ((k' + 1) mod 4)%nat -> a' <> a -> a' <> j ->
  (ring_steps k' a' j < ring_steps k a j)%nat.
Proof.
  intros Hk Ha Hj Haj Hak Hk' Hka Ha' Haa Haj'.
  assert (Ck : (k = 0 \/ k = 1 \/ k = 2 \/ k = 3)%nat) by lia.
  assert (Ca : (a = 0 \/ a = 1 \/ a = 2 \/ a = 3)%nat) by lia.
  assert (Cj : (j = 0 \/ j = 1 \/ j = 2 \/ j = 3)%nat) by lia.
  destruct Ck as [->|[->|[->| ->]]], Ca as [->|[->|[->| ->]]];
    vm_compute in Hak; (destruct Hak as [Hak|Hak]; try discriminate Hak);
    clear Hak;
    vm_compute in Hka; (destruct Hka as [->| ->]; try contradiction);
    vm_compute in Ha'; (destruct Ha' as [->| ->]; try contradiction);
    destruct Cj as [->|[->|[->| ->]]]; try contradiction;
    vm_compute; lia.
Qed.

(** ** Walking back up the gradient *)

Lemma owner_frame (m m' : TorusMesh) (c : Z) :
  frame m m' -> owner m' c = owner m c.
Proof.
  intros (Eg & Ev & _). unfold owner, value. rewrite Eg, Ev. reflexivity.
Qed.

Lemma above_frame (m m' : TorusMesh) (c : Z) :
  frame m m' -> above m' c = above m c.
Proof.
  intros Hf. unfold above. rewrite (owner_frame m m' c Hf).
  destruct Hf as (Eg & Ev & _). unfold value. rewrite Eg, Ev. reflexivity.
Qed.

(** The highest vertex of a cell of a lower star is the vertex of the
    star. *)
Lemma owner_lower_star (m : TorusMesh) (i c : Z) :
  0 < sizeX (grid m) -> 0 < sizeY (grid m) -> 0 <= i < size (grid m) ->
  c ∈ lower_star m i -> owner m c = i.
Proof.
  intros HX HY Hi Hc.
  pose proof (lower_star_owns m HX HY i Hi c Hc) as Ho.
  unfold owner.
  destruct (List.find _ (_verts (grid m) c)) as [x|] eqn:E; simpl.
  - apply List.find_some in E as [Hx Hp].
    apply (owns_unique m x i c); [|exact Ho].
    split; [apply list_elem_of_In; exact Hx|]. intros u Hu.
    rewrite forallb_forall in Hp.
    specialize (Hp u (proj1 (list_elem_of_In _ _) Hu)).
    apply orb_true_iff in Hp as [H|H];
      [left; apply Z.eqb_eq|right; apply Z.ltb_lt]; exact H.
  - exfalso. destruct Ho as [Hin Hlow].
    pose proof (List.find_none _ _ E i (proj1 (list_elem_of_In _ _) Hin))
      as Hn.
    simpl in Hn. apply not_true_iff_false in Hn. apply Hn.
    apply forallb_forall. intros u Hu.
    apply list_elem_of_In in Hu. apply orb_true_iff.
    destruct (Hlow u Hu) as [->|Hlt];
      [left; apply Z.eqb_refl|right; apply Z.ltb_lt; exact Hlt].
Qed.

Lemma above_lt (m : TorusMesh) (c c' : Z) :
  0 <= owner m c' < size (grid m) ->
  value m (owner m c) < value m (owner m c') ->
  (above m c' < above m c)%nat.
Proof.
  intros Hi Hlt. unfold above.
  apply (filter_length_lt (fun w => value m (owner m c) <? value m w)
           (fun w => value m (owner m c') <? value m w) (owner m c')).
  - intros y _ Hy. apply Z.ltb_lt in Hy. apply Z.ltb_lt. lia.
  - unfold range. apply elem_of_seqZ. lia.
  - apply Z.ltb_lt. exact Hlt.
  - apply Z.ltb_irrefl.
Qed.

Section Ascent.

Variables m m' : TorusMesh.
Hypothesis H2X : 2 <= sizeX (grid m).
Hypothesis H2Y : 2 <= sizeY (grid m).
Hypothesis Hdist : distinct_values m.
Hypothesis Hf : frame m m'.
Hypothesis Hsd : stars_done m m' (reverse (range 0 (size (grid m)))) [].

Local Abbreviation g := (grid m).
Local Abbreviation N := (size (grid m)).

Lemma ascent_sides : 0 < sizeX g /\ 0 < sizeY g.
Proof using H2X H2Y. lia. Qed.

(** The cells of a lower star lie on the ring around its vertex. *)
Lemma lower_star_ring (i c : Z) :
  0 <= i < N -> c ∈ lower_star m i ->
  (c < 3 * N -> c ∈ ring_edges g i) /\
  (3 * N <= c -> c ∈ ring_faces g i).
Proof using H2X H2Y.
  destruct ascent_sides as [HX HY]. intros Hi Hc.
  destruct (ring_apart g H2X H2Y i Hi) as ((Hl & Hr & Ht & Hb & Hlt) & _).
  apply (elem_lower_star m i Hi) in Hc.
  unfold ring_edges, ring_faces.
  unfold _eleft, _etop, _eright, _ebottom, _flefttop, _frighttop,
    _fleftbottom, _frightbottom in *.
  decompose [and or] Hc; subst c;
    (split; intros Hr3; [try lia|try lia]);
    rewrite !elem_of_cons; auto 10.
Qed.

(** The vertex of a ring is a vertex of its faces. *)
Lemma ring_face_vertex (i f : Z) :
  0 <= i < N -> f ∈ ring_faces g i ->
  i ∈ _verts g f /\ 3 * N <= f < 4 * N.
Proof using H2X H2Y.
  destruct ascent_sides as [HX HY]. intros Hi Hin.
  destruct (ring_apart g H2X H2Y i Hi) as ((Hl & Hr & Ht & Hb & Hlt) & _).
  destruct (star_verts m HX HY i Hi) as (_ & _ & _ & _ & E5 & E6 & E7 & E8).
  unfold ring_faces in Hin.
  repeat (apply elem_of_cons in Hin as [->|Hin];
          [rewrite ?E5, ?E6, ?E7, ?E8;
           split; [rewrite !elem_of_cons; auto 10|];
           unfold _flefttop, _frighttop, _fleftbottom, _frightbottom; lia|]).
  apply elem_of_nil in Hin. contradiction.
Qed.

(** A face with an arrow, seen on the ring of its highest vertex [i]: the
    arrow goes to one of the two edges of the ring next to the face, and
    this is not the edge paired with [i]. *)
Lemma face_in_ring (f e : Z) :
  3 * N <= f -> V m' !! f = Some e ->
  exists i delta,
    0 <= i < N /\ f ∈ lower_star m i /\ e ∈ lower_star m i /\
    N <= e < 3 * N /\ V m' !! e = Some f /\ V m' !! i = Some delta /\
    delta ∈ ring_edges g i /\ e ∈ ring_edges g i /\ f ∈ ring_faces g i /\
    delta <> e /\ e ∈ _facets g f.
Proof using H2X H2Y Hf Hsd.
  destruct ascent_sides as [HX HY]. intros H3 EV.
  pose proof Hf as (Eg & _).
  destruct (sd_involution _ _ _ _ Hsd f e EV) as [Hback Hdim].
  rewrite Eg in Hdim. rewrite (dim_face g HX HY f H3) in Hdim.
  assert (He : N <= e < 3 * N).
  { destruct (dim_cases g HX HY e) as [[D ?]|[[D ?]|[D ?]]]; lia. }
  destruct (sd_local _ _ _ _ Hsd e f Hback ltac:(lia))
    as (Hfacet & i & Hi & Hei & Hfi).
  destruct Hei as [->|Hei]; [lia|].
  assert (Hnc : ~ i ∈ cr_id m').
  { intros Hc. pose proof (sd_minima _ _ _ _ Hsd i Hc Hi) as E.
    rewrite E in Hfi. apply elem_of_nil in Hfi. exact Hfi. }
  destruct (descent_step m m' HX HY Hf Hsd i Hi Hnc)
    as (delta & u & EVi & Hd & Hdi & _).
  exists i, delta.
  destruct (lower_star_ring i f Hi Hfi) as [_ Hrf].
  destruct (lower_star_ring i e Hi Hei) as [Hre _].
  destruct (lower_star_ring i delta Hi Hdi) as [Hrd _].
  specialize (Hrf H3). specialize (Hre ltac:(lia)).
  specialize (Hrd ltac:(lia)).
  do 9 (split; [assumption|]).
  split; [|exact Hfacet].
  intros ->.
  destruct (sd_involution _ _ _ _ Hsd i e EVi) as [Hb' _].
  rewrite Hback in Hb'. injection Hb' as ->. lia.
Qed.

Lemma ascent_rank (f e i delta : Z) :
  0 <= i < N -> f ∈ lower_star m i -> V m' !! f = Some e ->
  V m' !! i = Some delta ->
  rank_ascent m' f
  = (4 * above m f
     + ring_steps (pos (ring_faces g i) f) (pos (ring_edges g i) e)
         (pos (ring_edges g i) delta))%nat.
Proof using H2X H2Y Hf.
  destruct ascent_sides as [HX HY]. intros Hi Hfi EV EVi.
  unfold rank_ascent. rewrite (above_frame m m' f Hf).
  rewrite (owner_frame m m' f Hf), (owner_lower_star m i f HX HY Hi Hfi).
  destruct Hf as (Eg & _). rewrite EV, EVi, Eg. reflexivity.
Qed.

(** From a face across the edge it is paired with, the face on the other
    side stands lower in the order of the walk. *)
Lemma gradient_ascends (f e c1 c2 f' : Z) :
  3 * N <= f -> V m' !! f = Some e -> _cofacets g e = Ok (c1, c2) ->
  f' = c1 \/ f' = c2 -> f' <> f ->
  (rank_ascent m' f' < rank_ascent m' f)%nat.
Proof using H2X H2Y Hdist Hf Hsd.
  destruct ascent_sides as [HX HY]. intros H3 EV Hco Hf' Hne.
  destruct (face_in_ring f e H3 EV)
    as (i & delta & Hi & Hfi & Hei & He & Hback & EVi & Hrd & Hre & Hrf &
        Hde & Hfacet).
  pose proof (ring_edges_NoDup g H2X H2Y i Hi) as NDe.
  pose proof (ring_faces_NoDup g H2X H2Y i Hi) as NDf.
  pose proof (pos_lookup _ _ Hrf) as Lk.
  pose proof (pos_lookup _ _ Hre) as La.
  pose proof (pos_lookup _ _ Hrd) as Lj.
  set (k := pos (ring_faces g i) f) in *.
  set (a := pos (ring_edges g i) e) in *.
  set (j := pos (ring_edges g i) delta) in *.
  assert (Hk : (k < 4)%nat) by (apply lookup_lt_Some in Lk; exact Lk).
  assert (Ha : (a < 4)%nat) by (apply lookup_lt_Some in La; exact La).
  assert (Hj : (j < 4)%nat) by (apply lookup_lt_Some in Lj; exact Lj).
  assert (Haj : a <> j).
  { intros E. rewrite E in La. rewrite La in Lj. injection Lj as <-.
    contradiction. }
  pose proof (ring_facets g H2X H2Y i Hi k a f e Lk La Hfacet) as Hak.
  destruct (ring_cofacets g H2X H2Y i Hi a e La)
    as (d1 & d2 & Hco' & Hd).
  rewrite Hco in Hco'. injection Hco' as <- <-.
  assert (Hk' : exists k', ring_faces g i !! k' = Some f' /\
                  (k' = ((a + 3) mod 4)%nat \/ k' = a)).
  { destruct Hd as [[L1 L2]|[L1 L2]], Hf' as [->| ->]; eauto. }
  destruct Hk' as (k' & Lk' & Hka).
  assert (Hkk : k' <> k).
  { intros E. rewrite E in Lk'. rewrite Lk' in Lk. injection Lk as <-.
    contradiction. }
  assert (Hrf' : f' ∈ ring_faces g i)
    by (eapply list_elem_of_lookup_2; exact Lk').
  destruct (ring_face_vertex i f' Hi Hrf') as [Hiv Hr'].
  rewrite (ascent_rank f e i delta Hi Hfi EV EVi).
  destruct (star_covers m H2X H2Y Hdist f' ltac:(lia)) as (i' & Hi' & Hfi').
  pose proof (lower_star_owns m HX HY i' Hi' f' Hfi') as [_ Hlow].
  pose proof (owner_lower_star m i f HX HY Hi Hfi) as Eo.
  pose proof (owner_lower_star m i' f' HX HY Hi' Hfi') as Eo'.
  destruct (Hlow i Hiv) as [->|Hlt].
  - (* the next face lies in the same lower star *)
    assert (Eab : above m f' = above m f).
    { unfold above. rewrite Eo, Eo'. reflexivity. }
    destruct (V m' !! f') as [e'|] eqn:EV'.
    + destruct (face_in_ring f' e' ltac:(lia) EV')
        as (i2 & delta2 & Hi2 & Hfi2 & Hei2 & He2 & Hback2 & EVi2 & Hrd2 &
            Hre2 & Hrf2 & Hde2 & Hfacet2).
      assert (E2 : i2 = i').
      { apply (owns_unique m i2 i' f');
          apply lower_star_owns; assumption. }
      subst i2. rewrite EVi in EVi2. injection EVi2 as <-.
      rewrite (ascent_rank f' e' i' delta Hi Hfi' EV' EVi), Eab.
      pose proof (pos_lookup _ _ Hre2) as La'.
      rewrite (pos_unique _ _ _ NDf Lk').
      set (a' := pos (ring_edges g i') e') in *.
      pose proof (ring_facets g H2X H2Y i' Hi k' a' f' e' Lk' La' Hfacet2)
        as Hak'.
      assert (Haa : a' <> a).
      { intros E. rewrite E in La'. rewrite La' in La. injection La as ->.
        rewrite Hback in Hback2. injection Hback2 as ->. contradiction. }
      assert (Haj' : a' <> j).
      { intros E. rewrite E in La'. rewrite La' in Lj. injection Lj as <-.
        contradiction. }
      pose proof (ring_steps_decrease k a j k' a' Hk Ha Hj Haj Hak Hkk Hka
                    Hak' Haa Haj') as Hlt.
      subst k a j. lia.
    + unfold rank_ascent. rewrite EV'. rewrite (above_frame m m' f' Hf), Eab.
      pose proof (ring_steps_pos k a j Hk Ha Hj Haj) as Hpos.
      subst k a j. lia.
  - (* the next face belongs to a higher vertex *)
    assert (Hab : (above m f' < above m f)%nat).
    { apply above_lt; rewrite ?Eo, ?Eo'; assumption. }
    assert (Hs : (rank_ascent m' f' < 4 * above m f' + 4)%nat).
    { unfold rank_ascent. rewrite (above_frame m m' f' Hf).
      destruct (V m' !! f'); [|lia].
      destruct (V m' !! owner m' f'); [|lia].
      match goal with
      | |- context [ring_steps ?x ?y ?z] =>
          pose proof (ring_steps_bound x y z)
      end.
      lia. }
    lia.
Qed.

End Ascent.

Section Built.

Variables m m' : TorusMesh.
Hypothesis H2X : 2 <= sizeX (grid m).
Hypothesis H2Y : 2 <= sizeY (grid m).
Hypothesis Hdist : distinct_values m.
Hypothesis Hf : frame m m'.
Hypothesis Hsd : stars_done m m' (reverse (range 0 (size (grid m)))) [].

Local Abbreviation g := (grid m).
Local Abbreviation N := (size (grid m)).

Lemma built_vertices (i : Z) :
  i ∈ reverse (range 0 N) <-> 0 <= i < N.
Proof. rewrite elem_of_reverse. unfold range. rewrite elem_of_seqZ. lia. Qed.

Lemma built_complete (c : Z) :
  0 <= c < 4 * N -> is_unpaired m' c = false.
Proof using H2X H2Y Hdist Hsd.
  intros Hc. destruct (Z.lt_ge_cases c N) as [Hlt|Hge].
  - apply (sd_complete _ _ _ _ Hsd c c); [apply built_vertices; lia|auto].
  - destruct (star_covers m H2X H2Y Hdist c ltac:(lia)) as (i & Hi & Hin).
    apply (sd_complete _ _ _ _ Hsd i c); [apply built_vertices; lia|auto].
Qed.

Lemma built_range (c : Z) :
  is_unpaired m' c = false -> 0 <= c < 4 * N.
Proof using H2X H2Y Hsd.
  assert (HX : 0 < sizeX g) by lia. assert (HY : 0 < sizeY g) by lia.
  intros Hc.
  destruct (sd_owned _ _ _ _ Hsd c Hc) as [Hin|(i & Hin & Hci)];
    simpl in Hin; apply built_vertices in Hin.
  - lia.
  - pose proof (lower_star_range m HX HY i Hin c Hci). lia.
Qed.

(** The gradient of [cmp_discrete_gradient] is a discrete gradient: the
    walks down from the vertices and the walks back from the faces never
    close. *)
Lemma gradient_is_discrete :
  discrete_gradient m' (rank_descent m) (rank_ascent m').
Proof using H2X H2Y Hdist Hf Hsd.
  assert (HX : 0 < sizeX g) by lia. assert (HY : 0 < sizeY g) by lia.
  pose proof Hf as (Eg & _).
  split; rewrite ?Eg.
  - exact (sd_involution _ _ _ _ Hsd).
  - intros c Hc. split; [apply (sd_exclusive _ _ _ _ Hsd)|].
    intros HV. pose proof (built_complete c Hc) as Hu.
    apply is_unpaired_false in Hu as [Hn|Hin]; [contradiction|exact Hin].
  - exact built_range.
  - exact (sd_cells _ _ _ _ Hsd).
  - intros c d Hc Hlt. exact (proj1 (sd_local _ _ _ _ Hsd c d Hc Hlt)).
  - intros v e u Hv EV Hu Hne.
    destruct (sd_involution _ _ _ _ Hsd v e EV) as [_ Hdim].
    rewrite Eg in Hdim. rewrite (dim_vertex g v) in Hdim by lia.
    assert (He : N <= e < 3 * N).
    { destruct (dim_cases g HX HY e) as [[D ?]|[[D ?]|[D ?]]]; lia. }
    destruct (sd_local _ _ _ _ Hsd v e EV ltac:(lia))
      as (_ & i & Hi & Hci & Hei).
    destruct Hci as [<-|Hci].
    2:{ pose proof (lower_star_range m HX HY i Hi v Hci). lia. }
    destruct (lower_star_owns m HX HY v Hv e Hei) as [_ Hlow].
    destruct (Hlow u Hu) as [->|Hlt]; [contradiction|].
    apply rank_descent_lt; [|exact Hv|exact Hlt].
    apply (verts_range g HX HY e u); [lia|exact Hu].
  - intros v. destruct (Z.lt_ge_cases v 0) as [Hneg|Hpos];
      [|destruct (Z.lt_ge_cases v N) as [Hlt|Hge]].
    + unfold rank_descent. destruct (Z.leb_spec 0 v); [lia|]. simpl.
      pose proof (size_pos g HX HY). lia.
    + apply rank_descent_bound. lia.
    + unfold rank_descent. destruct (Z.ltb_spec v N); [lia|].
      rewrite andb_false_r. pose proof (size_pos g HX HY). lia.
  - intros f e c1 c2 f' H3 EV Hco Hf' Hne.
    exact (gradient_ascends m m' H2X H2Y Hdist Hf Hsd f e c1 c2 f' H3 EV Hco
             Hf' Hne).
Qed.

End Built.

(** ** The Morse-Smale graph of a field *)

(** X19: on a grid with at least two rows and two columns and pairwise
    distinct values, [cmp_msgraph] returns on the gradient built by
    [cmp_discrete_gradient], and in the graph it leaves every saddle has
    exactly two neighbours that are minima and two that are maxima, parallel
    edges counted: [get_min_neib_msgraph] and [get_max_neib_msgraph] return
    two cells each and never raise [ValueError]. *)
Theorem saddles_two_and_two (fuel fuel' : nat) (m : TorusMesh)
    (threads_num : Z) :
  2 <= sizeX (grid m) -> 2 <= sizeY (grid m) -> distinct_values m ->
  0 < threads_num -> (100 <= fuel)%nat ->
  (2 * Z.to_nat (size (grid m)) < fuel')%nat ->
  exists m1 m2,
    cmp_discrete_gradient fuel m threads_num = Ok m1 /\
    cmp_msgraph fuel' m1 = Ok m2 /\
    forall s, s ∈ cp m2 1 ->
      (exists a b, get_min_neib_msgraph m2 s = Ok [a; b]) /\
      (exists c d, get_max_neib_msgraph m2 s = Ok [c; d]).
Proof.
  intros H2X H2Y Hd Ht Hfuel Hfuel'.
  destruct (gradient_built fuel m threads_num ltac:(lia) ltac:(lia) Ht Hfuel)
    as (m1 & E & Hf & Hsd).
  pose proof (gradient_is_discrete m m1 H2X H2Y Hd Hf Hsd) as Hdg.
  pose proof Hf as (Eg & _).
  destruct (msgraph_saddles m1 _ _ ltac:(rewrite Eg; exact H2X)
              ltac:(rewrite Eg; exact H2Y) Hdg fuel'
              ltac:(rewrite Eg; exact Hfuel'))
    as (m2 & E2 & Hs).
  exists m1, m2. auto.
Qed.

Lemma saddles_two_and_two_witness :
  exists m1 m2,
    cmp_discrete_gradient 100 (new_mesh 3 4 test_field) 8 = Ok m1 /\
    cmp_msgraph 25 m1 = Ok m2 /\
    forall s, s ∈ cp m2 1 ->
      (exists a b, get_min_neib_msgraph m2 s = Ok [a; b]) /\
      (exists c d, get_max_neib_msgraph m2 s = Ok [c; d]).
Proof.
  apply (saddles_two_and_two 100 25 (new_mesh 3 4 test_field) 8);
    [simpl; lia | simpl; lia | apply test_field_distinct | lia | lia
    | vm_compute; lia].
Defined.

(** ** Arcs without a repeated cell *)

Section Trail.

Variable m : TorusMesh.
Variable rank : Z -> nat.
Variable node : Z -> bool.

Lemma trail_nil (v : Z) : trail m rank node v [].
Proof. split; constructor. Qed.

Lemma trail_step (v e u : Z) (rest : list Z) :
  node v = true -> node u = true -> node e = false ->
  V m !! e = Some v -> (rank u < rank v)%nat ->
  trail m rank node u rest -> trail m rank node v (e :: u :: rest).
Proof.
  intros Hv Hu He EV Hlt [Hnd Hall]. rewrite Forall_forall in Hall.
  split.
  - apply NoDup_cons. split.
    + intros Hin. apply elem_of_cons in Hin as [->|Hin]; [congruence|].
      specialize (Hall e Hin). rewrite He in Hall.
      destruct Hall as (w & Hw & _ & Hle). rewrite EV in Hw.
      injection Hw as <-. lia.
    + apply NoDup_cons. split; [|exact Hnd].
      intros Hin. specialize (Hall u Hin). rewrite Hu in Hall. lia.
  - apply Forall_cons. split.
    + rewrite He. exists v. auto.
    + apply Forall_cons. split; [rewrite Hu; exact Hlt|].
      apply Forall_forall. intros c Hc. specialize (Hall c Hc).
      destruct (node c).
      * lia.
      * destruct Hall as (w & Hw & Hn & Hle). exists w.
        split; [exact Hw|]. split; [exact Hn|lia].
Qed.

Lemma trail_head (v : Z) (rest : list Z) :
  node v = true -> trail m rank node v rest -> NoDup (v :: rest).
Proof.
  intros Hv [Hnd Hall]. rewrite Forall_forall in Hall.
  apply NoDup_cons. split; [|exact Hnd].
  intros Hin. specialize (Hall v Hin). rewrite Hv in Hall. lia.
Qed.

Lemma trail_arc (s v : Z) (rest : list Z) :
  node v = true -> node s = false -> V m !! s = None ->
  trail m rank node v rest -> NoDup (s :: v :: rest).
Proof.
  intros Hv Hs EV [Hnd Hall]. rewrite Forall_forall in Hall.
  apply NoDup_cons. split.
  - intros Hin. apply elem_of_cons in Hin as [->|Hin]; [congruence|].
    specialize (Hall s Hin). rewrite Hs in Hall.
    destruct Hall as (w & Hw & _). congruence.
  - apply NoDup_cons. split; [|exact Hnd].
    intros Hin. specialize (Hall v Hin). rewrite Hv in Hall. lia.
Qed.

End Trail.

Section Arcs.

Variables m m' : TorusMesh.
Hypothesis H2X : 2 <= sizeX (grid m).
Hypothesis H2Y : 2 <= sizeY (grid m).
Hypothesis Hdist : distinct_values m.
Hypothesis Hf : frame m m'.
Hypothesis Hsd : stars_done m m' (reverse (range 0 (size (grid m)))) [].

Local Abbreviation g := (grid m).
Local Abbreviation N := (size (grid m)).

Lemma arcs_sides : 0 < sizeX g /\ 0 < sizeY g /\ grid m' = g.
Proof using H2X H2Y Hf. destruct Hf as (Eg & _). repeat split; [lia..|auto]. Qed.

(** The walk down from a vertex: the arc it leaves. *)
Lemma descend_arc (fuel : nat) :
  forall v pre,
    0 <= v < N -> (rank_descent m v < fuel)%nat ->
    exists rest pre' x,
      descend fuel m' v (pre ++ [v]) = Ok (pre ++ [v] ++ rest) /\
      pre ++ [v] ++ rest = pre' ++ [x] /\
      x ∈ cr_id m' /\ 0 <= x < N /\
      follows_gradient m' v rest = true /\
      trail m' (rank_descent m) (fun c => c <? N) v rest.
Proof using H2X H2Y Hf Hsd.
  destruct arcs_sides as (HX & HY & Eg).
  induction fuel as [|fuel IH]; intros v pre Hv Hfuel; [lia|].
  cbn [descend]. destruct (is_critical m' v) eqn:Ec.
  - exists [], pre, v. rewrite app_nil_r.
    split; [reflexivity|]. split; [reflexivity|].
    pose proof Ec as Ec'. unfold is_critical in Ec'.
    apply bool_decide_eq_true in Ec'.
    split; [exact Ec'|]. split; [exact Hv|].
    split; [exact Ec|apply trail_nil].
  - pose proof Ec as Ec'. unfold is_critical in Ec'.
    apply bool_decide_eq_false in Ec'.
    destruct (descent_step m m' HX HY Hf Hsd v Hv Ec')
      as (e & u & EV & He & _ & Es & Hu & Hlt).
    rewrite EV, Eg, Es. cbn [mbind result_bind].
    pose proof (rank_descent_lt m u v Hu Hv Hlt) as Hr.
    destruct (IH u (pre ++ [v; e]) Hu ltac:(lia))
      as (rest & pre' & x & E & Epre & Hx & Hxr & Hfg & Htr).
    exists (e :: u :: rest), pre', x.
    replace ((pre ++ [v]) ++ [e; u]) with ((pre ++ [v; e]) ++ [u])
      by (rewrite <- !app_assoc; reflexivity).
    replace (pre ++ [v] ++ e :: u :: rest)
      with ((pre ++ [v; e]) ++ [u] ++ rest)
      by (rewrite <- !app_assoc; reflexivity).
    split; [exact E|]. split; [exact Epre|].
    split; [exact Hx|]. split; [exact Hxr|].
    destruct (sd_involution _ _ _ _ Hsd v e EV) as [Hback _].
    split.
    + cbn [follows_gradient]. rewrite Hfg, Eg.
      rewrite (bool_decide_eq_true_2 _ EV).
      rewrite (dim_edge g e He), (dim_vertex g u) by lia. reflexivity.
    + apply trail_step; try assumption.
      * apply Z.ltb_lt. lia.
      * apply Z.ltb_lt. lia.
      * apply Z.ltb_ge. lia.
Qed.

(** A face that is not critical has an arrow to one of its edges, and the
    walk back crosses this edge to a face that stands lower. *)
Lemma ascent_step (f : Z) :
  3 * N <= f < 4 * N -> ~ f ∈ cr_id m' ->
  exists e c1 c2 f',
    V m' !! f = Some e /\ N <= e < 3 * N /\ V m' !! e = Some f /\
    _cofacets g e = Ok (c1, c2) /\ step_forward [c1; c2] f = Ok f' /\
    3 * N <= f' < 4 * N /\
    (rank_ascent m' f' < rank_ascent m' f)%nat.
Proof using H2X H2Y Hdist Hf Hsd.
  destruct arcs_sides as (HX & HY & Eg). intros Hr Hc.
  pose proof (built_complete m m' H2X H2Y Hdist Hsd f ltac:(lia)) as Hu.
  apply is_unpaired_false in Hu as [Hp|Hc']; [|contradiction].
  destruct (V m' !! f) as [e|] eqn:EV; [|contradiction].
  destruct (face_in_ring m m' H2X H2Y Hf Hsd f e ltac:(lia) EV)
    as (i & delta & Hi & Hfi & Hei & He & Hback & EVi & Hrd & Hre & Hrf &
        Hde & Hfacet).
  replace f with (N * 3 + (f - 3 * N)) in Hfacet by lia.
  destruct (cofacets_of_facet g HX HY (f - 3 * N) e ltac:(lia) Hfacet)
    as (c1 & c2 & Hco & Hfc).
  replace (N * 3 + (f - 3 * N)) with f in Hfc by lia.
  destruct (cofacets_edge g HX HY e He) as (d1 & d2 & Hco' & Hd1 & Hd2 & Hd).
  rewrite Hco in Hco'. injection Hco' as <- <-.
  specialize (Hd H2X H2Y).
  assert (Hstep : exists f', step_forward [c1; c2] f = Ok f' /\
                    (f' = c1 \/ f' = c2) /\ f' <> f).
  { simpl. destruct (Z.eqb_spec c1 f) as [E|E].
    - exists c2. split; [reflexivity|]. split; [auto|]. congruence.
    - exists c1. split; [reflexivity|]. split; [auto|]. exact E. }
  destruct Hstep as (f' & Hs & Hf' & Hne).
  exists e, c1, c2, f'.
  split; [reflexivity|]. split; [exact He|]. split; [exact Hback|].
  split; [exact Hco|]. split; [exact Hs|].
  split; [destruct Hf' as [->| ->]; assumption|].
  exact (gradient_ascends m m' H2X H2Y Hdist Hf Hsd f e c1 c2 f'
           ltac:(lia) EV Hco Hf' Hne).
Qed.

(** The walk back from a face: the arc it leaves. *)
Lemma ascend_arc (fuel : nat) :
  forall f pre,
    3 * N <= f < 4 * N -> (rank_ascent m' f < fuel)%nat ->
    exists rest pre' x,
      ascend fuel m' f (pre ++ [f]) = Ok (pre ++ [f] ++ rest) /\
      pre ++ [f] ++ rest = pre' ++ [x] /\
      x ∈ cr_id m' /\ 3 * N <= x < 4 * N /\
      follows_gradient m' f rest = true /\
      trail m' (rank_ascent m') (fun c => 3 * N <=? c) f rest.
Proof using H2X H2Y Hdist Hf Hsd.
  destruct arcs_sides as (HX & HY & Eg).
  induction fuel as [|fuel IH]; intros f pre Hr Hfuel; [lia|].
  cbn [ascend]. destruct (is_critical m' f) eqn:Ec.
  - exists [], pre, f. rewrite app_nil_r.
    split; [reflexivity|]. split; [reflexivity|].
    pose proof Ec as Ec'. unfold is_critical in Ec'.
    apply bool_decide_eq_true in Ec'.
    split; [exact Ec'|]. split; [exact Hr|].
    split; [exact Ec|apply trail_nil].
  - pose proof Ec as Ec'. unfold is_critical in Ec'.
    apply bool_decide_eq_false in Ec'.
    destruct (ascent_step f Hr Ec')
      as (e & c1 & c2 & f' & EV & He & Hback & Hco & Hs & Hr' & Hlt).
    rewrite EV, Eg, Hco. cbn [mbind result_bind fst snd].
    rewrite Hs. cbn [mbind result_bind].
    destruct (IH f' (pre ++ [f; e]) Hr' ltac:(lia))
      as (rest & pre' & x & E & Epre & Hx & Hxr & Hfg & Htr).
    exists (e :: f' :: rest), pre', x.
    replace ((pre ++ [f]) ++ [e; f']) with ((pre ++ [f; e]) ++ [f'])
      by (rewrite <- !app_assoc; reflexivity).
    replace (pre ++ [f] ++ e :: f' :: rest)
      with ((pre ++ [f; e]) ++ [f'] ++ rest)
      by (rewrite <- !app_assoc; reflexivity).
    split; [exact E|]. split; [exact Epre|].
    split; [exact Hx|]. split; [exact Hxr|].
    split.
    + cbn [follows_gradient]. rewrite Hfg, Eg.
      rewrite (bool_decide_eq_true_2 _ EV).
      rewrite (dim_edge g e He), (dim_face g HX HY f') by lia. reflexivity.
    + apply trail_step; try assumption.
      * apply Z.leb_le. lia.
      * apply Z.leb_le. lia.
      * apply Z.leb_gt. lia.
Qed.

End Arcs.

(** ** The arcs of a field *)

Lemma descend_ext (m1 m2 : TorusMesh) :
  grid m1 = grid m2 -> V m1 = V m2 -> cr_id m1 = cr_id m2 ->
  forall fuel v sep, descend fuel m1 v sep = descend fuel m2 v sep.
Proof.
  intros Eg EV Ec fuel. induction fuel as [|fuel IH]; intros v sep;
    [reflexivity|].
  cbn [descend]. unfold is_critical. rewrite Ec, EV, Eg.
  destruct (bool_decide (v ∈ cr_id m2)); [reflexivity|].
  destruct (V m2 !! v); [|reflexivity].
  destruct (step_forward _ v); simpl; auto.
Qed.

Lemma ascend_ext (m1 m2 : TorusMesh) :
  grid m1 = grid m2 -> V m1 = V m2 -> cr_id m1 = cr_id m2 ->
  forall fuel f sep, ascend fuel m1 f sep = ascend fuel m2 f sep.
Proof.
  intros Eg EV Ec fuel. induction fuel as [|fuel IH]; intros f sep;
    [reflexivity|].
  cbn [ascend]. unfold is_critical. rewrite Ec, EV, Eg.
  destruct (bool_decide (f ∈ cr_id m2)); [reflexivity|].
  destruct (V m2 !! f) as [e|]; [|reflexivity].
  destruct (_cofacets (grid m2) e) as [[c1 c2]| |]; simpl; auto.
  destruct (if c1 =? f then _ else _); simpl; auto.
Qed.

Lemma follows_gradient_ext (m1 m2 : TorusMesh) :
  grid m1 = grid m2 -> V m1 = V m2 -> cr_id m1 = cr_id m2 ->
  forall rest cur, follows_gradient m1 cur rest = follows_gradient m2 cur rest.
Proof.
  intros Eg EV Ec rest.
  induction rest as [rest IH] using (induction_ltof1 _ (@length Z)).
  unfold ltof in IH. intros cur.
  destruct rest as [|e [|c rest]]; cbn [follows_gradient].
  - unfold is_critical. rewrite Ec. reflexivity.
  - reflexivity.
  - rewrite EV, Eg, (IH rest) by (simpl; lia). reflexivity.
Qed.

Lemma is_separatrix_ext (m1 m2 : TorusMesh) (arc : list Z) :
  grid m1 = grid m2 -> V m1 = V m2 -> cr_id m1 = cr_id m2 ->
  is_separatrix m1 arc = is_separatrix m2 arc.
Proof.
  intros Eg EV Ec. unfold is_separatrix.
  destruct arc as [|s [|c rest]]; try reflexivity.
  rewrite (follows_gradient_ext m1 m2 Eg EV Ec). unfold is_critical.
  rewrite Ec, Eg. reflexivity.
Qed.

Lemma saddle_arcs_ext (m1 m2 : TorusMesh) (s : Z) (l : list (list Z)) :
  grid m1 = grid m2 -> V m1 = V m2 -> cr_id m1 = cr_id m2 ->
  saddle_arcs m1 s l -> saddle_arcs m2 s l.
Proof.
  intros Eg EV Ec (a1 & a2 & a3 & a4 & x1 & x2 & x3 & x4 & El & Hall & Hx).
  exists a1, a2, a3, a4, x1, x2, x3, x4. split; [exact El|].
  split.
  - eapply Forall_impl; [exact Hall|]. intros a [Ha Hs].
    rewrite <- (is_separatrix_ext m1 m2 a Eg EV Ec). auto.
  - rewrite <- Ec, <- Eg. exact Hx.
Qed.

Lemma index_head {A : Type} (x : A) (l : list A) : index (x :: l) 0 = Ok x.
Proof.
  unfold index. change (0 <? 0) with false. cbv iota.
  destruct (Z.ltb_spec 0 0); [lia|].
  destruct (Z.leb_spec (Z.of_nat (length (x :: l))) 0);
    [simpl in *; lia|reflexivity].
Qed.

Lemma dict_set_elem {A : Type} (d : dict A) (k : Z) (a : A) (x : Z * A) :
  x ∈ dict_set d k a -> x = (k, a) \/ x ∈ d.
Proof.
  induction d as [|[k0 a0] d IH]; simpl.
  - intros Hx. apply list_elem_of_singleton in Hx. auto.
  - destruct (k =? k0).
    + intros Hx. apply elem_of_cons in Hx as [->|Hx]; [auto|].
      right. apply elem_of_cons. auto.
    + intros Hx. apply elem_of_cons in Hx as [->|Hx].
      * right. apply elem_of_cons. auto.
      * destruct (IH Hx) as [->|Hd]; [auto|].
        right. apply elem_of_cons. auto.
Qed.

(** The dictionary that [cmp_arcs] starts from. *)
Lemma arcs_init (keys : list Z) :
  forall d0 : dict (list (list Z)),
    let d := foldl (fun d saddle => dict_set d saddle []) d0 keys in
    (forall x, x ∈ d -> x ∈ d0 \/ (x.1 ∈ keys /\ x.2 = [])) /\
    (forall s, s ∈ keys -> dict_get d s = Some []) /\
    (forall s, ~ s ∈ keys -> dict_get d s = dict_get d0 s).
Proof.
  induction keys as [|k keys IH]; intros d0; simpl.
  - split; [auto|]. split; [|auto].
    intros s Hs. apply elem_of_nil in Hs. contradiction.
  - destruct (IH (dict_set d0 k [])) as (H1 & H2 & H3).
    split; [|split].
    + intros x Hx. destruct (H1 x Hx) as [Hd|[Hk Hl]].
      * apply dict_set_elem in Hd as [->|Hd]; [|auto].
        right. simpl. split; [apply elem_of_cons; auto|reflexivity].
      * right. split; [apply elem_of_cons; auto|exact Hl].
    + intros s Hs. destruct (decide (s ∈ keys)) as [Hin|Hout]; [auto|].
      rewrite (H3 s Hout), dict_get_set.
      apply elem_of_cons in Hs as [->|Hs]; [|contradiction].
      rewrite Z.eqb_refl. reflexivity.
    + intros s Hs. apply not_elem_of_cons in Hs as [Hne Hs].
      rewrite (H3 s Hs), dict_get_set.
      destruct (Z.eqb_spec s k); [contradiction|reflexivity].
Qed.

Lemma dict_get_key {A : Type} (d : dict A) (k : Z) (a : A) :
  dict_get d k = Some a -> k ∈ d.*1.
Proof.
  induction d as [|[k0 a0] d IH]; simpl; [discriminate|].
  destruct (Z.eqb_spec k k0) as [->|Hne].
  - intros _. apply elem_of_cons. auto.
  - intros H. apply elem_of_cons. auto.
Qed.

Lemma dict_key_get {A : Type} (d : dict A) (k : Z) :
  k ∈ d.*1 -> exists a, dict_get d k = Some a.
Proof.
  induction d as [|[k0 a0] d IH]; simpl.
  - intros H. apply elem_of_nil in H. contradiction.
  - intros H. destruct (Z.eqb_spec k k0) as [->|Hne]; [eauto|].
    apply elem_of_cons in H as [?|H]; [contradiction|auto].
Qed.

Lemma cmp_msgraph_keeps (fuel : nat) (m m' : TorusMesh) :
  cmp_msgraph fuel m = Ok m' ->
  grid m' = grid m /\ cr_cells m' = cr_cells m /\ V m' = V m /\
  cr_id m' = cr_id m /\ ppairs m' = ppairs m /\ arcs m' = arcs m /\
  values m' = values m.
Proof.
  unfold cmp_msgraph. intros H. inv_bind H. injection H as <-.
  repeat split; reflexivity.
Qed.

Lemma above_bound (m : TorusMesh) (c : Z) :
  0 <= size (grid m) -> (above m c <= Z.to_nat (size (grid m)))%nat.
Proof.
  intros Hn. unfold above.
  etransitivity; [apply List.filter_length_le|].
  unfold range. rewrite length_seqZ. lia.
Qed.

Lemma rank_ascent_bound (m : TorusMesh) (f : Z) :
  0 <= size (grid m) ->
  (rank_ascent m f < 4 * Z.to_nat (size (grid m)) + 4)%nat.
Proof.
  intros Hn. unfold rank_ascent. pose proof (above_bound m f Hn).
  destruct (V m !! f); [|lia]. destruct (V m !! owner m f); [|lia].
  match goal with
  | |- context [ring_steps ?x ?y ?z] => pose proof (ring_steps_bound x y z)
  end.
  lia.
Qed.

Section SaddleArcs.

Variables m m' : TorusMesh.
Hypothesis H2X : 2 <= sizeX (grid m).
Hypothesis H2Y : 2 <= sizeY (grid m).
Hypothesis Hdist : distinct_values m.
Hypothesis Hf : frame m m'.
Hypothesis Hsd : stars_done m m' (reverse (range 0 (size (grid m)))) [].
Variable fuel : nat.
Hypothesis Hfuel : (4 * Z.to_nat (size (grid m)) + 4 <= fuel)%nat.

Local Abbreviation g := (grid m).
Local Abbreviation N := (size (grid m)).

(** An arc down from the saddle [s] through its vertex [v]. *)
Lemma arc_down (s v : Z) :
  N <= s < 3 * N -> s ∈ cr_id m' -> 0 <= v < N ->
  exists arc x,
    descend fuel m' v [s; v] = Ok arc /\
    is_separatrix m' arc = true /\ index arc 0 = Ok s /\
    index arc (-1) = Ok x /\ x ∈ cr_id m' /\ dim (grid m') x = 0.
Proof using H2X H2Y Hf Hsd Hfuel.
  destruct (arcs_sides m m' H2X H2Y Hf) as (HX & HY & Eg).
  intros Hs Hc Hv.
  pose proof (rank_descent_bound m v Hv) as Hr.
  destruct (descend_arc m m' H2X H2Y Hf Hsd fuel v [s] Hv ltac:(lia))
    as (rest & pre' & x & E & Epre & Hx & Hxr & Hfg & Htr).
  exists ([s] ++ [v] ++ rest), x.
  split; [exact E|]. split; [|split; [apply index_head|]].
  - cbn [app is_separatrix]. unfold is_critical.
    rewrite (bool_decide_eq_true_2 _ Hc), Hfg, Eg.
    rewrite (dim_edge g s Hs), (dim_vertex g v) by lia.
    rewrite bool_decide_eq_true_2; [reflexivity|].
    apply (trail_arc m' (rank_descent m) (fun c => c <? N)); auto.
    + apply Z.ltb_lt. lia.
    + apply Z.ltb_ge. lia.
    + exact (sd_exclusive _ _ _ _ Hsd s Hc).
  - rewrite Epre, index_last. split; [reflexivity|].
    split; [exact Hx|]. rewrite Eg. apply (dim_vertex g). lia.
Qed.

(** An arc up from the saddle [s] through its face [f]. *)
Lemma arc_up (s f : Z) :
  N <= s < 3 * N -> s ∈ cr_id m' -> 3 * N <= f < 4 * N ->
  exists arc x,
    ascend fuel m' f [s; f] = Ok arc /\
    is_separatrix m' arc = true /\ index arc 0 = Ok s /\
    index arc (-1) = Ok x /\ x ∈ cr_id m' /\ dim (grid m') x = 2.
Proof using H2X H2Y Hdist Hf Hsd Hfuel.
  destruct (arcs_sides m m' H2X H2Y Hf) as (HX & HY & Eg).
  intros Hs Hc Hr.
  pose proof (rank_ascent_bound m' f) as Hb. rewrite Eg in Hb.
  pose proof (size_pos g HX HY) as Hn.
  destruct (ascend_arc m m' H2X H2Y Hdist Hf Hsd fuel f [s] Hr ltac:(lia))
    as (rest & pre' & x & E & Epre & Hx & Hxr & Hfg & Htr).
  exists ([s] ++ [f] ++ rest), x.
  split; [exact E|]. split; [|split; [apply index_head|]].
  - cbn [app is_separatrix]. unfold is_critical.
    rewrite (bool_decide_eq_true_2 _ Hc), Hfg, Eg.
    rewrite (dim_edge g s Hs), (dim_face g HX HY f) by lia.
    rewrite bool_decide_eq_true_2; [reflexivity|].
    apply (trail_arc m' (rank_ascent m') (fun c => 3 * N <=? c)); auto.
    + apply Z.leb_le. lia.
    + apply Z.leb_gt. lia.
    + exact (sd_exclusive _ _ _ _ Hsd s Hc).
  - rewrite Epre, index_last. split; [reflexivity|].
    split; [exact Hx|]. rewrite Eg. apply (dim_face g HX HY). lia.
Qed.

(** [_cmp_arcs] at a saddle, on a mesh that carries the gradient. *)
Lemma saddle_arcs_built (mi : TorusMesh) (s : Z) :
  grid mi = grid m' -> V mi = V m' -> cr_id mi = cr_id m' ->
  N <= s < 3 * N -> s ∈ cr_id m' -> dict_get (arcs mi) s <> None ->
  exists l,
    _cmp_arcs fuel mi s = Ok (with_arcs mi (dict_set (arcs mi) s l)) /\
    saddle_arcs m' s l.
Proof using H2X H2Y Hdist Hf Hsd Hfuel.
  destruct (arcs_sides m m' H2X H2Y Hf) as (HX & HY & Eg).
  intros Egi EVi Eci Hs Hc Hget.
  unfold _cmp_arcs.
  destruct (dict_get (arcs mi) s) as [l0|]; [|contradiction].
  assert (Hv : exists t u, _verts g s = [t; u] /\ 0 <= t < N /\ 0 <= u < N).
  { destruct (Z.lt_ge_cases s (2 * N)) as [Hlt|Hge].
    - replace s with (N + (s - N)) by lia.
      rewrite (verts_hedge g) by lia.
      destruct (neighbour_range g HX HY (s - N) ltac:(lia))
        as (_ & Hr & _ & _).
      eexists _, _. split; [reflexivity|]. split; [lia|exact Hr].
    - replace s with (N * 2 + (s - 2 * N)) by lia.
      rewrite (verts_vedge g) by lia.
      destruct (neighbour_range g HX HY (s - 2 * N) ltac:(lia))
        as (_ & _ & _ & Hb).
      eexists _, _. split; [reflexivity|]. split; [lia|exact Hb]. }
  destruct Hv as (t & u & Ev & Ht & Hu).
  destruct (cofacets_edge g HX HY s Hs) as (c1 & c2 & Eco & Hc1 & Hc2 & _).
  destruct (arc_down s t Hs Hc Ht) as (a1 & x1 & E1 & S1 & I1 & L1 & X1 & D1).
  destruct (arc_down s u Hs Hc Hu) as (a2 & x2 & E2 & S2 & I2 & L2 & X2 & D2).
  destruct (arc_up s c1 Hs Hc Hc1) as (a3 & x3 & E3 & S3 & I3 & L3 & X3 & D3).
  destruct (arc_up s c2 Hs Hc Hc2) as (a4 & x4 & E4 & S4 & I4 & L4 & X4 & D4).
  exists [a1; a2; a3; a4].
  rewrite Egi, Eg, Ev. cbn [foldl].
  rewrite !(descend_ext mi m' Egi EVi Eci).
  cbn [mbind result_bind]. rewrite E1. cbn [mbind result_bind app].
  rewrite E2. cbn [mbind result_bind app].
  rewrite Eco. cbn [mbind result_bind foldl fst snd].
  rewrite !(ascend_ext mi m' Egi EVi Eci).
  rewrite E3. cbn [mbind result_bind app].
  rewrite E4. cbn [mbind result_bind app].
  split; [reflexivity|].
  exists a1, a2, a3, a4, x1, x2, x3, x4.
  split; [reflexivity|]. split; [repeat constructor; assumption|].
  auto 12.
Qed.

(** The loop of [cmp_arcs] over the saddles [keys]. *)
Lemma cmp_arcs_fold (keys : list Z) :
  forall mi,
    grid mi = grid m' -> V mi = V m' -> cr_id mi = cr_id m' ->
    (forall s, s ∈ keys ->
       N <= s < 3 * N /\ s ∈ cr_id m' /\ dict_get (arcs mi) s <> None) ->
    exists mf,
      foldl (fun (r : result TorusMesh) s => m1 ← r; _cmp_arcs fuel m1 s)
        (Ok mi) keys = Ok mf /\
      (grid mf = grid mi /\ cr_cells mf = cr_cells mi /\ V mf = V mi /\
       cr_id mf = cr_id mi /\ ppairs mf = ppairs mi /\
       msgraph mf = msgraph mi) /\
      (forall s, s ∈ keys ->
         exists l, dict_get (arcs mf) s = Some l /\ saddle_arcs m' s l) /\
      (forall s, ~ s ∈ keys -> dict_get (arcs mf) s = dict_get (arcs mi) s) /\
      (forall x, x ∈ arcs mf -> x ∈ arcs mi \/ saddle_arcs m' x.1 x.2).
Proof using H2X H2Y Hdist Hf Hsd Hfuel.
  induction keys as [|s keys IH]; intros mi Eg EV Ec Hkeys.
  - exists mi. split; [reflexivity|]. split; [auto 10|].
    split; [|auto].
    intros s Hs. apply elem_of_nil in Hs. contradiction.
  - destruct (Hkeys s ltac:(apply elem_of_cons; auto)) as (Hs & Hc & Hget).
    destruct (saddle_arcs_built mi s Eg EV Ec Hs Hc Hget) as (l & E & Hl).
    cbn [foldl mbind result_bind]. rewrite E.
    set (mi' := with_arcs mi (dict_set (arcs mi) s l)) in *.
    destruct (IH mi' Eg EV Ec) as (mf & Ef & Hk & Hin & Hout & Hall).
    { intros s' Hs'.
      destruct (Hkeys s' ltac:(apply elem_of_cons; auto)) as (H1 & H2 & H3).
      split; [exact H1|]. split; [exact H2|].
      unfold mi'. cbn [arcs with_arcs]. rewrite dict_get_set.
      destruct (s' =? s); [discriminate|exact H3]. }
    exists mf. split; [exact Ef|]. split; [exact Hk|].
    split; [|split].
    + intros s' Hs'. destruct (decide (s' ∈ keys)) as [Hi|Ho]; [auto|].
      apply elem_of_cons in Hs' as [->|Hs']; [|contradiction].
      exists l. split; [|exact Hl].
      rewrite (Hout s Ho). unfold mi'. cbn [arcs with_arcs].
      rewrite dict_get_set, Z.eqb_refl. reflexivity.
    + intros s' Hs'. apply not_elem_of_cons in Hs' as [Hne Hs'].
      rewrite (Hout s' Hs'). unfold mi'. cbn [arcs with_arcs].
      rewrite dict_get_set.
      destruct (Z.eqb_spec s' s); [contradiction|reflexivity].
    + intros x Hx. destruct (Hall x Hx) as [Hd|Hg]; [|auto].
      unfold mi' in Hd. cbn [arcs with_arcs] in Hd.
      apply dict_set_elem in Hd as [->|Hd]; auto.
Qed.

(** [cmp_arcs] on a mesh that carries the gradient. *)
Lemma cmp_arcs_built (mm : TorusMesh) :
  grid mm = grid m' -> V mm = V m' -> cr_id mm = cr_id m' ->
  cr_cells mm = cr_cells m' ->
  exists mf,
    cmp_arcs fuel mm = Ok mf /\
    (grid mf = grid mm /\ cr_cells mf = cr_cells mm /\ V mf = V mm /\
     cr_id mf = cr_id mm /\ ppairs mf = ppairs mm /\
     msgraph mf = msgraph mm) /\
    (forall s, s ∈ cp mf 1 ->
       exists l, dict_get (arcs mf) s = Some l /\ saddle_arcs mf s l) /\
    Forall (fun arc => is_separatrix mf arc = true) (list_arcs mf).
Proof using H2X H2Y Hdist Hf Hsd Hfuel.
  destruct (arcs_sides m m' H2X H2Y Hf) as (HX & HY & Eg).
  intros Egm EVm Ecm Elm. unfold cmp_arcs.
  set (d := foldl (fun d saddle => dict_set d saddle []) [] (cp mm 1)).
  destruct (arcs_init (cp mm 1) []) as (D1 & D2 & D3). fold d in D1, D2, D3.
  assert (Hcp : forall s, s ∈ cp mm 1 <-> s ∈ cr_id m' /\ N <= s < 3 * N).
  { intros s. unfold cp. rewrite list_elem_of_In, filter_In.
    rewrite <- list_elem_of_In, Elm, Egm, Eg.
    rewrite (proj2 (sd_cells _ _ _ _ Hsd) s), Z.eqb_eq.
    split; intros [Hc Hd]; (split; [exact Hc|]).
    - destruct (dim_cases g HX HY s) as [[D ?]|[[D ?]|[D ?]]]; lia.
    - apply (dim_edge g). exact Hd. }
  assert (Hkeys : forall s, s ∈ d.*1 -> s ∈ cp mm 1).
  { intros s Hs. apply dict_key_get in Hs as [a Ha].
    destruct (decide (s ∈ cp mm 1)) as [Hi|Ho]; [exact Hi|].
    rewrite (D3 s Ho) in Ha. discriminate. }
  destruct (cmp_arcs_fold d.*1 (with_arcs mm d) Egm EVm Ecm)
    as (mf & Ef & Hk & Hin & Hout & Hall).
  { intros s Hs. pose proof (Hkeys s Hs) as Hs'.
    apply Hcp in Hs' as [Hc Hr]. split; [exact Hr|]. split; [exact Hc|].
    cbn [arcs with_arcs]. rewrite (D2 s (Hkeys s Hs)). discriminate. }
  exists mf. split; [exact Ef|]. split; [exact Hk|].
  destruct Hk as (Egf & Elf & EVf & Ecf & _).
  cbn [grid cr_cells V cr_id with_arcs] in Egf, Elf, EVf, Ecf.
  assert (Egf' : grid m' = grid mf) by congruence.
  assert (EVf' : V m' = V mf) by congruence.
  assert (Ecf' : cr_id m' = cr_id mf) by congruence.
  split.
  - intros s Hs.
    assert (Hs' : s ∈ cp mm 1).
    { unfold cp in *. rewrite Elf, Egf in Hs. exact Hs. }
    destruct (Hin s) as (l & El & Hl).
    { eapply dict_get_key. exact (D2 s Hs'). }
    exists l. split; [exact El|].
    exact (saddle_arcs_ext m' mf s l Egf' EVf' Ecf' Hl).
  - apply Forall_forall. intros arc Harc. unfold list_arcs in Harc.
    apply list_elem_of_In, in_concat in Harc as (l & Hl & Ha).
    unfold dict_values in Hl. apply list_elem_of_In in Hl.
    apply list_elem_of_fmap in Hl as ([k l'] & -> & Hkl).
    apply list_elem_of_In in Ha. cbn [snd] in Ha.
    destruct (Hall _ Hkl) as [Hd|Hg].
    + cbn [arcs with_arcs] in Hd. destruct (D1 _ Hd) as [Hn|[_ Hn]].
      * apply elem_of_nil in Hn. contradiction.
      * cbn [snd] in Hn. subst l'. apply elem_of_nil in Ha. contradiction.
    + cbn [fst snd] in Hg.
      destruct Hg as (a1 & a2 & a3 & a4 & _ & _ & _ & _ & -> & Hsep & _).
      rewrite Forall_forall in Hsep. destruct (Hsep arc Ha) as [Hs _].
      rewrite <- (is_separatrix_ext m' mf arc Egf' EVf' Ecf'). exact Hs.
Qed.

End SaddleArcs.

(** X20: on a grid with at least two rows and two columns and pairwise
    distinct values, the walk of [_cmp_arcs] back from any face of the
    gradient built by [cmp_discrete_gradient] returns: it crosses the edge
    paired with each face it meets, passes no face twice, and stops at a
    critical face. *)
Theorem ascent_reaches_maximum (fuel fuel' : nat) (m : TorusMesh)
    (threads_num f : Z) (pre : list Z) :
  2 <= sizeX (grid m) -> 2 <= sizeY (grid m) -> distinct_values m ->
  0 < threads_num -> (100 <= fuel)%nat ->
  3 * size (grid m) <= f < 4 * size (grid m) ->
  (4 * Z.to_nat (size (grid m)) + 4 <= fuel')%nat ->
  exists m' rest pre' x,
    cmp_discrete_gradient fuel m threads_num = Ok m' /\
    ascend fuel' m' f (pre ++ [f]) = Ok (pre ++ [f] ++ rest) /\
    pre ++ [f] ++ rest = pre' ++ [x] /\
    x ∈ cr_id m' /\ 3 * size (grid m) <= x < 4 * size (grid m) /\
    follows_gradient m' f rest = true /\ NoDup (f :: rest).
Proof.
  intros H2X H2Y Hd Ht Hfuel Hr Hfuel'.
  destruct (gradient_built fuel m threads_num ltac:(lia) ltac:(lia) Ht Hfuel)
    as (m' & E & Hf & Hsd).
  pose proof (rank_ascent_bound m' f) as Hb.
  destruct (arcs_sides m m' H2X H2Y Hf) as (HX & HY & Eg).
  rewrite Eg in Hb. pose proof (size_pos (grid m) HX HY) as Hn.
  destruct (ascend_arc m m' H2X H2Y Hd Hf Hsd fuel' f pre Hr ltac:(lia))
    as (rest & pre' & x & Ea & Epre & Hx & Hxr & Hfg & Htr).
  exists m', rest, pre', x.
  do 6 (split; [assumption|]).
  apply (trail_head m' (rank_ascent m')
           (fun c => 3 * size (grid m) <=? c) f rest); [|exact Htr].
  apply Z.leb_le. lia.
Qed.

Lemma ascent_reaches_maximum_witness :
  exists m' rest pre' x,
    cmp_discrete_gradient 100 (new_mesh 3 4 test_field) 8 = Ok m' /\
    ascend 52 m' 40 ([16] ++ [40]) = Ok ([16] ++ [40] ++ rest) /\
    [16] ++ [40] ++ rest = pre' ++ [x] /\
    x ∈ cr_id m' /\
    3 * size (grid (new_mesh 3 4 test_field)) <= x
    < 4 * size (grid (new_mesh 3 4 test_field)) /\
    follows_gradient m' 40 rest = true /\ NoDup (40 :: rest).
Proof.
  apply (ascent_reaches_maximum 100 52 (new_mesh 3 4 test_field) 8 40 [16]);
    [simpl; lia | simpl; lia | apply test_field_distinct | lia | lia
    | | vm_compute; lia].
  vm_compute. split; [discriminate|reflexivity].
Defined.

Lemma gradient_involution_ext (m1 m2 : TorusMesh) :
  grid m1 = grid m2 -> V m1 = V m2 ->
  gradient_involution m1 -> gradient_involution m2.
Proof. intros Eg EV H c d. rewrite <- EV, <- Eg. apply H. Qed.

(** The three stages before the persistence pairs. *)
Lemma complex_built (fuel fuel' fuel'' : nat) (m : TorusMesh)
    (threads_num : Z) :
  2 <= sizeX (grid m) -> 2 <= sizeY (grid m) -> distinct_values m ->
  0 < threads_num -> (100 <= fuel)%nat ->
  (2 * Z.to_nat (size (grid m)) < fuel')%nat ->
  (4 * Z.to_nat (size (grid m)) + 4 <= fuel'')%nat ->
  exists m1 m2 m3,
    cmp_discrete_gradient fuel m threads_num = Ok m1 /\
    cmp_msgraph fuel' m1 = Ok m2 /\
    cmp_arcs fuel'' m2 = Ok m3 /\
    (grid m3 = grid m /\ V m3 = V m1 /\ cr_id m3 = cr_id m1 /\
     cr_cells m3 = cr_cells m1 /\ msgraph m3 = msgraph m2) /\
    ms_complex m3 /\
    forall s, s ∈ cp m3 1 ->
      (exists l, dict_get (arcs m3) s = Some l /\ saddle_arcs m3 s l) /\
      (exists a b, get_min_neib_msgraph m3 s = Ok [a; b]) /\
      (exists c d, get_max_neib_msgraph m3 s = Ok [c; d]).
Proof.
  intros H2X H2Y Hd Ht Hfuel Hfuel' Hfuel''.
  destruct (gradient_built fuel m threads_num ltac:(lia) ltac:(lia) Ht Hfuel)
    as (m1 & E & Hf & Hsd).
  pose proof (gradient_is_discrete m m1 H2X H2Y Hd Hf Hsd) as Hdg.
  pose proof Hf as (Eg & _).
  destruct (msgraph_saddles m1 _ _ ltac:(rewrite Eg; exact H2X)
              ltac:(rewrite Eg; exact H2Y) Hdg fuel'
              ltac:(rewrite Eg; exact Hfuel'))
    as (m2 & E2 & Hs).
  destruct (cmp_msgraph_keeps _ _ _ E2)
    as (Eg2 & El2 & EV2 & Ec2 & _).
  destruct (cmp_arcs_built m m1 H2X H2Y Hd Hf Hsd fuel'' Hfuel'' m2
              Eg2 EV2 Ec2 El2)
    as (m3 & E3 & (Eg3 & El3 & EV3 & Ec3 & _ & EG3) & Harcs & Hsep).
  exists m1, m2, m3. do 3 (split; [assumption|]).
  split; [repeat split; congruence|].
  split.
  - split.
    + apply (gradient_involution_ext m1 m3); [congruence..|].
      exact (sd_involution _ _ _ _ Hsd).
    + intros c Hc. rewrite EV3, EV2. rewrite Ec3, Ec2 in Hc.
      exact (sd_exclusive _ _ _ _ Hsd c Hc).
    + exact Hsep.
  - intros s Hs3. split; [exact (Harcs s Hs3)|].
    assert (Hs2 : s ∈ cp m2 1).
    { unfold cp in *. rewrite El3, Eg3 in Hs3. exact Hs3. }
    unfold get_min_neib_msgraph, get_max_neib_msgraph, get_neib_msgraph.
    rewrite Eg3, EG3. exact (Hs s Hs2).
Qed.

(** ** The complex of a field *)

(** X21: on a grid with at least two rows and two columns and pairwise
    distinct values, [cmp_discrete_gradient], [cmp_msgraph] and [cmp_arcs]
    return one after the other; [cmp_arcs] leaves the gradient, the critical
    cells and the graph alone and lists four arcs under every saddle: each
    starts at the saddle, follows the gradient without passing a cell twice
    and stops at a critical cell, the first two at minima and the last two
    at maxima. *)
Theorem arcs_are_separatrices (fuel fuel' fuel'' : nat) (m : TorusMesh)
    (threads_num : Z) :
  2 <= sizeX (grid m) -> 2 <= sizeY (grid m) -> distinct_values m ->
  0 < threads_num -> (100 <= fuel)%nat ->
  (2 * Z.to_nat (size (grid m)) < fuel')%nat ->
  (4 * Z.to_nat (size (grid m)) + 4 <= fuel'')%nat ->
  exists m1 m2 m3,
    cmp_discrete_gradient fuel m threads_num = Ok m1 /\
    cmp_msgraph fuel' m1 = Ok m2 /\
    cmp_arcs fuel'' m2 = Ok m3 /\
    (grid m3 = grid m /\ V m3 = V m1 /\ cr_id m3 = cr_id m1 /\
     cr_cells m3 = cr_cells m1 /\ msgraph m3 = msgraph m2) /\
    Forall (fun arc => is_separatrix m3 arc = true) (list_arcs m3) /\
    forall s, s ∈ cp m3 1 ->
      exists l, dict_get (arcs m3) s = Some l /\ saddle_arcs m3 s l.
Proof.
  intros H2X H2Y Hd Ht Hfuel Hfuel' Hfuel''.
  destruct (complex_built fuel fuel' fuel'' m threads_num H2X H2Y Hd Ht
              Hfuel Hfuel' Hfuel'')
    as (m1 & m2 & m3 & E1 & E2 & E3 & Hk & Hms & Hs).
  exists m1, m2, m3. do 4 (split; [assumption|]).
  split; [exact (ms_arcs _ Hms)|].
  intros s Hs3. exact (proj1 (Hs s Hs3)).
Qed.

Lemma arcs_are_separatrices_witness :
  exists m1 m2 m3,
    cmp_discrete_gradient 100 (new_mesh 3 4 test_field) 8 = Ok m1 /\
    cmp_msgraph 25 m1 = Ok m2 /\
    cmp_arcs 52 m2 = Ok m3 /\
    (grid m3 = grid (new_mesh 3 4 test_field) /\ V m3 = V m1 /\
     cr_id m3 = cr_id m1 /\ cr_cells m3 = cr_cells m1 /\
     msgraph m3 = msgraph m2) /\
    Forall (fun arc => is_separatrix m3 arc = true) (list_arcs m3) /\
    forall s, s ∈ cp m3 1 ->
      exists l, dict_get (arcs m3) s = Some l /\ saddle_arcs m3 s l.
Proof.
  apply (arcs_are_separatrices 100 25 52 (new_mesh 3 4 test_field) 8);
    [simpl; lia | simpl; lia | apply test_field_distinct | lia | lia
    | vm_compute; lia | vm_compute; lia].
Defined.

(** ** Arcs without mustaches *)

Lemma index_lookup {A : Type} (l : list A) (i : Z) (x : A) :
  index l i = Ok x ->
  exists k : nat,
    l !! k = Some x /\
    Z.of_nat k = (if i <? 0 then i + Z.of_nat (length l) else i).
Proof.
  unfold index. intros H.
  destruct (_ || _) eqn:Eb; [discriminate|].
  apply orb_false_iff in Eb as [E1 E2].
  apply Z.ltb_ge in E1.
  destruct (l !! _) eqn:El; [|discriminate]. injection H as <-.
  eexists. split; [exact El|]. lia.
Qed.

Lemma index_in_range {A : Type} (l : list A) (i : Z) :
  0 <= i < Z.of_nat (length l) ->
  exists x, index l i = Ok x /\ l !! Z.to_nat i = Some x.
Proof.
  intros Hi. unfold index.
  destruct (Z.ltb_spec i 0); [lia|].
  destruct (Z.ltb_spec i 0); [lia|].
  destruct (Z.leb_spec (Z.of_nat (length l)) i); [lia|]. simpl.
  destruct (lookup_lt_is_Some_2 l (Z.to_nat i) ltac:(lia)) as [x Hx].
  rewrite Hx. eauto.
Qed.

Lemma simplify_arc_loop_NoDup (arc : list Z) (fuel : nat) :
  NoDup arc ->
  forall it,
    0 <= it -> (Z.to_nat (Z.of_nat (length arc) - it) < fuel)%nat ->
    simplify_arc_loop fuel arc it (Z.of_nat (length arc)) = Ok arc.
Proof.
  intros Hnd. induction fuel as [|fuel IH]; intros it Hit Hfuel; [lia|].
  cbn [simplify_arc_loop].
  destruct (Z.ltb_spec it (Z.of_nat (length arc) - 2)) as [Hlt|Hge];
    [|reflexivity].
  destruct (index_in_range arc (it + 1) ltac:(lia)) as (b & Eb & Lb).
  assert (Ha : exists a k, index arc (it - 1) = Ok a /\ arc !! k = Some a /\
                 k <> Z.to_nat (it + 1)).
  { destruct (Z.eq_dec it 0) as [->|Hne].
    - assert (E : exists r x, arc = r ++ [x]).
      { exists (removelast arc), (List.last arc 0).
        apply app_removelast_last. intros ->. simpl in Hlt. lia. }
      destruct E as (r & x & E).
      exists x, (length r). rewrite E.
      split; [apply index_last|]. split; [apply list_lookup_middle; reflexivity|].
      rewrite E, length_app in Hlt. simpl in Hlt. lia.
    - destruct (index_in_range arc (it - 1) ltac:(lia)) as (a & Ea & La).
      exists a, (Z.to_nat (it - 1)). split; [exact Ea|].
      split; [exact La|lia]. }
  destruct Ha as (a & k & Ea & La & Hk).
  rewrite Ea, Eb. cbn [mbind result_bind].
  destruct (Z.eqb_spec a b) as [->|Hab].
  - exfalso. apply Hk. exact (NoDup_lookup arc _ _ b Hnd La Lb).
  - apply IH; lia.
Qed.

(** X23: an arc that passes no cell twice has no mustache:
    [_simplify_arc] returns it as it is. *)
Theorem simplify_arc_NoDup (fuel : nat) (arc : list Z) :
  NoDup arc -> (length arc < fuel)%nat -> _simplify_arc fuel arc = Ok arc.
Proof.
  intros Hnd Hfuel. unfold _simplify_arc.
  apply simplify_arc_loop_NoDup; [exact Hnd|lia|lia].
Qed.

Lemma simplify_arc_NoDup_witness :
  _simplify_arc 6 [16; 4; 28; 5; 17] = Ok [16; 4; 28; 5; 17].
Proof.
  apply (simplify_arc_NoDup 6 [16; 4; 28; 5; 17]); [|simpl; lia].
  match goal with
  | |- ?P => apply (bool_decide_unpack P)
  end.
  vm_compute. exact I.
Defined.

(** ** The cells of a persistence pair *)

Lemma bit_index_set (b : list bool) (s : nat) :
  bit_index b = Some s -> b !! s = Some true.
Proof.
  revert s. induction b as [|x b IH]; intros s; simpl; [discriminate|].
  destruct x.
  - intros [= <-]. reflexivity.
  - destruct (bit_index b) as [k|]; simpl; [|discriminate].
    intros [= <-]. simpl. auto.
Qed.

Lemma bit_rindex_set (b : list bool) (s : nat) :
  bit_rindex b = Some s -> b !! s = Some true.
Proof.
  unfold bit_rindex. destruct (bit_index (reverse b)) as [k|] eqn:E;
    simpl; [|discriminate].
  intros [= <-]. apply bit_index_set in E.
  pose proof (lookup_lt_Some _ _ _ E) as Hk. rewrite length_reverse in Hk.
  rewrite reverse_lookup in E by exact Hk.
  replace (length b - 1 - k)%nat with (length b - S k)%nat by lia. exact E.
Qed.

Lemma flip_bits_set (c : list bool) :
  forall (f : nat -> nat) (cs : list bool) (j : nat),
    foldl (fun cs p => if p.2 : bool then alter negb p.1 cs else cs) cs
      (imap (fun i b => (f i, b)) c) !! j = Some true ->
    cs !! j = Some true \/ exists i, c !! i = Some true /\ f i = j.
Proof.
  induction c as [|b c IH]; intros f cs j; simpl; [auto|].
  intros Hj. apply (IH (f ∘ S)) in Hj as [Hj|(i & Hi & Hf)].
  - destruct b; [|auto]. simpl in Hj.
    destruct (decide (f 0%nat = j)) as [E|E].
    + right. exists 0%nat. auto.
    + rewrite list_lookup_alter_ne in Hj by exact E. auto.
  - right. exists (S i). auto.
Qed.

Lemma idx_reverse_lookup (l : list Z) :
  forall (f : nat -> nat) (d0 : dict nat) (c : Z) (j : nat),
    dict_get (foldl (fun d p => dict_set d p.2 p.1) d0
                (imap (fun i c => (f i, c)) l)) c = Some j ->
    dict_get d0 c = Some j \/ exists i, l !! i = Some c /\ j = f i.
Proof.
  induction l as [|x l IH]; intros f d0 c j; simpl; [auto|].
  intros Hj. apply (IH (f ∘ S)) in Hj as [Hj|(i & Hi & Hf)].
  - rewrite dict_get_set in Hj.
    destruct (Z.eqb_spec c x) as [->|Hne]; [|auto].
    injection Hj as <-. right. exists 0%nat. auto.
  - right. exists (S i). auto.
Qed.

Lemma idx_of_lookup (m : TorusMesh) (c : Z) (j : nat) :
  idx_of m c = Ok j -> cr_cells m !! j = Some c.
Proof.
  unfold idx_of, idx_reverse.
  destruct (dict_get _ c) as [i|] eqn:E; [|discriminate].
  intros [= <-].
  apply (idx_reverse_lookup (cr_cells m) (fun i => i)) in E
    as [E|(k & Hk & ->)]; [discriminate|exact Hk].
Qed.

Lemma get_neib_dim (d : Z) (m : TorusMesh) (cidx : Z) (ns : list Z) :
  get_neib_msgraph d m cidx = Ok ns ->
  Forall (fun n => dim (grid m) n = d) ns.
Proof.
  unfold get_neib_msgraph. intros H.
  destruct (negb (dim (grid m) cidx =? 1)); [discriminate|].
  bind_as H es Hes. destruct (negb _); [discriminate|].
  injection H as <-. apply Forall_forall. intros n Hn.
  apply list_elem_of_In, in_map_iff in Hn as (e & <- & He).
  apply filter_In in He as [_ He]. apply Z.eqb_eq. exact He.
Qed.

Lemma mark_neighbours_bits (m : TorusMesh) (d : Z) (ns : list Z) :
  Forall (fun n => dim (grid m) n = d) ns ->
  forall curset curset',
    bits_at m d curset -> mark_neighbours m curset ns = Ok curset' ->
    bits_at m d curset'.
Proof.
  unfold mark_neighbours. induction 1 as [|n ns Hn _ IH];
    intros curset curset' Hb Hm; simpl in Hm.
  - injection Hm as <-. exact Hb.
  - destruct (idx_of m n) as [j| |] eqn:Ej; simpl in Hm.
    + apply (IH (<[j := true]> curset)); [|exact Hm].
      intros k Hk. destruct (decide (j = k)) as [<-|Hne].
      * exists n. split; [exact (idx_of_lookup m n j Ej)|exact Hn].
      * rewrite list_lookup_insert_ne in Hk by exact Hne. auto.
    + exfalso. clear -Hm. induction ns as [|x ns IHn]; simpl in Hm;
        [discriminate|auto].
    + exfalso. clear -Hm. induction ns as [|x ns IHn]; simpl in Hm;
        [discriminate|auto].
Qed.

Lemma reduce_extremum (d : Z) (fuel : nat) (pick : list bool -> option nat)
    (m : TorusMesh) (i : nat) (ci : Z) :
  (forall b s, pick b = Some s -> b !! s = Some true) ->
  cr_cells m !! i = Some ci -> dim (grid m) ci = 1 ->
  d = 0 \/ d = 2 ->
  forall st st',
    bits_at m d st.1.1 -> cycles_at m st.1.2 ->
    Forall (joins_extremum m) st.2 ->
    reduce fuel pick m i st = Ok st' ->
    bits_at m d st'.1.1 /\ cycles_at m st'.1.2 /\
    Forall (joins_extremum m) st'.2.
Proof.
  intros Hpick Hi Hdi Hd.
  induction fuel as [|fuel IH]; intros st st' Hb Hc Hp Hr; simpl in Hr;
    [discriminate|].
  destruct st as [[curset cycles] pairs]. simpl in Hb, Hc, Hp.
  destruct (bit_count curset =? 0)%nat.
  { injection Hr as <-. auto. }
  destruct (pick curset) as [s|] eqn:Es; [|discriminate].
  apply Hpick in Es. destruct (Hb s Es) as (cs & Hs & Hds).
  destruct (cycles !! s) as [c|] eqn:Ec; [|discriminate].
  destruct (no_cycle c) eqn:En.
  - rewrite Hi, Hs in Hr. apply (IH _ _) in Hr; [exact Hr|exact Hb| |].
    + cbn [fst snd]. intros s' c' cs' Hs' Hds' Hc'.
      destruct (decide (i = s')) as [<-|Hne].
      { rewrite Hi in Hs'. injection Hs' as <-. contradiction. }
      rewrite list_lookup_insert_ne in Hc' by exact Hne.
      destruct (decide (s = s')) as [<-|Hne'].
      * rewrite Hs in Hs'. injection Hs' as <-.
        rewrite list_lookup_insert in Hc'.
        destruct (decide _) as [_|Hn] in Hc'.
        -- injection Hc' as <-. rewrite Hds. exact Hb.
        -- exfalso. apply Hn. split; [reflexivity|].
           eapply lookup_lt_Some. exact Ec.
      * rewrite list_lookup_insert_ne in Hc' by exact Hne'.
        exact (Hc s' c' cs' Hs' Hds' Hc').
    + cbn [fst snd]. apply Forall_app. split; [exact Hp|].
      constructor; [|constructor]. unfold joins_extremum. cbn [fst snd].
      split; [|split].
      * unfold cp. apply list_elem_of_In, filter_In.
        split; [|apply Z.eqb_eq; exact Hdi].
        apply list_elem_of_In. eapply list_elem_of_lookup_2. exact Hi.
      * eapply list_elem_of_lookup_2. exact Hs.
      * rewrite Hds. exact Hd.
  - apply (IH _ _) in Hr; [exact Hr| |exact Hc|exact Hp].
    cbn [fst snd]. destruct c as [b|]; [|discriminate]. cbn [default].
    assert (Hbb : bits_at m d b).
    { rewrite <- Hds. apply (Hc s b cs Hs); [lia|exact Ec]. }
    intros j Hj. unfold flip_bits in Hj.
    apply (flip_bits_set b (fun k => k)) in Hj as [Hj|(k & Hk & <-)]; auto.
Qed.

Lemma pass_cell_extremum (fuel : nat) (forward : bool) (m : TorusMesh)
    (signs : list bool) (r : result pstate) (i : nat) (st' : pstate) :
  let d := if forward then 0 else 2 in
  (forall st, r = Ok st ->
     bits_at m d st.1.1 /\ cycles_at m st.1.2 /\
     Forall (joins_extremum m) st.2) ->
  pass_cell fuel forward m signs r i = Ok st' ->
  bits_at m d st'.1.1 /\ cycles_at m st'.1.2 /\
  Forall (joins_extremum m) st'.2.
Proof.
  intros d Hr Hp. unfold pass_cell in Hp. bind_as Hp st Hst.
  destruct (Hr _ Hst) as (Hb & Hc & Hpairs).
  destruct (cr_cells m !! i) as [cidx|] eqn:Ei; [|discriminate].
  destruct (signs !! i) as [sign|]; [|discriminate].
  destruct (dim (grid m) cidx =? 1) eqn:Ed; simpl in Hp.
  2:{ injection Hp as <-. auto. }
  apply Z.eqb_eq in Ed.
  destruct (if forward then negb sign else sign).
  2:{ injection Hp as <-. auto. }
  bind_as Hp ns Hns. bind_as Hp curset Hcur.
  assert (Hdim : Forall (fun n => dim (grid m) n = d) ns).
  { unfold d. destruct forward; exact (get_neib_dim _ _ _ _ Hns). }
  pose proof (mark_neighbours_bits m d ns Hdim _ _ Hb Hcur) as Hb'.
  apply (reduce_extremum d fuel _ m i cidx) in Hp; auto.
  - intros b s. destruct forward; [apply bit_rindex_set|apply bit_index_set].
  - unfold d. destruct forward; auto.
Qed.

Section PairsFacts.

Context {U : Type} `{UnionFind U}.

(** X24: every triple that [cmp_persistent_pairs] leaves in [ppairs]
    starts with a saddle of [cr_cells], and its second cell is a cell of
    [cr_cells] of dimension 0 or 2, a minimum or a maximum. *)
Theorem persistent_pairs_join (fuel : nat) (m m' : TorusMesh) :
  cmp_persistent_pairs fuel m = Ok m' ->
  Forall (fun t : Z * Z * Z =>
            t.1.1 ∈ cp m' 1 /\ t.1.2 ∈ cr_cells m' /\
            (dim (grid m') t.1.2 = 0 \/ dim (grid m') t.1.2 = 2))
    (ppairs m').
Proof.
  intros Hc. unfold cmp_persistent_pairs in Hc.
  bind_as Hc lab Hlab. bind_as Hc st1 Hst1. bind_as Hc st2 Hst2.
  injection Hc as <-. cbn [ppairs cr_cells grid with_ppairs].
  assert (H1 : bits_at m 0 st1.1.1 /\ cycles_at m st1.1.2 /\
               Forall (joins_extremum m) st1.2).
  { eapply (foldl_result_inv _
              (fun st : pstate =>
                 bits_at m 0 st.1.1 /\ cycles_at m st.1.2 /\
                 Forall (joins_extremum m) st.2)); [| |exact Hst1].
    - intros r x s'. apply (pass_cell_extremum fuel true).
    - intros s [= <-]. cbn [fst snd]. split; [|split; [|constructor]].
      + intros j Hj. apply lookup_replicate in Hj as [Hj _]. discriminate.
      + intros s c cs _ _ Hs. apply lookup_replicate in Hs as [Hs _].
        discriminate. }
  assert (H2 : bits_at m 2 st2.1.1 /\ cycles_at m st2.1.2 /\
               Forall (joins_extremum m) st2.2).
  { eapply (foldl_result_inv _
              (fun st : pstate =>
                 bits_at m 2 st.1.1 /\ cycles_at m st.1.2 /\
                 Forall (joins_extremum m) st.2)); [| |exact Hst2].
    - intros r x s'. apply (pass_cell_extremum fuel false).
    - intros s [= <-]. cbn [fst snd]. split; [|split].
      + intros j Hj. apply lookup_replicate in Hj as [Hj _]. discriminate.
      + exact (proj1 (proj2 H1)).
      + exact (proj2 (proj2 H1)). }
  destruct H2 as (_ & _ & H2).
  apply Forall_forall. intros t Ht. apply sort_by_elem in Ht.
  rewrite Forall_forall in H2. exact (H2 t Ht).
Qed.

End PairsFacts.

Lemma persistent_pairs_join_witness :
  exists m m',
    test_complex 100 = Ok m /\
    cmp_persistent_pairs (U := RankedUnionFind.t) 100 m = Ok m' /\
    ppairs m' = [(26, 0, 5); (33, 46, 2); (29, 5, 1)] /\
    Forall (fun t : Z * Z * Z =>
              t.1.1 ∈ cp m' 1 /\ t.1.2 ∈ cr_cells m' /\
              (dim (grid m') t.1.2 = 0 \/ dim (grid m') t.1.2 = 2))
      (ppairs m').
Proof.
  eexists. eexists. split; [vm_compute; reflexivity|].
  match goal with
  | |- ?run = Ok ?r /\ _ => assert (E : run = Ok r) by (vm_compute; reflexivity)
  end.
  split; [exact E|]. split; [reflexivity|].
  exact (persistent_pairs_join 100 _ _ E).
Defined.

(** ** The neighbours in the Morse-Smale graph are critical cells *)

Lemma dict_get_elem {A : Type} (d : dict A) (k : Z) (a : A) :
  dict_get d k = Some a -> (k, a) ∈ d.
Proof.
  induction d as [|[k0 a0] d IH]; simpl; [discriminate|].
  destruct (Z.eqb_spec k k0) as [->|Hne].
  - intros [= ->]. apply elem_of_cons. auto.
  - intros Hd. apply elem_of_cons. auto.
Qed.

Lemma adj_in_add_node (G : MultiGraph) (S : gset Z) (n : Z) :
  adj_in G S -> adj_in (add_node G n) S.
Proof.
  intros HG. unfold add_node. destruct (has_node G n); [exact HG|].
  intros u adj v k Hu Hv. apply elem_of_app in Hu as [Hu|Hu].
  - exact (HG u adj v k Hu Hv).
  - apply list_elem_of_singleton in Hu. injection Hu as -> ->.
    apply elem_of_nil in Hv. contradiction.
Qed.

Lemma adj_in_bump_at (G : MultiGraph) (S : gset Z) (u v : Z) :
  adj_in G S -> v ∈ S -> adj_in (bump_at G u v) S.
Proof.
  intros HG Hv. unfold bump_at.
  destruct (dict_get G u) as [adj|] eqn:E; [|exact HG].
  apply dict_get_elem in E.
  intros u' adj' v' k' Hu' Hv'.
  apply dict_set_elem in Hu' as [Hu'|Hu'];
    [|exact (HG u' adj' v' k' Hu' Hv')].
  injection Hu' as -> ->. unfold bump in Hv'.
  destruct (dict_get adj v);
    (apply dict_set_elem in Hv' as [Hv'|Hv'];
     [injection Hv' as -> ->; exact Hv|exact (HG u adj v' k' E Hv')]).
Qed.

Lemma adj_in_add_edge (G : MultiGraph) (S : gset Z) (u v : Z) :
  adj_in G S -> u ∈ S -> v ∈ S -> adj_in (add_edge G u v) S.
Proof.
  intros HG Hu Hv. unfold add_edge.
  destruct (u =? v); repeat apply adj_in_bump_at;
    repeat apply adj_in_add_node; assumption.
Qed.

Lemma visit_faces_adj (m : TorusMesh) (cidx : Z) (skip : option Z)
    (faces : list Z) :
  cidx ∈ cr_id m ->
  forall G q r,
    adj_in G (cr_id m) -> visit_faces m cidx skip faces G q = Ok r ->
    adj_in r.1 (cr_id m).
Proof.
  intros Hc. induction faces as [|face faces IH]; intros G q r HG Hv;
    simpl in Hv.
  - injection Hv as <-. exact HG.
  - destruct (bool_decide (skip = Some face)); [exact (IH _ _ _ HG Hv)|].
    destruct (is_critical m face) eqn:Ec.
    + apply (IH _ _ _) in Hv; [exact Hv|].
      apply adj_in_add_edge; [exact HG|exact Hc|].
      unfold is_critical in Ec. apply bool_decide_eq_true in Ec. exact Ec.
    + bind_as Hv b Hb. exact (IH _ _ _ HG Hv).
Qed.

Lemma walk_queue_adj (m : TorusMesh) (cidx : Z) (fuel : nat) :
  cidx ∈ cr_id m ->
  forall G q G',
    adj_in G (cr_id m) -> walk_queue fuel m cidx G q = Ok G' ->
    adj_in G' (cr_id m).
Proof.
  intros Hc. induction fuel as [|fuel IH]; intros G q G' HG Hw;
    simpl in Hw; [discriminate|].
  destruct (list_pop q) as [[a q']|].
  - destruct (V m !! a) as [b|]; [|discriminate].
    bind_as Hw r Hr. apply (IH _ _ _) in Hw; [exact Hw|].
    exact (visit_faces_adj m cidx _ _ Hc _ _ _ HG Hr).
  - injection Hw as <-. exact HG.
Qed.

Lemma msgraph_fold_adj (fuel : nat) (m : TorusMesh) (l : list Z) :
  Forall (fun c => c ∈ cr_id m) l ->
  forall (r : result MultiGraph) G',
    (forall G, r = Ok G -> adj_in G (cr_id m)) ->
    foldl (fun (r : result MultiGraph) cidx =>
             G1 ← r; msgraph_from fuel m G1 cidx) r l = Ok G' ->
    adj_in G' (cr_id m).
Proof.
  induction 1 as [|cidx l Hc _ IH]; intros r G' Hr Hfold; simpl in Hfold.
  - exact (Hr _ Hfold).
  - apply (IH _ _) in Hfold; [exact Hfold|].
    intros G2 Hstep. bind_as Hstep G1 HG1. specialize (Hr _ HG1).
    unfold msgraph_from in Hstep. bind_as Hstep r1 Hr1.
    eapply walk_queue_adj; [exact Hc| |exact Hstep].
    exact (visit_faces_adj m cidx _ _ Hc _ _ _ Hr Hr1).
Qed.

Lemma adj_in_add_nodes (S : gset Z) (ns : list Z) (G : MultiGraph) :
  adj_in G S -> adj_in (add_nodes_from G ns) S.
Proof.
  unfold add_nodes_from. revert G.
  induction ns as [|n ns IH]; intros G HG; simpl; [exact HG|].
  apply IH, adj_in_add_node, HG.
Qed.

Lemma cmp_msgraph_adj (fuel : nat) (m m' : TorusMesh) :
  (forall c, c ∈ cr_cells m -> c ∈ cr_id m) ->
  cmp_msgraph fuel m = Ok m' -> adj_in (msgraph m') (cr_id m').
Proof.
  intros Hcells Hm. unfold cmp_msgraph in Hm. bind_as Hm G HG.
  injection Hm as <-. cbn [msgraph cr_id with_msgraph].
  apply (msgraph_fold_adj fuel m (cp m 1 ++ cp m 2)) in HG; [exact HG| |].
  - apply Forall_forall. intros c Hc. apply Hcells.
    apply elem_of_app in Hc as [Hc|Hc]; unfold cp in Hc;
      apply list_elem_of_In, filter_In in Hc as [Hc _];
      apply list_elem_of_In; exact Hc.
  - intros G0 [= <-]. apply adj_in_add_nodes.
    intros u adj v k Hu. apply elem_of_nil in Hu. contradiction.
Qed.

Lemma get_neib_critical (d : Z) (m : TorusMesh) (s : Z) (ns : list Z) :
  adj_in (msgraph m) (cr_id m) -> get_neib_msgraph d m s = Ok ns ->
  Forall (fun n => n ∈ cr_id m) ns.
Proof.
  intros HG H. unfold get_neib_msgraph in H.
  destruct (negb (dim (grid m) s =? 1)); [discriminate|].
  bind_as H es Hes. destruct (negb _); [discriminate|].
  injection H as <-. apply Forall_forall. intros n Hn.
  apply list_elem_of_In, in_map_iff in Hn as (e & <- & He).
  apply filter_In in He as [He _].
  unfold edges in Hes.
  destruct (dict_get (msgraph m) s) as [adj|] eqn:E; [|discriminate].
  injection Hes as <-. apply in_flat_map in He as ([v k] & Hvk & He).
  apply list_elem_of_In, elem_of_replicate in He as [-> _].
  apply dict_get_elem in E. apply list_elem_of_In in Hvk.
  exact (HG s adj v k E Hvk).
Qed.

(** ** Bit arrays *)

Lemma flip_bits_go (c : list bool) :
  forall (k : nat) (cs : list bool) (j : nat),
    foldl (fun cs p => if p.2 : bool then alter negb p.1 cs else cs) cs
      (imap (fun i b => ((k + i)%nat, b)) c) !! j
    = if bool_decide (k <= j)%nat && bool_decide (c !! (j - k)%nat = Some true)
      then negb <$> cs !! j else cs !! j.
Proof.
  induction c as [|b c IH]; intros k cs j.
  - cbn [imap foldl]. destruct (bool_decide (k <= j)%nat); [|reflexivity].
    cbn [andb]. rewrite bool_decide_eq_false_2; [reflexivity|].
    rewrite lookup_nil. discriminate.
  - cbn [imap foldl fst snd].
    rewrite (imap_ext _ (fun i b => ((S k + i)%nat, b)))
      by (intros i x _; simpl; f_equal; lia).
    rewrite IH. replace (k + 0)%nat with k by lia.
    destruct (decide (k <= j)%nat) as [Hkj|Hkj].
    2:{ rewrite (bool_decide_eq_false_2 (k <= j)%nat) by exact Hkj.
        rewrite (bool_decide_eq_false_2 (S k <= j)%nat) by lia. simpl.
        destruct b; [|reflexivity].
        apply list_lookup_alter_ne. lia. }
    rewrite (bool_decide_eq_true_2 (k <= j)%nat) by exact Hkj. simpl.
    destruct (decide (j = k)) as [->|Hne].
    + rewrite (bool_decide_eq_false_2 (S k <= k)%nat) by lia. simpl.
      rewrite Nat.sub_diag. simpl. destruct b.
      * rewrite bool_decide_eq_true_2 by reflexivity.
        rewrite list_lookup_alter.
        destruct (decide (k = k)); [reflexivity|contradiction].
      * rewrite bool_decide_eq_false_2 by discriminate. reflexivity.
    + rewrite (bool_decide_eq_true_2 (S k <= j)%nat) by lia. simpl.
      replace (j - k)%nat with (S (j - S k)) by lia. simpl.
      destruct (bool_decide (c !! (j - S k)%nat = Some true));
        (destruct b; [rewrite list_lookup_alter_ne by lia|]; reflexivity).
Qed.

(** [flip_bits] is the exclusive or, bit by bit. *)
Lemma flip_bits_lookup (cs c : list bool) (j : nat) :
  flip_bits cs c !! j
  = if bool_decide (c !! j = Some true) then negb <$> cs !! j else cs !! j.
Proof.
  unfold flip_bits.
  rewrite (imap_ext _ (fun i b => ((0 + i)%nat, b)))
    by (intros i x _; reflexivity).
  rewrite flip_bits_go. rewrite bool_decide_eq_true_2 by lia.
  rewrite Nat.sub_0_r. reflexivity.
Qed.

Lemma flip_bits_length (cs c : list bool) :
  length (flip_bits cs c) = length cs.
Proof.
  unfold flip_bits. generalize (imap (fun i b => (i, b)) c). intros l.
  revert cs. induction l as [|[i b] l IH]; intros cs; simpl; [reflexivity|].
  rewrite IH. destruct b; [apply length_alter|reflexivity].
Qed.

Lemma bit_count_zero (b : list bool) :
  (bit_count b =? 0)%nat = true <-> forall j, b !! j <> Some true.
Proof.
  unfold bit_count. rewrite Nat.eqb_eq. induction b as [|x b IH]; simpl.
  - split; [intros _ j; rewrite lookup_nil; discriminate|reflexivity].
  - destruct x; simpl.
    + split; [discriminate|]. intros Hj. exfalso. apply (Hj 0%nat).
      reflexivity.
    + rewrite IH. split.
      * intros Hj [|j]; [discriminate|apply Hj].
      * intros Hj j. apply (Hj (S j)).
Qed.

Lemma bit_index_spec (b : list bool) (s : nat) :
  bit_index b = Some s <->
  b !! s = Some true /\ forall j, (j < s)%nat -> b !! j <> Some true.
Proof.
  revert s. induction b as [|x b IH]; intros s; simpl.
  - split; [discriminate|]. intros [Hs _]. rewrite lookup_nil in Hs.
    discriminate.
  - destruct x.
    + split.
      * intros [= <-]. split; [reflexivity|]. intros j Hj. lia.
      * intros [Hs Hlt]. destruct s as [|s]; [reflexivity|].
        exfalso. apply (Hlt 0%nat); [lia|reflexivity].
    + destruct s as [|s].
      * split.
        -- intros Hb. apply fmap_Some in Hb as (k & _ & Hk). discriminate.
        -- intros [Hs _]. discriminate.
      * split.
        -- intros Hb. apply fmap_Some in Hb as (k & E & Hk).
           injection Hk as ->. apply IH in E as [Hk Hlt].
           split; [exact Hk|]. intros [|j] Hj; [discriminate|].
           apply Hlt. lia.
        -- intros [Hs Hlt]. apply fmap_Some. exists s.
           split; [|reflexivity]. apply IH. split; [exact Hs|].
           intros j Hj. apply (Hlt (S j)). lia.
Qed.

Lemma bit_index_none (b : list bool) :
  bit_index b = None -> forall j, b !! j <> Some true.
Proof.
  induction b as [|x b IH]; simpl; intros Hn j.
  - rewrite lookup_nil. discriminate.
  - destruct x; [discriminate|].
    destruct (bit_index b); [discriminate|].
    destruct j as [|j]; [discriminate|]. simpl. apply IH. reflexivity.
Qed.

Lemma bit_rindex_spec (b : list bool) (s : nat) :
  bit_rindex b = Some s <->
  b !! s = Some true /\ forall j, (s < j)%nat -> b !! j <> Some true.
Proof.
  unfold bit_rindex. split.
  - destruct (bit_index (reverse b)) as [k|] eqn:E; simpl; [|discriminate].
    intros [= <-]. apply bit_index_spec in E as [Hk Hlt].
    pose proof (lookup_lt_Some _ _ _ Hk) as Hlen.
    rewrite length_reverse in Hlen.
    rewrite reverse_lookup in Hk by exact Hlen.
    split.
    + replace (length b - 1 - k)%nat with (length b - S k)%nat by lia.
      exact Hk.
    + intros j Hj Hbj. pose proof (lookup_lt_Some _ _ _ Hbj) as Hjl.
      apply (Hlt (length b - S j)%nat); [lia|].
      rewrite reverse_lookup by lia.
      replace (length b - S (length b - S j))%nat with j by lia. exact Hbj.
  - intros [Hs Hgt]. pose proof (lookup_lt_Some _ _ _ Hs) as Hlen.
    assert (E : bit_index (reverse b) = Some (length b - S s)%nat).
    { apply bit_index_spec. split.
      - rewrite reverse_lookup by lia.
        replace (length b - S (length b - S s))%nat with s by lia. exact Hs.
      - intros j Hj Hbj. rewrite reverse_lookup in Hbj by lia.
        apply (Hgt (length b - S j)%nat); [lia|exact Hbj]. }
    rewrite E. simpl. f_equal. lia.
Qed.

Lemma bit_rindex_none (b : list bool) :
  bit_rindex b = None -> forall j, b !! j <> Some true.
Proof.
  unfold bit_rindex. destruct (bit_index (reverse b)) eqn:E; [discriminate|].
  intros _ j Hj. pose proof (lookup_lt_Some _ _ _ Hj) as Hlen.
  apply (bit_index_none _ E (length b - S j)%nat).
  rewrite reverse_lookup by lia.
  replace (length b - S (length b - S j))%nat with j by lia. exact Hj.
Qed.

Lemma span_forward_flip (cs b : list bool) (s : nat) :
  bit_rindex cs = Some s -> bit_rindex b = Some s ->
  (span_forward (flip_bits cs b) < span_forward cs)%nat.
Proof.
  intros Hcs Hb. unfold span_forward at 2. rewrite Hcs.
  apply bit_rindex_spec in Hcs as [Hs Hgt].
  apply bit_rindex_spec in Hb as [Hs' Hgt'].
  unfold span_forward.
  destruct (bit_rindex (flip_bits cs b)) as [s'|] eqn:E; [|lia].
  apply bit_rindex_spec in E as [Hf _]. rewrite flip_bits_lookup in Hf.
  destruct (Nat.lt_trichotomy s' s) as [Hlt|[->|Hlt]]; [lia|..].
  - rewrite bool_decide_eq_true_2 in Hf by exact Hs'.
    rewrite Hs in Hf. discriminate.
  - rewrite bool_decide_eq_false_2 in Hf by (apply Hgt'; exact Hlt).
    exfalso. exact (Hgt s' Hlt Hf).
Qed.

Lemma span_backward_flip (cs b : list bool) (s : nat) :
  bit_index cs = Some s -> bit_index b = Some s ->
  (span_backward (flip_bits cs b) < span_backward cs)%nat.
Proof.
  intros Hcs Hb. unfold span_backward at 2. rewrite Hcs.
  apply bit_index_spec in Hcs as [Hs Hlt].
  apply bit_index_spec in Hb as [Hs' Hlt'].
  pose proof (lookup_lt_Some _ _ _ Hs) as Hlen.
  unfold span_backward. rewrite flip_bits_length.
  destruct (bit_index (flip_bits cs b)) as [s'|] eqn:E; [|lia].
  apply bit_index_spec in E as [Hf _].
  pose proof (lookup_lt_Some _ _ _ Hf) as Hlen'.
  rewrite flip_bits_length in Hlen'. rewrite flip_bits_lookup in Hf.
  destruct (Nat.lt_trichotomy s' s) as [Hl|[->|Hl]]; [| |lia].
  - rewrite bool_decide_eq_false_2 in Hf by (apply Hlt'; exact Hl).
    exfalso. exact (Hlt s' Hl Hf).
  - rewrite bool_decide_eq_true_2 in Hf by exact Hs'.
    rewrite Hs in Hf. discriminate.
Qed.

Lemma span_forward_bound (b : list bool) : (span_forward b <= length b)%nat.
Proof.
  unfold span_forward. destruct (bit_rindex b) as [s|] eqn:E; [|lia].
  apply bit_rindex_spec in E as [Hs _].
  apply lookup_lt_Some in Hs. lia.
Qed.

Lemma span_backward_bound (b : list bool) : (span_backward b <= length b)%nat.
Proof. unfold span_backward. destruct (bit_index b); lia. Qed.

(** ** The reduction of a cycle returns *)

Lemma bits_at_flip (m : TorusMesh) (d : Z) (cs b : list bool) :
  bits_at m d cs -> bits_at m d b -> bits_at m d (flip_bits cs b).
Proof.
  intros Hcs Hb j Hj. rewrite flip_bits_lookup in Hj.
  destruct (bool_decide (b !! j = Some true)) eqn:E.
  - apply bool_decide_eq_true in E. exact (Hb j E).
  - exact (Hcs j Hj).
Qed.

Section Reduce.

Variable m : TorusMesh.
Variables d d' : Z.
Variable pick : list bool -> option nat.
Variable span : list bool -> nat.
Hypothesis Hd : d <> 1.
Hypothesis Hd' : d' <> 1 /\ d' <> d.
Hypothesis pick_set : forall b s, pick b = Some s -> b !! s = Some true.
Hypothesis pick_some :
  forall b, (bit_count b =? 0)%nat = false -> exists s, pick b = Some s.
Hypothesis span_flip :
  forall cs b s, pick cs = Some s -> pick b = Some s ->
    (span (flip_bits cs b) < span cs)%nat.
Variable i : nat.
Variable ci : Z.
Hypothesis Hi : cr_cells m !! i = Some ci.
Hypothesis Hdi : dim (grid m) ci = 1.

Lemma reduce_returns (fuel : nat) :
  forall st,
    reducing m d d' pick st -> (2 * span st.1.1 + 2 < fuel)%nat ->
    exists st', reduce fuel pick m i st = Ok st' /\ reducing m d d' pick st'.
Proof using Hd Hd' pick_set pick_some span_flip Hi Hdi.
  induction fuel as [fuel IH] using lt_wf_ind. intros st HJ Hfuel.
  destruct fuel as [|fuel]; [lia|].
  destruct st as [[curset cycles] pairs].
  destruct HJ as (Lc & Ly & Hb & Hpiv & Hfro). cbn [fst snd] in *.
  cbn [reduce].
  destruct (bit_count curset =? 0)%nat eqn:Ecount.
  { eexists. split; [reflexivity|].
    exact (conj Lc (conj Ly (conj Hb (conj Hpiv Hfro)))). }
  destruct (pick_some curset Ecount) as [s Es]. rewrite Es.
  pose proof (pick_set _ _ Es) as Hs.
  destruct (Hb s Hs) as (cs & Hcs & Hdcs).
  pose proof (lookup_lt_Some _ _ _ Hs) as Hsn.
  destruct (lookup_lt_is_Some_2 cycles s ltac:(lia)) as [c Ec].
  rewrite Ec.
  assert (His : i <> s).
  { intros ->. rewrite Hi in Hcs. injection Hcs as ->. congruence. }
  destruct (no_cycle c) eqn:En.
  - rewrite Hi, Hcs.
    set (cycles' := <[i := Some curset]> (<[s := Some curset]> cycles)).
    set (pairs' := pairs ++ [(ci, cs, persistence m ci cs)]).
    assert (Ec' : cycles' !! s = Some (Some curset)).
    { unfold cycles'. rewrite list_lookup_insert_ne by exact His.
      rewrite list_lookup_insert.
      destruct (decide _) as [_|Hn]; [reflexivity|].
      exfalso. apply Hn. split; [reflexivity|lia]. }
    destruct fuel as [|fuel]; [lia|].
    cbn [reduce]. rewrite Ecount, Es, Ec'. cbn [no_cycle].
    destruct (Nat.eqb_spec (length curset) 0) as [E0|_]; [lia|].
    cbn [default from_option]. unfold id.
    apply (IH fuel ltac:(lia)).
    + unfold reducing. cbn [fst snd].
      split; [rewrite flip_bits_length; exact Lc|].
      split; [unfold cycles'; rewrite !length_insert; exact Ly|].
      split; [apply bits_at_flip; exact Hb|].
      split.
      * intros s' cs' b Hs' Hds' Hb'. unfold cycles' in Hb'.
        destruct (decide (i = s')) as [<-|Hne].
        { rewrite Hi in Hs'. injection Hs' as <-. congruence. }
        rewrite list_lookup_insert_ne in Hb' by exact Hne.
        destruct (decide (s = s')) as [<-|Hne'].
        -- rewrite list_lookup_insert in Hb'.
           destruct (decide _) as [_|Hn] in Hb'.
           ++ injection Hb' as <-. auto.
           ++ exfalso. apply Hn. split; [reflexivity|lia].
        -- rewrite list_lookup_insert_ne in Hb' by exact Hne'.
           exact (Hpiv s' cs' b Hs' Hds' Hb').
      * intros s' cs' Hs' Hds'. unfold cycles'.
        destruct Hd' as [Hd1 Hd2].
        rewrite !list_lookup_insert_ne.
        -- exact (Hfro s' cs' Hs' Hds').
        -- intros <-. rewrite Hcs in Hs'. injection Hs' as <-. congruence.
        -- intros <-. rewrite Hi in Hs'. injection Hs' as <-. congruence.
    + cbn [fst snd]. pose proof (span_flip curset curset s Es Es). lia.
  - destruct c as [b|]; [|discriminate]. cbn [default from_option]. unfold id.
    destruct (Hpiv s cs b Hcs Hdcs Ec) as (Lb & Eb & Hbb).
    apply (IH fuel ltac:(lia)).
    + unfold reducing. cbn [fst snd].
      split; [rewrite flip_bits_length; exact Lc|].
      split; [exact Ly|].
      split; [apply bits_at_flip; assumption|].
      split; assumption.
    + cbn [fst snd]. pose proof (span_flip curset b s Es Eb). lia.
Qed.

End Reduce.

(** ** The persistence pairs of a complex *)

Lemma idx_reverse_some (l : list Z) (c : Z) :
  forall (f : nat -> nat) (d0 : dict nat),
    c ∈ l \/ dict_get d0 c <> None ->
    dict_get (foldl (fun d p => dict_set d p.2 p.1) d0
                (imap (fun i c => (f i, c)) l)) c <> None.
Proof.
  induction l as [|x l IH]; intros f d0 Hc; simpl.
  - destruct Hc as [Hc|Hc]; [apply elem_of_nil in Hc; contradiction|auto].
  - apply (IH (f ∘ S)). rewrite dict_get_set.
    destruct (Z.eqb_spec c x) as [->|Hne].
    + right. discriminate.
    + destruct Hc as [Hc|Hc]; [|auto].
      apply elem_of_cons in Hc as [?|Hc]; [contradiction|auto].
Qed.

Lemma idx_of_returns (m : TorusMesh) (c : Z) :
  c ∈ cr_cells m ->
  exists j, idx_of m c = Ok j /\ cr_cells m !! j = Some c.
Proof.
  intros Hc. unfold idx_of.
  pose proof (idx_reverse_some (cr_cells m) c (fun i => i) [] (or_introl Hc))
    as Hn.
  fold (idx_reverse m) in Hn.
  destruct (dict_get (idx_reverse m) c) as [j|] eqn:E; [|contradiction].
  exists j. split; [reflexivity|].
  apply idx_of_lookup. unfold idx_of. rewrite E. reflexivity.
Qed.

Lemma mark_neighbours_returns (m : TorusMesh) (d : Z) (ns : list Z) :
  Forall (fun n => n ∈ cr_cells m) ns ->
  Forall (fun n => dim (grid m) n = d) ns ->
  forall curset,
    length curset = length (cr_cells m) -> bits_at m d curset ->
    exists curset',
      mark_neighbours m curset ns = Ok curset' /\
      length curset' = length (cr_cells m) /\ bits_at m d curset'.
Proof.
  intros Hin Hdim curset Hl Hb.
  assert (E : exists curset',
            mark_neighbours m curset ns = Ok curset' /\
            length curset' = length (cr_cells m)).
  { clear Hb Hdim. revert curset Hl. unfold mark_neighbours.
    induction Hin as [|n ns Hn _ IH]; intros curset Hl; simpl.
    - eauto.
    - destruct (idx_of_returns m n Hn) as (j & -> & _). simpl.
      apply IH. rewrite length_insert. exact Hl. }
  destruct E as (curset' & E & Hl'). exists curset'.
  split; [exact E|]. split; [exact Hl'|].
  exact (mark_neighbours_bits m d ns Hdim curset curset' Hb E).
Qed.

Lemma dim_range (g : dims) (c : Z) : dim g c = 0 \/ dim g c = 1 \/ dim g c = 2.
Proof.
  unfold dim. destruct (c <? size g); [auto|].
  destruct (c <? 3 * size g); auto.
Qed.

Lemma bit_rindex_some (b : list bool) :
  (bit_count b =? 0)%nat = false -> exists s, bit_rindex b = Some s.
Proof.
  intros Hc. destruct (bit_rindex b) as [s|] eqn:E; [eauto|].
  pose proof (proj2 (bit_count_zero b) (bit_rindex_none b E)). congruence.
Qed.

Lemma bit_index_some (b : list bool) :
  (bit_count b =? 0)%nat = false -> exists s, bit_index b = Some s.
Proof.
  intros Hc. destruct (bit_index b) as [s|] eqn:E; [eauto|].
  pose proof (proj2 (bit_count_zero b) (bit_index_none b E)). congruence.
Qed.

Section Passes.

Variable m : TorusMesh.
Hypothesis Hneib : forall s, s ∈ cp m 1 ->
  (exists a b, get_min_neib_msgraph m s = Ok [a; b]) /\
  (exists c d, get_max_neib_msgraph m s = Ok [c; d]).
Hypothesis Hadj : adj_in (msgraph m) (cr_id m).
Hypothesis Hcells : forall c, c ∈ cr_id m -> c ∈ cr_cells m.
Variable fuel : nat.
Hypothesis Hfuel : (2 * length (cr_cells m) + 2 < fuel)%nat.
Variable signs : list bool.
Hypothesis Hsigns : length signs = length (cr_cells m).

(** The neighbours of a saddle in the graph, as the passes read them. *)
Lemma saddle_neighbours (d : Z) (cidx : Z) :
  d = 0 \/ d = 2 -> cidx ∈ cr_cells m -> dim (grid m) cidx = 1 ->
  exists ns,
    get_neib_msgraph d m cidx = Ok ns /\
    Forall (fun n => n ∈ cr_cells m) ns /\
    Forall (fun n => dim (grid m) n = d) ns.
Proof using Hneib Hadj Hcells.
  intros Hd Hc Hdim.
  assert (Hcp : cidx ∈ cp m 1).
  { unfold cp. apply list_elem_of_In, filter_In.
    split; [apply list_elem_of_In; exact Hc|apply Z.eqb_eq; exact Hdim]. }
  destruct (Hneib cidx Hcp) as [(a & b & Emin) (c & e & Emax)].
  assert (E : exists ns, get_neib_msgraph d m cidx = Ok ns).
  { destruct Hd as [-> | ->]; eauto. }
  destruct E as (ns & E). exists ns. split; [exact E|].
  split; [|exact (get_neib_dim d m cidx ns E)].
  eapply Forall_impl; [exact (get_neib_critical d m cidx ns Hadj E)|].
  intros n Hn. exact (Hcells n Hn).
Qed.

Lemma pass_forward_returns (i : nat) (st : pstate) :
  (i < length (cr_cells m))%nat ->
  reducing m 0 2 bit_rindex st ->
  exists st',
    pass_cell fuel true m signs (Ok st) i = Ok st' /\
    reducing m 0 2 bit_rindex st'.
Proof using Hneib Hadj Hcells Hfuel Hsigns.
  intros Hi HJ. unfold pass_cell. cbn [mbind result_bind].
  destruct (lookup_lt_is_Some_2 (cr_cells m) i Hi) as [cidx Ei].
  destruct (lookup_lt_is_Some_2 signs i ltac:(lia)) as [sign Es].
  rewrite Ei, Es.
  destruct (dim (grid m) cidx =? 1) eqn:Ed; cbn [andb]; [|eauto].
  apply Z.eqb_eq in Ed. destruct (negb sign); [|eauto].
  destruct (saddle_neighbours 0 cidx (or_introl eq_refl)
              ltac:(eapply list_elem_of_lookup_2; exact Ei) Ed)
    as (ns & En & Hin & Hdim).
  unfold get_min_neib_msgraph. rewrite En. cbn [mbind result_bind].
  destruct HJ as (Lc & Ly & Hb & Hpiv & Hfro).
  destruct (mark_neighbours_returns m 0 ns Hin Hdim st.1.1 Lc Hb)
    as (curset & Em & Lc' & Hb').
  rewrite Em. cbn [mbind result_bind].
  apply (reduce_returns m 0 2 bit_rindex span_forward) with (ci := cidx);
    try assumption.
  - discriminate.
  - split; [discriminate|discriminate].
  - intros b s Hs. apply bit_rindex_spec in Hs. tauto.
  - apply bit_rindex_some.
  - intros cs b s Hcs Hbs. exact (span_forward_flip cs b s Hcs Hbs).
  - exact (conj Lc' (conj Ly (conj Hb' (conj Hpiv Hfro)))).
  - cbn [fst snd]. pose proof (span_forward_bound curset). lia.
Qed.

Lemma pass_backward_returns (i : nat) (st : pstate) :
  (i < length (cr_cells m))%nat ->
  reducing m 2 3 bit_index st ->
  exists st',
    pass_cell fuel false m signs (Ok st) i = Ok st' /\
    reducing m 2 3 bit_index st'.
Proof using Hneib Hadj Hcells Hfuel Hsigns.
  intros Hi HJ. unfold pass_cell. cbn [mbind result_bind].
  destruct (lookup_lt_is_Some_2 (cr_cells m) i Hi) as [cidx Ei].
  destruct (lookup_lt_is_Some_2 signs i ltac:(lia)) as [sign Es].
  rewrite Ei, Es.
  destruct (dim (grid m) cidx =? 1) eqn:Ed; cbn [andb]; [|eauto].
  apply Z.eqb_eq in Ed. destruct sign; [|eauto].
  destruct (saddle_neighbours 2 cidx (or_intror eq_refl)
              ltac:(eapply list_elem_of_lookup_2; exact Ei) Ed)
    as (ns & En & Hin & Hdim).
  unfold get_max_neib_msgraph. rewrite En. cbn [mbind result_bind].
  destruct HJ as (Lc & Ly & Hb & Hpiv & Hfro).
  destruct (mark_neighbours_returns m 2 ns Hin Hdim st.1.1 Lc Hb)
    as (curset & Em & Lc' & Hb').
  rewrite Em. cbn [mbind result_bind].
  apply (reduce_returns m 2 3 bit_index span_backward) with (ci := cidx);
    try assumption.
  - discriminate.
  - split; [discriminate|discriminate].
  - intros b s Hs. apply bit_index_spec in Hs. tauto.
  - apply bit_index_some.
  - intros cs b s Hcs Hbs. exact (span_backward_flip cs b s Hcs Hbs).
  - exact (conj Lc' (conj Ly (conj Hb' (conj Hpiv Hfro)))).
  - cbn [fst snd]. pose proof (span_backward_bound curset). lia.
Qed.

Lemma passes_forward (l : list nat) :
  Forall (fun i => (i < length (cr_cells m))%nat) l ->
  forall st,
    reducing m 0 2 bit_rindex st ->
    exists st',
      foldl (pass_cell fuel true m signs) (Ok st) l = Ok st' /\
      reducing m 0 2 bit_rindex st'.
Proof using Hneib Hadj Hcells Hfuel Hsigns.
  induction 1 as [|i l Hi _ IH]; intros st HJ; cbn [foldl]; [eauto|].
  destruct (pass_forward_returns i st Hi HJ) as (st1 & -> & HJ1).
  exact (IH st1 HJ1).
Qed.

Lemma passes_backward (l : list nat) :
  Forall (fun i => (i < length (cr_cells m))%nat) l ->
  forall st,
    reducing m 2 3 bit_index st ->
    exists st',
      foldl (pass_cell fuel false m signs) (Ok st) l = Ok st' /\
      reducing m 2 3 bit_index st'.
Proof using Hneib Hadj Hcells Hfuel Hsigns.
  induction 1 as [|i l Hi _ IH]; intros st HJ; cbn [foldl]; [eauto|].
  destruct (pass_backward_returns i st Hi HJ) as (st1 & -> & HJ1).
  exact (IH st1 HJ1).
Qed.

End Passes.

Lemma imap_cells (l : list Z) (P : Z -> Prop) :
  (forall c, c ∈ l -> P c) ->
  forall f : nat -> nat,
    Forall (fun p : nat * Z => P p.2) (imap (fun i c => (f i, c)) l).
Proof.
  induction l as [|x l IH]; intros Hl f; simpl; [constructor|].
  constructor.
  - apply Hl. apply elem_of_cons. auto.
  - apply (IH (fun c Hc => Hl c ltac:(apply elem_of_cons; auto)) (f ∘ S)).
Qed.

Lemma NoDup_bounded_length (l : list Z) (k : Z) :
  0 <= k -> NoDup l -> (forall x, x ∈ l -> 0 <= x < k) ->
  Z.of_nat (length l) <= k.
Proof.
  intros Hk Hnd Hl.
  assert (Hs : l ⊆+ seqZ 0 k).
  { apply NoDup_submseteq; [exact Hnd|]. intros x Hx.
    apply elem_of_seqZ. specialize (Hl x Hx). lia. }
  apply submseteq_length in Hs. rewrite length_seqZ in Hs. lia.
Qed.

Section Labels.

Context {U : Type} `{UnionFind U}.

Variable m : TorusMesh.
Hypothesis Hneib : forall s, s ∈ cp m 1 ->
  (exists a b, get_min_neib_msgraph m s = Ok [a; b]) /\
  (exists c d, get_max_neib_msgraph m s = Ok [c; d]).
Hypothesis Hadj : adj_in (msgraph m) (cr_id m).
Hypothesis Hcells : forall c, c ∈ cr_id m -> c ∈ cr_cells m.

(** The labelling loop returns, with one sign for every critical cell. *)
Lemma labels_return (l : list (nat * Z)) :
  Forall (fun p : nat * Z => p.2 ∈ cr_cells m) l ->
  forall s : U * list bool,
    exists lab,
      foldl (label_cell m) (Ok s) l = Ok lab /\
      length lab.2 = (length s.2 + length l)%nat.
Proof using Hneib Hadj Hcells.
  induction 1 as [|[i c] l Hc _ IH]; intros s; cbn [foldl].
  - exists s. split; [reflexivity|]. simpl. lia.
  - assert (E : exists s', label_cell m (Ok s) (i, c) = Ok s' /\
                  length s'.2 = S (length s.2)).
    { unfold label_cell. cbn [mbind result_bind fst snd] in *.
      destruct (dim (grid m) c =? 0) eqn:E0.
      { eexists. split; [reflexivity|]. cbn [snd].
        rewrite length_app. simpl. lia. }
      destruct (dim (grid m) c =? 1) eqn:E1.
      2:{ eexists. split; [reflexivity|]. cbn [snd].
          rewrite length_app. simpl. lia. }
      apply Z.eqb_eq in E1.
      assert (Hcp : c ∈ cp m 1).
      { unfold cp. apply list_elem_of_In, filter_In.
        split; [apply list_elem_of_In; exact Hc|apply Z.eqb_eq; exact E1]. }
      destruct (Hneib c Hcp) as [(a & b & Emin) _].
      pose proof (get_neib_critical 0 m c [a; b] Hadj Emin) as Hab.
      rewrite Emin. cbn [mbind result_bind].
      change (index [a; b] 0) with (Ok (A := Z) a).
      change (index [a; b] 1) with (Ok (A := Z) b).
      cbn [mbind result_bind].
      apply Forall_cons in Hab as [Ha Hb].
      apply Forall_cons in Hb as [Hb _].
      destruct (idx_of_returns m a (Hcells a Ha)) as (ja & -> & _).
      destruct (idx_of_returns m b (Hcells b Hb)) as (jb & -> & _).
      cbn [mbind result_bind].
      destruct (uf_find (uf_makeset s.1 i) ja) as [r0 uf1].
      destruct (uf_find uf1 jb) as [r1 uf2].
      eexists. split; [reflexivity|]. cbn [snd].
      rewrite length_app. simpl. lia. }
    destruct E as (s' & -> & Hl). destruct (IH s') as (lab & El & Hlab).
    exists lab. split; [exact El|]. rewrite Hlab, Hl. simpl. lia.
Qed.

(** [cmp_persistent_pairs] returns on a complex in which every saddle has
    two minima and two maxima as neighbours. *)
Lemma persistent_pairs_return (fuel : nat) :
  (2 * length (cr_cells m) + 2 < fuel)%nat ->
  exists m', cmp_persistent_pairs fuel m = Ok m'.
Proof using Hneib Hadj Hcells.
  intros Hfuel. unfold cmp_persistent_pairs.
  set (n := length (cr_cells m)).
  destruct (labels_return (imap (fun i c => (i, c)) (cr_cells m))
              (imap_cells (cr_cells m) (fun c => c ∈ cr_cells m)
                 (fun c Hc => Hc) (fun i => i))
              (uf_new n, []))
    as (lab & -> & Hlab).
  cbn [mbind result_bind]. rewrite length_imap in Hlab. simpl in Hlab.
  assert (Hseq : Forall (fun i => (i < n)%nat) (seq 0 n)).
  { apply Forall_forall. intros i Hi. apply elem_of_seq in Hi. lia. }
  destruct (passes_forward m Hneib Hadj Hcells fuel Hfuel lab.2 Hlab
              (seq 0 n) Hseq (replicate n false, replicate n None, []))
    as (st1 & E1 & HJ1).
  { unfold reducing. cbn [fst snd]. rewrite !length_replicate.
    split; [reflexivity|]. split; [reflexivity|]. split; [|split].
    - intros j Hj. apply lookup_replicate in Hj as [Hj _]. discriminate.
    - intros s cs b _ _ Hs. apply lookup_replicate in Hs as [Hs _].
      discriminate.
    - intros s cs Hs _. apply lookup_replicate. split; [reflexivity|].
      eapply lookup_lt_Some. exact Hs. }
  unfold pstate in *. rewrite E1. cbn [mbind result_bind].
  destruct HJ1 as (_ & Ly1 & _ & _ & Hfro).
  destruct (passes_backward m Hneib Hadj Hcells fuel Hfuel lab.2 Hlab
              (reverse (seq 0 n))
              ltac:(apply Forall_reverse; exact Hseq)
              (replicate n false, st1.1.2, st1.2))
    as (st2 & E2 & _).
  { unfold reducing. cbn [fst snd]. rewrite length_replicate.
    split; [reflexivity|]. split; [exact Ly1|]. split; [|split].
    - intros j Hj. apply lookup_replicate in Hj as [Hj _]. discriminate.
    - intros s cs b Hs Hd Hb. rewrite (Hfro s cs Hs Hd) in Hb.
      discriminate.
    - intros s cs _ Hd. destruct (dim_range (grid m) cs) as [?|[?|?]]; lia. }
  unfold pstate in *. rewrite E2. cbn [mbind result_bind]. eauto.
Qed.

End Labels.

(** X22: on a field with at least two rows and two columns and pairwise
    distinct values [build_all] returns (the union-find is the one of the
    model), and the complex it has built is one that a cancellation can
    start from: the gradient is an involution, no critical cell is paired,
    every arc is a gradient path between critical cells that passes no cell
    twice, and every saddle has four arcs, two neighbours that are minima
    and two that are maxima. *)
Theorem build_all_returns (fuel : nat) (lx ly : Z) (field : Z -> Z -> Z)
    (threads_num : Z) :
  2 <= lx -> 2 <= ly -> distinct_values (new_mesh lx ly field) ->
  0 < threads_num -> (100 <= fuel)%nat ->
  (8 * Z.to_nat (lx * ly) + 4 <= fuel)%nat ->
  exists m,
    build_all fuel lx ly field threads_num = Ok m /\
    ms_complex m /\
    forall s, s ∈ cp m 1 ->
      (exists l, dict_get (arcs m) s = Some l /\ saddle_arcs m s l) /\
      (exists a b, get_min_neib_msgraph m s = Ok [a; b]) /\
      (exists c d, get_max_neib_msgraph m s = Ok [c; d]).
Proof.
  intros H2X H2Y Hd Ht Hfuel Hfuel'.
  set (m0 := new_mesh lx ly field).
  assert (EN : size (grid m0) = lx * ly) by reflexivity.
  destruct (complex_built fuel fuel fuel m0 threads_num H2X H2Y Hd Ht Hfuel)
    as (m1 & m2 & m3 & E1 & E2 & E3 & Hk & Hms & Hs).
  { rewrite EN. lia. }
  { rewrite EN. lia. }
  destruct (gradient_built fuel m0 threads_num ltac:(simpl; lia)
              ltac:(simpl; lia) Ht Hfuel)
    as (m1' & E1' & Hf & Hsd).
  rewrite E1 in E1'. injection E1' as <-.
  destruct Hk as (Eg3 & EV3 & Ec3 & El3 & EG3).
  destruct (cmp_msgraph_keeps _ _ _ E2) as (Eg2 & El2 & EV2 & Ec2 & _).
  destruct (sd_cells _ _ _ _ Hsd) as [Hnd Hcells].
  assert (Hadj : adj_in (msgraph m3) (cr_id m3)).
  { rewrite EG3, Ec3, <- Ec2.
    apply (cmp_msgraph_adj fuel m1 m2); [|exact E2].
    intros c Hc. apply Hcells. exact Hc. }
  assert (Hcells3 : forall c, c ∈ cr_id m3 -> c ∈ cr_cells m3).
  { intros c Hc. rewrite El3. apply Hcells. rewrite <- Ec3. exact Hc. }
  assert (Hlen : Z.of_nat (length (cr_cells m3)) <= 4 * (lx * ly)).
  { rewrite El3, <- EN. apply NoDup_bounded_length; [lia|exact Hnd|].
    intros c Hc. apply Hcells in Hc.
    apply (built_range m0 m1 H2X H2Y Hsd).
    apply is_unpaired_false. auto. }
  destruct (persistent_pairs_return (U := RankedUnionFind.t) m3
              (fun s Hs3 => proj2 (Hs s Hs3)) Hadj Hcells3 fuel ltac:(lia))
    as (m4 & E4).
  exists m4. split.
  { unfold build_all. fold m0. rewrite E1. cbn [mbind result_bind].
    rewrite E2. cbn [mbind result_bind]. rewrite E3. exact E4. }
  destruct (persistent_pairs_carry _ _ _ E4) as (pairs & -> & _).
  set (pp := sort_by (fun x y : Z * Z * Z => y.2 <? x.2) pairs).
  split.
  - destruct Hms as [Hinv Hex Harcs].
    split; [exact Hinv|exact Hex|].
    change (Forall (fun arc => is_separatrix (with_ppairs m3 pp) arc = true)
              (list_arcs m3)).
    eapply Forall_impl; [exact Harcs|]. intros arc Ha.
    rewrite <- (is_separatrix_ext m3 (with_ppairs m3 pp) arc); auto.
  - intros s Hs3. destruct (Hs s Hs3) as ((l & El & Hl) & Hmin & Hmax).
    split; [|split; [exact Hmin|exact Hmax]].
    exists l. split; [exact El|].
    apply (saddle_arcs_ext m3 (with_ppairs m3 pp) s l); auto.
Qed.

Lemma build_all_returns_witness :
  exists m,
    build_all 100 3 4 test_field 8 = Ok m /\
    ms_complex m /\
    forall s, s ∈ cp m 1 ->
      (exists l, dict_get (arcs m) s = Some l /\ saddle_arcs m s l) /\
      (exists a b, get_min_neib_msgraph m s = Ok [a; b]) /\
      (exists c d, get_max_neib_msgraph m s = Ok [c; d]).
Proof.
  apply (build_all_returns 100 3 4 test_field 8);
    [lia | lia | apply test_field_distinct | lia | lia | vm_compute; lia].
Defined.

(** X25: the neighbours that [cmp_msgraph] gives a saddle are critical
    cells: when [get_min_neib_msgraph] or [get_max_neib_msgraph] returns
    after [cmp_msgraph], on a mesh whose [cr_cells] are all marked in
    [cr_id], it returns two cells marked in [cr_id], of dimension 0 for the
    minima and of dimension 2 for the maxima. *)
Theorem msgraph_neighbours_critical (fuel : nat) (m m' : TorusMesh)
    (s : Z) (ns : list Z) :
  (forall c, c ∈ cr_cells m -> c ∈ cr_id m) ->
  cmp_msgraph fuel m = Ok m' ->
  (get_min_neib_msgraph m' s = Ok ns ->
   length ns = 2%nat /\
   Forall (fun n => n ∈ cr_id m' /\ dim (grid m') n = 0) ns) /\
  (get_max_neib_msgraph m' s = Ok ns ->
   length ns = 2%nat /\
   Forall (fun n => n ∈ cr_id m' /\ dim (grid m') n = 2) ns).
Proof.
  intros Hcells Hm.
  pose proof (cmp_msgraph_adj fuel m m' Hcells Hm) as Hadj.
  assert (Hgen : forall d, get_neib_msgraph d m' s = Ok ns ->
            length ns = 2%nat /\
            Forall (fun n => n ∈ cr_id m' /\ dim (grid m') n = d) ns).
  { intros d Hn. split.
    - unfold get_neib_msgraph in Hn.
      destruct (negb (dim (grid m') s =? 1)); [discriminate|].
      bind_as Hn es Hes.
      destruct (Nat.eqb_spec
                  (length (List.map snd
                             (List.filter
                                (fun e : Z * Z => dim (grid m') e.2 =? d)
                                es))) 2) as [E|E]; simpl in Hn;
        [|discriminate].
      injection Hn as <-. exact E.
    - apply Forall_forall. intros n Hin.
      pose proof (get_neib_critical d m' s ns Hadj Hn) as H1.
      pose proof (get_neib_dim d m' s ns Hn) as H2.
      rewrite Forall_forall in H1, H2. auto. }
  split; apply Hgen.
Qed.

Lemma msgraph_neighbours_critical_witness :
  exists m m',
    cmp_discrete_gradient 100 (new_mesh 3 4 test_field) 8 = Ok m /\
    cmp_msgraph 25 m = Ok m' /\
    get_min_neib_msgraph m' 29 = Ok [5; 6] /\
    (get_min_neib_msgraph m' 29 = Ok [5; 6] ->
     length [5; 6] = 2%nat /\
     Forall (fun n => n ∈ cr_id m' /\ dim (grid m') n = 0) [5; 6]) /\
    (get_max_neib_msgraph m' 29 = Ok [5; 6] ->
     length [5; 6] = 2%nat /\
     Forall (fun n => n ∈ cr_id m' /\ dim (grid m') n = 2) [5; 6]).
Proof.
  eexists. eexists. split; [vm_compute; reflexivity|].
  match goal with
  | |- ?run = Ok ?r /\ _ => assert (E : run = Ok r) by (vm_compute; reflexivity)
  end.
  split; [exact E|]. split; [vm_compute; reflexivity|].
  eapply (msgraph_neighbours_critical 25 _ _ 29 [5; 6]); [|exact E].
  intros c Hc.
  match goal with
  | |- ?P => apply (bool_decide_unpack P)
  end.
  revert c Hc. apply Forall_forall.
  match goal with
  | |- ?P => apply (bool_decide_unpack P)
  end.
  vm_compute. exact I.
Defined.
